(** * STRUMPACK: dense multifrontal fronts, HSS kernel compression,
      kernel oracle and leaf-range partition

    A shallow embedding of the parts of the STRUMPACK sources that the
    specification talks about:

    - [FrontalMatrixDense::extend_add_to_dense] and
      [FrontalMatrixDense::factor_phase2] (FrontalMatrixDense.hpp, carried
      inside [runYang_Formula.sh]);
    - the [HSSMatrix(m, n, opts)] constructor and [HSSMatrix::dense_recursive]
      (src/HSS/HSSMatrix.hpp);
    - [compress_recursive_ann], [compute_local_samples_ann] and
      [compute_U_V_bases_ann], in the two copies of
      HSSMatrix.compress.kernel.hpp (the one under src/HSS and the one carried
      inside [runYang_Formula.sh]);
    - [Kernel::eval] and [Kernel::operator()] (src/kernel/KernelRegression.hpp);
    - [getLeafsRange] (src/clustering/NeighborSearch_MPI.hpp).

    Scalars ([scalar_t]) are an interface with a real instance over [Q] and
    a complex one over pairs of rationals; real values ([real_t]) are exact
    rationals.  Indices are [Z] with the
    wrap-around of [std::size_t] and [int] written out. *)

From Stdlib Require Import ZArith QArith Qabs Qcanon List Finite Sorted Bool.
From Stdlib Require Import Permutation.
From Stdlib Require Import Lia Lqa.
From Stdlib Require String Ascii.
Import ListNotations.
Import String.StringSyntax.
Delimit Scope string_scope with string.

Local Open Scope Z_scope.

Set Warnings "-register-all".

(* ===================================================================== *)
(** * Part 1: the model                                                  *)
(* ===================================================================== *)

(** ** Machine integers *)

Definition INT_MAX : Z := 2 ^ 31 - 1.
Definition INT_MIN : Z := - 2 ^ 31.
Definition SIZE_MAX : Z := 2 ^ 64 - 1.

(** Conversion to [int]: two's complement wrap-around on 32 bits. *)
Definition wrap_int (z : Z) : Z := (z + 2 ^ 31) mod 2 ^ 32 - 2 ^ 31.

(** Conversion to [std::size_t]: reduction modulo [2^64]. *)
Definition wrap_size (z : Z) : Z := z mod 2 ^ 64.

Definition int_add (a b : Z) : Z := wrap_int (a + b).
Definition int_sub (a b : Z) : Z := wrap_int (a - b).
Definition int_mul (a b : Z) : Z := wrap_int (a * b).
(** C++ integer division and remainder truncate towards zero. *)
Definition int_div (a b : Z) : Z := wrap_int (Z.quot a b).
Definition int_rem (a b : Z) : Z := wrap_int (Z.rem a b).

Definition size_add (a b : Z) : Z := wrap_size (a + b).
Definition size_sub (a b : Z) : Z := wrap_size (a - b).

Definition in_int (z : Z) : Prop := INT_MIN <= z <= INT_MAX.
Definition in_size (z : Z) : Prop := 0 <= z <= SIZE_MAX.

(** [v[i]] on a [std::vector<std::size_t>]; reading past the end is
    undefined in C++, the model reads 0 there. *)
Definition vec_at (v : list Z) (i : Z) : Z := nth (Z.to_nat i) v 0.

Definition vec_size {A : Type} (v : list A) : Z := Z.of_nat (length v).

(** The index sequence [lo, lo+1, ..., hi-1] of a
    [for (std::size_t k = lo; k < hi; k++)] loop. *)
Definition range (lo hi : Z) : list Z :=
  map (fun k => lo + Z.of_nat k) (seq 0 (Z.to_nat (hi - lo))).

(** A [for] loop over [std::size_t] indices threading a state. *)
Definition for_range {St : Type} (lo hi : Z) (body : Z -> St -> St) (st : St)
  : St :=
  fold_left (fun s k => body k s) (range lo hi) st.

(** ** Scalars *)

Definition Qlt_bool (x y : Q) : bool := negb (Qle_bool y x).

(** The operations the sources use on [scalar_t] ([float], [double] and
    their [std::complex] versions), with [real_t] read as [Q]:
    [sabs_lt x t] is [std::abs(x) < t], [sreal] is [std::real], [of_real]
    the conversion of a [real_t] to [scalar_t] and [sconj] the conjugation
    that [Trans::C] applies, [sis_zero] the test [x == scalar_t(0.)].  The
    laws are the ones the proofs use; they hold in exact arithmetic. *)
Class Scalar : Type := {
  scalar : Type;
  szero : scalar;
  sone : scalar;
  sadd : scalar -> scalar -> scalar;
  smul : scalar -> scalar -> scalar;
  sopp : scalar -> scalar;
  sconj : scalar -> scalar;
  sreal : scalar -> Q;
  of_real : Q -> scalar;
  sabs_lt : scalar -> Q -> bool;
  sis_zero : scalar -> bool;
  sadd_0_r : forall x, sadd x szero = x;
  smul_1_l : forall x, smul sone x = x;
  sabs_lt_of_real : forall q t, sabs_lt (of_real q) t = Qlt_bool (Qabs q) t;
  sis_zero_szero : sis_zero szero = true;
  sis_zero_sone : sis_zero sone = false
}.

Lemma Qplus_0_r_eq (x : Q) : Qplus x 0 = x.
Proof.
  destruct x as [a b]. unfold Qplus. simpl.
  rewrite Z.mul_1_r, Z.add_0_r, Pos.mul_1_r. reflexivity.
Qed.

Lemma Qmult_1_l_eq (x : Q) : Qmult 1 x = x.
Proof.
  destruct x as [a b]. unfold Qmult. simpl.
  destruct a; reflexivity.
Qed.

(** Real scalars ([float], [double]) in exact arithmetic. *)
#[export] Instance Q_scalar : Scalar := {|
  scalar := Q;
  szero := 0%Q;
  sone := 1%Q;
  sadd := Qplus;
  smul := Qmult;
  sopp := Qopp;
  sconj := fun x => x;
  sreal := fun x => x;
  of_real := fun q => q;
  sabs_lt := fun x t => Qlt_bool (Qabs x) t;
  sis_zero := fun x => Qeq_bool x 0;
  sadd_0_r := Qplus_0_r_eq;
  smul_1_l := Qmult_1_l_eq;
  sabs_lt_of_real := fun q t => eq_refl;
  sis_zero_szero := eq_refl;
  sis_zero_sone := eq_refl
|}.

(** Complex scalars ([std::complex<float>], [std::complex<double>]) in
    exact arithmetic: a real and an imaginary part, each a rational in
    lowest terms.  [std::abs(x) < t] is [0 < t] and [re^2 + im^2 < t^2]. *)
Definition Cplx : Type := (Qc * Qc)%type.

Definition Cadd (x y : Cplx) : Cplx :=
  ((fst x + fst y)%Qc, (snd x + snd y)%Qc).

Definition Cmul (x y : Cplx) : Cplx :=
  ((fst x * fst y - snd x * snd y)%Qc, (fst x * snd y + snd x * fst y)%Qc).

Definition Copp (x : Cplx) : Cplx := ((- fst x)%Qc, (- snd x)%Qc).

Definition Cconj (x : Cplx) : Cplx := (fst x, (- snd x)%Qc).

Definition Cof_real (q : Q) : Cplx := (Q2Qc q, 0%Qc).

Definition Cabs_lt (x : Cplx) (t : Q) : bool :=
  Qlt_bool 0 t
  && Qlt_bool (this (fst x) * this (fst x) + this (snd x) * this (snd x))
       (t * t).

Definition Cis_zero (x : Cplx) : bool :=
  Qeq_bool (this (fst x)) 0 && Qeq_bool (this (snd x)) 0.

Lemma Cadd_0_r (x : Cplx) : Cadd x (0%Qc, 0%Qc) = x.
Proof. destruct x as [a b]. unfold Cadd. cbn [fst snd]. f_equal; ring. Qed.

Lemma Cmul_1_l (x : Cplx) : Cmul (1%Qc, 0%Qc) x = x.
Proof. destruct x as [a b]. unfold Cmul. cbn [fst snd]. f_equal; ring. Qed.

Lemma Qlt_bool_iff (x y : Q) : Qlt_bool x y = true <-> (x < y)%Q.
Proof.
  unfold Qlt_bool. rewrite negb_true_iff. split.
  - intros H. apply Qnot_le_lt. intros Hle.
    apply Qle_bool_iff in Hle. congruence.
  - intros H. destruct (Qle_bool y x) eqn:Hle; [|reflexivity].
    apply Qle_bool_iff in Hle. exfalso. apply (Qlt_not_le _ _ H Hle).
Qed.

Lemma Cabs_lt_of_real (q t : Q) :
  Cabs_lt (Cof_real q) t = Qlt_bool (Qabs q) t.
Proof.
  apply eq_true_iff_eq. unfold Cabs_lt, Cof_real. cbn [fst snd].
  rewrite andb_true_iff, !Qlt_bool_iff.
  change (this (Q2Qc q)) with (Qred q). change (this 0%Qc) with 0%Q.
  assert (Hq : (Qred q == q)%Q) by apply Qred_correct.
  rewrite Hq. clear Hq.
  split.
  - intros [Ht Hs]. apply Qabs_case; intros Hc; nra.
  - revert t.
    apply (Qabs_case q
             (fun a => forall t, (a < t)%Q ->
                                 (0 < t)%Q /\ (q * q + 0 * 0 < t * t)%Q));
      intros Hc t Hlt; split; nra.
Qed.

#[export] Instance C_scalar : Scalar | 10 := {|
  scalar := Cplx;
  szero := (0%Qc, 0%Qc);
  sone := (1%Qc, 0%Qc);
  sadd := Cadd;
  smul := Cmul;
  sopp := Copp;
  sconj := Cconj;
  sreal := fun x => this (fst x);
  of_real := Cof_real;
  sabs_lt := Cabs_lt;
  sis_zero := Cis_zero;
  sadd_0_r := Cadd_0_r;
  smul_1_l := Cmul_1_l;
  sabs_lt_of_real := Cabs_lt_of_real;
  sis_zero_szero := eq_refl;
  sis_zero_sone := eq_refl
|}.

(** ** Dense matrices *)

(** [DenseMatrix<T>] (dense/DenseMatrix.hpp is not part of the sources at
    hand): a number of rows and columns and the entries [A(i,j)].  The
    column-major storage is abstracted to a function of the two indices. *)
Record DenseMatrix (T : Type) : Type := mkDenseMatrix {
  rows : Z;
  cols : Z;
  elt : Z -> Z -> T
}.

Arguments mkDenseMatrix {T} _ _ _.
Arguments rows {T} _.
Arguments cols {T} _.
Arguments elt {T} _ _ _.

(** [DenseM_t = DenseMatrix<scalar_t>]. *)
Abbreviation DenseM := (DenseMatrix scalar).
Abbreviation mkDenseM := (@mkDenseMatrix scalar).

Section Dense.
Context {S : Scalar}.

(** [A(i,j) = x]. *)
Definition mset (A : DenseM) (i j : Z) (x : scalar) : DenseM :=
  mkDenseM (rows A) (cols A)
    (fun i' j' => if (i' =? i) && (j' =? j) then x else elt A i' j').

(** [A(i,j) += x]. *)
Definition madd_at (A : DenseM) (i j : Z) (x : scalar) : DenseM :=
  mset A i j (sadd (elt A i j) x).

(** [A.zero()]. *)
Definition mzero (A : DenseM) : DenseM :=
  mkDenseM (rows A) (cols A) (fun _ _ => szero).

(** [A.clear()]: the storage is released, the matrix becomes 0 x 0. *)
Definition mclear (A : DenseM) : DenseM :=
  mkDenseM 0 0 (fun _ _ => szero).

(** [A.transpose()]. *)
Definition mtranspose (A : DenseM) : DenseM :=
  mkDenseM (cols A) (rows A) (fun i j => elt A j i).

(** [DenseMatrixWrapper(m, n, A, i0, j0)]: the m x n view of [A] whose
    entry (0,0) is [A(i0,j0)]; reading through the view. *)
Definition mview (m n : Z) (A : DenseM) (i0 j0 : Z) : DenseM :=
  mkDenseM m n (fun i j => elt A (i0 + i) (j0 + j)).

(** Writing the m x n block [B] through the view at [(i0,j0)] of [A]. *)
Definition mwrite_block (A : DenseM) (i0 j0 : Z) (B : DenseM) : DenseM :=
  mkDenseM (rows A) (cols A)
    (fun i j =>
       if (i0 <=? i) && (i <? i0 + rows B) && (j0 <=? j) && (j <? j0 + cols B)
       then elt B (i - i0) (j - j0) else elt A i j).

(** [copy(B, A, i0, j0)]: copy all of [B] into [A] at position [(i0,j0)]. *)
Definition copy (B A : DenseM) (i0 j0 : Z) : DenseM := mwrite_block A i0 j0 B.

Inductive Trans : Type := TransN | TransT | TransC.
Inductive Side : Type := SideL | SideR.
Inductive UpLo : Type := UpLoU | UpLoL.
Inductive Diag : Type := DiagU | DiagN.

(** [op(A)] of BLAS: the matrix itself, its transpose, or its conjugate
    transpose. *)
Definition op (t : Trans) (A : DenseM) : DenseM :=
  match t with
  | TransN => A
  | TransT => mtranspose A
  | TransC => mkDenseM (cols A) (rows A) (fun i j => sconj (elt A j i))
  end.

(** The inner product [sum_{l < k} A(i,l) * B(l,j)], accumulated from the
    first term in increasing [l]; the empty sum is zero. *)
Fixpoint sum_from (acc : scalar) (xs : list scalar) : scalar :=
  match xs with
  | [] => acc
  | x :: xs' => sum_from (sadd acc x) xs'
  end.

Definition ssum (xs : list scalar) : scalar :=
  match xs with
  | [] => szero
  | x :: xs' => sum_from x xs'
  end.

Definition dot (k : Z) (A B : DenseM) (i j : Z) : scalar :=
  ssum (map (fun l => smul (elt A i l) (elt B l j)) (range 0 k)).

(** The matrix product [A * B] ([rows A] x [cols B], inner dimension
    [cols A]). *)
Definition mmul (A B : DenseM) : DenseM :=
  mkDenseM (rows A) (cols B) (fun i j => dot (cols A) A B i j).

(** Modelled from the spec: [gemm] is the BLAS matrix multiply, an external
    collaborator (spec 1 and 2: "matrix multiply ... provided by an optimized
    BLAS/LAPACK-equivalent library"); the wrapper of
    dense/DenseMatrix.hpp is not part of the sources at hand.  Its contract:
    [C := alpha * op(A) * op(B) + beta * C] on the [rows C] x [cols C]
    entries of [C], and [C] is not read when [beta] is zero. *)
Definition gemm (ta tb : Trans) (alpha : scalar) (A B : DenseM)
  (beta : scalar) (C : DenseM) : DenseM :=
  let A' := op ta A in
  let B' := op tb B in
  mkDenseM (rows C) (cols C)
    (fun i j =>
       if (0 <=? i) && (i <? rows C) && (0 <=? j) && (j <? cols C) then
         let p := smul alpha (dot (cols A') A' B' i j) in
         if sis_zero beta then p else sadd p (smul beta (elt C i j))
       else elt C i j).

End Dense.

(** ** External numerical kernels *)

(** The LAPACK/BLAS routines and the interpolative decomposition that the
    sources call through dense/DenseMatrix.hpp and
    dense/BLASLAPACKWrapper.hpp; neither file is part of the sources at
    hand and the specification treats them as external collaborators.  They
    are left abstract: every theorem below holds for any implementation.
    - [uninit] is the content of freshly allocated storage, which the
      constructor [DenseMatrix(m, n)] does not initialise;
    - [LU A] is [piv = A.LU(depth)]: the factored matrix (in place in C++)
      and the pivot vector;
    - [laswp piv fwd B] is [B.laswp(piv, fwd)];
    - [trsm s ul ta d alpha A B] is the triangular solve, returning the
      overwritten [B];
    - [lamch_E] is [blas::lamch<real_t>('E')], the machine epsilon;
    - [ID_row S rtol atol max_rank] is [S.ID_row(E, P, Jr, rtol, atol,
      max_rank, depth)], returning [E], [P] and the selected rows [Jr]. *)
Class DenseLib {S : Scalar} : Type := {
  uninit : Z -> Z -> scalar;
  LU : DenseM -> DenseM * list Z;
  laswp : list Z -> bool -> DenseM -> DenseM;
  trsm : Side -> UpLo -> Trans -> Diag -> scalar -> DenseM -> DenseM -> DenseM;
  lamch_E : Q;
  lamch_E_pos : (0 < lamch_E)%Q;
  ID_row : DenseM -> Q -> Q -> Z -> DenseM * list Z * list Z
}.

(** [DenseM_t(m, n)]: an m x n matrix over uninitialised storage. *)
Definition DenseM_new {S : Scalar} {L : DenseLib} (m n : Z) : DenseM :=
  mkDenseM m n uninit.

(** ** Dense frontal matrices (FrontalMatrixDense.hpp) *)

Section Frontal.
Context {S : Scalar} {L : DenseLib}.

(** The data members of [FrontalMatrixDense] and of its base class
    [FrontalMatrix] that the two functions below touch. *)
Record FrontalMatrixDense : Type := mkFront {
  sep_begin_ : Z;
  sep_end_ : Z;
  upd_ : list Z;
  F11_ : DenseM;
  F12_ : DenseM;
  F21_ : DenseM;
  F22_ : DenseM;
  piv : list Z
}.

(** Modelled from the spec: [dim_sep()] and [dim_upd()] are members of the
    base class [FrontalMatrix] (FrontalMatrix.hpp is not part of the sources
    at hand).  Spec 3: a front has [sep_begin], [sep_end] and an [upd] list;
    F11 is [dim_sep x dim_sep], F22 is [dim_upd x dim_upd]. *)
Definition dim_sep (f : FrontalMatrixDense) : Z := sep_end_ f - sep_begin_ f.
Definition dim_upd (f : FrontalMatrixDense) : Z := vec_size (upd_ f).

(** [release_work_memory() { F22_.clear(); }] *)
Definition release_work_memory (f : FrontalMatrixDense) : FrontalMatrixDense :=
  mkFront (sep_begin_ f) (sep_end_ f) (upd_ f) (F11_ f) (F12_ f) (F21_ f)
    (mclear (F22_ f)) (piv f).

(** The four blocks of the parent front that extend-add writes to. *)
Record ParentBlocks : Type := mkBlocks {
  paF11 : DenseM;
  paF12 : DenseM;
  paF21 : DenseM;
  paF22 : DenseM
}.

(** [FrontalMatrix::upd_to_parent(p, upd2sep)] is declared in
    FrontalMatrix.hpp, which is not part of the sources at hand; it is a
    parameter of the model.  It returns the index list [I] and, through its
    reference argument, [upd2sep]. *)
Class FrontalBase : Type := {
  upd_to_parent : FrontalMatrixDense -> FrontalMatrixDense -> list Z * Z
}.

Context {FB : FrontalBase}.

(** The body of the loop over the columns [c] of the child's [F22_]. *)
Definition extend_add_column (F22 : DenseM) (I : list Z)
  (pdsep dupd upd2sep : Z) (c : Z) (pa : ParentBlocks) : ParentBlocks :=
  let pc := vec_at I c in
  if pc <? pdsep then
    let pa1 :=
      for_range 0 upd2sep
        (fun r pa => mkBlocks (madd_at (paF11 pa) (vec_at I r) pc (elt F22 r c))
                       (paF12 pa) (paF21 pa) (paF22 pa)) pa in
    for_range upd2sep dupd
      (fun r pa => mkBlocks (paF11 pa) (paF12 pa)
                     (madd_at (paF21 pa) (size_sub (vec_at I r) pdsep) pc
                        (elt F22 r c))
                     (paF22 pa)) pa1
  else
    let pa1 :=
      for_range 0 upd2sep
        (fun r pa => mkBlocks (paF11 pa)
                       (madd_at (paF12 pa) (vec_at I r) (size_sub pc pdsep)
                          (elt F22 r c))
                       (paF21 pa) (paF22 pa)) pa in
    for_range upd2sep dupd
      (fun r pa => mkBlocks (paF11 pa) (paF12 pa) (paF21 pa)
                     (madd_at (paF22 pa) (size_sub (vec_at I r) pdsep)
                        (size_sub pc pdsep) (elt F22 r c))) pa1.

(** [FrontalMatrixDense::extend_add_to_dense(paF11, paF12, paF21, paF22, p,
    task_depth)]: returns the updated parent blocks and the child, whose
    [F22_] has been released.  The OpenMP task loop is run in index order
    and the flop counters are left out. *)
Definition extend_add_to_dense (this : FrontalMatrixDense)
  (pa : ParentBlocks) (p : FrontalMatrixDense)
  : ParentBlocks * FrontalMatrixDense :=
  let pdsep := rows (paF11 pa) in
  let dupd := dim_upd this in
  let I := fst (upd_to_parent this p) in
  let upd2sep := snd (upd_to_parent this p) in
  let pa' :=
    for_range 0 dupd (extend_add_column (F22_ this) I pdsep dupd upd2sep) pa in
  (pa', release_work_memory this).

(** The end of [factor_phase1] (lines 1099-1104): the children that exist
    are extend-added into the blocks of this front, the left one first.
    Returns the blocks and the children. *)
Definition extend_add_children (this : FrontalMatrixDense)
  (lchild rchild : option FrontalMatrixDense) (pa : ParentBlocks)
  : ParentBlocks * option FrontalMatrixDense * option FrontalMatrixDense :=
  let r1 :=
    match lchild with
    | Some l =>
        let r := extend_add_to_dense l pa this in (fst r, Some (snd r))
    | None => (pa, None)
    end in
  let r2 :=
    match rchild with
    | Some c =>
        let r := extend_add_to_dense c (fst r1) this in (fst r, Some (snd r))
    | None => (fst r1, None)
    end in
  (fst r2, snd r1, snd r2).

(** The calls to numerical kernels, in the order they are made. *)
Inductive KernelCall : Type :=
| Call_LU (A : DenseM)
| Call_laswp (pv : list Z) (fwd : bool) (B : DenseM)
| Call_trsm (s : Side) (ul : UpLo) (ta : Trans) (d : Diag) (alpha : scalar)
    (A B : DenseM)
| Call_gemm (ta tb : Trans) (alpha : scalar) (A B : DenseM) (beta : scalar)
    (C : DenseM).

(** A computation that returns a value and the kernel calls it made. *)
Definition Traced (A : Type) : Type := A * list KernelCall.

Definition ret {A : Type} (a : A) : Traced A := (a, []).

Definition bind {A B : Type} (m : Traced A) (k : A -> Traced B) : Traced B :=
  let '(a, t1) := m in
  let '(b, t2) := k a in
  (b, t1 ++ t2).

Notation "x <- m ;; k" := (bind m (fun x => k))
  (at level 61, m at next level, right associativity).

Definition do_LU (A : DenseM) : Traced (DenseM * list Z) :=
  (LU A, [Call_LU A]).

Definition do_laswp (pv : list Z) (fwd : bool) (B : DenseM) : Traced DenseM :=
  (laswp pv fwd B, [Call_laswp pv fwd B]).

Definition do_trsm (s : Side) (ul : UpLo) (ta : Trans) (d : Diag)
  (alpha : scalar) (A B : DenseM) : Traced DenseM :=
  (trsm s ul ta d alpha A B, [Call_trsm s ul ta d alpha A B]).

Definition do_gemm (ta tb : Trans) (alpha : scalar) (A B : DenseM)
  (beta : scalar) (C : DenseM) : Traced DenseM :=
  (gemm ta tb alpha A B beta C, [Call_gemm ta tb alpha A B beta C]).

(** [A.size()] converted to [real_t]. *)
Definition real_of_size (n : Z) : Q := inject_Z n.

(** The loop of [factor_phase2] that replaces tiny pivots:
    [if (std::abs(F11_(i,i)) < thresh)
       F11_(i,i) = (std::real(F11_(i,i)) < 0) ? -thresh : thresh;] *)
Definition replace_tiny_pivot (thresh : Q) (i : Z) (F11 : DenseM) : DenseM :=
  if sabs_lt (elt F11 i i) thresh then
    mset F11 i i
      (if Qlt_bool (sreal (elt F11 i i)) 0 then of_real (- thresh)%Q
       else of_real thresh)
  else F11.

Definition replace_tiny_pivots_loop (thresh : Q) (F11 : DenseM) : DenseM :=
  for_range 0 (rows F11) (replace_tiny_pivot thresh) F11.

(** [FrontalMatrixDense::factor_phase2(A, opts, etree_level, task_depth)],
    with [A_size = A.size()] and [replace_tiny_pivots =
    opts.replace_tiny_pivots()].  The flop counters are left out. *)
Definition factor_phase2 (A_size : Z) (replace_tiny_pivots : bool)
  (this : FrontalMatrixDense) : Traced FrontalMatrixDense :=
  if negb (dim_sep this =? 0) then
    lu <- do_LU (F11_ this) ;;
    let F11a := fst lu in
    let pv := snd lu in
    let F11b :=
      if replace_tiny_pivots then
        let thresh := (lamch_E * real_of_size A_size)%Q in
        replace_tiny_pivots_loop thresh F11a
      else F11a in
    if negb (dim_upd this =? 0) then
      F12a <- do_laswp pv true (F12_ this) ;;
      F12b <- do_trsm SideL UpLoL TransN DiagU sone F11b F12a ;;
      F21b <- do_trsm SideR UpLoU TransN DiagN sone F11b (F21_ this) ;;
      F22b <- do_gemm TransN TransN (sopp sone) F21b F12b sone (F22_ this) ;;
      ret (mkFront (sep_begin_ this) (sep_end_ this) (upd_ this)
             F11b F12b F21b F22b pv)
    else
      ret (mkFront (sep_begin_ this) (sep_end_ this) (upd_ this)
             F11b (F12_ this) (F21_ this) (F22_ this) pv)
  else ret this.

End Frontal.

(** ** HSS matrices (HSS/HSSMatrix.hpp) *)

(** Modelled from the spec: the enumeration [State] is declared in
    HSS/HSSMatrixBase.hpp, which is not part of the sources at hand.  Spec 3:
    "State per node: {UNTOUCHED, PARTIALLY_COMPRESSED, COMPRESSED}". *)
Inductive State : Type := UNTOUCHED | PARTIALLY_COMPRESSED | COMPRESSED.

Definition State_eqb (a b : State) : bool :=
  match a, b with
  | UNTOUCHED, UNTOUCHED => true
  | PARTIALLY_COMPRESSED, PARTIALLY_COMPRESSED => true
  | COMPRESSED, COMPRESSED => true
  | _, _ => false
  end.

(** The options read by the code at hand (HSS/HSSOptions.hpp is not part of
    the sources): [rel_tol()], [abs_tol()], [leaf_size()], [dd()], [p()] and
    [max_rank()]; the last four are [int]. *)
Record HSSOptions : Type := mkOpts {
  rel_tol : Q;
  abs_tol : Q;
  leaf_size : Z;
  opts_dd : Z;
  opts_p : Z;
  max_rank : Z
}.

Section HSS.
Context {S : Scalar} {L : DenseLib}.

(** A default-constructed [DenseMatrix]: 0 x 0. *)
Definition DenseM_empty : DenseM := mkDenseM 0 0 (fun _ _ => szero).

(** [HSSBasisID]: the interpolation matrix [E] and the permutation [P]. *)
Record HSSBasisID : Type := mkBasis {
  E_ : DenseM;
  P_ : list Z
}.

(** [HSSBasisID::dense()], [rows()] and [cols()] are declared in
    HSS/HSSBasisID.hpp, which is not part of the sources at hand; they are
    parameters of the model. *)
Class HSSBasisLib : Type := {
  basis_dense : HSSBasisID -> DenseM;
  basis_rows : HSSBasisID -> Z;
  basis_cols : HSSBasisID -> Z
}.

Context {BL : HSSBasisLib}.

(** The data members of one [HSSMatrix] node (those of [HSSMatrixBase]
    included). *)
Record HSSNode : Type := mkNode {
  _rows : Z;
  _cols : Z;
  _active : bool;
  _U_state : State;
  _V_state : State;
  _U_rank : Z;
  _U_rows : Z;
  _V_rank : Z;
  _V_rows : Z;
  _U : HSSBasisID;
  _V : HSSBasisID;
  _D : DenseM;
  _B01 : DenseM;
  _B10 : DenseM
}.

(** An [HSSMatrix]: the vector of children [_ch] is empty (a leaf) or holds
    exactly two children. *)
Inductive HSSMatrix : Type :=
| Leaf (d : HSSNode)
| Node (d : HSSNode) (ch0 ch1 : HSSMatrix).

Definition node_data (h : HSSMatrix) : HSSNode :=
  match h with
  | Leaf d => d
  | Node d _ _ => d
  end.

Definition leaf (h : HSSMatrix) : bool :=
  match h with
  | Leaf _ => true
  | Node _ _ _ => false
  end.

(** Modelled from the spec: the accessors of [HSSMatrixBase]
    (HSS/HSSMatrixBase.hpp is not part of the sources at hand).  Spec 3 and
    7: a node carries the state flags; "compressed" and "untouched" are read
    off both of them. *)
Definition is_compressed (d : HSSNode) : bool :=
  State_eqb (_U_state d) COMPRESSED && State_eqb (_V_state d) COMPRESSED.

Definition is_untouched (d : HSSNode) : bool :=
  State_eqb (_U_state d) UNTOUCHED && State_eqb (_V_state d) UNTOUCHED.

Definition dims (d : HSSNode) : Z * Z := (_rows d, _cols d).

(** [operator+] on [std::pair<std::size_t,std::size_t>]. *)
Definition pair_add (a b : Z * Z) : Z * Z :=
  (size_add (fst a) (fst b), size_add (snd a) (snd b)).

Definition set_D (d : HSSNode) (D : DenseM) : HSSNode :=
  mkNode (_rows d) (_cols d) (_active d) (_U_state d) (_V_state d)
    (_U_rank d) (_U_rows d) (_V_rank d) (_V_rows d) (_U d) (_V d)
    D (_B01 d) (_B10 d).

Definition set_B (d : HSSNode) (B01 B10 : DenseM) : HSSNode :=
  mkNode (_rows d) (_cols d) (_active d) (_U_state d) (_V_state d)
    (_U_rank d) (_U_rows d) (_V_rank d) (_V_rows d) (_U d) (_V d)
    (_D d) B01 B10.

Definition set_states (d : HSSNode) (s : State) : HSSNode :=
  mkNode (_rows d) (_cols d) (_active d) s s
    (_U_rank d) (_U_rows d) (_V_rank d) (_V_rows d) (_U d) (_V d)
    (_D d) (_B01 d) (_B10 d).

Definition set_UV (d : HSSNode) (U V : HSSBasisID) : HSSNode :=
  mkNode (_rows d) (_cols d) (_active d) (_U_state d) (_V_state d)
    (_U_rank d) (_U_rows d) (_V_rank d) (_V_rows d) U V
    (_D d) (_B01 d) (_B10 d).

Definition set_ranks (d : HSSNode) (ur urows vr vrows : Z) : HSSNode :=
  mkNode (_rows d) (_cols d) (_active d) (_U_state d) (_V_state d)
    ur urows vr vrows (_U d) (_V d) (_D d) (_B01 d) (_B10 d).

(** Modelled from the spec: the constructor [HSSMatrixBase(m, n, active)]
    (HSS/HSSMatrixBase.hpp is not part of the sources at hand) records the
    dimensions and starts in the first state of spec 3, [UNTOUCHED]; the
    other members are default-constructed. *)
Definition HSSMatrixBase (m n : Z) (active : bool) : HSSNode :=
  mkNode m n active UNTOUCHED UNTOUCHED 0 0 0 0
    (mkBasis DenseM_empty []) (mkBasis DenseM_empty [])
    DenseM_empty DenseM_empty DenseM_empty.

(** [HSSMatrix(m, n, opts, active)] (HSSMatrix.hpp:212-223).  The C++
    constructor recurses without a bound; the model carries a recursion
    budget and returns [None] when it is exhausted. *)
Fixpoint HSSMatrix_ctor (fuel : nat) (m n : Z) (opts : HSSOptions)
  (active : bool) : option HSSMatrix :=
  match fuel with
  | O => None
  | Datatypes.S fuel' =>
      if negb active then Some (Leaf (HSSMatrixBase m n active))
      else if (m >? wrap_size (leaf_size opts))
              || (n >? wrap_size (leaf_size opts)) then
        match HSSMatrix_ctor fuel' (m / 2) (n / 2) opts true with
        | None => None
        | Some c0 =>
            match HSSMatrix_ctor fuel' (size_sub m (m / 2))
                    (size_sub n (n / 2)) opts true with
            | None => None
            | Some c1 => Some (Node (HSSMatrixBase m n active) c0 c1)
            end
        end
      else Some (Leaf (HSSMatrixBase m n active))
  end.

(** [WorkDense]: the offset of the node's block and the aggregated
    generators handed to the parent. *)
Inductive WorkDense : Type := mkWorkDense {
  wd_offset : Z * Z;
  wd_tmpU : DenseM;
  wd_tmpV : DenseM;
  wd_c : list WorkDense
}.

Definition WorkDense_default : WorkDense :=
  mkWorkDense (0, 0) DenseM_empty DenseM_empty [].

(** [w.c.resize(2)]. *)
Definition resize2 {A : Type} (dflt : A) (c : list A) : list A :=
  match c with
  | [] => [dflt; dflt]
  | [a] => [a; dflt]
  | a :: b :: _ => [a; b]
  end.

Definition wd_with_offset (w : WorkDense) (o : Z * Z) : WorkDense :=
  mkWorkDense o (wd_tmpU w) (wd_tmpV w) (wd_c w).

Definition wd_clear_tmp (w : WorkDense) : WorkDense :=
  mkWorkDense (wd_offset w) (mclear (wd_tmpU w)) (mclear (wd_tmpV w)) (wd_c w).

(** [gemm(ta, tb, alpha, A, B, beta, C)] where [C] is the [m x n] view of
    [M] at [(i0, j0)]: the product is written into [M] through the view. *)
Definition gemm_into (ta tb : Trans) (alpha : scalar) (A B : DenseM)
  (beta : scalar) (m n : Z) (M : DenseM) (i0 j0 : Z) : DenseM :=
  mwrite_block M i0 j0 (gemm ta tb alpha A B beta (mview m n M i0 j0)).

(** [HSSMatrix::dense_recursive(A, w, isroot, depth)] (HSSMatrix.hpp:281-371).
    The OpenMP tasks are run in program order. *)
Fixpoint dense_recursive (h : HSSMatrix) (A : DenseM) (w : WorkDense)
  (isroot : bool) : DenseM * WorkDense :=
  match h with
  | Leaf d =>
      let A1 := copy (_D d) A (fst (wd_offset w)) (snd (wd_offset w)) in
      (A1, mkWorkDense (wd_offset w) (basis_dense (_U d)) (basis_dense (_V d))
             (wd_c w))
  | Node d ch0 ch1 =>
      let c := resize2 WorkDense_default (wd_c w) in
      let wc0 := wd_with_offset (nth 0 c WorkDense_default) (wd_offset w) in
      let wc1 := wd_with_offset (nth 1 c WorkDense_default)
                   (pair_add (wd_offset w) (dims (node_data ch0))) in
      let '(A1, wc0) := dense_recursive ch0 A wc0 false in
      let '(A2, wc1) := dense_recursive ch1 A1 wc1 false in
      let d0 := node_data ch0 in
      let d1 := node_data ch1 in
      (* A01 = tmpU0 * (B01 * tmpV1^C) *)
      let tmp01 := DenseM_new (rows (_B01 d)) (rows (wd_tmpV wc1)) in
      let tmp01 := gemm TransN TransC sone (_B01 d) (wd_tmpV wc1) szero tmp01 in
      let A3 := gemm_into TransN TransN sone (wd_tmpU wc0) tmp01 szero
                  (_rows d0) (_cols d1) A2
                  (fst (wd_offset wc0)) (snd (wd_offset wc1)) in
      (* A10 = tmpU1 * (B10 * tmpV0^C) *)
      let tmp10 := DenseM_new (rows (_B10 d)) (rows (wd_tmpV wc0)) in
      let tmp10 := gemm TransN TransC sone (_B10 d) (wd_tmpV wc0) szero tmp10 in
      let A4 := gemm_into TransN TransN sone (wd_tmpU wc1) tmp10 szero
                  (_rows d1) (_cols d0) A3
                  (fst (wd_offset wc1)) (snd (wd_offset wc0)) in
      let '(tmpU, tmpV) :=
        if negb isroot then
          let tU := DenseM_new (_rows d) (_U_rank d) in
          let Udense := basis_dense (_U d) in
          let Udense0 := mview (_U_rank d0) (cols Udense) Udense 0 0 in
          let Udense1 := mview (_U_rank d1) (cols Udense) Udense
                           (_U_rank d0) 0 in
          let tU := gemm_into TransN TransN sone (wd_tmpU wc0) Udense0 szero
                      (_rows d0) (_U_rank d) tU 0 0 in
          let tU := gemm_into TransN TransN sone (wd_tmpU wc1) Udense1 szero
                      (_rows d1) (_U_rank d) tU (_rows d0) 0 in
          let tV := DenseM_new (_cols d) (_V_rank d) in
          let Vdense := basis_dense (_V d) in
          let Vdense0 := mview (_V_rank d0) (cols Vdense) Vdense 0 0 in
          let Vdense1 := mview (_V_rank d1) (cols Vdense) Vdense
                           (_V_rank d0) 0 in
          let tV := gemm_into TransN TransN sone (wd_tmpV wc0) Vdense0 szero
                      (_cols d0) (_V_rank d) tV 0 0 in
          let tV := gemm_into TransN TransN sone (wd_tmpV wc1) Vdense1 szero
                      (_cols d1) (_V_rank d) tV (_cols d0) 0 in
          (tU, tV)
        else (wd_tmpU w, wd_tmpV w) in
      (A4, mkWorkDense (wd_offset w) tmpU tmpV
             [wd_clear_tmp wc0; wd_clear_tmp wc1])
  end.

(** [HSSMatrix::dense()] (HSSMatrix.hpp:271-279). *)
Definition dense (h : HSSMatrix) : DenseM :=
  let A := DenseM_new (_rows (node_data h)) (_cols (node_data h)) in
  fst (dense_recursive h A WorkDense_default true).

(** [HSSMatrix::levels()] (HSSMatrix.hpp:386-392). *)
Fixpoint levels (h : HSSMatrix) : Z :=
  match h with
  | Leaf d => if negb (_active d) then 0 else 1 + 0
  | Node d ch0 ch1 =>
      if negb (_active d) then 0
      else 1 + Z.max (Z.max 0 (levels ch0)) (levels ch1)
  end.

End HSS.

(** ** ANN kernel compression (HSS/HSSMatrix.compress.kernel.hpp) *)

(** The sources at hand hold two copies of HSSMatrix.compress.kernel.hpp:
    the file under src/HSS and a later one carried inside
    [runYang_Formula.sh].  Both are modelled; the functions below take the
    copy as their first argument and branch where the copies differ. *)
Inductive SourceCopy : Type := src_HSS | runYang.

Section CompressANN.
Context {S : Scalar} {L : DenseLib} {BL : HSSBasisLib}.

(** [elem_t]: the element-extraction callback [Aelem(I, J, B)], which fills
    [B]; the model returns the filled matrix. *)
Definition elem_t : Type := list Z -> list Z -> DenseM -> DenseM.

(** [WorkCompressANN] (HSS/HSSExtra.hpp is not part of the sources at hand;
    the members are the ones the code at hand reads and writes). *)
Inductive WorkCompressANN : Type := mkWorkANN {
  w_offset : Z * Z;
  w_lvl : Z;
  w_Ir : list Z;
  w_Ic : list Z;
  w_Jr : list Z;
  w_Jc : list Z;
  w_S : DenseM;
  w_ids_scores : list (Z * Q);
  w_c : list WorkCompressANN
}.

(** A default-constructed [WorkCompressANN]. *)
Definition WorkANN_default : WorkCompressANN :=
  mkWorkANN (0, 0) 0 [] [] [] [] DenseM_empty [] [].

Definition w_child (w : WorkCompressANN) (k : nat) : WorkCompressANN :=
  nth k (w_c w) WorkANN_default.

Definition w_with_c (w : WorkCompressANN) (c : list WorkCompressANN)
  : WorkCompressANN :=
  mkWorkANN (w_offset w) (w_lvl w) (w_Ir w) (w_Ic w) (w_Jr w) (w_Jc w)
    (w_S w) (w_ids_scores w) c.

Definition w_with_samples (w : WorkCompressANN) (S0 : DenseM)
  (ids : list (Z * Q)) : WorkCompressANN :=
  mkWorkANN (w_offset w) (w_lvl w) (w_Ir w) (w_Ic w) (w_Jr w) (w_Jc w)
    S0 ids (w_c w).

Definition w_with_J (w : WorkCompressANN) (Jr Jc : list Z)
  : WorkCompressANN :=
  mkWorkANN (w_offset w) (w_lvl w) (w_Ir w) (w_Ic w) Jr Jc
    (w_S w) (w_ids_scores w) (w_c w).

Definition w_with_I (w : WorkCompressANN) (Ir Ic : list Z)
  : WorkCompressANN :=
  mkWorkANN (w_offset w) (w_lvl w) Ir Ic (w_Jr w) (w_Jc w)
    (w_S w) (w_ids_scores w) (w_c w).

(** Modelled from the spec: [WorkCompressANN::split(dim)] is declared in
    HSS/HSSExtra.hpp, which is not part of the sources at hand.  Spec 4.2,
    step 2 ("recursively partition: at each internal node, reduce parent
    samples to the two children's local row/column index sets"): the first
    child starts at the node's offset, the second one past the first
    child's dimensions, both one level deeper; [dense_recursive] sets the
    offsets of its own work tree the same way. *)
Definition split (w : WorkCompressANN) (dim : Z * Z) : WorkCompressANN :=
  match w_c w with
  | [] =>
      w_with_c w
        [ mkWorkANN (w_offset w) (int_add (w_lvl w) 1) [] [] [] []
            DenseM_empty [] [];
          mkWorkANN (pair_add (w_offset w) dim) (int_add (w_lvl w) 1)
            [] [] [] [] DenseM_empty [] [] ]
  | _ => w
  end.

(** [operator<] on [std::pair<std::size_t, real_t>]. *)
Definition pair_ltb (a b : Z * Q) : bool :=
  (fst a <? fst b) || (negb (fst b <? fst a) && Qlt_bool (snd a) (snd b)).

Fixpoint insert_sorted {A : Type} (ltb : A -> A -> bool) (x : A) (l : list A)
  : list A :=
  match l with
  | [] => [x]
  | y :: l' => if ltb x y then x :: l else y :: insert_sorted ltb x l'
  end.

(** [std::sort(first, last, comp)]: the elements in increasing order. *)
Definition sort {A : Type} (ltb : A -> A -> bool) (l : list A) : list A :=
  fold_right (insert_sorted ltb) [] l.

(** [std::unique] with the predicate [a.first == b.first], followed by
    [erase]: of each run of equal ids the first entry is kept. *)
Fixpoint unique_ids (l : list (Z * Q)) : list (Z * Q) :=
  match l with
  | [] => []
  | x :: l' =>
      match l' with
      | [] => [x]
      | y :: _ =>
          if fst x =? fst y then
            x :: tl (unique_ids l')
          else x :: unique_ids l'
      end
  end.

(** [std::nth_element(first, first + d, last, by score)] followed by
    [resize(d)]: [d] entries of smallest score remain.  Which entries of
    equal score remain, and in which order, is left open by the C++
    standard; the model keeps the earlier ones, in increasing score. *)
Definition nth_element_resize (d : Z) (l : list (Z * Q)) : list (Z * Q) :=
  firstn (Z.to_nat d)
    (sort (fun a b => Qlt_bool (snd a) (snd b)) l).

(** The first position at or after [pos] whose id is not less than [x]:
    the result of [std::lower_bound] on ids sorted in increasing order, and
    of the [while] loop of [update_w_S]. *)
Fixpoint skip_less (l : list (Z * Q)) (x : Z) (pos : Z) : Z :=
  match l with
  | [] => pos
  | y :: l' => if fst y <? x then skip_less l' x (pos + 1) else pos
  end.

Definition lower_bound (ids : list (Z * Q)) (it_lo : Z) (x : Z) : Z :=
  skip_less (skipn (Z.to_nat it_lo) ids) x it_lo.

Definition ids_at (ids : list (Z * Q)) (i : Z) : Z * Q :=
  nth (Z.to_nat i) ids (0, 0%Q).

(** The ids and scores gathered at a leaf: the neighbours, outside the
    leaf's own index range, of the points of the leaf. *)
Definition leaf_ids_scores (ann : DenseMatrix Z) (scores : DenseMatrix Q)
  (off rws : Z) : list (Z * Q) :=
  flat_map
    (fun i =>
       flat_map
         (fun j =>
            if (elt ann j i <? off) || (elt ann j i >=? size_add off rws)
            then [(elt ann j i, elt scores j i)] else [])
         (range 0 (rows ann)))
    (range off (size_add off rws)).

(** The ids and scores a node inherits from one child: the ones outside
    the node's own index range. *)
Definition outside_ids_scores (off rws : Z) (ids : list (Z * Q))
  : list (Z * Q) :=
  filter (fun e => (fst e <? off) || (fst e >=? size_add off rws)) ids.

(** One child's rows of column [j] of the sample matrix of a node: copied
    from the child's own samples when the child has the column, extracted
    otherwise.  [it] is the cursor into the child's ids; the new cursor is
    returned. *)
Definition fill_from_child (v : SourceCopy) (Aelem : elem_t)
  (wc : WorkCompressANN) (dm : Z) (idj : Z) (j : Z) (it : Z) (S0 : DenseM)
  : Z * DenseM :=
  let ids := w_ids_scores wc in
  let l := lower_bound ids it idj in
  if (l <? vec_size ids) && (fst (ids_at ids l) =? idj) then
    (l, for_range 0
          (match v with
           | src_HSS => vec_size (w_Jr wc)
           | runYang => vec_size (w_Ir wc)
           end)
          (fun i S1 =>
             mset S1 (size_add dm i) j (elt (w_S wc) (vec_at (w_Jr wc) i) l))
          S0)
  else
    match v with
    | src_HSS =>
        let cur_submatrix :=
          Aelem (w_Ir wc) [idj] (DenseM_new (vec_size (w_Ir wc)) 1) in
        (l, for_range 0 (vec_size (w_Ir wc))
              (fun i S1 => mset S1 (size_add dm i) j (elt cur_submatrix i 0))
              S0)
    | runYang =>
        let m := vec_size (w_Ir wc) in
        (l, mwrite_block S0 dm j (Aelem (w_Ir wc) [idj] (mview m 1 S0 dm j)))
    end.

(** The sample matrix of an internal node.  In the copy under src/HSS the
    columns are visited once, both children being served at each column;
    in the copy of [runYang_Formula.sh] the children are served one after
    the other. *)
Definition node_samples (v : SourceCopy) (Aelem : elem_t)
  (w : WorkCompressANN) (Scolids : list Z) (S0 : DenseM) : DenseM :=
  let c0 := w_child w 0 in
  let c1 := w_child w 1 in
  let r0 := vec_size (w_Ir c0) in
  match v with
  | src_HSS =>
      snd (for_range 0 (vec_size Scolids)
             (fun j st =>
                let '(cur_first, cur_second, S1) := fst st in
                let r1 := fill_from_child v Aelem c0 0 (vec_at Scolids j) j
                            cur_first S1 in
                let r2 := fill_from_child v Aelem c1 r0 (vec_at Scolids j) j
                            cur_second (snd r1) in
                ((fst r1, fst r2, snd r2), snd r2))
             ((0, 0, S0), S0))
  | runYang =>
      let serve (wc : WorkCompressANN) (dm : Z) (S1 : DenseM) : DenseM :=
        snd (for_range 0 (vec_size Scolids)
               (fun j st =>
                  fill_from_child v Aelem wc dm (vec_at Scolids j) j
                    (fst st) (snd st))
               (0, S1)) in
      serve c1 r0 (serve c0 0 S0)
  end.

(** [HSSMatrix::compute_local_samples_ann(ann, scores, w, Aelem, opts)];
    [is_leaf] and [rws] are [this->leaf()] and [this->rows()]. *)
Definition compute_local_samples_ann (v : SourceCopy)
  (ann : DenseMatrix Z) (scores : DenseMatrix Q) (w : WorkCompressANN)
  (Aelem : elem_t) (opts : HSSOptions) (is_leaf : bool) (rws : Z)
  : WorkCompressANN :=
  let off := fst (w_offset w) in
  let c0 := w_child w 0 in
  let c1 := w_child w 1 in
  let I :=
    if is_leaf then map (fun i => size_add i off) (range 0 rws)
    else w_Ir c0 ++ w_Ir c1 in
  let ids :=
    w_ids_scores w ++
    (if is_leaf then leaf_ids_scores ann scores off rws
     else outside_ids_scores off rws (w_ids_scores c0)
          ++ outside_ids_scores off rws (w_ids_scores c1)) in
  let ids := unique_ids (sort pair_ltb ids) in
  let ids :=
    match v with
    | src_HSS =>
        let d_max :=
          if is_leaf then size_add (vec_size I) (wrap_size (opts_dd opts))
          else size_add (size_add (vec_size (w_Ir c0)) (vec_size (w_Ir c1)))
                 (wrap_size (opts_dd opts)) in
        let d := Z.min (vec_size ids) d_max in
        if d <? vec_size ids then nth_element_resize d ids else ids
    | runYang => ids
    end in
  let ids := sort pair_ltb ids in
  let Scolids := map fst ids in
  let S0 := DenseM_new (vec_size I) (vec_size Scolids) in
  let S1 :=
    if is_leaf then Aelem I Scolids S0
    else node_samples v Aelem w Scolids S0 in
  w_with_samples w S1 ids.

(** The acceptance test of [compute_U_V_bases_ann], with [d = S.cols()]
    converted to [int], [ucols = _U.cols()], [vcols = _V.cols()] and
    [cls = this->cols()].
    - src/HSS copy:
      [d - opts.p() >= opts.max_rank() ||
       (int(_U.cols()) < d - opts.p() && int(_V.cols()) < d - opts.p())];
    - [runYang_Formula.sh] copy:
      [d >= this->cols() || d >= opts.max_rank() ||
       (int(_U.cols()) + opts.p() < d && int(_V.cols()) + opts.p() < d)],
      where the first comparison is made in [std::size_t]. *)
Definition accuracy_test (v : SourceCopy) (opts : HSSOptions)
  (d ucols vcols cls : Z) : bool :=
  match v with
  | src_HSS =>
      (int_sub d (opts_p opts) >=? max_rank opts)
      || ((wrap_int ucols <? int_sub d (opts_p opts))
          && (wrap_int vcols <? int_sub d (opts_p opts)))
  | runYang =>
      (wrap_size d >=? cls)
      || (d >=? max_rank opts)
      || ((int_add (wrap_int ucols) (opts_p opts) <? d)
          && (int_add (wrap_int vcols) (opts_p opts) <? d))
  end.

(** [HSSMatrix::compute_U_V_bases_ann(S, opts, w, depth)] on the node data
    [d] of [this]: the flag it returns, the node and the work record.  The
    debug-only [check()] calls and [assert]s on the result of [ID_row] and
    the memory counters are left out. *)
Definition compute_U_V_bases_ann (v : SourceCopy) (S0 : DenseM)
  (opts : HSSOptions) (w : WorkCompressANN) (is_leaf : bool) (d : HSSNode)
  : bool * HSSNode * WorkCompressANN :=
  let rtol := (rel_tol opts / inject_Z (w_lvl w))%Q in
  let atol := (abs_tol opts / inject_Z (w_lvl w))%Q in
  let '(E, P, Jr) := ID_row S0 rtol atol (max_rank opts) in
  let U := mkBasis E P in
  (* exploit symmetry, set V = U *)
  let d1 := set_UV d U U in
  let w1 := w_with_J w Jr Jr in
  let dS := wrap_int (cols S0) in
  let accurate :=
    accuracy_test v opts dS (basis_cols U) (basis_cols U) (_cols d) in
  let finish (_ : unit) :=
    let d2 := set_ranks d1 (basis_cols U) (basis_rows U)
                (basis_cols U) (basis_rows U) in
    let c0 := w_child w1 0 in
    let c1 := w_child w1 1 in
    let Ir :=
      if is_leaf then map (fun i => size_add (fst (w_offset w1)) i) Jr
      else
        let r0 := vec_size (w_Ir c0) in
        map (fun i => if i <? r0 then vec_at (w_Ir c0) i
                      else vec_at (w_Ir c1) (size_sub i r0)) Jr in
    let Ic :=
      if is_leaf then map (fun j => size_add (snd (w_offset w1)) j) Jr
      else
        let r0 := vec_size (w_Ic c0) in
        map (fun j => if j <? r0 then vec_at (w_Ic c0) j
                      else vec_at (w_Ic c1) (size_sub j r0)) Jr in
    (d2, w_with_I w1 (w_Ir w1 ++ Ir) (w_Ic w1 ++ Ic)) in
  match v with
  | src_HSS => (accurate, fst (finish tt), snd (finish tt))
  | runYang =>
      if accurate then (true, fst (finish tt), snd (finish tt))
      else (false, d1, w1)
  end.

(** The part of [compress_recursive_ann] that follows the recursion into
    the children: at the root the node is marked compressed; below the
    root the samples and the bases are computed, the node is marked
    compressed (always in the src/HSS copy, only if the flag returned by
    [compute_U_V_bases_ann] is true in the [runYang_Formula.sh] copy) and
    the children's work records are dropped. *)
Definition compress_node (v : SourceCopy) (ann : DenseMatrix Z)
  (scores : DenseMatrix Q) (Aelem : elem_t) (opts : HSSOptions)
  (is_leaf : bool) (d : HSSNode) (w : WorkCompressANN)
  : HSSNode * WorkCompressANN :=
  if w_lvl w =? 0 then (set_states d COMPRESSED, w)
  else
    let w1 :=
      compute_local_samples_ann v ann scores w Aelem opts is_leaf (_rows d) in
    let '(accurate, d1, w2) :=
      compute_U_V_bases_ann v (w_S w1) opts w1 is_leaf d in
    let d2 :=
      match v with
      | src_HSS => set_states d1 COMPRESSED
      | runYang => if accurate then set_states d1 COMPRESSED else d1
      end in
    (d2, w_with_c w2 []).

(** [HSSMatrix::compress_recursive_ann(ann, scores, Aelem, opts, w, depth)]
    (src/HSS copy: lines 49-102; [runYang_Formula.sh] copy: lines
    1507-1570).  The OpenMP tasks are run in program order. *)
Fixpoint compress_recursive_ann (v : SourceCopy) (ann : DenseMatrix Z)
  (scores : DenseMatrix Q) (Aelem : elem_t) (opts : HSSOptions)
  (h : HSSMatrix) (w : WorkCompressANN) : HSSMatrix * WorkCompressANN :=
  match h with
  | Leaf d =>
      let d1 :=
        if is_untouched d then
          let I := map (fun i => size_add i (fst (w_offset w)))
                     (range 0 (_rows d)) in
          let J := map (fun j => size_add j (snd (w_offset w)))
                     (range 0 (_cols d)) in
          set_D d (Aelem I J (DenseM_new (_rows d) (_cols d)))
        else d in
      let '(d2, w1) := compress_node v ann scores Aelem opts true d1 w in
      (Leaf d2, w1)
  | Node d ch0 ch1 =>
      let w1 := split w (dims (node_data ch0)) in
      let '(ch0', wc0) :=
        compress_recursive_ann v ann scores Aelem opts ch0 (w_child w1 0) in
      let '(ch1', wc1) :=
        compress_recursive_ann v ann scores Aelem opts ch1 (w_child w1 1) in
      let w2 := w_with_c w1 [wc0; wc1] in
      let d0 := node_data ch0' in
      let d1 := node_data ch1' in
      if negb (is_compressed d0) || negb (is_compressed d1) then
        (Node d ch0' ch1', w2)
      else
        let dB :=
          match v with
          | src_HSS =>
              if is_untouched d then
                set_B d
                  (Aelem (w_Ir wc0) (w_Ic wc1)
                     (DenseM_new (_U_rank d0) (_V_rank d1)))
                  (Aelem (w_Ir wc1) (w_Ic wc0)
                     (DenseM_new (_U_rank d1) (_V_rank d0)))
              else d
          | runYang =>
              let B01 := Aelem (w_Ir wc0) (w_Ic wc1)
                           (DenseM_new (_U_rank d0) (_V_rank d1)) in
              set_B d B01 (mtranspose B01)
          end in
        let '(d2, w3) := compress_node v ann scores Aelem opts false dB w2 in
        (Node d2 ch0' ch1', w3)
  end.

(** [HSSMatrix::compress_ann(ann, scores, Aelem, opts)] (src/HSS copy,
    lines 37-47): one pass with a fresh work record. *)
Definition compress_ann (ann : DenseMatrix Z) (scores : DenseMatrix Q)
  (Aelem : elem_t) (opts : HSSOptions) (h : HSSMatrix) : HSSMatrix :=
  fst (compress_recursive_ann src_HSS ann scores Aelem opts h WorkANN_default).

(** The adaptive loop of [HSSMatrix::compress(K, opts)]
    ([runYang_Formula.sh] copy, lines 1474-1491):
    [while (!is_compressed()) { find neighbours; compress_recursive_ann;
    ann_number = min(2 * ann_number, n); }].
    [find_approximate_neighbors] (clustering/NeighborSearch.hpp, not part
    of the sources at hand) is a parameter, given the number of neighbours
    and the number of the pass.  The loop has no bound of its own; the model
    runs at most [fuel] passes. *)
Fixpoint compress_adaptive (fuel : nat)
  (find_approximate_neighbors : Z -> nat -> DenseMatrix Z * DenseMatrix Q)
  (Aelem : elem_t) (opts : HSSOptions) (n ann_number : Z) (pass : nat)
  (h : HSSMatrix) : HSSMatrix :=
  match fuel with
  | O => h
  | Datatypes.S fuel' =>
      if is_compressed (node_data h) then h
      else
        let '(ann, scores) := find_approximate_neighbors ann_number pass in
        let h' := fst (compress_recursive_ann runYang ann scores Aelem opts h
                         WorkANN_default) in
        compress_adaptive fuel' find_approximate_neighbors Aelem opts n
          (Z.min (int_mul 2 ann_number) n) (Datatypes.S pass) h'
  end.

End CompressANN.

(** ** The kernel matrix oracle (kernel/KernelRegression.hpp) *)

(** A [for (auto j = 0; j < bound; j++)] loop: the counter is an [int], it
    is converted to [std::size_t] for the comparison with the bound and
    incremented in [int].  The body may fail (a failed [assert]).  The loop
    makes at most [bound] turns, which is the budget [int_for] gives it: the
    counter either reaches the bound or wraps around to a negative value,
    whose conversion to [std::size_t] is above the size of any vector. *)
Fixpoint int_for_from {St : Type} (fuel : nat) (j bound : Z)
  (body : Z -> St -> option St) (st : St) : option St :=
  match fuel with
  | O => Some st
  | Datatypes.S fuel' =>
      if wrap_size j <? bound then
        match body j st with
        | Some st' => int_for_from fuel' (int_add j 1) bound body st'
        | None => None
        end
      else Some st
  end.

Definition int_for {St : Type} (bound : Z) (body : Z -> St -> option St)
  (st : St) : option St :=
  int_for_from (Z.to_nat bound) 0 bound body st.

Section KernelOracle.
Context {S : Scalar}.

(** The abstract class [Kernel<scalar_t>]: the data points (one per column
    of [data_]), the regularization parameter and the pure virtual
    [eval_kernel_function], which reads the [d()] features of two points. *)
Record Kernel : Type := mkKernel {
  data_ : DenseM;
  lambda_ : scalar;
  eval_kernel_function : list scalar -> list scalar -> scalar
}.

(** [n()] and [d()]. *)
Definition kernel_n (K : Kernel) : Z := cols (data_ K).
Definition kernel_d (K : Kernel) : Z := rows (data_ K).

(** [data_.ptr(0, i)]: the features of data point [i]. *)
Definition data_ptr (K : Kernel) (i : Z) : list scalar :=
  map (fun k => elt (data_ K) k i) (range 0 (kernel_d K)).

(** [Kernel::eval(i, j)] (KernelRegression.hpp:398-401). *)
Definition eval (K : Kernel) (i j : Z) : scalar :=
  sadd (eval_kernel_function K (data_ptr K i) (data_ptr K j))
    (if i =? j then lambda_ K else szero).

(** [Kernel::operator()(I, J, B)] (KernelRegression.hpp:414-423); [None]
    is a failed [assert]. *)
Definition operator_call (K : Kernel) (I J : list Z) (B : DenseM)
  : option DenseM :=
  if (rows B =? vec_size I) && (cols B =? vec_size J) then
    int_for (vec_size J)
      (fun j B1 =>
         int_for (vec_size I)
           (fun i B2 =>
              if (vec_at I i <? kernel_n K) && (vec_at J j <? kernel_n K)
              then Some (mset B2 i j (eval K (vec_at I i) (vec_at J j)))
              else None)
           B1)
      B
  else None.

(** The matrix with [lambda] on the diagonal and zero elsewhere. *)
Definition scaled_identity (n : Z) (lambda : scalar) : DenseM :=
  mkDenseM n n (fun i j => if i =? j then lambda else szero).

(** The bare kernel matrix: entry (i,j) is the kernel function of the data
    points [i] and [j]. *)
Definition kernel_matrix (K : Kernel) : DenseM :=
  mkDenseM (kernel_n K) (kernel_n K)
    (fun i j => eval_kernel_function K (data_ptr K i) (data_ptr K j)).

End KernelOracle.

(** ** Leaf ranges of the MPI ranks (clustering/NeighborSearch_MPI.hpp) *)

(** [getLeafsRange(n, p, rank)] (NeighborSearch_MPI.hpp:96-125): the vector
    [{sub_start, sub_start + sub_len}]. *)
Definition getLeafsRange (n p rank : Z) : list Z :=
  let size := int_div n p in
  let rem := int_rem n p in
  let sub_len := if rank <? rem then int_add size 1 else size in
  let sub_start :=
    if rank <? rem then int_add (int_mul rank size) rank
    else int_add (int_mul rank size) rem in
  [sub_start; int_add sub_start sub_len].

Definition range_begin (r : list Z) : Z := nth 0 r 0.
Definition range_end (r : list Z) : Z := nth 1 r 0.

(** ** Kernel types (kernel/KernelRegression.hpp) *)

(** [enum class KernelType {GAUSS, LAPLACE}] (lines 688-691). *)
Inductive KernelType : Type := GAUSS | LAPLACE.

(** [get_name(KernelType k)] (lines 696-702); the [default] branch is not
    reached by a value of the enumeration. *)
Definition get_name (k : KernelType) : String.string :=
  match k with
  | GAUSS => "Gauss"%string
  | LAPLACE => "Laplace"%string
  end.

(** [std::string::compare]: zero when the strings are equal, negative or
    positive by the lexicographic order otherwise. *)
Definition string_compare (a b : String.string) : Z :=
  match String.compare a b with
  | Eq => 0
  | Lt => -1
  | Gt => 1
  end.

(** [kernel_type(const std::string& k)] (lines 709-718).  The second
    component tells whether the message "ERROR: Kernel type not
    recogonized, ..." is written to [std::cerr].  The second test is
    [else if (k.compare("Laplace"))], the conversion of the [int] to
    [bool]. *)
Definition kernel_type (k : String.string) : KernelType * bool :=
  if string_compare k "Gauss"%string =? 0 then (GAUSS, false)
  else if negb (string_compare k "Laplace"%string =? 0) then (LAPLACE, false)
  else (GAUSS, true).

(** ** Distance matrices (clustering/NeighborSearch_MPI.hpp) *)

(** [A(i,j) = x] on a matrix of any entry type. *)
Definition dset {T : Type} (A : DenseMatrix T) (i j : Z) (x : T)
  : DenseMatrix T :=
  mkDenseMatrix (rows A) (cols A)
    (fun i' j' => if (i' =? i) && (j' =? j) then x else elt A i' j').

Section DistanceMatrix.
Context {S : Scalar}.

(** [Euclidean_distance_squared(d, x, y)] is declared in
    kernel/Metrics.hpp, which is not part of the sources at hand; it is a
    parameter of the model, as is the content [init] of the storage that
    the constructor [DenseMatrix<real_t>(m, n)] leaves uninitialised. *)
Variable Euclidean_distance_squared : Z -> list scalar -> list scalar -> Q.
Variable init : Z -> Z -> Q.

(** [&data(0, c)]: the [d] entries of column [c]. *)
Definition column_ptr (data : DenseM) (c : Z) : list scalar :=
  map (fun k => elt data k c) (range 0 (rows data)).

(** [find_distance_matrix_MPI(data, index_subset)] (lines 55-71). *)
Definition find_distance_matrix_MPI (data : DenseM) (index_subset : list Z)
  : DenseMatrix Q :=
  let subset_size := vec_size index_subset in
  let d := rows data in
  for_range 0 subset_size
    (fun i distances =>
       let distances1 := dset distances i i 0%Q in
       for_range (size_add i 1) subset_size
         (fun j distances2 =>
            let distances3 :=
              dset distances2 j i
                (Euclidean_distance_squared d
                   (column_ptr data (vec_at index_subset i))
                   (column_ptr data (vec_at index_subset j))) in
            dset distances3 i j (elt distances3 j i))
         distances1)
    (mkDenseMatrix subset_size subset_size init).

End DistanceMatrix.

(** ** Merging two neighbour lists (clustering/NeighborSearch_MPI.hpp) *)

(** Checked accesses: [None] is an access outside the matrix or the
    vector, which is undefined in C++. *)
Definition mat_get {T : Type} (A : DenseMatrix T) (i j : Z) : option T :=
  if (0 <=? i) && (i <? rows A) && (0 <=? j) && (j <? cols A)
  then Some (elt A i j) else None.

Definition mat_set {T : Type} (A : DenseMatrix T) (i j : Z) (x : T)
  : option (DenseMatrix T) :=
  if (0 <=? i) && (i <? rows A) && (0 <=? j) && (j <? cols A)
  then Some (dset A i j x) else None.

Definition vec_get {T : Type} (v : list T) (i : Z) : option T :=
  if (0 <=? i) && (i <? vec_size v) then nth_error v (Z.to_nat i) else None.

Definition vec_store {T : Type} (v : list T) (i : Z) (x : T) : option (list T) :=
  if (0 <=? i) && (i <? vec_size v)
  then Some (firstn (Z.to_nat i) v ++ x :: skipn (Datatypes.S (Z.to_nat i)) v)
  else None.

Definition obind {A B : Type} (m : option A) (k : A -> option B) : option B :=
  match m with
  | Some a => k a
  | None => None
  end.

(** A [for] loop over [std::size_t] indices whose body may fail. *)
Definition for_range_opt {St : Type} (lo hi : Z) (body : Z -> St -> option St)
  (st : St) : option St :=
  fold_left (fun acc k => obind acc (body k)) (range lo hi) (Some st).

(** The local variables of one round of the loop over the columns:
    [r1], [r2], [cur], [cur_neighbors] and [cur_scores]. *)
Record MergeState : Type := mkMerge {
  m_r1 : Z;
  m_r2 : Z;
  m_cur : Z;
  cur_neighbors : list Z;
  cur_scores : list Q
}.

Section ChooseBest.

Local Notation "x <-- m ;; k" := (obind m (fun x => k))
  (at level 61, m at next level, right associativity).

(** The matrices as they are while column [c] is merged. *)
Variable neighbors : DenseMatrix Z.
Variable scores : DenseMatrix Q.
Variable new_neighbors : DenseMatrix Z.
Variable new_scores : DenseMatrix Q.
Variable c : Z.

(** The body of the first [while] loop. *)
Definition merge_both (st : MergeState) : option MergeState :=
  s1 <-- mat_get scores (m_r1 st) c ;;
  s2 <-- mat_get new_scores (m_r2 st) c ;;
  if Qlt_bool s2 s1 then
    n2 <-- mat_get new_neighbors (m_r2 st) c ;;
    cn <-- vec_store (cur_neighbors st) (m_cur st) n2 ;;
    cs <-- vec_store (cur_scores st) (m_cur st) s2 ;;
    Some (mkMerge (m_r1 st) (size_add (m_r2 st) 1) (size_add (m_cur st) 1)
            cn cs)
  else
    n1 <-- mat_get neighbors (m_r1 st) c ;;
    cn <-- vec_store (cur_neighbors st) (m_cur st) n1 ;;
    cs <-- vec_store (cur_scores st) (m_cur st) s1 ;;
    n2 <-- mat_get new_neighbors (m_r2 st) c ;;
    Some (mkMerge (size_add (m_r1 st) 1)
            (if n1 =? n2 then size_add (m_r2 st) 1 else m_r2 st)
            (size_add (m_cur st) 1) cn cs).

(** [while ((r1 < ann_number) && (r2 < ann_number) && (cur < ann_number))].
    [cur] grows by one in every round, so [ann_number] rounds are the
    most the loop can make; [None] also if the rounds given do not
    suffice. *)
Fixpoint while_both (rounds : nat) (ann_number : Z) (st : MergeState)
  : option MergeState :=
  if (m_r1 st <? ann_number) && (m_r2 st <? ann_number)
     && (m_cur st <? ann_number) then
    match rounds with
    | O => None
    | Datatypes.S rounds' =>
        st' <-- merge_both st ;; while_both rounds' ann_number st'
    end
  else Some st.

(** The body of the second [while] loop. *)
Definition merge_rest (ann_number : Z) (st : MergeState) : option MergeState :=
  if m_r1 st =? ann_number then
    n2 <-- mat_get new_neighbors (m_r2 st) c ;;
    cn <-- vec_store (cur_neighbors st) (m_cur st) n2 ;;
    s2 <-- mat_get new_scores (m_r2 st) c ;;
    cs <-- vec_store (cur_scores st) (m_cur st) s2 ;;
    Some (mkMerge (m_r1 st) (size_add (m_r2 st) 1) (size_add (m_cur st) 1)
            cn cs)
  else
    n1 <-- mat_get neighbors (m_r1 st) c ;;
    cn <-- vec_store (cur_neighbors st) (m_cur st) n1 ;;
    s1 <-- mat_get scores (m_r1 st) c ;;
    cs <-- vec_store (cur_scores st) (m_cur st) s1 ;;
    Some (mkMerge (size_add (m_r1 st) 1) (m_r2 st) (size_add (m_cur st) 1)
            cn cs).

(** [while (cur < ann_number)]. *)
Fixpoint while_rest (rounds : nat) (ann_number : Z) (st : MergeState)
  : option MergeState :=
  if m_cur st <? ann_number then
    match rounds with
    | O => None
    | Datatypes.S rounds' =>
        st' <-- merge_rest ann_number st ;; while_rest rounds' ann_number st'
    end
  else Some st.

(** The last loop of the round: the merged column is written back. *)
Definition write_back (ann_number : Z) (cn : list Z) (cs : list Q)
  : option (DenseMatrix Z * DenseMatrix Q) :=
  for_range_opt 0 ann_number
    (fun i NS =>
       n <-- vec_get cn i ;;
       N' <-- mat_set (fst NS) i c n ;;
       s <-- vec_get cs i ;;
       S' <-- mat_set (snd NS) i c s ;;
       Some (N', S'))
    (neighbors, scores).

(** One round of the loop over the columns; the two vectors keep their
    content from one round to the next. *)
Definition merge_column (ann_number : Z) (cn : list Z) (cs : list Q)
  : option (DenseMatrix Z * DenseMatrix Q * list Z * list Q) :=
  st1 <-- while_both (Z.to_nat ann_number) ann_number (mkMerge 0 0 0 cn cs) ;;
  st2 <-- while_rest (Z.to_nat ann_number) ann_number st1 ;;
  NS <-- write_back ann_number (cur_neighbors st2) (cur_scores st2) ;;
  Some (fst NS, snd NS, cur_neighbors st2, cur_scores st2).

End ChooseBest.

(** [choose_best_neighbors_MPI(neighbors, scores, new_neighbors,
    new_scores)] (lines 313-354): the updated [neighbors] and [scores]. *)
Definition choose_best_neighbors_MPI (neighbors : DenseMatrix Z)
  (scores : DenseMatrix Q) (new_neighbors : DenseMatrix Z)
  (new_scores : DenseMatrix Q) : option (DenseMatrix Z * DenseMatrix Q) :=
  let ann_number := rows neighbors in
  obind
    (for_range_opt 0 (cols neighbors)
       (fun c st =>
          let '(N, Sc, cn, cs) := st in
          merge_column N Sc new_neighbors new_scores c ann_number cn cs)
       (neighbors, scores,
        repeat 0 (Z.to_nat ann_number), repeat 0%Q (Z.to_nat ann_number)))
    (fun st => Some (fst (fst (fst st)), snd (fst (fst st)))).

(** ** Random projection trees (clustering/NeighborSearch_MPI.hpp) *)

(** How a call ends: it returns, it makes an access outside a vector
    (undefined in C++), or it is still running when the model stops
    unfolding the recursion. *)
Inductive Outcome (A : Type) : Type :=
| Returned (a : A)
| Undefined
| Unfinished.

Arguments Returned {A} _.
Arguments Undefined {A}.
Arguments Unfinished {A}.

Definition of_option {A : Type} (m : option A) : Outcome A :=
  match m with
  | Some a => Returned a
  | None => Undefined
  end.

Definition Outcome_bind {A B : Type} (m : Outcome A) (k : A -> Outcome B)
  : Outcome B :=
  match m with
  | Returned a => k a
  | Undefined => Undefined
  | Unfinished => Unfinished
  end.

Section ProjectionTree.
Context {S : Scalar}.

Local Notation "x <-- m ;; k" := (obind m (fun x => k))
  (at level 61, m at next level, right associativity).

(** The state of [std::mt19937& generator]. *)
Variable Generator : Type.

(** Lines 148-172 of [construct_projection_tree_MPI] call the standard
    library and BLAS only: a direction is drawn from the generator
    ([std::normal_distribution], [blas::nrm2]), the points of the node are
    projected on it ([blas::dotc]) and [std::nth_element] arranges
    [idx = 0, 1, ..., cur_node_size - 1] around the median of the
    projections.  [median_order g data node] stands for these lines: given
    the points [node] of the node it returns [idx] and the generator in
    its new state. *)
Variable median_order : Generator -> DenseM -> list Z -> list Z * Generator.

(** The arguments that [construct_projection_tree_MPI] takes by
    reference. *)
Record ProjectionTree : Type := mkProjectionTree {
  cur_indices : list Z;
  leaves : list Z;
  leaf_sizes : list Z;
  generator : Generator
}.

(** [for (i < cur_node_size) leaves.push_back(cur_indices[start+i]);] *)
Definition push_leaves (cur : list Z) (start cur_node_size : Z)
  (lv : list Z) : option (list Z) :=
  for_range_opt 0 cur_node_size
    (fun i lv1 => x <-- vec_get cur (size_add start i) ;; Some (lv1 ++ [x]))
    lv.

(** [for (i < cur_node_size)
      cur_indices_sorted[i] = cur_indices[start+idx[i]];] *)
Definition gather_sorted (cur idx : list Z) (start cur_node_size : Z)
  : option (list Z) :=
  for_range_opt 0 cur_node_size
    (fun i sorted =>
       k <-- vec_get idx i ;;
       x <-- vec_get cur (size_add start (wrap_size k)) ;;
       vec_store sorted i x)
    (repeat 0 (Z.to_nat cur_node_size)).

(** [for (i = start; i < start+cur_node_size; i++)
      cur_indices[i] = cur_indices_sorted[i-start];] *)
Definition scatter_sorted (cur sorted : list Z) (start cur_node_size : Z)
  : option (list Z) :=
  for_range_opt start (size_add start cur_node_size)
    (fun i cur1 =>
       x <-- vec_get sorted (size_sub i start) ;; vec_store cur1 i x)
    cur.

(** [construct_projection_tree_MPI(data, min_leaf_size, cur_indices, start,
    cur_node_size, leaves, leaf_sizes, generator, c)] (lines 134-188).
    The recursion is unfolded [depth] times. *)
Fixpoint construct_projection_tree_MPI (depth : nat) (data : DenseM)
  (min_leaf_size start cur_node_size : Z) (t : ProjectionTree)
  : Outcome ProjectionTree :=
  match depth with
  | O => Unfinished
  | Datatypes.S depth' =>
      if cur_node_size <? min_leaf_size then
        match leaf_sizes t with
        | [] => Undefined
        | _ :: _ =>
            let prev_size := last (leaf_sizes t) 0 in
            let leaf_sizes1 :=
              leaf_sizes t ++ [size_add cur_node_size prev_size] in
            Outcome_bind
              (of_option
                 (push_leaves (cur_indices t) start cur_node_size (leaves t)))
              (fun leaves1 =>
                 Returned
                   (mkProjectionTree (cur_indices t) leaves1 leaf_sizes1
                      (generator t)))
        end
      else
        let node :=
          map (fun i => vec_at (cur_indices t) (size_add start i))
            (range 0 cur_node_size) in
        let '(idx, generator1) := median_order (generator t) data node in
        let half_size := int_div (wrap_int cur_node_size) 2 in
        Outcome_bind
          (of_option
             (gather_sorted (cur_indices t) idx start cur_node_size))
          (fun cur_indices_sorted =>
        Outcome_bind
          (of_option
             (scatter_sorted (cur_indices t) cur_indices_sorted start
                cur_node_size))
          (fun cur_indices1 =>
        Outcome_bind
          (construct_projection_tree_MPI depth' data min_leaf_size start
             (wrap_size half_size)
             (mkProjectionTree cur_indices1 (leaves t) (leaf_sizes t)
                generator1))
          (fun t1 =>
             construct_projection_tree_MPI depth' data min_leaf_size
               (size_add start (wrap_size half_size))
               (size_sub cur_node_size (wrap_size half_size)) t1)))
  end.

End ProjectionTree.

Arguments mkProjectionTree {Generator} _ _ _ _.
Arguments cur_indices {Generator} _.
Arguments leaves {Generator} _.
Arguments leaf_sizes {Generator} _.
Arguments generator {Generator} _.
Arguments construct_projection_tree_MPI {S Generator} _ _ _ _ _ _ _.

(** ** Solving with a dense front (FrontalMatrixDense.hpp) *)

(** [trsv uplo trans diag A x] is the BLAS triangular solve with one
    right-hand side, called through dense/DenseMatrix.hpp; it is left
    abstract like the kernels of [DenseLib]. *)
Class VectorLib {S : Scalar} : Type := {
  trsv : UpLo -> Trans -> Diag -> DenseM -> DenseM -> DenseM
}.

Section Solve.
Context {S : Scalar} {L : DenseLib} {VL : VectorLib}.

(** Modelled from the spec: [gemv] is the BLAS matrix-vector multiply, an
    external collaborator as [gemm] is (spec 1 and 2); its contract is the
    one of [gemm] on a right-hand side of one column:
    [y := alpha * op(A) * x + beta * y]. *)
Definition gemv (ta : Trans) (alpha : scalar) (A x : DenseM) (beta : scalar)
  (y : DenseM) : DenseM :=
  gemm ta TransN alpha A x beta y.

(** [FrontalMatrixDense::fwd_solve_phase2(b, bupd, etree_level,
    task_depth)] (lines 1156-1174).  [bloc] is a view of the rows of [b]
    that belong to the separator, so what is done to it is done to [b].
    Returns [b] and [bupd]. *)
Definition fwd_solve_phase2 (this : FrontalMatrixDense) (b bupd : DenseM)
  : DenseM * DenseM :=
  if negb (dim_sep this =? 0) then
    let bloc := mview (dim_sep this) (cols b) b (sep_begin_ this) 0 in
    let bloc1 := laswp (piv this) true bloc in
    if cols b =? 1 then
      let bloc2 := trsv UpLoL TransN DiagU (F11_ this) bloc1 in
      let bupd1 :=
        if negb (dim_upd this =? 0)
        then gemv TransN (sopp sone) (F21_ this) bloc2 sone bupd
        else bupd in
      (mwrite_block b (sep_begin_ this) 0 bloc2, bupd1)
    else
      let bloc2 := trsm SideL UpLoL TransN DiagU sone (F11_ this) bloc1 in
      let bupd1 :=
        if negb (dim_upd this =? 0)
        then gemm TransN TransN (sopp sone) (F21_ this) bloc2 sone bupd
        else bupd in
      (mwrite_block b (sep_begin_ this) 0 bloc2, bupd1)
  else (b, bupd).

(** [FrontalMatrixDense::bwd_solve_phase1(y, yupd, etree_level,
    task_depth)] (lines 1195-1212).  Returns [y]. *)
Definition bwd_solve_phase1 (this : FrontalMatrixDense) (y yupd : DenseM)
  : DenseM :=
  if negb (dim_sep this =? 0) then
    let yloc := mview (dim_sep this) (cols y) y (sep_begin_ this) 0 in
    if cols y =? 1 then
      let yloc1 :=
        if negb (dim_upd this =? 0)
        then gemv TransN (sopp sone) (F12_ this) yupd sone yloc
        else yloc in
      let yloc2 := trsv UpLoU TransN DiagN (F11_ this) yloc1 in
      mwrite_block y (sep_begin_ this) 0 yloc2
    else
      let yloc1 :=
        if negb (dim_upd this =? 0)
        then gemm TransN TransN (sopp sone) (F12_ this) yupd sone yloc
        else yloc in
      let yloc2 := trsm SideL UpLoU TransN DiagN sone (F11_ this) yloc1 in
      mwrite_block y (sep_begin_ this) 0 yloc2
  else y.

End Solve.

(** ** Rows of a HODLR matrix (HODLR/HODLRMatrix.hpp, carried inside
    [runYang_Formula.sh]) *)

Section HODLRRows.

Local Notation "x <-- m ;; k" := (obind m (fun x => k))
  (at level 61, m at next level, right associativity).

(** The end of the three constructors (lines 474-478, 543-547 and
    616-620): [perm_] is shifted from the numbering of Fortran to the one
    of C, [MPI_Bcast] hands the values of rank 0 to every rank, and
    [iperm_[perm_[i]] = i] is set for [i < rows_].  [perm_root] is [perm_]
    as the Fortran code returned it on rank 0.  Returns [perm_] and
    [iperm_]. *)
Definition HODLR_permutation (rows_ : Z) (perm_root : list Z)
  : option (list Z * list Z) :=
  let perm_ := map (fun i => int_sub i 1) perm_root in
  iperm <-- for_range_opt 0 rows_
              (fun i iperm =>
                 p <-- vec_get perm_ i ;; vec_store iperm (wrap_size p) i)
              (repeat 0 (Z.to_nat rows_)) ;;
  Some (perm_, iperm).

(** The end of the three constructors (lines 481-487, 550-556 and
    623-629): [dist_] has [P + 1] entries, zero at first; [MPI_Allgather]
    puts the [lrows_] of the ranks, [all_lrows], into the entries 1 to
    [P]; the loop accumulates them. *)
Definition HODLR_distribution (P : Z) (all_lrows : list Z) : option (list Z) :=
  for_range_opt 0 P
    (fun p dist =>
       a <-- vec_get dist (p + 1) ;;
       b <-- vec_get dist p ;;
       vec_store dist (p + 1) (int_add a b))
    (0 :: all_lrows).

(** [std::upper_bound(first, last, x)] on a range that is sorted: the
    first position whose element is greater than [x]. *)
Fixpoint upper_bound (v : list Z) (x : Z) : Z :=
  match v with
  | [] => 0
  | y :: v' => if y <=? x then 1 + upper_bound v' x else 0
  end.

(** [-1 + std::distance(dist_.begin(), std::upper_bound(dist_.begin(),
    dist_.end(), gr))] (lines 776-778 and 855-856): the rank that row [gr]
    is sent to. *)
Definition row_owner (dist_ : list Z) (gr : Z) : Z :=
  -1 + upper_bound dist_ gr.

(** [begin_row()] and [end_row()] (lines 253 and 258) of the given
    rank. *)
Definition begin_row (dist_ : list Z) (rank : Z) : Z := vec_at dist_ rank.
Definition end_row (dist_ : list Z) (rank : Z) : Z := vec_at dist_ (rank + 1).

End HODLRRows.

(** ** The quality of the approximate neighbours
    (clustering/NeighborSearch_MPI.hpp) *)

Section CheckQuality.

Local Notation "x <-- m ;; k" := (obind m (fun x => k))
  (at level 61, m at next level, right associativity).

(** The [while (r2 < ann_number)] loop of [check_quality_MPI] for the
    sample [j], which is the point [i]: the approximate neighbours of [i]
    are matched, in their order, against the true neighbours.  [r2] grows
    by one in every round, so [ann_number] rounds are the most the loop
    can make; [None] is an access outside a matrix (or more rounds than
    given).  Returns [num_nei_found]. *)
Fixpoint match_neighbors (rounds : nat) (neighbors n_neighbors : DenseMatrix Z)
  (ann_number i j : Z) (r1 r2 num_nei_found : Z) : option Z :=
  if r2 <? ann_number then
    match rounds with
    | O => None
    | Datatypes.S rounds' =>
        a <-- mat_get neighbors r1 i ;;
        b <-- mat_get n_neighbors r2 j ;;
        if a =? b then
          match_neighbors rounds' neighbors n_neighbors ann_number i j
            (size_add r1 1) (size_add r2 1) (int_add num_nei_found 1)
        else
          match_neighbors rounds' neighbors n_neighbors ann_number i j
            r1 (size_add r2 1) num_nei_found
    end
  else Some num_nei_found.

(** [check_quality_MPI(data, neighbors, generator)] (lines 388-420), up to
    the average: the values of [num_nei_found] of the samples, whose
    quotients by [ann_number] are added up in [double].  [samples] are the
    values drawn from [std::uniform_int_distribution<std::size_t>(0, n)]
    and [n_neighbors] is what [find_true_nn_MPI] returns for them
    ([std::partial_sort] on the distances); both are parameters. *)
Definition check_quality_MPI_counts (neighbors : DenseMatrix Z)
  (samples : list Z) (n_neighbors : DenseMatrix Z) : option (list Z) :=
  let ann_number := rows neighbors in
  let nr_samples := 100 in
  for_range_opt 0 nr_samples
    (fun j counts =>
       i <-- vec_get samples j ;;
       num <-- match_neighbors (Z.to_nat ann_number) neighbors n_neighbors
                 ann_number i j 0 0 0 ;;
       Some (counts ++ [num]))
    [].

End CheckQuality.

(** ** Prediction with a kernel (kernel/KernelRegression.hpp) *)

Section Predict.
Context {S : Scalar}.

Local Notation "x <-- m ;; k" := (obind m (fun x => k))
  (at level 61, m at next level, right associativity).

(** [test.ptr(0, c)]: the [d()] features of the test point [c]. *)
Definition test_ptr (K : Kernel) (test : DenseM) (c : Z) : list scalar :=
  map (fun k => elt test k c) (range 0 (kernel_d K)).

(** [Kernel::predict(test, weights)] (lines 129-139); [None] is the failed
    [assert(test.rows() == d())] or an access outside [weights] or
    [prediction].  The OpenMP loop is run in index order. *)
Definition predict (K : Kernel) (test weights : DenseM)
  : option (list scalar) :=
  if rows test =? kernel_d K then
    for_range_opt 0 (cols test)
      (fun c prediction =>
         for_range_opt 0 (kernel_n K)
           (fun r prediction1 =>
              p <-- vec_get prediction1 c ;;
              w <-- mat_get weights r 0 ;;
              vec_store prediction1 c
                (sadd p
                   (smul w
                      (eval_kernel_function K (data_ptr K r)
                         (test_ptr K test c)))))
           prediction)
      (repeat szero (Z.to_nat (cols test)))
  else None.

End Predict.

(* ===================================================================== *)
(** * Part 2: the vocabulary of the properties                           *)
(* ===================================================================== *)

(** What the statements of Part 4 are written with.  These definitions
    follow the wording of the specification; Part 4 relates them to the
    definitions of Part 1. *)

(** The start of the range of [rank], as a plain integer expression. *)
Definition leaf_start (n p rank : Z) : Z :=
  rank * (n / p) + Z.min rank (n mod p).

Section ConstructorSpec.
Context {S : Scalar} {L : DenseLib} {BL : HSSBasisLib}.

(** Every leaf of the tree has at most [bound] rows and columns. *)
Fixpoint leaves_bounded (bound : Z) (h : HSSMatrix) : Prop :=
  match h with
  | Leaf d => _rows d <= bound /\ _cols d <= bound
  | Node _ ch0 ch1 => leaves_bounded bound ch0 /\ leaves_bounded bound ch1
  end.

(** Every node is in its initial state and the dimensions of an internal
    node are the sums of those of its children. *)
Fixpoint fresh (h : HSSMatrix) : Prop :=
  match h with
  | Leaf d => d = HSSMatrixBase (_rows d) (_cols d) true /\
              0 <= _rows d /\ 0 <= _cols d
  | Node d ch0 ch1 =>
      d = HSSMatrixBase (_rows d) (_cols d) true /\
      _rows d = _rows (node_data ch0) + _rows (node_data ch1) /\
      _cols d = _cols (node_data ch0) + _cols (node_data ch1) /\
      fresh ch0 /\ fresh ch1
  end.

(** Every node of the tree satisfies [P]. *)
Fixpoint all_nodes (P : HSSNode -> Prop) (h : HSSMatrix) : Prop :=
  match h with
  | Leaf d => P d
  | Node d ch0 ch1 => P d /\ all_nodes P ch0 /\ all_nodes P ch1
  end.

(** The blocks of the tree are square. *)
Definition square (h : HSSMatrix) : Prop :=
  all_nodes (fun d => _rows d = _cols d) h.

End ConstructorSpec.

(** A loop whose body may fail, over the indices of [range]. *)
Definition opt_step {St : Type} (body : Z -> St -> option St)
  (acc : option St) (k : Z) : option St :=
  match acc with
  | Some st => body k st
  | None => None
  end.

Section ExtendAddSpec.
Context {S : Scalar} {L : DenseLib} {FB : FrontalBase}.

(** The four quadrants of the parent front. *)
Inductive Quadrant : Type := Q11 | Q12 | Q21 | Q22.

Definition Quadrant_eqb (a b : Quadrant) : bool :=
  match a, b with
  | Q11, Q11 => true
  | Q12, Q12 => true
  | Q21, Q21 => true
  | Q22, Q22 => true
  | _, _ => false
  end.

(** The quadrant mapping as the specification words it: with [pr = I[r]]
    and [pc = I[c]], the entry goes to F11 at [(pr, pc)] when both are
    below [dim_sep], to F21 at [(pr - dim_sep, pc)] when only [pc] is, to
    F12 at [(pr, pc - dim_sep)] when only [pr] is, and to F22 at
    [(pr - dim_sep, pc - dim_sep)] otherwise. *)
Definition quadrant_target (dsep pr pc : Z) : Quadrant * Z * Z :=
  if (pr <? dsep) && (pc <? dsep) then (Q11, pr, pc)
  else if pc <? dsep then (Q21, pr - dsep, pc)
  else if pr <? dsep then (Q12, pr, pc - dsep)
  else (Q22, pr - dsep, pc - dsep).

Definition target_eqb (a b : Quadrant * Z * Z) : bool :=
  Quadrant_eqb (fst (fst a)) (fst (fst b))
  && (snd (fst a) =? snd (fst b)) && (snd a =? snd b).

Definition block (q : Quadrant) (pa : ParentBlocks) : DenseM :=
  match q with
  | Q11 => paF11 pa
  | Q12 => paF12 pa
  | Q21 => paF21 pa
  | Q22 => paF22 pa
  end.

(** Adding [x] to one entry of one quadrant. *)
Definition add_to (t : Quadrant * Z * Z) (x : scalar) (pa : ParentBlocks)
  : ParentBlocks :=
  let '(q, i, j) := t in
  match q with
  | Q11 => mkBlocks (madd_at (paF11 pa) i j x) (paF12 pa) (paF21 pa) (paF22 pa)
  | Q12 => mkBlocks (paF11 pa) (madd_at (paF12 pa) i j x) (paF21 pa) (paF22 pa)
  | Q21 => mkBlocks (paF11 pa) (paF12 pa) (madd_at (paF21 pa) i j x) (paF22 pa)
  | Q22 => mkBlocks (paF11 pa) (paF12 pa) (paF21 pa) (madd_at (paF22 pa) i j x)
  end.

(** The entries [(r, c)] of the child's F22 in the order of the loops:
    column after column, each column from the first row to the last. *)
Definition child_entries (dupd : Z) : list (Z * Z) :=
  flat_map (fun c => map (fun r => (r, c)) (range 0 dupd)) (range 0 dupd).

(** The child entries that the mapping sends to entry [(i, j)] of quadrant
    [q], in the order of the loops. *)
Definition contributions (F22 : DenseM) (I : list Z) (dsep dupd : Z)
  (q : Quadrant) (i j : Z) : list scalar :=
  map (fun rc => elt F22 (fst rc) (snd rc))
    (filter
       (fun rc =>
          target_eqb
            (quadrant_target dsep (vec_at I (fst rc)) (vec_at I (snd rc)))
            (q, i, j))
       (child_entries dupd)).

(** What [upd_to_parent] has to deliver for [extend_add_to_dense]: the
    first [upd2sep] indices lie in the parent's separator, the others in its
    update range. *)
Definition splits_at_separator (I : list Z) (upd2sep dsep dupd : Z) : Prop :=
  0 <= dsep /\ 0 <= upd2sep <= dupd /\
  (forall r, 0 <= r < upd2sep -> 0 <= vec_at I r < dsep) /\
  (forall r, upd2sep <= r < dupd -> dsep <= vec_at I r <= SIZE_MAX).

End ExtendAddSpec.

Section UpdToParentSpec.
Context {S : Scalar}.

(** The position of [x] in [l]; the length of [l] when [x] is not in it. *)
Fixpoint index_of (x : Z) (l : list Z) : Z :=
  match l with
  | [] => 0
  | y :: l' => if y =? x then 0 else 1 + index_of x l'
  end.

(** Modelled from the spec: [FrontalMatrix::upd_to_parent] is declared in
    FrontalMatrix.hpp, which is not part of the sources at hand.  Spec 4.4:
    "index mapping via upd_to_parent, which locates each child-update index
    either within the parent's separator range or its update range"; an
    index of the separator range is counted from [sep_begin], an index of
    the update range from [dim_sep] on, by its position in the parent's
    update list.  [upd2sep] is the number of child-update indices that lie
    in the parent's separator range. *)
Definition locate_in_parent (p : FrontalMatrixDense) (up : Z) : Z :=
  if up <? sep_end_ p then up - sep_begin_ p
  else dim_sep p + index_of up (upd_ p).

(** Modelled from the spec: the result of [upd_to_parent(p, upd2sep)], the
    located update indices of the child in their order, together with
    [upd2sep]. *)
Definition upd_to_parent_spec (this p : FrontalMatrixDense) : list Z * Z :=
  (map (locate_in_parent p) (upd_ this),
   vec_size (filter (fun up => up <? sep_end_ p) (upd_ this))).

(** Spec 3: the update indices of a front are sorted and "exactly match a
    sorted subset of the parent's own sep U upd". *)
Definition child_front_of (this p : FrontalMatrixDense) : Prop :=
  StronglySorted Z.lt (upd_ this) /\
  (forall up, In up (upd_ this) ->
     sep_begin_ p <= up /\ (sep_end_ p <= up -> In up (upd_ p))) /\
  0 <= dim_sep p /\
  dim_sep p + vec_size (upd_ p) <= SIZE_MAX.

End UpdToParentSpec.

Section Phase2Spec.
Context {S : Scalar} {L : DenseLib}.

(** The value a diagonal entry [x] has after the tiny-pivot loop. *)
Definition tiny_pivot_value (thresh : Q) (x : scalar) : scalar :=
  if sabs_lt x thresh then
    if Qlt_bool (sreal x) 0 then of_real (- thresh)%Q else of_real thresh
  else x.

(** The two factors that a factored matrix holds in place: the lower
    triangle with ones on the diagonal, and the upper triangle with the
    diagonal. *)
Definition unit_lower (A : DenseM) : DenseM :=
  mkDenseM (rows A) (cols A)
    (fun i j => if j <? i then elt A i j else if j =? i then sone else szero).

Definition upper (A : DenseM) : DenseM :=
  mkDenseM (rows A) (cols A)
    (fun i j => if i <=? j then elt A i j else szero).

End Phase2Spec.

(** The sum of [f l] over the indices [l] of a list, over the rationals. *)
Definition Qsigma (f : Z -> Q) (ls : list Z) : Q :=
  fold_right Qplus 0%Q (map f ls).

Section StatesSpec.
Context {S : Scalar} {L : DenseLib} {BL : HSSBasisLib}.

(** The order UNTOUCHED -> PARTIALLY_COMPRESSED -> COMPRESSED. *)
Definition state_rank (s : State) : Z :=
  match s with
  | UNTOUCHED => 0
  | PARTIALLY_COMPRESSED => 1
  | COMPRESSED => 2
  end.

Definition state_le (a b : State) : Prop := state_rank a <= state_rank b.

Definition node_advances (d d' : HSSNode) : Prop :=
  state_le (_U_state d) (_U_state d') /\ state_le (_V_state d) (_V_state d').

(** The two trees have the same shape and no node of the second one is in
    an earlier state than the same node of the first one. *)
Fixpoint states_advance (h h' : HSSMatrix) : Prop :=
  match h, h' with
  | Leaf d, Leaf d' => node_advances d d'
  | Node d ch0 ch1, Node d' ch0' ch1' =>
      node_advances d d' /\ states_advance ch0 ch0' /\ states_advance ch1 ch1'
  | _, _ => False
  end.

End StatesSpec.

Section AcceptanceSpec.
Context {S : Scalar} {L : DenseLib} {BL : HSSBasisLib}.

(** The sample matrix of a node and the rank that [ID_row] finds in it. *)
Definition node_samples_matrix (v : SourceCopy) (ann : DenseMatrix Z)
  (scores : DenseMatrix Q) (Aelem : elem_t) (opts : HSSOptions)
  (is_leaf : bool) (d : HSSNode) (w : WorkCompressANN) : DenseM :=
  w_S (compute_local_samples_ann v ann scores w Aelem opts is_leaf (_rows d)).

Definition node_rank (v : SourceCopy) (ann : DenseMatrix Z)
  (scores : DenseMatrix Q) (Aelem : elem_t) (opts : HSSOptions)
  (is_leaf : bool) (d : HSSNode) (w : WorkCompressANN) : Z :=
  let S0 := node_samples_matrix v ann scores Aelem opts is_leaf d w in
  let idr := ID_row S0 (rel_tol opts / inject_Z (w_lvl w))%Q
               (abs_tol opts / inject_Z (w_lvl w))%Q (max_rank opts) in
  basis_cols (mkBasis (fst (fst idr)) (snd (fst idr))).

End AcceptanceSpec.

Section DenseHSSSpec.
Context {S : Scalar} {L : DenseLib} {BL : HSSBasisLib}.

(** The generators aggregated over the children, as the specification
    describes them: the generator of a leaf is its own basis; the one of an
    internal node stacks the children's aggregated generators, each
    multiplied by its rows of the node's own basis. *)
Fixpoint Ubig (h : HSSMatrix) : DenseM :=
  match h with
  | Leaf d => basis_dense (_U d)
  | Node d ch0 ch1 =>
      let U0 := Ubig ch0 in
      let U1 := Ubig ch1 in
      let Ud := basis_dense (_U d) in
      let r0 := _U_rank (node_data ch0) in
      let r1 := _U_rank (node_data ch1) in
      let m0 := _rows (node_data ch0) in
      mkDenseM (_rows d) (_U_rank d)
        (fun i j =>
           if i <? m0 then elt (mmul U0 (mview r0 (cols Ud) Ud 0 0)) i j
           else elt (mmul U1 (mview r1 (cols Ud) Ud r0 0)) (i - m0) j)
  end.

Fixpoint Vbig (h : HSSMatrix) : DenseM :=
  match h with
  | Leaf d => basis_dense (_V d)
  | Node d ch0 ch1 =>
      let V0 := Vbig ch0 in
      let V1 := Vbig ch1 in
      let Vd := basis_dense (_V d) in
      let r0 := _V_rank (node_data ch0) in
      let r1 := _V_rank (node_data ch1) in
      let n0 := _cols (node_data ch0) in
      mkDenseM (_cols d) (_V_rank d)
        (fun i j =>
           if i <? n0 then elt (mmul V0 (mview r0 (cols Vd) Vd 0 0)) i j
           else elt (mmul V1 (mview r1 (cols Vd) Vd r0 0)) (i - n0) j)
  end.

(** The transpose of a matrix with [cj] applied to every entry: the
    transpose for [cj] the identity, the conjugate transpose for [cj] the
    conjugation. *)
Definition transpose_by (cj : scalar -> scalar) (A : DenseM) : DenseM :=
  mkDenseM (cols A) (rows A) (fun i j => cj (elt A j i)).

(** The matrix an HSS tree stands for: the [D] of a leaf, and for an
    internal node [[D00, U0 * B01 * V1'], [U1 * B10 * V0', D11]], where
    [V'] is [transpose_by cj V]. *)
Fixpoint hss_dense_by (cj : scalar -> scalar) (h : HSSMatrix) : DenseM :=
  match h with
  | Leaf d => _D d
  | Node d ch0 ch1 =>
      let m0 := _rows (node_data ch0) in
      let n0 := _cols (node_data ch0) in
      let A01 :=
        mmul (Ubig ch0) (mmul (_B01 d) (transpose_by cj (Vbig ch1))) in
      let A10 :=
        mmul (Ubig ch1) (mmul (_B10 d) (transpose_by cj (Vbig ch0))) in
      mkDenseM (_rows d) (_cols d)
        (fun i j =>
           if i <? m0 then
             if j <? n0 then elt (hss_dense_by cj ch0) i j
             else elt A01 i (j - n0)
           else
             if j <? n0 then elt A10 (i - m0) j
             else elt (hss_dense_by cj ch1) (i - m0) (j - n0))
  end.

(** In the words of the specification, with the plain transpose:
    [[D00, U0 * B01 * V1^t], [U1 * B10 * V0^t, D11]]. *)
Definition hss_dense : HSSMatrix -> DenseM := hss_dense_by (fun x => x).

(** With the conjugate transpose, [[D00, U0 * B01 * V1^H],
    [U1 * B10 * V0^H, D11]]. *)
Definition hss_dense_conj : HSSMatrix -> DenseM := hss_dense_by sconj.

(** The dimensions of the blocks of an HSS tree fit together. *)
Fixpoint hss_wf (h : HSSMatrix) : Prop :=
  match h with
  | Leaf d =>
      0 <= _rows d /\ 0 <= _cols d /\
      rows (_D d) = _rows d /\ cols (_D d) = _cols d
  | Node d ch0 ch1 =>
      _rows d = _rows (node_data ch0) + _rows (node_data ch1) /\
      _cols d = _cols (node_data ch0) + _cols (node_data ch1) /\
      rows (Ubig ch0) = _rows (node_data ch0) /\
      rows (Ubig ch1) = _rows (node_data ch1) /\
      rows (Vbig ch0) = _cols (node_data ch0) /\
      rows (Vbig ch1) = _cols (node_data ch1) /\
      rows (_B01 d) = cols (Ubig ch0) /\ cols (_B01 d) = cols (Vbig ch1) /\
      rows (_B10 d) = cols (Ubig ch1) /\ cols (_B10 d) = cols (Vbig ch0) /\
      hss_wf ch0 /\ hss_wf ch1
  end.

(** Two matrices of the same dimensions with the same entries. *)
Definition mat_eq_on (A B : DenseM) : Prop :=
  rows A = rows B /\ cols A = cols B /\
  forall i j, 0 <= i < rows A -> 0 <= j < cols A -> elt A i j = elt B i j.

End DenseHSSSpec.

Section DenseRecursiveSpec.
Context {S : Scalar} {L : DenseLib} {BL : HSSBasisLib}.

(** The scalar type is real: conjugation does nothing ([float], [double]). *)
Definition real_scalars : Prop := forall x : scalar, sconj x = x.

(** What [dense_recursive] has done when it returns: the block of the node
    holds the matrix the tree stands for, the rest of [A] is untouched, and
    below the root the work record holds the aggregated generators. *)
Definition dense_recursive_post (cj : scalar -> scalar) (h : HSSMatrix)
  (A : DenseM) (w : WorkDense) (isroot : bool) (res : DenseM * WorkDense)
  : Prop :=
  let o1 := fst (wd_offset w) in
  let o2 := snd (wd_offset w) in
  let m := _rows (node_data h) in
  let n := _cols (node_data h) in
  rows (fst res) = rows A /\ cols (fst res) = cols A /\
  wd_offset (snd res) = wd_offset w /\
  (forall i j, o1 <= i < o1 + m -> o2 <= j < o2 + n ->
     elt (fst res) i j = elt (hss_dense_by cj h) (i - o1) (j - o2)) /\
  (forall i j, ~ (o1 <= i < o1 + m /\ o2 <= j < o2 + n) ->
     elt (fst res) i j = elt A i j) /\
  (isroot = false ->
     mat_eq_on (wd_tmpU (snd res)) (Ubig h) /\
     mat_eq_on (wd_tmpV (snd res)) (Vbig h)).

End DenseRecursiveSpec.

Section CompressStructureSpec.
Context {S : Scalar} {L : DenseLib} {BL : HSSBasisLib}.

(** The element oracle fills the matrix it is given and leaves its
    dimensions alone. *)
Definition oracle_keeps_dims (Aelem : elem_t) : Prop :=
  forall I J B, rows (Aelem I J B) = rows B /\ cols (Aelem I J B) = cols B.

(** The element oracle extracts the entries of the matrix [A] of order
    [n]: called with valid indices and a [B] of matching dimensions, it
    sets [B(i,j) = A(I[i], J[j])]. *)
Definition oracle_for (A : Z -> Z -> scalar) (n : Z) (Aelem : elem_t) : Prop :=
  forall I J B,
    rows B = vec_size I -> cols B = vec_size J ->
    vec_size I <= INT_MAX -> vec_size J <= INT_MAX ->
    (forall x, In x I -> 0 <= x < n) -> (forall x, In x J -> 0 <= x < n) ->
    forall i j, 0 <= i < vec_size I -> 0 <= j < vec_size J ->
      elt (Aelem I J B) i j = A (vec_at I i) (vec_at J j).

(** The dimensions that the basis class and the interpolative
    decomposition, both outside the sources at hand, are expected to
    deliver: [U.dense()] is [U.rows() x U.cols()], and the basis computed
    from a sample matrix has as many rows as that matrix. *)
Definition basis_dims_ok : Prop :=
  (forall B, rows (basis_dense B) = basis_rows B /\
             cols (basis_dense B) = basis_cols B) /\
  (forall S0 rtol atol mr,
     basis_rows (mkBasis (fst (fst (ID_row S0 rtol atol mr)))
                   (snd (fst (ID_row S0 rtol atol mr)))) = rows S0).

(** The index range [off, off + m) of a leaf, as the code builds it. *)
Definition leaf_index_range (off m : Z) : list Z :=
  map (fun i => size_add i off) (range 0 m).

(** Every leaf holds the block that the oracle extracted for its own row
    and column index ranges. *)
Fixpoint leaves_extracted (Aelem : elem_t) (h : HSSMatrix) (off : Z * Z)
  : Prop :=
  match h with
  | Leaf d =>
      _D d = Aelem (leaf_index_range (fst off) (_rows d))
               (leaf_index_range (snd off) (_cols d))
               (DenseM_new (_rows d) (_cols d))
  | Node d ch0 ch1 =>
      leaves_extracted Aelem ch0 off /\
      leaves_extracted Aelem ch1 (pair_add off (dims (node_data ch0)))
  end.

(** Every leaf holds the entries of [A] of its own row and column index
    ranges: [D(i,j) = A(ro + i, co + j)]. *)
Fixpoint leaves_exact (A : Z -> Z -> scalar) (h : HSSMatrix) (ro co : Z)
  : Prop :=
  match h with
  | Leaf d =>
      rows (_D d) = _rows d /\ cols (_D d) = _cols d /\
      forall i j, 0 <= i < _rows d -> 0 <= j < _cols d ->
        elt (_D d) i j = A (ro + i) (co + j)
  | Node d ch0 ch1 =>
      leaves_exact A ch0 ro co /\
      leaves_exact A ch1 (ro + _rows (node_data ch0)) (co + _cols (node_data ch0))
  end.

(** The aggregated generators of a node have the dimensions recorded in
    the node. *)
Definition gen_dims (h : HSSMatrix) : Prop :=
  rows (Ubig h) = _rows (node_data h) /\
  cols (Ubig h) = _U_rank (node_data h) /\
  rows (Vbig h) = _cols (node_data h) /\
  cols (Vbig h) = _V_rank (node_data h).

(** What one pass of the src/HSS copy makes of a tree fresh from the
    constructor. *)
Definition compressed_tree (Aelem : elem_t) (h h' : HSSMatrix)
  (w : WorkCompressANN) : Prop :=
  _rows (node_data h') = _rows (node_data h) /\
  _cols (node_data h') = _cols (node_data h) /\
  is_compressed (node_data h') = true /\
  hss_wf h' /\
  leaves_extracted Aelem h' (w_offset w) /\
  (w_lvl w <> 0 -> gen_dims h').

(** The block of [M] at [(ro, co)] is the matrix the tree stands for, and
    so is, in turn, the block of every node of the tree. *)
Fixpoint blocks_reconstructed_by (cj : scalar -> scalar) (M : DenseM)
  (h : HSSMatrix) (ro co : Z) : Prop :=
  (forall i j, 0 <= i < _rows (node_data h) -> 0 <= j < _cols (node_data h) ->
     elt M (ro + i) (co + j) = elt (hss_dense_by cj h) i j) /\
  match h with
  | Leaf _ => True
  | Node d ch0 ch1 =>
      blocks_reconstructed_by cj M ch0 ro co /\
      blocks_reconstructed_by cj M ch1 (ro + _rows (node_data ch0))
        (co + _cols (node_data ch0))
  end.

(** In the words of the specification: for an internal node with children
    0 and 1 the block is [[D00, U0 * B01 * V1^t], [U1 * B10 * V0^t, D11]]. *)
Definition blocks_reconstructed : DenseM -> HSSMatrix -> Z -> Z -> Prop :=
  blocks_reconstructed_by (fun x => x).

(** The same with the conjugate transposes [V1^H] and [V0^H]. *)
Definition blocks_reconstructed_conj : DenseM -> HSSMatrix -> Z -> Z -> Prop :=
  blocks_reconstructed_by sconj.

End CompressStructureSpec.

(** ** The tree of the constructor *)

Section CtorSpec.
Context {S : Scalar} {L : DenseLib} {BL : HSSBasisLib}.

(** The leaves of a tree, from left to right. *)
Fixpoint leaf_nodes (h : HSSMatrix) : list HSSNode :=
  match h with
  | Leaf d => [d]
  | Node _ ch0 ch1 => leaf_nodes ch0 ++ leaf_nodes ch1
  end.

(** The sum of [f] over a list of nodes. *)
Definition total (f : HSSNode -> Z) (l : list HSSNode) : Z :=
  fold_right (fun d s => f d + s) 0 l.

End CtorSpec.

(** ** Trees after a compression pass *)

Section PassSpec.
Context {S : Scalar} {L : DenseLib} {BL : HSSBasisLib}.

(** A compressed node has compressed children, at every node of the
    tree. *)
Fixpoint compressed_closed (h : HSSMatrix) : Prop :=
  match h with
  | Leaf _ => True
  | Node d ch0 ch1 =>
      (is_compressed d = true ->
       is_compressed (node_data ch0) = true /\
       is_compressed (node_data ch1) = true) /\
      compressed_closed ch0 /\ compressed_closed ch1
  end.

(** The two trees have the same shape and the same [D], [B01] and [B10]
    at every node. *)
Fixpoint same_blocks (h h' : HSSMatrix) : Prop :=
  match h, h' with
  | Leaf d, Leaf d' => _D d' = _D d
  | Node d ch0 ch1, Node d' ch0' ch1' =>
      _B01 d' = _B01 d /\ _B10 d' = _B10 d /\
      same_blocks ch0 ch0' /\ same_blocks ch1 ch1'
  | _, _ => False
  end.

(** Wherever both children of a node are compressed, the node's [B10]
    is the transpose of its [B01]. *)
Fixpoint transposed_generators (h : HSSMatrix) : Prop :=
  match h with
  | Leaf _ => True
  | Node d ch0 ch1 =>
      (is_compressed (node_data ch0) = true ->
       is_compressed (node_data ch1) = true ->
       _B10 d = mtranspose (_B01 d)) /\
      transposed_generators ch0 /\ transposed_generators ch1
  end.

End PassSpec.

(** ** Distance matrices *)

Section DistanceSpec.
Context {S : Scalar}.
Variable metric : Z -> list scalar -> list scalar -> Q.

(** The metric applied to the points at the positions [a] and [b] of the
    subset. *)
Definition pair_distance (data : DenseM) (index_subset : list Z) (a b : Z) : Q :=
  metric (rows data) (column_ptr data (vec_at index_subset a))
    (column_ptr data (vec_at index_subset b)).

End DistanceSpec.

(** ** Merged neighbour lists *)

(** [v[k]] on a vector of reals. *)
Definition qvec_at (v : list Q) (k : Z) : Q := nth (Z.to_nat k) v 0%Q.

Section MergeSpec.
Variable neighbors : DenseMatrix Z.
Variable scores : DenseMatrix Q.
Variable new_neighbors : DenseMatrix Z.
Variable new_scores : DenseMatrix Q.

(** The four matrices have the dimensions of [neighbors]. *)
Definition same_shape : Prop :=
  rows scores = rows neighbors /\ cols scores = cols neighbors /\
  rows new_neighbors = rows neighbors /\
  cols new_neighbors = cols neighbors /\
  rows new_scores = rows neighbors /\ cols new_scores = cols neighbors.

(** The pair [p] of a neighbour and its score stands in column [c] of the
    old or of the new matrices, at a row not below [k]. *)
Definition from_inputs (c k : Z) (p : Z * Q) : Prop :=
  exists r, 0 <= r <= k /\
    (p = (elt neighbors r c, elt scores r c) \/
     p = (elt new_neighbors r c, elt new_scores r c)).

(** The scores of column [c] do not decrease down the column. *)
Definition column_sorted (Sc : DenseMatrix Q) (c : Z) : Prop :=
  forall i j, 0 <= i <= j -> j < rows Sc -> (elt Sc i c <= elt Sc j c)%Q.

(** What holds of the local variables in every round of the first loop. *)
Definition merge_inv (c ann_number : Z) (st : MergeState) : Prop :=
  0 <= m_r1 st <= m_cur st /\ 0 <= m_r2 st <= m_cur st /\
  m_cur st <= ann_number /\
  vec_size (cur_neighbors st) = ann_number /\
  vec_size (cur_scores st) = ann_number /\
  (forall k, 0 <= k < m_cur st ->
     from_inputs c k (vec_at (cur_neighbors st) k, qvec_at (cur_scores st) k)) /\
  (column_sorted scores c -> column_sorted new_scores c ->
   (forall k, 0 <= k < m_cur st ->
      (m_r1 st < ann_number ->
       (qvec_at (cur_scores st) k <= elt scores (m_r1 st) c)%Q) /\
      (m_r2 st < ann_number ->
       (qvec_at (cur_scores st) k <= elt new_scores (m_r2 st) c)%Q) /\
      (qvec_at (cur_scores st) k <= elt scores k c)%Q /\
      (qvec_at (cur_scores st) k <= elt new_scores k c)%Q) /\
   (forall k k', 0 <= k <= k' -> k' < m_cur st ->
      (qvec_at (cur_scores st) k <= qvec_at (cur_scores st) k')%Q)).

End MergeSpec.

(** ** Projection trees *)

(** The entries that [leaf_sizes] gets for leaves of the given sizes,
    after an entry [prev]. *)
Fixpoint cumulative (prev : Z) (sizes : list Z) : list Z :=
  match sizes with
  | [] => []
  | s :: sizes' => (prev + s) :: cumulative (prev + s) sizes'
  end.

Definition Zsum (l : list Z) : Z := fold_right Z.add 0 l.

(** ** The sample columns of a node *)

(** The test of the loop at the end of the selection of the sample
    columns, [w.ids_scores[z].first <= w.ids_scores[z - 1].first], fails
    at every [z]: the ids grow strictly. *)
Definition ids_increasing (ids : list (Z * Q)) : Prop :=
  forall z, 1 <= z < vec_size ids ->
    fst (ids_at ids (z - 1)) < fst (ids_at ids z).

(** The id is outside the index range [off, off + rws) of the node, as the
    code compares it. *)
Definition outside_node (off rws : Z) (e : Z * Q) : Prop :=
  fst e < off \/ fst e >= size_add off rws.

(* ===================================================================== *)
(** * Part 3: reference instances and inputs of the examples             *)
(* ===================================================================== *)

(** Executable stand-ins, over exact rationals, for what the sources take
    from outside: textbook LU with partial pivoting, row interchanges and
    the two triangular solves that [factor_phase2] calls, a trivial
    interpolative decomposition, the dense form of a basis, and the index
    mapping of the specification.  They make the model run on small
    inputs; no theorem of Part 4 depends on them. *)

Module Reference.

Local Open Scope Q_scope.

Definition to_rows (A : DenseMatrix Q) : list (list Q) :=
  map (fun i => map (fun j => elt A i j) (range 0 (cols A)))
    (range 0 (rows A)).

Definition of_rows (m n : Z) (ll : list (list Q)) : DenseMatrix Q :=
  mkDenseMatrix m n
    (fun i j =>
       if ((0 <=? i) && (i <? m) && (0 <=? j) && (j <? n))%Z
       then nth (Z.to_nat j) (nth (Z.to_nat i) ll []) 0
       else 0).

(** The same matrix with its entries evaluated once and stored. *)
Definition force (A : DenseMatrix Q) : DenseMatrix Q :=
  of_rows (rows A) (cols A) (map (map Qred) (to_rows A)).

Definition Qsum (xs : list Q) : Q := fold_left Qplus xs 0.

Definition swap_rows (A : DenseMatrix Q) (a b : Z) : DenseMatrix Q :=
  mkDenseMatrix (rows A) (cols A)
    (fun i j =>
       if (i =? a)%Z then elt A b j
       else if (i =? b)%Z then elt A a j else elt A i j).

(** The first row at or below [k] whose entry in column [k] has the
    largest magnitude. *)
Definition pivot_row (A : DenseMatrix Q) (k : Z) : Z :=
  fold_left
    (fun best i =>
       if Qlt_bool (Qabs (elt A best k)) (Qabs (elt A i k)) then i else best)
    (range (k + 1) (rows A)) k.

Definition eliminate (A : DenseMatrix Q) (k : Z) : DenseMatrix Q :=
  if Qeq_bool (elt A k k) 0 then A
  else
    mkDenseMatrix (rows A) (cols A)
      (fun i j =>
         if ((k <? i) && (i <? rows A))%Z then
           if (j =? k)%Z then elt A i k / elt A k k
           else if (k <? j)%Z
                then elt A i j - (elt A i k / elt A k k) * elt A k j
                else elt A i j
         else elt A i j).

(** LU with partial pivoting; the pivots are numbered from 1 as LAPACK
    does. *)
Definition LU_ref (A : DenseMatrix Q) : DenseMatrix Q * list Z :=
  fold_left
    (fun st k =>
       let p := pivot_row (fst st) k in
       (force (eliminate (swap_rows (fst st) k p) k), snd st ++ [(p + 1)%Z]))
    (range 0 (Z.min (rows A) (cols A))) (force A, []).

Definition laswp_ref (pv : list Z) (fwd : bool) (B : DenseMatrix Q)
  : DenseMatrix Q :=
  let ks := range 0 (vec_size pv) in
  force (fold_left (fun B k => force (swap_rows B k (vec_at pv k - 1)%Z))
           (if fwd then ks else rev ks) B).

(** [L * X = alpha * B] with [L] the unit lower triangle of [A]. *)
Definition trsm_lower_unit (alpha : Q) (A B : DenseMatrix Q) : DenseMatrix Q :=
  fold_left
    (fun X i =>
       force
         (mkDenseMatrix (rows B) (cols B)
            (fun i' j =>
               if (i' =? i)%Z then
                 alpha * elt B i j
                 - Qsum (map (fun l => elt A i l * elt X l j) (range 0 i))
               else elt X i' j)))
    (range 0 (rows B)) (force B).

(** [X * U = alpha * B] with [U] the upper triangle of [A]. *)
Definition trsm_upper_right (alpha : Q) (A B : DenseMatrix Q) : DenseMatrix Q :=
  fold_left
    (fun X j =>
       force
         (mkDenseMatrix (rows B) (cols B)
            (fun i j' =>
               if (j' =? j)%Z then
                 (alpha * elt B i j
                  - Qsum (map (fun l => elt X i l * elt A l j) (range 0 j)))
                 / elt A j j
               else elt X i j')))
    (range 0 (cols B)) (force B).

(** The two variants of [trsm] that [factor_phase2] calls; the matrix is
    returned as it is for the others. *)
Definition trsm_ref (s : Side) (ul : UpLo) (ta : Trans) (d : Diag) (alpha : Q)
  (A B : DenseMatrix Q) : DenseMatrix Q :=
  match s, ul, ta, d with
  | SideL, UpLoL, TransN, DiagU => trsm_lower_unit alpha A B
  | SideR, UpLoU, TransN, DiagN => trsm_upper_right alpha A B
  | _, _, _, _ => B
  end.

(** A trivial interpolative decomposition: the first
    [r = min(rows, cols, max_rank)] rows are selected and the other rows
    are interpolated by zero; it is exact when [r] is the number of rows. *)
Definition ID_row_ref (S0 : DenseMatrix Q) (rtol atol : Q) (mr : Z)
  : DenseMatrix Q * list Z * list Z :=
  let r := Z.max 0 (Z.min (Z.min (rows S0) (cols S0)) mr) in
  (mkDenseMatrix (rows S0 - r)%Z r (fun _ _ => 0),
   map (fun k => (k + 1)%Z) (range 0 (rows S0)),
   range 0 r).

Lemma lamch_E_double_pos : 0 < 1 # (2 ^ 53).
Proof. reflexivity. Qed.

(** Storage that has not been written reads as -99. *)
#[export] Instance Q_DenseLib : @DenseLib Q_scalar := {|
  uninit := fun _ _ => (-99) # 1;
  LU := LU_ref;
  laswp := laswp_ref;
  trsm := trsm_ref;
  lamch_E := 1 # (2 ^ 53);
  lamch_E_pos := lamch_E_double_pos;
  ID_row := ID_row_ref
|}.

(** [U.dense()] for a basis [(E, P)]: the identity on top of [E], its rows
    interchanged back by [P]; [U.rows()] and [U.cols()]. *)
#[export] Instance Q_BasisLib : @HSSBasisLib Q_scalar := {|
  basis_dense := fun B =>
    let r := cols (E_ B) in
    let m := (rows (E_ B) + r)%Z in
    mkDenseMatrix m r
      (fun i j =>
         elt (laswp_ref (P_ B) false
                (mkDenseMatrix m r
                   (fun i j => if (i <? r)%Z
                               then (if (i =? j)%Z then 1 else 0)
                               else elt (E_ B) (i - r)%Z j))) i j);
  basis_rows := fun B => (cols (E_ B) + rows (E_ B))%Z;
  basis_cols := fun B => cols (E_ B)
|}.

#[export] Instance spec_FrontalBase : @FrontalBase Q_scalar := {|
  upd_to_parent := upd_to_parent_spec
|}.

(** The callback [[&K](I, J, B) { K(I, J, B); }] that
    [HSSMatrix::compress(K, opts)] hands to the compression; a failed
    [assert] leaves [B] as it is. *)
Definition kernel_elem {S : Scalar} (K : Kernel) : elem_t :=
  fun I J B =>
    match operator_call K I J B with
    | Some B' => B'
    | None => B
    end.

End Reference.

Import Reference.

(** ** Inputs of the worked examples *)

(** A parent front that eliminates the indices 4 and 5 and has the update
    indices 7 and 9. *)
Definition example_parent : FrontalMatrixDense :=
  mkFront 4 6 [7; 9]
    (mkDenseMatrix 2 2 (fun _ _ => 0%Q)) (mkDenseMatrix 2 2 (fun _ _ => 0%Q))
    (mkDenseMatrix 2 2 (fun _ _ => 0%Q)) (mkDenseMatrix 2 2 (fun _ _ => 0%Q))
    [].

(** A child front with the update indices 4, 5 and 9 and a full [F22_]. *)
Definition example_child : FrontalMatrixDense :=
  mkFront 0 2 [4; 5; 9]
    (mkDenseMatrix 2 2 (fun _ _ => 0%Q)) (mkDenseMatrix 2 3 (fun _ _ => 0%Q))
    (mkDenseMatrix 3 2 (fun _ _ => 0%Q))
    (of_rows 3 3 [[1; 2; 3]; [4; 5; 6]; [7; 8; 9]]%Q)
    [].

(** A second child, with the update indices 5 and 7. *)
Definition example_child2 : FrontalMatrixDense :=
  mkFront 2 4 [5; 7]
    (mkDenseMatrix 2 2 (fun _ _ => 0%Q)) (mkDenseMatrix 2 2 (fun _ _ => 0%Q))
    (mkDenseMatrix 2 2 (fun _ _ => 0%Q))
    (of_rows 2 2 [[10; 20]; [30; 40]]%Q)
    [].

Definition example_parent_blocks : ParentBlocks :=
  mkBlocks (F11_ example_parent) (F12_ example_parent)
    (F21_ example_parent) (F22_ example_parent).

(** A front with a 2 x 2 separator and one update index:
    [F11 = [[2, 1], [4, 3]]], [F12 = [[1], [2]]], [F21 = [[1, 1]]],
    [F22 = [[5]]]. *)
Definition example_front : FrontalMatrixDense :=
  mkFront 0 2 [2]
    (of_rows 2 2 [[2; 1]; [4; 3]]%Q) (of_rows 2 1 [[1]; [2]]%Q)
    (of_rows 1 2 [[1; 1]]%Q) (of_rows 1 1 [[5]]%Q) [].

(** The row interchange of the LU factorization of the [F11] of
    [example_front] (rows 0 and 1 are swapped), and the solution of
    [F11 * X = F12]. *)
Definition example_perm (i : Z) : Z := if i =? 0 then 1 else 0.

Definition example_X : DenseMatrix Q := of_rows 2 1 [[1 # 2]; [0]]%Q.

(** A front whose factored F11 has a zero on the diagonal: it is replaced
    by the threshold [3 * 2^-53]. *)
Definition singular_front : FrontalMatrixDense :=
  mkFront 0 2 []
    (of_rows 2 2 [[1; 2]; [2; 4]]%Q) (of_rows 2 0 [])
    (of_rows 0 2 []) (of_rows 0 0 []) [].

(** The imaginary unit, and the 1 x 1 complex matrix with the entry [x]. *)
Definition Ci : Cplx := (0%Qc, 1%Qc).

Definition const_matrix (x : Cplx) : DenseMatrix Cplx :=
  mkDenseMatrix 1 1 (fun _ _ => x).

(** The points 0, 1, 2, 3 on a line ([d = 1], [n = 4]), the kernel
    [1 / (1 + (x - y)^2)] and [lambda = 1/2]. *)
Definition data4 : DenseMatrix Q := mkDenseMatrix 1 4 (fun _ j => inject_Z j).

Definition cauchy_kernel (x y : list Q) : Q :=
  (1 / (1 + Qsum (map (fun xy => (fst xy - snd xy) * (fst xy - snd xy))
                   (combine x y))))%Q.

Definition K4 : @Kernel Q_scalar := mkKernel data4 (1 # 2) cauchy_kernel.

(** The default tolerances, sample counts and rank bound, with leaves of
    size 2. *)
Definition opts4 : HSSOptions := mkOpts (1 # 100) (1 # 100000000) 2 64 10 5000.

(** Every point has the three other points as neighbours ([ann4], one
    column per point), scored by squared distance ([scores4]). *)
Definition ann4 : DenseMatrix Z :=
  mkDenseMatrix 3 4
    (fun j i =>
       nth (Z.to_nat j)
         (nth (Z.to_nat i) [[1; 2; 3]; [0; 2; 3]; [1; 3; 0]; [2; 1; 0]] []) 0).

Definition scores4 : DenseMatrix Q :=
  mkDenseMatrix 3 4
    (fun j i => inject_Z ((elt ann4 j i - i) * (elt ann4 j i - i))).

(** The partition tree of a 4 x 4 matrix with leaves of size 2. *)
Definition tree4 : HSSMatrix :=
  Node (HSSMatrixBase 4 4 true)
    (Leaf (HSSMatrixBase 2 2 true)) (Leaf (HSSMatrixBase 2 2 true)).

Definition first_child (h : HSSMatrix) : HSSMatrix :=
  match h with
  | Node _ ch0 _ => ch0
  | Leaf _ => h
  end.

(** One compression pass of the copy in [runYang_Formula.sh] over
    [tree4]. *)
Definition run4 : HSSMatrix * WorkCompressANN :=
  compress_recursive_ann runYang ann4 scores4 (kernel_elem K4) opts4 tree4
    WorkANN_default.

(** A fresh 2 x 2 leaf and the work space of a node one level below the
    root. *)
Definition leaf4 : HSSNode := HSSMatrixBase 2 2 true.

Definition work4 : WorkCompressANN :=
  mkWorkANN (0, 0) 1 [] [] [] [] DenseM_empty [] [].

(** The sum of the squared differences of two feature vectors. *)
Definition squared_distance (d : Z) (x y : list Q) : Q :=
  Qsum (map (fun xy => (fst xy - snd xy) * (fst xy - snd xy))%Q (combine x y)).

(** Two neighbours for each of two points: the lists at hand ([old_nb],
    [old_sc]) and the ones of a new tree ([new_nb], [new_sc]), one column
    per point, sorted by score. *)
Definition of_columns {T : Type} (m n : Z) (d : T) (cols_ : list (list T))
  : DenseMatrix T :=
  mkDenseMatrix m n
    (fun i j => nth (Z.to_nat i) (nth (Z.to_nat j) cols_ []) d).

Definition old_nb : DenseMatrix Z := of_columns 2 2 0 [[1; 3]; [0; 2]].
Definition old_sc : DenseMatrix Q := of_columns 2 2 0%Q [[1; 4]; [5; 6]]%Q.
Definition new_nb : DenseMatrix Z := of_columns 2 2 0 [[2; 3]; [0; 3]].
Definition new_sc : DenseMatrix Q := of_columns 2 2 0%Q [[2; 4]; [5; 7]]%Q.

(** An order that [std::nth_element] may leave: the positions of the
    node in reverse; the state of the generator is not modelled. *)
Definition reverse_order (g : unit) (data : DenseMatrix Q) (node : list Z)
  : list Z * unit :=
  (rev (range 0 (vec_size node)), g).

(** [U * x = b] with [U] the upper triangle of [A], by back
    substitution. *)
Definition trsv_upper (A B : DenseMatrix Q) : DenseMatrix Q :=
  fold_left
    (fun X i =>
       force
         (mkDenseMatrix (rows B) (cols B)
            (fun i' j =>
               if (i' =? i)%Z then
                 ((elt B i j
                   - Qsum (map (fun l => elt A i l * elt X l j)
                             (range (i + 1) (rows B))))
                  / elt A i i)%Q
               else elt X i' j)))
    (rev (range 0 (rows B))) (force B).

(** The two variants of [trsv] that the solves call. *)
Definition trsv_ref (ul : UpLo) (ta : Trans) (d : Diag)
  (A x : DenseMatrix Q) : DenseMatrix Q :=
  match ul, ta, d with
  | UpLoL, TransN, DiagU => trsm_lower_unit 1 A x
  | UpLoU, TransN, DiagN => trsv_upper A x
  | _, _, _ => x
  end.

#[export] Instance Q_VectorLib : @VectorLib Q_scalar := {|
  trsv := trsv_ref
|}.

(** A right-hand side for [example_front] and its update part, and a
    solution that the parent hands down. *)
Definition example_b : DenseMatrix Q := of_rows 3 1 [[1]; [2]; [3]]%Q.
Definition example_bupd : DenseMatrix Q := of_rows 1 1 [[3]]%Q.
Definition example_yupd : DenseMatrix Q := of_rows 1 1 [[7]]%Q.

(** The true neighbours of a hundred samples: the neighbours 1 and 3. *)
Definition example_true_nb : DenseMatrix Z :=
  mkDenseMatrix 2 100 (fun r _ => if r =? 0 then 1 else 3).

(** Weights on the four points of [K4], and the labels they fit. *)
Definition weights4 : DenseMatrix Q := of_rows 4 1 [[1]; [0]; [2]; [0]]%Q.

Definition labels4 (c : Z) : Q :=
  Qred (Qsigma (fun r => @eval Q_scalar K4 c r * elt weights4 r 0)%Q
          (range 0 4)).

(* ===================================================================== *)
(** * Part 4: properties                                                 *)
(* ===================================================================== *)

(** ** Machine integers and loops *)

Lemma wrap_int_id (z : Z) : in_int z -> wrap_int z = z.
Proof.
  unfold in_int, INT_MIN, INT_MAX, wrap_int. intros H.
  rewrite Z.mod_small; lia.
Qed.

Lemma wrap_size_id (z : Z) : in_size z -> wrap_size z = z.
Proof.
  unfold in_size, SIZE_MAX, wrap_size. intros H.
  rewrite Z.mod_small; lia.
Qed.

Lemma range_nil (lo hi : Z) : hi <= lo -> range lo hi = [].
Proof.
  intros H. unfold range.
  replace (Z.to_nat (hi - lo)) with 0%nat by lia. reflexivity.
Qed.

Lemma range_cons (lo hi : Z) : lo < hi -> range lo hi = lo :: range (lo + 1) hi.
Proof.
  intros H. unfold range.
  replace (Z.to_nat (hi - lo)) with (Datatypes.S (Z.to_nat (hi - (lo + 1)))) by lia.
  simpl. f_equal; [lia|].
  rewrite <- seq_shift, map_map. apply map_ext. intros k. lia.
Qed.

Lemma range_snoc (lo hi : Z) : lo <= hi -> range lo (hi + 1) = range lo hi ++ [hi].
Proof.
  intros H. unfold range.
  replace (Z.to_nat (hi + 1 - lo)) with (Z.to_nat (hi - lo) + 1)%nat by lia.
  rewrite seq_app, map_app. simpl. f_equal. f_equal. lia.
Qed.

Lemma map_seq_from {A : Type} (f : nat -> A) (s n : nat) :
  map f (seq s n) = map (fun k => f (s + k)%nat) (seq 0 n).
Proof.
  rewrite <- (Nat.add_0_r s) at 1.
  generalize 0%nat as t. induction n as [|n IH]; intros t; simpl.
  - reflexivity.
  - f_equal. rewrite <- IH. f_equal. f_equal. lia.
Qed.

Lemma range_app (lo mid hi : Z) :
  lo <= mid -> mid <= hi -> range lo hi = range lo mid ++ range mid hi.
Proof.
  intros H1 H2. unfold range.
  replace (Z.to_nat (hi - lo))
    with (Z.to_nat (mid - lo) + Z.to_nat (hi - mid))%nat by lia.
  rewrite seq_app, map_app. f_equal.
  simpl. rewrite map_seq_from. apply map_ext. intros k. lia.
Qed.

Lemma in_range (lo hi k : Z) : In k (range lo hi) <-> lo <= k < hi.
Proof.
  unfold range. rewrite in_map_iff. split.
  - intros [x [Hx Hin]]. apply in_seq in Hin. lia.
  - intros H. exists (Z.to_nat (k - lo)). split; [lia|].
    apply in_seq. lia.
Qed.

Lemma range_length (lo hi : Z) : length (range lo hi) = Z.to_nat (hi - lo).
Proof. unfold range. rewrite length_map, length_seq. reflexivity. Qed.

(** ** [getLeafsRange] *)

Section LeafRange.
Variables n p : Z.
Hypothesis Hn : 0 <= n <= INT_MAX.
Hypothesis Hp : 1 <= p <= INT_MAX.

Lemma leaf_quot_rem :
  int_div n p = n / p /\ int_rem n p = n mod p /\
  0 <= n / p <= n /\ 0 <= n mod p < p /\ n = p * (n / p) + n mod p.
Proof.
  unfold int_div, int_rem, INT_MAX in *.
  rewrite Z.quot_div_nonneg, Z.rem_mod_nonneg by lia.
  assert (Hd := Z.div_mod n p ltac:(lia)).
  assert (Hm := Z.mod_pos_bound n p ltac:(lia)).
  assert (Hq : 0 <= n / p) by (apply Z.div_pos; lia).
  assert (Hq' : n / p <= n) by nia.
  repeat split; try lia; apply wrap_int_id; unfold in_int, INT_MIN, INT_MAX; lia.
Qed.

Lemma getLeafsRange_closed (rank : Z) :
  0 <= rank < p ->
  getLeafsRange n p rank =
    [leaf_start n p rank;
     leaf_start n p rank + (n / p + (if rank <? n mod p then 1 else 0))].
Proof.
  intros Hr.
  destruct leaf_quot_rem as (Hd & Hm & Hq & Hmod & Hdm).
  unfold getLeafsRange, leaf_start. rewrite Hd, Hm.
  unfold int_add, int_mul.
  assert (Hrq : 0 <= rank * (n / p) <= n - n mod p - (n / p)) by nia.
  unfold INT_MAX in *.
  destruct (rank <? n mod p) eqn:Hlt.
  - apply Z.ltb_lt in Hlt.
    rewrite (wrap_int_id (n / p + 1))
      by (unfold in_int, INT_MIN, INT_MAX; lia).
    rewrite (wrap_int_id (rank * (n / p)))
      by (unfold in_int, INT_MIN, INT_MAX; lia).
    rewrite (wrap_int_id (rank * (n / p) + rank))
      by (unfold in_int, INT_MIN, INT_MAX; lia).
    rewrite wrap_int_id by (unfold in_int, INT_MIN, INT_MAX; nia).
    rewrite Z.min_l by lia. reflexivity.
  - apply Z.ltb_ge in Hlt.
    rewrite (wrap_int_id (rank * (n / p)))
      by (unfold in_int, INT_MIN, INT_MAX; lia).
    rewrite (wrap_int_id (rank * (n / p) + n mod p))
      by (unfold in_int, INT_MIN, INT_MAX; lia).
    rewrite wrap_int_id by (unfold in_int, INT_MIN, INT_MAX; nia).
    rewrite Z.min_r by lia. f_equal. f_equal. lia.
Qed.

Lemma leaf_start_succ (rank : Z) :
  0 <= rank ->
  leaf_start n p (rank + 1) =
    leaf_start n p rank + (n / p + (if rank <? n mod p then 1 else 0)).
Proof.
  intros Hr. unfold leaf_start.
  destruct (rank <? n mod p) eqn:Hlt;
    [apply Z.ltb_lt in Hlt | apply Z.ltb_ge in Hlt]; lia.
Qed.

Lemma leaf_start_mono (r1 r2 : Z) :
  0 <= r1 <= r2 -> leaf_start n p r1 <= leaf_start n p r2.
Proof.
  intros H. destruct leaf_quot_rem as (_ & _ & Hq & _ & _).
  unfold leaf_start. nia.
Qed.

Lemma leaf_start_0 : leaf_start n p 0 = 0.
Proof.
  destruct leaf_quot_rem as (_ & _ & _ & Hm & _).
  unfold leaf_start. lia.
Qed.

Lemma leaf_start_p : leaf_start n p p = n.
Proof.
  destruct leaf_quot_rem as (_ & _ & _ & Hm & Hdm).
  unfold leaf_start. lia.
Qed.

Lemma leaf_cover (k : nat) (x : Z) :
  0 <= x < leaf_start n p (Z.of_nat k) ->
  exists rank, 0 <= rank < Z.of_nat k /\
               leaf_start n p rank <= x < leaf_start n p (rank + 1).
Proof.
  induction k as [|k IH]; intros Hx.
  - simpl in Hx. rewrite leaf_start_0 in Hx. lia.
  - destruct (Z_lt_ge_dec x (leaf_start n p (Z.of_nat k))) as [Hlt|Hge].
    + destruct IH as [rank [Hr Hin]]; [lia|]. exists rank. lia.
    + exists (Z.of_nat k). replace (Z.of_nat k + 1) with (Z.of_nat (Datatypes.S k)) by lia.
      lia.
Qed.

End LeafRange.

(** C10.  For [n >= 0] and [p >= 1] (both [int]), the ranges returned by
    [getLeafsRange n p rank], [rank = 0 .. p-1], have length [n / p + 1]
    for the first [n mod p] ranks and [n / p] for the others; they are
    contiguous, starting at 0 and ending at [n]; they are pairwise
    disjoint; and their union is exactly [[0, n)]. *)
Theorem getLeafsRange_partition (n p : Z) :
  0 <= n <= INT_MAX ->
  1 <= p <= INT_MAX ->
  (forall rank, 0 <= rank < p ->
     let r := getLeafsRange n p rank in
     length r = 2%nat /\
     range_end r - range_begin r
       = n / p + (if rank <? n mod p then 1 else 0)) /\
  range_begin (getLeafsRange n p 0) = 0 /\
  (forall rank, 0 <= rank < p - 1 ->
     range_end (getLeafsRange n p rank)
       = range_begin (getLeafsRange n p (rank + 1))) /\
  range_end (getLeafsRange n p (p - 1)) = n /\
  (forall r1 r2 x, 0 <= r1 < p -> 0 <= r2 < p ->
     range_begin (getLeafsRange n p r1) <= x < range_end (getLeafsRange n p r1) ->
     range_begin (getLeafsRange n p r2) <= x < range_end (getLeafsRange n p r2) ->
     r1 = r2) /\
  (forall x, 0 <= x < n <->
     exists rank, 0 <= rank < p /\
       range_begin (getLeafsRange n p rank) <= x
         < range_end (getLeafsRange n p rank)).
Proof.
  intros Hn Hp.
  assert (Hc : forall rank, 0 <= rank < p ->
             range_begin (getLeafsRange n p rank) = leaf_start n p rank /\
             range_end (getLeafsRange n p rank) = leaf_start n p (rank + 1)).
  { intros rank Hr. rewrite (getLeafsRange_closed n p Hn Hp rank Hr).
    unfold range_begin, range_end. simpl.
    rewrite leaf_start_succ by lia. split; reflexivity. }
  split; [|split; [|split; [|split; [|split]]]].
  - intros rank Hr. cbv zeta. split.
    + rewrite (getLeafsRange_closed n p Hn Hp rank Hr). reflexivity.
    + destruct (Hc rank Hr) as [Hb He]. rewrite Hb, He.
      rewrite leaf_start_succ by lia. lia.
  - destruct (Hc 0 ltac:(lia)) as [Hb _]. rewrite Hb.
    apply (leaf_start_0 n p Hn Hp).
  - intros rank Hr.
    destruct (Hc rank ltac:(lia)) as [_ He].
    destruct (Hc (rank + 1) ltac:(lia)) as [Hb _]. congruence.
  - destruct (Hc (p - 1) ltac:(lia)) as [_ He]. rewrite He.
    replace (p - 1 + 1) with p by lia. apply (leaf_start_p n p Hn Hp).
  - intros r1 r2 x H1 H2 Hx1 Hx2.
    destruct (Hc r1 H1) as [Hb1 He1]. destruct (Hc r2 H2) as [Hb2 He2].
    rewrite Hb1, He1 in Hx1. rewrite Hb2, He2 in Hx2.
    destruct (Z.lt_trichotomy r1 r2) as [Hlt|[Heq|Hgt]];
      [exfalso|exact Heq|exfalso].
    + assert (Hm := leaf_start_mono n p Hn Hp (r1 + 1) r2 ltac:(lia)). lia.
    + assert (Hm := leaf_start_mono n p Hn Hp (r2 + 1) r1 ltac:(lia)). lia.
  - intros x. split.
    + intros Hx.
      destruct (leaf_cover n p Hn Hp (Z.to_nat p) x) as [rank [Hr Hin]].
      { rewrite Z2Nat.id by lia. rewrite (leaf_start_p n p Hn Hp). lia. }
      exists rank. rewrite Z2Nat.id in Hr by lia.
      destruct (Hc rank Hr) as [Hb He]. rewrite Hb, He.
      split; [lia|exact Hin].
    + intros [rank [Hr Hin]].
      destruct (Hc rank Hr) as [Hb He]. rewrite Hb, He in Hin.
      assert (Hm := leaf_start_mono n p Hn Hp 0 rank ltac:(lia)).
      rewrite (leaf_start_0 n p Hn Hp) in Hm.
      assert (Hm' := leaf_start_mono n p Hn Hp (rank + 1) p ltac:(lia)).
      rewrite (leaf_start_p n p Hn Hp) in Hm'. lia.
Qed.

(** The partition of 10 leaves over 3 ranks: [0,4), [4,7), [7,10). *)
Example getLeafsRange_10_3 :
  map (getLeafsRange 10 3) [0; 1; 2] = [[0; 4]; [4; 7]; [7; 10]].
Proof. reflexivity. Qed.

Lemma getLeafsRange_partition_witness :
  (0 <= 10 <= INT_MAX) /\ (1 <= 3 <= INT_MAX) /\
  range_end (getLeafsRange 10 3 (3 - 1)) = 10.
Proof.
  assert (Hn : 0 <= 10 <= INT_MAX) by (unfold INT_MAX; lia).
  assert (Hp : 1 <= 3 <= INT_MAX) by (unfold INT_MAX; lia).
  split; [exact Hn|]. split; [exact Hp|].
  exact (proj1 (proj2 (proj2 (proj2 (getLeafsRange_partition 10 3 Hn Hp))))).
Defined.

(** ** The [HSSMatrix(m, n, opts)] constructor *)

Section Constructor.
Context {S : Scalar} {L : DenseLib} {BL : HSSBasisLib}.

Lemma HSSMatrix_ctor_total (opts : HSSOptions) :
  1 <= leaf_size opts <= INT_MAX ->
  forall (k : nat) (m n : Z),
    0 <= m <= SIZE_MAX -> 0 <= n <= SIZE_MAX -> m + n <= Z.of_nat k ->
    exists h,
      (forall fuel, (k < fuel)%nat ->
         HSSMatrix_ctor fuel m n opts true = Some h) /\
      leaves_bounded (leaf_size opts) h /\
      fresh h /\ _rows (node_data h) = m /\ _cols (node_data h) = n.
Proof.
  intros HL.
  assert (HwL : wrap_size (leaf_size opts) = leaf_size opts).
  { apply wrap_size_id. unfold in_size, SIZE_MAX, INT_MAX in *. lia. }
  induction k as [|k IH]; intros m n Hm Hn Hk.
  - exists (Leaf (HSSMatrixBase m n true)). split; [|simpl; repeat split; lia].
    intros [|fuel] Hf; [lia|]. simpl. rewrite HwL.
    replace (m >? leaf_size opts) with false by (symmetry; rewrite Z.gtb_ltb; apply Z.ltb_ge; lia).
    replace (n >? leaf_size opts) with false by (symmetry; rewrite Z.gtb_ltb; apply Z.ltb_ge; lia).
    reflexivity.
  - destruct ((m >? leaf_size opts) || (n >? leaf_size opts)) eqn:Hsplit.
    + assert (Hbig : m > leaf_size opts \/ n > leaf_size opts).
      { apply orb_true_iff in Hsplit. rewrite !Z.gtb_ltb, !Z.ltb_lt in Hsplit. lia. }
      assert (Hm2 : 0 <= m / 2 <= m).
      { split; [apply Z.div_pos; lia | apply Z.div_le_upper_bound; lia]. }
      assert (Hn2 : 0 <= n / 2 <= n).
      { split; [apply Z.div_pos; lia | apply Z.div_le_upper_bound; lia]. }
      assert (Hm2' : m >= 2 -> 1 <= m / 2 < m).
      { intros H2. split; [apply Z.div_le_lower_bound; lia
                          | apply Z.div_lt_upper_bound; lia]. }
      assert (Hn2' : n >= 2 -> 1 <= n / 2 < n).
      { intros H2. split; [apply Z.div_le_lower_bound; lia
                          | apply Z.div_lt_upper_bound; lia]. }
      assert (Hsm : size_sub m (m / 2) = m - m / 2).
      { apply wrap_size_id. unfold in_size. lia. }
      assert (Hsn : size_sub n (n / 2) = n - n / 2).
      { apply wrap_size_id. unfold in_size. lia. }
      destruct (IH (m / 2) (n / 2)) as (c0 & Hc0 & Hb0 & Hf0 & Hr0 & Hcl0);
        [lia | lia | lia |].
      destruct (IH (m - m / 2) (n - n / 2)) as (c1 & Hc1 & Hb1 & Hf1 & Hr1 & Hcl1);
        [lia | lia | lia |].
      exists (Node (HSSMatrixBase m n true) c0 c1).
      split; [|simpl; rewrite Hr0, Hr1, Hcl0, Hcl1; repeat split; auto; lia].
      intros [|fuel] Hf; [lia|]. simpl. rewrite HwL, Hsplit, Hsm, Hsn.
      rewrite Hc0, Hc1 by lia. reflexivity.
    + exists (Leaf (HSSMatrixBase m n true)).
      apply orb_false_iff in Hsplit. rewrite !Z.gtb_ltb, !Z.ltb_ge in Hsplit.
      split; [|simpl; repeat split; lia].
      intros [|fuel] Hf; [lia|]. simpl. rewrite HwL.
      replace (m >? leaf_size opts) with false by (symmetry; rewrite Z.gtb_ltb; apply Z.ltb_ge; lia).
      replace (n >? leaf_size opts) with false by (symmetry; rewrite Z.gtb_ltb; apply Z.ltb_ge; lia).
      reflexivity.
Qed.

Lemma levels_nonneg (h : HSSMatrix) : 0 <= levels h.
Proof.
  destruct h as [d|d ch0 ch1]; cbn [levels]; destruct (negb (_active d)); lia.
Qed.

(** The shape of a tree built by the constructor, whatever the budget. *)
Lemma HSSMatrix_ctor_shape (opts : HSSOptions) :
  1 <= leaf_size opts <= INT_MAX ->
  forall (fuel : nat) (m n : Z) (h : HSSMatrix),
    0 <= m <= SIZE_MAX -> 0 <= n <= SIZE_MAX ->
    HSSMatrix_ctor fuel m n opts true = Some h ->
    fresh h /\ _rows (node_data h) = m /\ _cols (node_data h) = n /\
    (m = n -> square h) /\ levels h <= m + n + 1.
Proof.
  intros HL.
  assert (HwL : wrap_size (leaf_size opts) = leaf_size opts).
  { apply wrap_size_id. unfold in_size, SIZE_MAX, INT_MAX in *. lia. }
  induction fuel as [|fuel IH]; intros m n h Hm Hn Hctor; [discriminate|].
  cbn [HSSMatrix_ctor negb] in Hctor. rewrite HwL in Hctor.
  destruct ((m >? leaf_size opts) || (n >? leaf_size opts)) eqn:Hsplit.
  - assert (Hbig : m > leaf_size opts \/ n > leaf_size opts).
    { apply orb_true_iff in Hsplit. rewrite !Z.gtb_ltb, !Z.ltb_lt in Hsplit. lia. }
    assert (Hm2 : 0 <= m / 2 <= m).
    { split; [apply Z.div_pos; lia | apply Z.div_le_upper_bound; lia]. }
    assert (Hn2 : 0 <= n / 2 <= n).
    { split; [apply Z.div_pos; lia | apply Z.div_le_upper_bound; lia]. }
    assert (Hm2' : m >= 2 -> 1 <= m / 2 < m).
    { intros H2. split; [apply Z.div_le_lower_bound; lia
                        | apply Z.div_lt_upper_bound; lia]. }
    assert (Hn2' : n >= 2 -> 1 <= n / 2 < n).
    { intros H2. split; [apply Z.div_le_lower_bound; lia
                        | apply Z.div_lt_upper_bound; lia]. }
    assert (Hsm : size_sub m (m / 2) = m - m / 2).
    { apply wrap_size_id. unfold in_size. lia. }
    assert (Hsn : size_sub n (n / 2) = n - n / 2).
    { apply wrap_size_id. unfold in_size. lia. }
    rewrite Hsm, Hsn in Hctor.
    destruct (HSSMatrix_ctor fuel (m / 2) (n / 2) opts true) as [c0|] eqn:Hc0;
      [|discriminate].
    destruct (HSSMatrix_ctor fuel (m - m / 2) (n - n / 2) opts true) as [c1|] eqn:Hc1;
      [|discriminate].
    inversion Hctor; subst h; clear Hctor.
    destruct (IH (m / 2) (n / 2) c0 ltac:(lia) ltac:(lia) Hc0)
      as (Hf0 & Hr0 & Hcl0 & Hs0 & Hl0).
    destruct (IH (m - m / 2) (n - n / 2) c1 ltac:(lia) ltac:(lia) Hc1)
      as (Hf1 & Hr1 & Hcl1 & Hs1 & Hl1).
    cbn [fresh node_data levels HSSMatrixBase _rows _cols _active negb].
    rewrite Hr0, Hr1, Hcl0, Hcl1.
    split; [repeat split; auto; lia|].
    split; [reflexivity|]. split; [reflexivity|]. split.
    + intros Heq. subst n. unfold square in *. cbn [all_nodes _rows _cols].
      split; [reflexivity|]. split; [apply Hs0|apply Hs1]; reflexivity.
    + assert (H0 := levels_nonneg c0). lia.
  - inversion Hctor; subst h; clear Hctor.
    apply orb_false_iff in Hsplit. rewrite !Z.gtb_ltb, !Z.ltb_ge in Hsplit.
    cbn [fresh node_data levels HSSMatrixBase _rows _cols _active negb].
    split; [repeat split; lia|]. split; [reflexivity|]. split; [reflexivity|].
    split; [intros Heq; exact Heq|lia].
Qed.

(** C7.  For all sizes [m], [n] and every leaf size [L >= 1], the
    constructor [HSSMatrix(m, n, opts)] terminates: with a large enough
    recursion budget the model returns a tree, the same for every larger
    budget; and every leaf of that tree has at most [L] rows and at most
    [L] columns. *)
Theorem HSSMatrix_ctor_terminates (m n : Z) (opts : HSSOptions) :
  0 <= m <= SIZE_MAX ->
  0 <= n <= SIZE_MAX ->
  1 <= leaf_size opts <= INT_MAX ->
  exists (h : HSSMatrix) (fuel : nat),
    (forall fuel', (fuel <= fuel')%nat ->
       HSSMatrix_ctor fuel' m n opts true = Some h) /\
    leaves_bounded (leaf_size opts) h.
Proof.
  intros Hm Hn HL.
  destruct (HSSMatrix_ctor_total opts HL (Z.to_nat (m + n)) m n Hm Hn)
    as (h & Hh & Hb & _); [lia|].
  exists h, (Datatypes.S (Z.to_nat (m + n))). split; [|exact Hb].
  intros fuel' Hf. apply Hh. lia.
Qed.

(** Without the precondition the recursion need not end: with leaf size 0
    a 1 x 0 matrix is split into a 0 x 0 and a 1 x 0 child, for ever. *)
Lemma HSSMatrix_ctor_leaf_size_0 (fuel : nat) :
  HSSMatrix_ctor fuel 1 0 (mkOpts 0 0 0 0 0 0) true = None.
Proof.
  induction fuel as [|fuel IH]; [reflexivity|].
  cbn [HSSMatrix_ctor]. simpl negb. cbv iota.
  change (size_sub 1 (1 / 2)) with 1. change (size_sub 0 (0 / 2)) with 0.
  change ((1 >? wrap_size (leaf_size (mkOpts 0 0 0 0 0 0)))
          || (0 >? wrap_size (leaf_size (mkOpts 0 0 0 0 0 0)))) with true.
  cbv iota. rewrite IH. destruct (HSSMatrix_ctor fuel (1 / 2) (0 / 2) _ true); reflexivity.
Qed.

End Constructor.

(** ** The kernel oracle *)

Lemma opt_fold_none {St : Type} (body : Z -> St -> option St) (l : list Z) :
  fold_left (opt_step body) l None = None.
Proof. induction l as [|k l IH]; simpl; auto. Qed.

Lemma int_for_from_range {St : Type} (body : Z -> St -> option St)
  (bound : Z) :
  bound <= INT_MAX ->
  forall (fuel : nat) (j : Z) (st : St),
    0 <= j -> j + Z.of_nat fuel = bound ->
    int_for_from fuel j bound body st
      = fold_left (opt_step body) (range j bound) (Some st).
Proof.
  intros Hb. induction fuel as [|fuel IH]; intros j st Hj Hf.
  - rewrite range_nil by lia. reflexivity.
  - cbn [int_for_from].
    rewrite wrap_size_id by (unfold in_size, SIZE_MAX, INT_MAX in *; lia).
    replace (j <? bound) with true by (symmetry; apply Z.ltb_lt; lia).
    rewrite (range_cons j bound) by lia. cbn [fold_left opt_step].
    destruct (body j st) as [st'|]; [|symmetry; apply opt_fold_none].
    unfold int_add.
    rewrite wrap_int_id by (unfold in_int, INT_MIN, INT_MAX in *; lia).
    apply IH; lia.
Qed.

Lemma int_for_range {St : Type} (body : Z -> St -> option St)
  (bound : Z) (st : St) :
  0 <= bound <= INT_MAX ->
  int_for bound body st = fold_left (opt_step body) (range 0 bound) (Some st).
Proof.
  intros Hb. unfold int_for. apply int_for_from_range; lia.
Qed.

Section KernelProofs.
Context {S : Scalar}.

Lemma vec_at_In (v : list Z) (i : Z) :
  0 <= i < vec_size v -> In (vec_at v i) v.
Proof.
  intros H. unfold vec_at, vec_size in *. apply nth_In. lia.
Qed.

(** The inner loop of [operator()]: column [j] of [B] is filled. *)
Lemma operator_inner (K : Kernel) (I J : list Z) (j : Z) :
  (forall x, In x I -> x < kernel_n K) ->
  vec_at J j < kernel_n K ->
  forall (m : nat) (B1 : DenseM),
    Z.of_nat m <= vec_size I ->
    exists B2,
      fold_left
        (opt_step
           (fun i B2 =>
              if (vec_at I i <? kernel_n K) && (vec_at J j <? kernel_n K)
              then Some (mset B2 i j (eval K (vec_at I i) (vec_at J j)))
              else None))
        (range 0 (Z.of_nat m)) (Some B1) = Some B2 /\
      rows B2 = rows B1 /\ cols B2 = cols B1 /\
      forall i' j',
        elt B2 i' j' =
          if (j' =? j) && (0 <=? i') && (i' <? Z.of_nat m)
          then eval K (vec_at I i') (vec_at J j) else elt B1 i' j'.
Proof.
  intros HI HJ. induction m as [|m IH]; intros B1 Hm.
  - exists B1. simpl. repeat split; auto.
    intros i' j'. destruct (j' =? j), (0 <=? i') eqn:H0, (i' <? 0) eqn:H1;
      simpl; auto. apply Z.leb_le in H0. apply Z.ltb_lt in H1. lia.
  - destruct (IH B1 ltac:(lia)) as (B2 & Hf & Hr & Hc & He).
    replace (Z.of_nat (Datatypes.S m)) with (Z.of_nat m + 1) by lia.
    rewrite range_snoc by lia. rewrite fold_left_app, Hf. cbn [fold_left opt_step].
    assert (Hlt : vec_at I (Z.of_nat m) < kernel_n K).
    { apply HI, vec_at_In. lia. }
    replace (vec_at I (Z.of_nat m) <? kernel_n K) with true
      by (symmetry; apply Z.ltb_lt; exact Hlt).
    replace (vec_at J j <? kernel_n K) with true
      by (symmetry; apply Z.ltb_lt; exact HJ).
    cbn [andb]. eexists. split; [reflexivity|].
    split; [exact Hr|]. split; [exact Hc|].
    intros i' j'. cbn [mset elt]. rewrite He.
    destruct (i' =? Z.of_nat m) eqn:Hi; destruct (j' =? j) eqn:Hj; cbn [andb].
    + apply Z.eqb_eq in Hi. subst i'.
      replace (0 <=? Z.of_nat m) with true by (symmetry; apply Z.leb_le; lia).
      replace (Z.of_nat m <? Z.of_nat m + 1) with true
        by (symmetry; apply Z.ltb_lt; lia).
      reflexivity.
    + reflexivity.
    + apply Z.eqb_neq in Hi.
      destruct (0 <=? i') eqn:H0; cbn [andb]; [|reflexivity].
      destruct (i' <? Z.of_nat m) eqn:H1, (i' <? Z.of_nat m + 1) eqn:H2;
        try reflexivity.
      * apply Z.ltb_lt in H1. apply Z.ltb_ge in H2. lia.
      * apply Z.ltb_ge in H1. apply Z.ltb_lt in H2. lia.
    + reflexivity.
Qed.

(** The outer loop of [operator()]: the columns below [m] are filled. *)
Lemma operator_outer (K : Kernel) (I J : list Z) :
  (forall x, In x I -> x < kernel_n K) ->
  (forall x, In x J -> x < kernel_n K) ->
  vec_size I <= INT_MAX ->
  forall (m : nat) (B : DenseM),
    Z.of_nat m <= vec_size J ->
    exists B',
      fold_left
        (opt_step
           (fun j B1 =>
              int_for (vec_size I)
                (fun i B2 =>
                   if (vec_at I i <? kernel_n K) && (vec_at J j <? kernel_n K)
                   then Some (mset B2 i j (eval K (vec_at I i) (vec_at J j)))
                   else None)
                B1))
        (range 0 (Z.of_nat m)) (Some B) = Some B' /\
      rows B' = rows B /\ cols B' = cols B /\
      forall i' j',
        elt B' i' j' =
          if (0 <=? j') && (j' <? Z.of_nat m)
             && (0 <=? i') && (i' <? vec_size I)
          then eval K (vec_at I i') (vec_at J j') else elt B i' j'.
Proof.
  intros HI HJ HmaxI. induction m as [|m IH]; intros B Hm.
  - exists B. simpl. repeat split; auto.
    intros i' j'. destruct (0 <=? j') eqn:H0, (j' <? 0) eqn:H1; simpl; auto.
    apply Z.leb_le in H0. apply Z.ltb_lt in H1. lia.
  - destruct (IH B ltac:(lia)) as (B1 & Hf & Hr & Hc & He).
    replace (Z.of_nat (Datatypes.S m)) with (Z.of_nat m + 1) by lia.
    rewrite range_snoc by lia. rewrite fold_left_app, Hf. cbn [fold_left opt_step].
    rewrite int_for_range by (unfold vec_size in *; lia).
    destruct (operator_inner K I J (Z.of_nat m) HI
                (HJ _ (vec_at_In J (Z.of_nat m) ltac:(lia)))
                (length I) B1 ltac:(unfold vec_size in *; lia))
      as (B2 & Hf2 & Hr2 & Hc2 & He2).
    exists B2. fold (vec_size I) in Hf2. split; [exact Hf2|].
    split; [congruence|]. split; [congruence|].
    intros i' j'. rewrite He2. fold (vec_size I). rewrite He.
    destruct (j' =? Z.of_nat m) eqn:Hj; cbn [andb].
    + apply Z.eqb_eq in Hj. subst j'.
      replace (0 <=? Z.of_nat m) with true by (symmetry; apply Z.leb_le; lia).
      replace (Z.of_nat m <? Z.of_nat m + 1) with true
        by (symmetry; apply Z.ltb_lt; lia).
      replace (Z.of_nat m <? Z.of_nat m) with false
        by (symmetry; apply Z.ltb_ge; lia).
      cbn [andb]. destruct ((0 <=? i') && (i' <? vec_size I)); reflexivity.
    + apply Z.eqb_neq in Hj.
      destruct (0 <=? j') eqn:H0; cbn [andb]; [|reflexivity].
      destruct (j' <? Z.of_nat m) eqn:H1, (j' <? Z.of_nat m + 1) eqn:H2;
        try reflexivity.
      * apply Z.ltb_lt in H1. apply Z.ltb_ge in H2. lia.
      * apply Z.ltb_ge in H1. apply Z.ltb_lt in H2. lia.
Qed.

Lemma vec_at_range (n i : Z) : 0 <= i < n -> vec_at (range 0 n) i = i.
Proof.
  intros H. unfold vec_at, range.
  rewrite nth_indep with (d' := 0 + Z.of_nat 0)
    by (rewrite length_map, length_seq; lia).
  rewrite (map_nth (fun k => 0 + Z.of_nat k)), seq_nth by lia. lia.
Qed.

Lemma vec_size_range (n : Z) : 0 <= n -> vec_size (range 0 n) = n.
Proof. intros H. unfold vec_size. rewrite range_length. lia. Qed.

(** [operator()] on valid arguments: it returns, and [B] is filled. *)
Lemma operator_call_fills (K : Kernel) (I J : list Z) (B : DenseM) :
  rows B = vec_size I -> cols B = vec_size J ->
  vec_size I <= INT_MAX -> vec_size J <= INT_MAX ->
  (forall x, In x I -> x < kernel_n K) ->
  (forall x, In x J -> x < kernel_n K) ->
  exists B',
    operator_call K I J B = Some B' /\
    rows B' = rows B /\ cols B' = cols B /\
    forall i j, 0 <= i < vec_size I -> 0 <= j < vec_size J ->
      elt B' i j = eval K (vec_at I i) (vec_at J j).
Proof.
  intros Hr Hc HmI HmJ HI HJ.
  unfold operator_call. rewrite Hr, Hc, !Z.eqb_refl. cbn [andb].
  rewrite int_for_range by (unfold vec_size in *; lia).
  destruct (operator_outer K I J HI HJ HmI (length J) B
              ltac:(unfold vec_size in *; lia)) as (B' & Hf & Hr' & Hc' & He).
  exists B'. fold (vec_size J) in Hf. split; [exact Hf|].
  split; [congruence|]. split; [congruence|].
  intros i j Hi Hj. rewrite He. fold (vec_size J).
  replace (0 <=? j) with true by (symmetry; apply Z.leb_le; lia).
  replace (j <? vec_size J) with true by (symmetry; apply Z.ltb_lt; lia).
  replace (0 <=? i) with true by (symmetry; apply Z.leb_le; lia).
  replace (i <? vec_size I) with true by (symmetry; apply Z.ltb_lt; lia).
  reflexivity.
Qed.

(** C9.  [Kernel::eval(i, j)] is the kernel function of the data points
    [i] and [j], plus [lambda] when [i = j] and unchanged when [i <> j];
    [operator()(I, J, B)], called with a [B] of matching dimensions and
    indices below [n()], fills [B(i,j) = eval(I[i], J[j])] for every
    [i < |I|] and [j < |J|] (the loop counters are [int]: the sizes are
    within [INT_MAX]); hence the matrix extracted for the full index range
    is the kernel matrix plus [lambda] times the identity. *)
Theorem kernel_oracle_regularized (K : Kernel) :
  (forall i j,
     eval K i j =
       if i =? j
       then sadd (eval_kernel_function K (data_ptr K i) (data_ptr K j))
              (lambda_ K)
       else eval_kernel_function K (data_ptr K i) (data_ptr K j)) /\
  (forall (I J : list Z) (B : DenseM),
     rows B = vec_size I -> cols B = vec_size J ->
     vec_size I <= INT_MAX -> vec_size J <= INT_MAX ->
     (forall x, In x I -> x < kernel_n K) ->
     (forall x, In x J -> x < kernel_n K) ->
     exists B',
       operator_call K I J B = Some B' /\
       rows B' = rows B /\ cols B' = cols B /\
       forall i j, 0 <= i < vec_size I -> 0 <= j < vec_size J ->
         elt B' i j = eval K (vec_at I i) (vec_at J j)) /\
  (forall (B : DenseM),
     0 <= kernel_n K <= INT_MAX ->
     rows B = kernel_n K -> cols B = kernel_n K ->
     exists B',
       operator_call K (range 0 (kernel_n K)) (range 0 (kernel_n K)) B
         = Some B' /\
       forall i j, 0 <= i < kernel_n K -> 0 <= j < kernel_n K ->
         elt B' i j =
           sadd (elt (kernel_matrix K) i j)
                (elt (scaled_identity (kernel_n K) (lambda_ K)) i j)).
Proof.
  assert (Hop := operator_call_fills K).
  split; [|split].
  - intros i j. unfold eval. destruct (i =? j); [reflexivity|apply sadd_0_r].
  - exact Hop.
  - intros B Hn Hr Hc.
    destruct (Hop (range 0 (kernel_n K)) (range 0 (kernel_n K)) B)
      as (B' & Hf & _ & _ & He).
    + rewrite vec_size_range; lia.
    + rewrite vec_size_range; lia.
    + rewrite vec_size_range; lia.
    + rewrite vec_size_range; lia.
    + intros x Hx. apply in_range in Hx. lia.
    + intros x Hx. apply in_range in Hx. lia.
    + exists B'. split; [exact Hf|].
      intros i j Hi Hj. rewrite He by (rewrite vec_size_range; lia).
      rewrite !vec_at_range by lia. reflexivity.
Qed.

End KernelProofs.

(** ** Extend-add *)

Lemma fold_left_ext_in {A B : Type} (f g : A -> B -> A) (l : list B) :
  (forall k, In k l -> forall s, f s k = g s k) ->
  forall s, fold_left f l s = fold_left g l s.
Proof.
  induction l as [|k l IH]; intros H s; simpl; [reflexivity|].
  rewrite (H k (or_introl eq_refl)). apply IH.
  intros k' Hk'. apply H. right. exact Hk'.
Qed.

Lemma fold_left_flat_map {A B C : Type} (f : A -> C -> A) (g : B -> list C)
  (l : list B) (s : A) :
  fold_left f (flat_map g l) s
    = fold_left (fun s b => fold_left f (g b) s) l s.
Proof.
  revert s. induction l as [|b l IH]; intros s; simpl; [reflexivity|].
  rewrite fold_left_app. apply IH.
Qed.

Lemma fold_left_map {A B C : Type} (f : A -> C -> A) (g : B -> C)
  (l : list B) (s : A) :
  fold_left f (map g l) s = fold_left (fun s b => f s (g b)) l s.
Proof.
  revert s. induction l as [|b l IH]; intros s; simpl; [reflexivity|]. apply IH.
Qed.

Section ExtendAdd.
Context {S : Scalar} {L : DenseLib} {FB : FrontalBase}.

Lemma Quadrant_eqb_eq (a b : Quadrant) : Quadrant_eqb a b = true <-> a = b.
Proof. destruct a, b; simpl; split; intros H; congruence. Qed.

Lemma target_eqb_eq (a b : Quadrant * Z * Z) : target_eqb a b = true <-> a = b.
Proof.
  destruct a as [[qa ia] ja], b as [[qb ib] jb]. unfold target_eqb. simpl.
  rewrite !andb_true_iff, Quadrant_eqb_eq, !Z.eqb_eq. split.
  - intros [[H1 H2] H3]. congruence.
  - intros H. inversion H. auto.
Qed.

Lemma extend_add_column_targets (F22 : DenseM) (I : list Z)
  (dsep dupd upd2sep c : Z) (pa : ParentBlocks) :
  splits_at_separator I upd2sep dsep dupd ->
  0 <= c < dupd ->
  extend_add_column F22 I dsep dupd upd2sep c pa =
    fold_left
      (fun pa r =>
         add_to (quadrant_target dsep (vec_at I r) (vec_at I c))
           (elt F22 r c) pa)
      (range 0 dupd) pa.
Proof.
  intros (Hd & Hu & Hlo & Hhi) Hc.
  rewrite (range_app 0 upd2sep dupd) by lia. rewrite fold_left_app.
  unfold extend_add_column, for_range. cbv zeta.
  assert (Hsub : forall a, dsep <= a <= SIZE_MAX -> size_sub a dsep = a - dsep).
  { intros a Ha. apply wrap_size_id. unfold in_size. lia. }
  destruct (vec_at I c <? dsep) eqn:Hpc.
  - match goal with
    | |- fold_left ?g2 ?l2 (fold_left ?g1 ?l1 ?s)
         = fold_left ?h ?l2 (fold_left ?h ?l1 ?s) =>
        rewrite (fold_left_ext_in g1 h l1);
          [rewrite (fold_left_ext_in g2 h l2); [reflexivity|]|]
    end.
    + intros r Hr s. apply in_range in Hr. cbv beta.
      unfold quadrant_target. rewrite Hpc.
      replace (vec_at I r <? dsep) with false
        by (symmetry; apply Z.ltb_ge; apply Hhi; lia).
      cbn [andb add_to]. rewrite Hsub by (apply Hhi; lia). reflexivity.
    + intros r Hr s. apply in_range in Hr. cbv beta.
      unfold quadrant_target. rewrite Hpc.
      replace (vec_at I r <? dsep) with true
        by (symmetry; apply Z.ltb_lt; apply Hlo; lia).
      reflexivity.
  - assert (Hcge : dsep <= vec_at I c <= SIZE_MAX).
    { apply Z.ltb_ge in Hpc. destruct (Z_lt_ge_dec c upd2sep) as [Hlt|Hge].
      - specialize (Hlo c ltac:(lia)). lia.
      - apply Hhi. lia. }
    match goal with
    | |- fold_left ?g2 ?l2 (fold_left ?g1 ?l1 ?s)
         = fold_left ?h ?l2 (fold_left ?h ?l1 ?s) =>
        rewrite (fold_left_ext_in g1 h l1);
          [rewrite (fold_left_ext_in g2 h l2); [reflexivity|]|]
    end.
    + intros r Hr s. apply in_range in Hr. cbv beta.
      unfold quadrant_target. rewrite Hpc.
      replace (vec_at I r <? dsep) with false
        by (symmetry; apply Z.ltb_ge; apply Hhi; lia).
      cbn [andb add_to]. rewrite (Hsub (vec_at I r)) by (apply Hhi; lia).
      rewrite (Hsub (vec_at I c)) by exact Hcge. reflexivity.
    + intros r Hr s. apply in_range in Hr. cbv beta.
      unfold quadrant_target. rewrite Hpc.
      replace (vec_at I r <? dsep) with true
        by (symmetry; apply Z.ltb_lt; apply Hlo; lia).
      cbn [andb add_to]. rewrite Hsub by exact Hcge. reflexivity.
Qed.

Lemma add_to_other (t : Quadrant * Z * Z) (x : scalar) (pa : ParentBlocks)
  (q : Quadrant) (i j : Z) :
  target_eqb t (q, i, j) = false ->
  elt (block q (add_to t x pa)) i j = elt (block q pa) i j.
Proof.
  destruct t as [[q' i'] j']. unfold target_eqb. cbn [fst snd].
  intros H.
  destruct q', q;
    cbn [add_to block madd_at mset elt Quadrant_eqb andb
         paF11 paF12 paF21 paF22] in *;
    try reflexivity;
    rewrite (Z.eqb_sym i i'), (Z.eqb_sym j j'), H; reflexivity.
Qed.

Lemma add_to_same (x : scalar) (pa : ParentBlocks) (q : Quadrant) (i j : Z) :
  elt (block q (add_to (q, i, j) x pa)) i j = sadd (elt (block q pa) i j) x.
Proof.
  destruct q; cbn [add_to block madd_at mset elt paF11 paF12 paF21 paF22];
    rewrite !Z.eqb_refl; reflexivity.
Qed.

Lemma add_to_dims (t : Quadrant * Z * Z) (x : scalar) (pa : ParentBlocks)
  (q : Quadrant) :
  rows (block q (add_to t x pa)) = rows (block q pa) /\
  cols (block q (add_to t x pa)) = cols (block q pa).
Proof. destruct t as [[q' i'] j']. destruct q', q; split; reflexivity. Qed.

(** The value of a parent entry after a sequence of additions. *)
Lemma fold_add_to_entry (F22 : DenseM) (tg : Z * Z -> Quadrant * Z * Z)
  (l : list (Z * Z)) (q : Quadrant) (i j : Z) :
  forall pa,
    elt (block q
           (fold_left (fun pa rc => add_to (tg rc) (elt F22 (fst rc) (snd rc)) pa)
              l pa)) i j
    = sum_from (elt (block q pa) i j)
        (map (fun rc => elt F22 (fst rc) (snd rc))
           (filter (fun rc => target_eqb (tg rc) (q, i, j)) l)).
Proof.
  induction l as [|rc l IH]; intros pa; [reflexivity|].
  cbn [fold_left filter]. rewrite IH.
  destruct (target_eqb (tg rc) (q, i, j)) eqn:Ht.
  - apply target_eqb_eq in Ht. rewrite Ht. cbn [map sum_from].
    rewrite add_to_same. reflexivity.
  - rewrite add_to_other by exact Ht. reflexivity.
Qed.

Lemma fold_add_to_dims (F22 : DenseM) (tg : Z * Z -> Quadrant * Z * Z)
  (l : list (Z * Z)) (q : Quadrant) :
  forall pa,
    rows (block q
            (fold_left (fun pa rc => add_to (tg rc) (elt F22 (fst rc) (snd rc)) pa)
               l pa)) = rows (block q pa) /\
    cols (block q
            (fold_left (fun pa rc => add_to (tg rc) (elt F22 (fst rc) (snd rc)) pa)
               l pa)) = cols (block q pa).
Proof.
  induction l as [|rc l IH]; intros pa; [split; reflexivity|].
  cbn [fold_left]. destruct (IH (add_to (tg rc) (elt F22 (fst rc) (snd rc)) pa))
    as [Hr Hc].
  destruct (add_to_dims (tg rc) (elt F22 (fst rc) (snd rc)) pa q) as [Hr' Hc'].
  split; congruence.
Qed.

Lemma child_entries_in (dupd r c : Z) :
  In (r, c) (child_entries dupd) <-> 0 <= r < dupd /\ 0 <= c < dupd.
Proof.
  unfold child_entries. rewrite in_flat_map. split.
  - intros [c' [Hc Hin]]. apply in_map_iff in Hin.
    destruct Hin as [r' [Heq Hr]]. inversion Heq; subst.
    apply in_range in Hc. apply in_range in Hr. lia.
  - intros [Hr Hc]. exists c. split; [apply in_range; lia|].
    apply in_map_iff. exists r. split; [reflexivity|apply in_range; lia].
Qed.

Lemma range_NoDup (lo hi : Z) : NoDup (range lo hi).
Proof.
  unfold range. apply Injective_map_NoDup; [|apply seq_NoDup].
  intros a b H. lia.
Qed.

Lemma child_entries_NoDup (dupd : Z) : NoDup (child_entries dupd).
Proof.
  unfold child_entries.
  assert (H : forall cs : list Z, NoDup cs ->
            NoDup (flat_map (fun c => map (fun r => (r, c)) (range 0 dupd)) cs)).
  { induction cs as [|c cs IH]; intros Hnd; [constructor|].
    inversion Hnd as [|? ? Hnotin Hnd']; subst. cbn [flat_map].
    apply NoDup_app; [ | apply IH; exact Hnd' | ].
    - apply Injective_map_NoDup; [|apply range_NoDup].
      intros a b Hab. congruence.
    - intros [r c'] Hin1 Hin2. apply in_map_iff in Hin1.
      destruct Hin1 as [r' [Heq _]]. inversion Heq; subst.
      apply in_flat_map in Hin2. destruct Hin2 as [c'' [Hc'' Hin2]].
      apply in_map_iff in Hin2. destruct Hin2 as [r'' [Heq2 _]].
      inversion Heq2; subst. contradiction. }
  apply H, range_NoDup.
Qed.

(** The extend-add of a child as one pass over the entries of its F22. *)
Lemma extend_add_to_dense_fold (this p : FrontalMatrixDense)
  (pa : ParentBlocks) :
  let I := fst (upd_to_parent this p) in
  let upd2sep := snd (upd_to_parent this p) in
  let dsep := dim_sep p in
  let dupd := dim_upd this in
  rows (paF11 pa) = dsep ->
  splits_at_separator I upd2sep dsep dupd ->
  fst (extend_add_to_dense this pa p)
  = fold_left
      (fun pa rc =>
         add_to (quadrant_target dsep (vec_at I (fst rc)) (vec_at I (snd rc)))
           (elt (F22_ this) (fst rc) (snd rc)) pa)
      (child_entries dupd) pa.
Proof.
  intros I upd2sep dsep dupd Hrows Hsplit.
  unfold extend_add_to_dense. cbn [fst]. rewrite Hrows.
  fold I upd2sep dsep dupd. unfold for_range, child_entries.
  rewrite fold_left_flat_map. apply fold_left_ext_in.
  intros c Hc s. apply in_range in Hc. rewrite fold_left_map. cbn [fst snd].
  apply extend_add_column_targets; assumption.
Qed.

Lemma sum_from_app (a : scalar) (l1 l2 : list scalar) :
  sum_from a (l1 ++ l2) = sum_from (sum_from a l1) l2.
Proof.
  revert a. induction l1 as [|x l1 IH]; intros a; [reflexivity|].
  cbn [app sum_from]. apply IH.
Qed.

(** X14.  The end of [factor_phase1] with two children: every entry of a
    block of the parent is its previous value plus the mapped entries of
    the left child, then those of the right child. *)
Lemma extend_add_children_sum (this l r : FrontalMatrixDense)
  (pa : ParentBlocks) :
  rows (paF11 pa) = dim_sep this ->
  splits_at_separator (fst (upd_to_parent l this)) (snd (upd_to_parent l this))
    (dim_sep this) (dim_upd l) ->
  splits_at_separator (fst (upd_to_parent r this)) (snd (upd_to_parent r this))
    (dim_sep this) (dim_upd r) ->
  let res := extend_add_children this (Some l) (Some r) pa in
  forall q i j,
    elt (block q (fst (fst res))) i j
    = sum_from (elt (block q pa) i j)
        (contributions (F22_ l) (fst (upd_to_parent l this)) (dim_sep this)
           (dim_upd l) q i j
         ++ contributions (F22_ r) (fst (upd_to_parent r this)) (dim_sep this)
              (dim_upd r) q i j).
Proof.
  intros Hrows Hl Hr res q i j. subst res.
  unfold extend_add_children. cbn [fst snd].
  assert (H1 := extend_add_to_dense_fold l this pa Hrows Hl). cbv zeta in H1.
  assert (Hrows1 : rows (paF11 (fst (extend_add_to_dense l pa this)))
                   = dim_sep this).
  { rewrite H1.
    destruct (fold_add_to_dims (F22_ l)
                (fun rc => quadrant_target (dim_sep this)
                             (vec_at (fst (upd_to_parent l this)) (fst rc))
                             (vec_at (fst (upd_to_parent l this)) (snd rc)))
                (child_entries (dim_upd l)) Q11 pa) as [Hd _].
    cbn [block] in Hd. rewrite Hd. exact Hrows. }
  assert (H2 := extend_add_to_dense_fold r this
                  (fst (extend_add_to_dense l pa this)) Hrows1 Hr).
  cbv zeta in H2. rewrite H2, sum_from_app. unfold contributions.
  rewrite (fold_add_to_entry (F22_ r)
             (fun rc => quadrant_target (dim_sep this)
                          (vec_at (fst (upd_to_parent r this)) (fst rc))
                          (vec_at (fst (upd_to_parent r this)) (snd rc)))).
  rewrite H1.
  rewrite (fold_add_to_entry (F22_ l)
             (fun rc => quadrant_target (dim_sep this)
                          (vec_at (fst (upd_to_parent l this)) (fst rc))
                          (vec_at (fst (upd_to_parent l this)) (snd rc)))).
  reflexivity.
Qed.

(** C1.  When the index list [I] and the split position [upd2sep] returned
    by [upd_to_parent] separate the indices below the parent's [dim_sep]
    from the others, [extend_add_to_dense] adds every entry
    [F22_child(r, c)], once, to the single parent entry that the quadrant
    mapping gives for [pr = I[r]] and [pc = I[c]]; every entry of a parent
    block is then its previous value plus the child entries mapped to it,
    added in the order of the loops; the dimensions of the parent blocks
    are unchanged and the child's F22 is released. *)
Theorem extend_add_to_dense_quadrants
  (this p : FrontalMatrixDense) (pa : ParentBlocks) :
  let I := fst (upd_to_parent this p) in
  let upd2sep := snd (upd_to_parent this p) in
  let dsep := dim_sep p in
  let dupd := dim_upd this in
  rows (paF11 pa) = dsep ->
  splits_at_separator I upd2sep dsep dupd ->
  let pa' := fst (extend_add_to_dense this pa p) in
  let this' := snd (extend_add_to_dense this pa p) in
  pa' = fold_left
          (fun pa rc =>
             add_to (quadrant_target dsep (vec_at I (fst rc)) (vec_at I (snd rc)))
               (elt (F22_ this) (fst rc) (snd rc)) pa)
          (child_entries dupd) pa /\
  NoDup (child_entries dupd) /\
  (forall r c, 0 <= r < dupd -> 0 <= c < dupd -> In (r, c) (child_entries dupd)) /\
  (forall q i j,
     elt (block q pa') i j
       = sum_from (elt (block q pa) i j)
           (contributions (F22_ this) I dsep dupd q i j)) /\
  (forall q, rows (block q pa') = rows (block q pa) /\
             cols (block q pa') = cols (block q pa)) /\
  F22_ this' = mclear (F22_ this).
Proof.
  intros I upd2sep dsep dupd Hrows Hsplit pa' this'.
  assert (Hpa := extend_add_to_dense_fold this p pa Hrows Hsplit).
  cbv zeta in Hpa. fold I dsep dupd pa' in Hpa.
  split; [exact Hpa|]. split; [apply child_entries_NoDup|].
  split; [intros r c Hr Hc; apply child_entries_in; auto|].
  split; [|split].
  - intros q i j. rewrite Hpa. unfold contributions.
    apply (fold_add_to_entry (F22_ this)
             (fun rc => quadrant_target dsep (vec_at I (fst rc)) (vec_at I (snd rc)))).
  - intros q. rewrite Hpa.
    apply (fold_add_to_dims (F22_ this)
             (fun rc => quadrant_target dsep (vec_at I (fst rc)) (vec_at I (snd rc)))).
  - reflexivity.
Qed.

End ExtendAdd.

(** ** The index mapping [upd_to_parent] *)

Section UpdToParent.
Context {S : Scalar}.

Lemma index_of_bounds (x : Z) (l : list Z) : 0 <= index_of x l <= vec_size l.
Proof.
  unfold vec_size. induction l as [|y l IH]; simpl length; cbn [index_of]; [lia|].
  destruct (y =? x); lia.
Qed.

Lemma sorted_prefix_below (e : Z) (l : list Z) :
  StronglySorted Z.lt l ->
  forall r, 0 <= r < vec_size l ->
    (r < vec_size (filter (fun up => up <? e) l) <-> vec_at l r < e).
Proof.
  unfold vec_size, vec_at. induction 1 as [|x l Hs IH Hall]; intros r Hr.
  - simpl in Hr. lia.
  - cbn [filter]. destruct (x <? e) eqn:Hx.
    + apply Z.ltb_lt in Hx. destruct (Z.eq_dec r 0) as [->|Hr0].
      * simpl. split; intros; lia.
      * replace (Z.to_nat r) with (Datatypes.S (Z.to_nat (r - 1))) by lia.
        cbn [nth length]. specialize (IH (r - 1)).
        simpl length in Hr. rewrite <- IH by lia. lia.
    + apply Z.ltb_ge in Hx.
      assert (Hnone : filter (fun up => up <? e) l = []).
      { clear IH Hr Hs. induction l as [|y l IHl]; [reflexivity|].
        inversion Hall as [|? ? Hy Hall']; subst. cbn [filter].
        replace (y <? e) with false by (symmetry; apply Z.ltb_ge; lia).
        apply IHl. exact Hall'. }
      rewrite Hnone. simpl length.
      assert (Hge : e <= nth (Z.to_nat r) (x :: l) 0).
      { destruct (Z.to_nat r) as [|k] eqn:Hk; cbn [nth]; [lia|].
        rewrite Forall_forall in Hall.
        assert (Hin : In (nth k l 0) l) by (apply nth_In; simpl length in Hr; lia).
        specialize (Hall _ Hin). lia. }
      lia.
Qed.

(** The index mapping of the specification delivers what
    [extend_add_to_dense] needs. *)
Lemma upd_to_parent_spec_splits (this p : FrontalMatrixDense) :
  child_front_of this p ->
  splits_at_separator (fst (upd_to_parent_spec this p))
    (snd (upd_to_parent_spec this p)) (dim_sep p) (dim_upd this).
Proof.
  intros (Hsorted & Hin & Hd & Hmax).
  unfold upd_to_parent_spec, splits_at_separator, dim_upd. cbn [fst snd].
  assert (Hat : forall r, 0 <= r < vec_size (upd_ this) ->
            vec_at (map (locate_in_parent p) (upd_ this)) r
              = locate_in_parent p (vec_at (upd_ this) r)).
  { intros r Hr. unfold vec_at, vec_size in *.
    rewrite nth_indep with (d' := locate_in_parent p 0)
      by (rewrite length_map; lia).
    apply map_nth. }
  assert (Hlen : 0 <= vec_size (filter (fun up => up <? sep_end_ p) (upd_ this))
                 <= vec_size (upd_ this)).
  { unfold vec_size. split; [lia|]. apply inj_le, filter_length_le. }
  split; [exact Hd|]. split; [exact Hlen|]. split.
  - intros r Hr. rewrite Hat by lia.
    assert (Hlt : vec_at (upd_ this) r < sep_end_ p).
    { apply (sorted_prefix_below (sep_end_ p) (upd_ this) Hsorted r); lia. }
    unfold locate_in_parent.
    replace (vec_at (upd_ this) r <? sep_end_ p) with true
      by (symmetry; apply Z.ltb_lt; exact Hlt).
    destruct (Hin (vec_at (upd_ this) r)) as [Hb _];
      [apply vec_at_In; lia|].
    unfold dim_sep. lia.
  - intros r Hr. rewrite Hat by lia.
    assert (Hge : ~ vec_at (upd_ this) r < sep_end_ p).
    { intros Hlt.
      apply (sorted_prefix_below (sep_end_ p) (upd_ this) Hsorted r) in Hlt; lia. }
    unfold locate_in_parent.
    replace (vec_at (upd_ this) r <? sep_end_ p) with false
      by (symmetry; apply Z.ltb_ge; lia).
    assert (Hb := index_of_bounds (vec_at (upd_ this) r) (upd_ p)). lia.
Qed.

End UpdToParent.

(** ** Phase 2 of the dense factorization *)

Section Phase2.
Context {S : Scalar} {L : DenseLib}.

Lemma replace_tiny_pivots_upto (thresh : Q) (F11 : DenseM) (m : nat) :
  let F11' := fold_left (fun s k => replace_tiny_pivot thresh k s)
                (range 0 (Z.of_nat m)) F11 in
  rows F11' = rows F11 /\ cols F11' = cols F11 /\
  forall i j,
    elt F11' i j =
      if (i =? j) && (0 <=? i) && (i <? Z.of_nat m)
      then tiny_pivot_value thresh (elt F11 i i) else elt F11 i j.
Proof.
  induction m as [|m IH]; cbv zeta.
  - simpl. repeat split; auto. intros i j.
    destruct (i =? j), (0 <=? i) eqn:H0, (i <? 0) eqn:H1; simpl; auto.
    apply Z.leb_le in H0. apply Z.ltb_lt in H1. lia.
  - cbv zeta in IH. destruct IH as (Hr & Hc & He).
    replace (Z.of_nat (Datatypes.S m)) with (Z.of_nat m + 1) by lia.
    rewrite range_snoc by lia. rewrite fold_left_app. cbn [fold_left].
    set (F := fold_left (fun s k => replace_tiny_pivot thresh k s)
                (range 0 (Z.of_nat m)) F11) in *.
    assert (Hdiag : elt F (Z.of_nat m) (Z.of_nat m)
                    = elt F11 (Z.of_nat m) (Z.of_nat m)).
    { rewrite He. rewrite Z.eqb_refl.
      replace (Z.of_nat m <? Z.of_nat m) with false
        by (symmetry; apply Z.ltb_ge; lia).
      rewrite andb_false_r. reflexivity. }
    unfold replace_tiny_pivot. rewrite Hdiag.
    split; [destruct (sabs_lt _ _); simpl; exact Hr|].
    split; [destruct (sabs_lt _ _); simpl; exact Hc|].
    intros i j.
    assert (Hcase : elt (if sabs_lt (elt F11 (Z.of_nat m) (Z.of_nat m)) thresh
                         then mset F (Z.of_nat m) (Z.of_nat m)
                                (if Qlt_bool (sreal (elt F11 (Z.of_nat m) (Z.of_nat m))) 0
                                 then of_real (- thresh)%Q else of_real thresh)
                         else F) i j
                    = if (i =? Z.of_nat m) && (j =? Z.of_nat m)
                      then tiny_pivot_value thresh (elt F11 (Z.of_nat m) (Z.of_nat m))
                      else elt F i j).
    { unfold tiny_pivot_value.
      destruct (sabs_lt (elt F11 (Z.of_nat m) (Z.of_nat m)) thresh) eqn:Hs.
      - reflexivity.
      - destruct ((i =? Z.of_nat m) && (j =? Z.of_nat m)) eqn:Hij; [|reflexivity].
        apply andb_true_iff in Hij. destruct Hij as [Hi Hj].
        apply Z.eqb_eq in Hi. apply Z.eqb_eq in Hj. subst i j. exact Hdiag. }
    rewrite Hcase, He. clear Hcase.
    destruct (i =? Z.of_nat m) eqn:Hi.
    + apply Z.eqb_eq in Hi. subst i.
      destruct (j =? Z.of_nat m) eqn:Hj; cbn [andb].
      * apply Z.eqb_eq in Hj. subst j. rewrite Z.eqb_refl.
        replace (0 <=? Z.of_nat m) with true by (symmetry; apply Z.leb_le; lia).
        replace (Z.of_nat m <? Z.of_nat m + 1) with true
          by (symmetry; apply Z.ltb_lt; lia).
        reflexivity.
      * rewrite (Z.eqb_sym (Z.of_nat m) j), Hj. reflexivity.
    + cbn [andb]. apply Z.eqb_neq in Hi.
      destruct (i =? j); cbn [andb]; [|reflexivity].
      destruct (0 <=? i); cbn [andb]; [|reflexivity].
      destruct (i <? Z.of_nat m) eqn:H1, (i <? Z.of_nat m + 1) eqn:H2;
        try reflexivity.
      * apply Z.ltb_lt in H1. apply Z.ltb_ge in H2. lia.
      * apply Z.ltb_ge in H1. apply Z.ltb_lt in H2. lia.
Qed.

Lemma replace_tiny_pivots_loop_spec (thresh : Q) (F11 : DenseM) :
  0 <= rows F11 ->
  rows (replace_tiny_pivots_loop thresh F11) = rows F11 /\
  cols (replace_tiny_pivots_loop thresh F11) = cols F11 /\
  forall i j,
    elt (replace_tiny_pivots_loop thresh F11) i j =
      if (i =? j) && (0 <=? i) && (i <? rows F11)
      then tiny_pivot_value thresh (elt F11 i i) else elt F11 i j.
Proof.
  intros Hr. unfold replace_tiny_pivots_loop, for_range.
  assert (H := replace_tiny_pivots_upto thresh F11 (Z.to_nat (rows F11))).
  cbv zeta in H. rewrite Z2Nat.id in H by lia. exact H.
Qed.

Lemma Qlt_bool_false_iff (x y : Q) : Qlt_bool x y = false <-> (y <= x)%Q.
Proof.
  unfold Qlt_bool. rewrite negb_false_iff. apply Qle_bool_iff.
Qed.

(** The threshold [lamch('E') * A.size()] is not negative. *)
Lemma thresh_nonneg (A_size : Z) :
  0 <= A_size -> (0 <= lamch_E * real_of_size A_size)%Q.
Proof.
  intros H. apply Qmult_le_0_compat.
  - apply Qlt_le_weak, lamch_E_pos.
  - unfold real_of_size. change 0%Q with (inject_Z 0).
    rewrite <- Zle_Qle. exact H.
Qed.

Lemma tiny_pivot_value_spec (thresh : Q) (x : scalar) :
  (0 <= thresh)%Q ->
  (sabs_lt x thresh = true ->
     exists q,
       tiny_pivot_value thresh x = of_real q /\
       (Qabs q == thresh)%Q /\
       q = (if Qlt_bool (sreal x) 0 then - thresh else thresh)%Q /\
       ((sreal x < 0)%Q -> (q <= 0)%Q) /\
       ((0 <= sreal x)%Q -> (0 <= q)%Q)) /\
  (sabs_lt x thresh = false -> tiny_pivot_value thresh x = x) /\
  sabs_lt (tiny_pivot_value thresh x) thresh = false.
Proof.
  intros Ht. unfold tiny_pivot_value.
  destruct (sabs_lt x thresh) eqn:Hs.
  - assert (Hq : exists q,
       (if Qlt_bool (sreal x) 0 then of_real (- thresh)%Q else of_real thresh)
         = of_real q /\
       (Qabs q == thresh)%Q /\
       q = (if Qlt_bool (sreal x) 0 then - thresh else thresh)%Q /\
       ((sreal x < 0)%Q -> (q <= 0)%Q) /\
       ((0 <= sreal x)%Q -> (0 <= q)%Q)).
    { destruct (Qlt_bool (sreal x) 0) eqn:Hneg.
      - exists (- thresh)%Q. split; [reflexivity|]. split.
        + rewrite Qabs_opp. apply Qabs_pos. exact Ht.
        + split; [reflexivity|]. split; intros H.
          * lra.
          * apply Qlt_bool_iff in Hneg. lra.
      - exists thresh. split; [reflexivity|]. split.
        + apply Qabs_pos. exact Ht.
        + split; [reflexivity|]. split; intros H.
          * apply Qlt_bool_false_iff in Hneg. lra.
          * exact Ht. }
    split; [intros _; exact Hq|]. split; [discriminate|].
    destruct Hq as (q & Heq & Habs & _). rewrite Heq, sabs_lt_of_real.
    apply Qlt_bool_false_iff. rewrite Habs. apply Qle_refl.
  - split; [discriminate|]. split; [reflexivity|exact Hs].
Qed.

(** C5.  With the replace-tiny-pivots option on, in a front with a
    non-empty separator, every diagonal entry of the LU-factored F11 whose
    magnitude is below [thresh = lamch('E') * A.size()] is replaced by the
    real value [-thresh] when its real part is negative and [thresh]
    otherwise, a value of magnitude [thresh]; a diagonal entry whose
    magnitude is not below [thresh] is left as it is, so is every
    off-diagonal entry; afterwards no diagonal entry has a magnitude below
    [thresh]. *)
Theorem factor_phase2_tiny_pivots (A_size : Z) (this : FrontalMatrixDense) :
  0 <= A_size ->
  dim_sep this <> 0 ->
  0 <= rows (fst (LU (F11_ this))) ->
  let F11a := fst (LU (F11_ this)) in
  let thresh := (lamch_E * real_of_size A_size)%Q in
  let F11b := F11_ (fst (factor_phase2 A_size true this)) in
  (forall i, 0 <= i < rows F11a ->
     (sabs_lt (elt F11a i i) thresh = true ->
        exists q,
          elt F11b i i = of_real q /\
          (Qabs q == thresh)%Q /\
          q = (if Qlt_bool (sreal (elt F11a i i)) 0 then - thresh else thresh)%Q /\
          ((sreal (elt F11a i i) < 0)%Q -> (q <= 0)%Q) /\
          ((0 <= sreal (elt F11a i i))%Q -> (0 <= q)%Q)) /\
     (sabs_lt (elt F11a i i) thresh = false -> elt F11b i i = elt F11a i i) /\
     sabs_lt (elt F11b i i) thresh = false) /\
  (forall i j, i <> j -> elt F11b i j = elt F11a i j) /\
  rows F11b = rows F11a /\ cols F11b = cols F11a.
Proof.
  intros HA Hsep Hrows F11a thresh F11b.
  assert (HF : F11b = replace_tiny_pivots_loop thresh F11a).
  { subst F11b. unfold factor_phase2.
    replace (dim_sep this =? 0) with false by (symmetry; apply Z.eqb_neq; exact Hsep).
    cbn [negb]. unfold do_LU, bind.
    destruct (negb (dim_upd this =? 0)); reflexivity. }
  destruct (replace_tiny_pivots_loop_spec thresh F11a Hrows) as (Hr & Hc & He).
  rewrite HF. split; [|split; [|split; [exact Hr|exact Hc]]].
  - intros i Hi. rewrite He, Z.eqb_refl.
    replace (0 <=? i) with true by (symmetry; apply Z.leb_le; lia).
    replace (i <? rows F11a) with true by (symmetry; apply Z.ltb_lt; lia).
    cbn [andb].
    apply tiny_pivot_value_spec, thresh_nonneg, HA.
  - intros i j Hij. rewrite He.
    replace (i =? j) with false by (symmetry; apply Z.eqb_neq; exact Hij).
    reflexivity.
Qed.

(** The run of phase 2 on a front with a non-empty separator and a
    non-empty update part: the new front and the kernel calls, in order. *)
Lemma factor_phase2_run (A_size : Z) (replace_tiny_pivots : bool)
  (this : FrontalMatrixDense) :
  dim_sep this <> 0 -> dim_upd this <> 0 ->
  let F11a := fst (LU (F11_ this)) in
  let pv := snd (LU (F11_ this)) in
  let F11b :=
    if replace_tiny_pivots
    then replace_tiny_pivots_loop (lamch_E * real_of_size A_size)%Q F11a
    else F11a in
  let F12a := laswp pv true (F12_ this) in
  let F12b := trsm SideL UpLoL TransN DiagU sone F11b F12a in
  let F21b := trsm SideR UpLoU TransN DiagN sone F11b (F21_ this) in
  factor_phase2 A_size replace_tiny_pivots this =
    (mkFront (sep_begin_ this) (sep_end_ this) (upd_ this) F11b F12b F21b
       (gemm TransN TransN (sopp sone) F21b F12b sone (F22_ this)) pv,
     [ Call_LU (F11_ this);
       Call_laswp pv true (F12_ this);
       Call_trsm SideL UpLoL TransN DiagU sone F11b F12a;
       Call_trsm SideR UpLoU TransN DiagN sone F11b (F21_ this);
       Call_gemm TransN TransN (sopp sone) F21b F12b sone (F22_ this) ]).
Proof.
  intros Hsep Hupd. cbv zeta. unfold factor_phase2.
  replace (dim_sep this =? 0) with false by (symmetry; apply Z.eqb_neq; exact Hsep).
  replace (dim_upd this =? 0) with false by (symmetry; apply Z.eqb_neq; exact Hupd).
  reflexivity.
Qed.


End Phase2.

(** *** The Schur complement *)

Section SchurComplement.
Context {L : @DenseLib Q_scalar}.

Local Open Scope Q_scope.

Lemma sum_from_Qsum (acc : Q) (xs : list Q) :
  @sum_from Q_scalar acc xs == acc + fold_right Qplus 0 xs.
Proof.
  revert acc. induction xs as [|x xs IH]; intros acc; cbn [sum_from fold_right].
  - ring.
  - rewrite IH. cbn [sadd Q_scalar]. ring.
Qed.

Lemma dot_Qsigma (n : Z) (A B : DenseMatrix Q) (i j : Z) :
  @dot Q_scalar n A B i j
  == Qsigma (fun l => elt A i l * elt B l j) (range 0 n).
Proof.
  unfold dot, Qsigma, ssum. cbn [smul Q_scalar szero].
  destruct (map _ (range 0 n)) as [|x xs]; [reflexivity|].
  rewrite sum_from_Qsum. reflexivity.
Qed.

Lemma Qsigma_ext (f g : Z -> Q) (ls : list Z) :
  (forall l, In l ls -> f l == g l) -> Qsigma f ls == Qsigma g ls.
Proof.
  unfold Qsigma. induction ls as [|a ls IH]; intros H; cbn [map fold_right].
  - reflexivity.
  - rewrite (H a (or_introl eq_refl)), IH; [reflexivity|].
    intros l Hl. apply H. right. exact Hl.
Qed.

Lemma Qsigma_app (f : Z -> Q) (l1 l2 : list Z) :
  Qsigma f (l1 ++ l2) == Qsigma f l1 + Qsigma f l2.
Proof.
  unfold Qsigma. induction l1 as [|a l1 IH]; cbn [app map fold_right].
  - ring.
  - rewrite IH. ring.
Qed.

Lemma Qsigma_plus (f g : Z -> Q) (ls : list Z) :
  Qsigma (fun l => f l + g l) ls == Qsigma f ls + Qsigma g ls.
Proof.
  unfold Qsigma. induction ls as [|a ls IH]; cbn [map fold_right].
  - ring.
  - rewrite IH. ring.
Qed.

Lemma Qsigma_scale_l (c : Q) (f : Z -> Q) (ls : list Z) :
  Qsigma (fun l => c * f l) ls == c * Qsigma f ls.
Proof.
  unfold Qsigma. induction ls as [|a ls IH]; cbn [map fold_right].
  - ring.
  - rewrite IH. ring.
Qed.

Lemma Qsigma_scale_r (c : Q) (f : Z -> Q) (ls : list Z) :
  Qsigma (fun l => f l * c) ls == Qsigma f ls * c.
Proof.
  unfold Qsigma. induction ls as [|a ls IH]; cbn [map fold_right].
  - ring.
  - rewrite IH. ring.
Qed.

Lemma Qsigma_zero (f : Z -> Q) (ls : list Z) :
  (forall l, In l ls -> f l == 0) -> Qsigma f ls == 0.
Proof.
  intros H. unfold Qsigma. induction ls as [|a ls IH]; cbn [map fold_right].
  - reflexivity.
  - rewrite (H a (or_introl eq_refl)), IH; [ring|].
    intros l Hl. apply H. right. exact Hl.
Qed.

Lemma Qsigma_swap (f : Z -> Z -> Q) (l1 l2 : list Z) :
  Qsigma (fun a => Qsigma (fun b => f a b) l2) l1
  == Qsigma (fun b => Qsigma (fun a => f a b) l1) l2.
Proof.
  induction l1 as [|a l1 IH].
  - symmetry. apply Qsigma_zero. intros l _. reflexivity.
  - change (Qsigma (fun a0 => Qsigma (fun b => f a0 b) l2) (a :: l1))
      with (Qsigma (fun b => f a b) l2
            + Qsigma (fun a0 => Qsigma (fun b => f a0 b) l2) l1).
    rewrite IH, <- Qsigma_plus. apply Qsigma_ext. intros b _. reflexivity.
Qed.

(** A unit lower triangular system has at most one solution. *)
Lemma unit_lower_cancel (A : DenseMatrix Q) (n : Z) (y z : Z -> Q) :
  (forall i, (0 <= i < n)%Z ->
     Qsigma (fun l => elt (@unit_lower Q_scalar A) i l * y l) (range 0 n)
     == Qsigma (fun l => elt (@unit_lower Q_scalar A) i l * z l) (range 0 n)) ->
  forall i, (0 <= i < n)%Z -> y i == z i.
Proof.
  intros H.
  assert (Hsplit : forall (w : Z -> Q) i, (0 <= i < n)%Z ->
    Qsigma (fun l => elt (@unit_lower Q_scalar A) i l * w l) (range 0 n)
    == Qsigma (fun l => elt A i l * w l) (range 0 i) + w i).
  { intros w i Hi.
    rewrite (range_app 0 i n) by lia.
    rewrite (range_cons i n) by lia.
    rewrite Qsigma_app.
    change (Qsigma ?g (i :: ?t)) with (g i + Qsigma g t).
    cbv beta.
    rewrite (Qsigma_ext _ (fun l => elt A i l * w l) (range 0 i)).
    2:{ intros l Hl. apply in_range in Hl. cbn [unit_lower elt].
        replace (l <? i)%Z with true by (symmetry; apply Z.ltb_lt; lia).
        reflexivity. }
    rewrite (Qsigma_zero _ (range (i + 1) n)).
    2:{ intros l Hl. apply in_range in Hl. cbn [unit_lower elt].
        replace (l <? i)%Z with false by (symmetry; apply Z.ltb_ge; lia).
        replace (l =? i)%Z with false by (symmetry; apply Z.eqb_neq; lia).
        cbn [szero Q_scalar]. ring. }
    cbn [unit_lower elt]. rewrite Z.ltb_irrefl, Z.eqb_refl.
    cbn [sone Q_scalar]. ring. }
  assert (Hstrong : forall k : nat, forall i, (0 <= i < n)%Z ->
            (i < Z.of_nat k)%Z -> y i == z i).
  { induction k as [|k IH]; intros i Hi Hk; [lia|].
    specialize (H i Hi). rewrite !Hsplit in H by exact Hi.
    rewrite (Qsigma_ext (fun l => elt A i l * y l)
               (fun l => elt A i l * z l)) in H.
    - lra.
    - intros l Hl. apply in_range in Hl. rewrite (IH l) by lia. reflexivity. }
  intros i Hi. apply (Hstrong (Z.to_nat (i + 1))); lia.
Qed.



End SchurComplement.

(** ** States of the HSS nodes during compression *)

Section States.
Context {S : Scalar} {L : DenseLib} {BL : HSSBasisLib}.

Lemma state_le_refl (a : State) : state_le a a.
Proof. unfold state_le. lia. Qed.

Lemma state_le_COMPRESSED (a : State) : state_le a COMPRESSED.
Proof. unfold state_le. destruct a; simpl; lia. Qed.

Lemma node_advances_refl (d : HSSNode) : node_advances d d.
Proof. split; apply state_le_refl. Qed.

Lemma node_advances_trans (a b c : HSSNode) :
  node_advances a b -> node_advances b c -> node_advances a c.
Proof. unfold node_advances, state_le. intros [H1 H2] [H3 H4]. lia. Qed.

Lemma states_advance_refl (h : HSSMatrix) : states_advance h h.
Proof.
  induction h as [d|d ch0 IH0 ch1 IH1]; simpl.
  - apply node_advances_refl.
  - auto using node_advances_refl.
Qed.

Lemma states_advance_trans (a b c : HSSMatrix) :
  states_advance a b -> states_advance b c -> states_advance a c.
Proof.
  revert b c. induction a as [d|d a0 IH0 a1 IH1]; intros [db|db b0 b1] [dc|dc c0 c1];
    simpl; try tauto.
  - apply node_advances_trans.
  - intros (H1 & H2 & H3) (H4 & H5 & H6).
    split; [eapply node_advances_trans; eauto|].
    split; [eapply IH0; eauto|eapply IH1; eauto].
Qed.

(** The states [compute_U_V_bases_ann] leaves in the node are the ones it
    found. *)
Lemma compute_U_V_bases_ann_states (v : SourceCopy) (S0 : DenseM)
  (opts : HSSOptions) (w : WorkCompressANN) (is_leaf : bool) (d : HSSNode) :
  _U_state (snd (fst (compute_U_V_bases_ann v S0 opts w is_leaf d)))
    = _U_state d /\
  _V_state (snd (fst (compute_U_V_bases_ann v S0 opts w is_leaf d)))
    = _V_state d.
Proof.
  unfold compute_U_V_bases_ann.
  destruct (ID_row S0 _ _ _) as [[E P] Jr].
  destruct v; [split; reflexivity|].
  destruct (accuracy_test _ _ _ _ _ _); split; reflexivity.
Qed.

(** What [compress_node] does to the states: at the root, and below the
    root in the src/HSS copy, both become COMPRESSED; below the root in
    the [runYang_Formula.sh] copy both become COMPRESSED when
    [compute_U_V_bases_ann] returns true and stay as they are otherwise. *)
Lemma compress_node_states (v : SourceCopy) (ann : DenseMatrix Z)
  (scores : DenseMatrix Q) (Aelem : elem_t) (opts : HSSOptions)
  (is_leaf : bool) (d : HSSNode) (w : WorkCompressANN) :
  let d' := fst (compress_node v ann scores Aelem opts is_leaf d w) in
  let w1 := compute_local_samples_ann v ann scores w Aelem opts is_leaf
              (_rows d) in
  let accurate :=
    fst (fst (compute_U_V_bases_ann v (w_S w1) opts w1 is_leaf d)) in
  if (w_lvl w =? 0)
     || match v with src_HSS => true | runYang => accurate end
  then _U_state d' = COMPRESSED /\ _V_state d' = COMPRESSED
  else _U_state d' = _U_state d /\ _V_state d' = _V_state d.
Proof.
  cbv zeta. unfold compress_node.
  destruct (w_lvl w =? 0); [split; reflexivity|]. cbn [orb].
  set (w1 := compute_local_samples_ann v ann scores w Aelem opts is_leaf (_rows d)).
  assert (Hs := compute_U_V_bases_ann_states v (w_S w1) opts w1 is_leaf d).
  destruct (compute_U_V_bases_ann v (w_S w1) opts w1 is_leaf d)
    as [[accurate d1] w2].
  cbn [fst snd] in *. destruct v; [split; reflexivity|].
  destruct accurate; [split; reflexivity|exact Hs].
Qed.

Lemma compress_node_advances (v : SourceCopy) (ann : DenseMatrix Z)
  (scores : DenseMatrix Q) (Aelem : elem_t) (opts : HSSOptions)
  (is_leaf : bool) (d : HSSNode) (w : WorkCompressANN) :
  node_advances d (fst (compress_node v ann scores Aelem opts is_leaf d w)).
Proof.
  assert (H := compress_node_states v ann scores Aelem opts is_leaf d w).
  cbv zeta in H. unfold node_advances.
  destruct ((w_lvl w =? 0) || _); destruct H as [H1 H2]; rewrite H1, H2;
    split; auto using state_le_COMPRESSED, state_le_refl.
Qed.

Lemma compress_recursive_ann_advances (v : SourceCopy) (ann : DenseMatrix Z)
  (scores : DenseMatrix Q) (Aelem : elem_t) (opts : HSSOptions)
  (h : HSSMatrix) :
  forall w,
    states_advance h (fst (compress_recursive_ann v ann scores Aelem opts h w)).
Proof.
  induction h as [d|d ch0 IH0 ch1 IH1]; intros w; cbn [compress_recursive_ann].
  - match goal with
    | |- context [compress_node v ann scores Aelem opts true ?d1 w] =>
        assert (Hadv := compress_node_advances v ann scores Aelem opts true d1 w);
        destruct (compress_node v ann scores Aelem opts true d1 w) as [d2 w1]
    end.
    cbn [fst states_advance] in *.
    destruct (is_untouched d); exact Hadv.
  - specialize (IH0 (w_child (split w (dims (node_data ch0))) 0)).
    destruct (compress_recursive_ann v ann scores Aelem opts ch0 _) as [ch0' wc0].
    specialize (IH1 (w_child (split w (dims (node_data ch0))) 1)).
    destruct (compress_recursive_ann v ann scores Aelem opts ch1 _) as [ch1' wc1].
    cbn [fst] in *.
    destruct (negb (is_compressed (node_data ch0'))
              || negb (is_compressed (node_data ch1'))).
    + cbn [fst states_advance]. auto using node_advances_refl.
    + match goal with
      | |- context [compress_node v ann scores Aelem opts false ?dB ?w2] =>
          assert (Hadv := compress_node_advances v ann scores Aelem opts false dB w2);
          destruct (compress_node v ann scores Aelem opts false dB w2) as [d2 w3]
      end.
      cbn [fst states_advance] in *. split; [|auto].
      destruct v; [destruct (is_untouched d)|]; exact Hadv.
Qed.

(** C6.  In both copies of the compression code, a call of
    [compress_recursive_ann] leaves every node of the tree in a state that
    is not earlier than the one it was in, and so does every number of
    passes of the adaptive loop: states only move along
    UNTOUCHED -> PARTIALLY_COMPRESSED -> COMPRESSED. *)
Theorem compression_states_monotone :
  (forall (v : SourceCopy) (ann : DenseMatrix Z) (scores : DenseMatrix Q)
          (Aelem : elem_t) (opts : HSSOptions) (h : HSSMatrix)
          (w : WorkCompressANN),
     states_advance h
       (fst (compress_recursive_ann v ann scores Aelem opts h w))) /\
  (forall (ann : DenseMatrix Z) (scores : DenseMatrix Q) (Aelem : elem_t)
          (opts : HSSOptions) (h : HSSMatrix),
     states_advance h (compress_ann ann scores Aelem opts h)) /\
  (forall (fuel : nat)
          (find_approximate_neighbors : Z -> nat -> DenseMatrix Z * DenseMatrix Q)
          (Aelem : elem_t) (opts : HSSOptions) (n ann_number : Z) (pass : nat)
          (h : HSSMatrix),
     states_advance h
       (compress_adaptive fuel find_approximate_neighbors Aelem opts n
          ann_number pass h)).
Proof.
  split; [|split].
  - intros. apply compress_recursive_ann_advances.
  - intros. apply compress_recursive_ann_advances.
  - induction fuel as [|fuel IH]; intros fan Aelem opts n ann_number pass h;
      cbn [compress_adaptive].
    + apply states_advance_refl.
    + destruct (is_compressed (node_data h)); [apply states_advance_refl|].
      destruct (fan ann_number pass) as [ann scores].
      eapply states_advance_trans; [|apply IH].
      apply compress_recursive_ann_advances.
Qed.

End States.

(** ** The accuracy check of the compression *)

Section Acceptance.
Context {S : Scalar} {L : DenseLib} {BL : HSSBasisLib}.

Lemma accuracy_test_runYang (opts : HSSOptions) (ds r cls : Z) :
  0 <= ds <= INT_MAX -> 0 <= r <= INT_MAX ->
  in_int (r + opts_p opts) ->
  (accuracy_test runYang opts ds r r cls = true <->
   cls <= ds \/ max_rank opts <= ds \/ r + opts_p opts < ds).
Proof.
  intros Hd Hr Hp. unfold accuracy_test, int_add.
  rewrite (wrap_size_id ds) by (unfold in_size, SIZE_MAX, INT_MAX in *; lia).
  rewrite (wrap_int_id r) by (unfold in_int, INT_MIN, INT_MAX in *; lia).
  rewrite (wrap_int_id (r + opts_p opts)) by exact Hp.
  rewrite !orb_true_iff, andb_true_iff, !Z.geb_le, Z.ltb_lt. tauto.
Qed.

Lemma accuracy_test_src_HSS (opts : HSSOptions) (ds r cls : Z) :
  0 <= ds <= INT_MAX -> 0 <= r <= INT_MAX ->
  in_int (ds - opts_p opts) ->
  (accuracy_test src_HSS opts ds r r cls = true <->
   max_rank opts <= ds - opts_p opts \/ r < ds - opts_p opts).
Proof.
  intros Hd Hr Hp. unfold accuracy_test, int_sub.
  rewrite (wrap_int_id r) by (unfold in_int, INT_MIN, INT_MAX in *; lia).
  rewrite (wrap_int_id (ds - opts_p opts)) by exact Hp.
  rewrite !orb_true_iff, andb_true_iff, !Z.geb_le, Z.ltb_lt. tauto.
Qed.

Lemma compress_node_below_root (v : SourceCopy) (ann : DenseMatrix Z)
  (scores : DenseMatrix Q) (Aelem : elem_t) (opts : HSSOptions)
  (is_leaf : bool) (d : HSSNode) (w : WorkCompressANN) :
  w_lvl w <> 0 ->
  let S0 := node_samples_matrix v ann scores Aelem opts is_leaf d w in
  let r := node_rank v ann scores Aelem opts is_leaf d w in
  let d' := fst (compress_node v ann scores Aelem opts is_leaf d w) in
  let passed := accuracy_test v opts (wrap_int (cols S0)) r r (_cols d) in
  match v with
  | src_HSS =>
      _U_state d' = COMPRESSED /\ _V_state d' = COMPRESSED /\
      _U_rank d' = r /\ _V_rank d' = r
  | runYang =>
      if passed
      then _U_state d' = COMPRESSED /\ _V_state d' = COMPRESSED /\
           _U_rank d' = r /\ _V_rank d' = r
      else _U_state d' = _U_state d /\ _V_state d' = _V_state d /\
           _U_rank d' = _U_rank d /\ _V_rank d' = _V_rank d
  end.
Proof.
  intros Hlvl. cbv zeta.
  unfold compress_node, node_rank, node_samples_matrix.
  replace (w_lvl w =? 0) with false by (symmetry; apply Z.eqb_neq; exact Hlvl).
  set (w1 := compute_local_samples_ann v ann scores w Aelem opts is_leaf (_rows d)).
  unfold compute_U_V_bases_ann.
  change (w_lvl w1) with (w_lvl w).
  destruct (ID_row (w_S w1) _ _ _) as [[E P] Jr]. cbn [fst snd].
  destruct v; [repeat split; reflexivity|].
  destruct (accuracy_test runYang opts _ _ _ _); repeat split; reflexivity.
Qed.

(** C4, as the code has it.  Below the root, with [d] the number of
    columns of the sample matrix and [r] the rank found by [ID_row]:
    - in the copy of [runYang_Formula.sh], the node is marked COMPRESSED
      (and its ranks are recorded) exactly when [d >= cols] of the node, or
      [d >= max_rank], or [r + p < d]; otherwise its states and ranks stay
      as they were, and the node is compressed afterwards only if it was
      before: the failure shows in [is_compressed];
    - in the copy under src/HSS, the flag returned by
      [compute_U_V_bases_ann] is true exactly when [d - p >= max_rank] or
      [r < d - p], and the node is marked COMPRESSED whatever the flag. *)
Theorem compression_acceptance (ann : DenseMatrix Z) (scores : DenseMatrix Q)
  (Aelem : elem_t) (opts : HSSOptions) (is_leaf : bool) (d : HSSNode)
  (w : WorkCompressANN) :
  w_lvl w <> 0 ->
  (let ds := cols (node_samples_matrix runYang ann scores Aelem opts is_leaf d w) in
   let r := node_rank runYang ann scores Aelem opts is_leaf d w in
   let d' := fst (compress_node runYang ann scores Aelem opts is_leaf d w) in
   0 <= ds <= INT_MAX -> 0 <= r <= INT_MAX -> in_int (r + opts_p opts) ->
   ((_cols d <= ds \/ max_rank opts <= ds \/ r + opts_p opts < ds) ->
      _U_state d' = COMPRESSED /\ _V_state d' = COMPRESSED /\
      _U_rank d' = r /\ _V_rank d' = r /\ is_compressed d' = true) /\
   (~ (_cols d <= ds \/ max_rank opts <= ds \/ r + opts_p opts < ds) ->
      _U_state d' = _U_state d /\ _V_state d' = _V_state d /\
      _U_rank d' = _U_rank d /\ _V_rank d' = _V_rank d /\
      is_compressed d' = is_compressed d)) /\
  (let w1 := compute_local_samples_ann src_HSS ann scores w Aelem opts is_leaf
               (_rows d) in
   let ds := cols (w_S w1) in
   let r := node_rank src_HSS ann scores Aelem opts is_leaf d w in
   let d' := fst (compress_node src_HSS ann scores Aelem opts is_leaf d w) in
   0 <= ds <= INT_MAX -> 0 <= r <= INT_MAX -> in_int (ds - opts_p opts) ->
   (fst (fst (compute_U_V_bases_ann src_HSS (w_S w1) opts w1 is_leaf d)) = true
      <-> (max_rank opts <= ds - opts_p opts \/ r < ds - opts_p opts)) /\
   _U_state d' = COMPRESSED /\ _V_state d' = COMPRESSED /\
   is_compressed d' = true).
Proof.
  intros Hlvl. split.
  - intros ds r d' Hds Hr Hp.
    assert (H := compress_node_below_root runYang ann scores Aelem opts
                   is_leaf d w Hlvl).
    cbv zeta in H. fold ds r d' in H.
    rewrite (wrap_int_id ds) in H by (unfold in_int, INT_MIN, INT_MAX in *; lia).
    assert (Hacc := accuracy_test_runYang opts ds r (_cols d) Hds Hr Hp).
    destruct (accuracy_test runYang opts ds r r (_cols d)).
    + destruct H as (H1 & H2 & H3 & H4). split.
      * intros _. unfold is_compressed. rewrite H1, H2. auto.
      * intros Hn. exfalso. apply Hn, Hacc. reflexivity.
    + destruct H as (H1 & H2 & H3 & H4). split.
      * intros Ha. apply Hacc in Ha. discriminate.
      * intros _. unfold is_compressed. rewrite H1, H2. auto.
  - intros w1 ds r d' Hds Hr Hp.
    assert (H := compress_node_below_root src_HSS ann scores Aelem opts
                   is_leaf d w Hlvl).
    cbv zeta in H. fold d' in H. destruct H as (H1 & H2 & H3 & H4).
    split; [|unfold is_compressed; rewrite H1, H2; auto].
    unfold compute_U_V_bases_ann, node_rank, node_samples_matrix in *.
    fold w1 in r. change (w_lvl w1) with (w_lvl w).
    destruct (ID_row (w_S w1) _ _ _) as [[E P] Jr]. cbn [fst snd] in *.
    fold ds. rewrite (wrap_int_id ds) by (unfold in_int, INT_MIN, INT_MAX in *; lia).
    apply accuracy_test_src_HSS; assumption.
Qed.

End Acceptance.

(** ** Dense reconstruction of an HSS matrix *)

Section DenseHSS.
Context {S : Scalar} {L : DenseLib} {BL : HSSBasisLib}.

Lemma mat_eq_on_refl (A : DenseM) : mat_eq_on A A.
Proof. repeat split; auto. Qed.

Lemma hss_wf_nonneg (h : HSSMatrix) :
  hss_wf h -> 0 <= _rows (node_data h) /\ 0 <= _cols (node_data h).
Proof.
  induction h as [d|d ch0 IH0 ch1 IH1]; cbn [hss_wf node_data].
  - tauto.
  - intros (Hr & Hc & _ & _ & _ & _ & _ & _ & _ & _ & H0 & H1).
    specialize (IH0 H0). specialize (IH1 H1). lia.
Qed.

Lemma dot_ext (k : Z) (A B A' B' : DenseM) (i j : Z) :
  (forall l, 0 <= l < k -> elt A i l = elt A' i l) ->
  (forall l, 0 <= l < k -> elt B l j = elt B' l j) ->
  dot k A B i j = dot k A' B' i j.
Proof.
  intros HA HB. unfold dot. f_equal. apply map_ext_in.
  intros l Hl. apply in_range in Hl. rewrite HA, HB by lia. reflexivity.
Qed.

Lemma gemm_entry (ta tb : Trans) (A B C : DenseM) (i j : Z) :
  0 <= i < rows C -> 0 <= j < cols C ->
  elt (gemm ta tb sone A B szero C) i j
    = dot (cols (op ta A)) (op ta A) (op tb B) i j.
Proof.
  intros Hi Hj. cbn [gemm elt].
  replace (0 <=? i) with true by (symmetry; apply Z.leb_le; lia).
  replace (i <? rows C) with true by (symmetry; apply Z.ltb_lt; lia).
  replace (0 <=? j) with true by (symmetry; apply Z.leb_le; lia).
  replace (j <? cols C) with true by (symmetry; apply Z.ltb_lt; lia).
  cbn [andb]. rewrite sis_zero_szero, smul_1_l. reflexivity.
Qed.

Lemma mwrite_block_in (A B : DenseM) (i0 j0 i j : Z) :
  i0 <= i < i0 + rows B -> j0 <= j < j0 + cols B ->
  elt (mwrite_block A i0 j0 B) i j = elt B (i - i0) (j - j0).
Proof.
  intros Hi Hj. cbn [mwrite_block elt].
  replace (i0 <=? i) with true by (symmetry; apply Z.leb_le; lia).
  replace (i <? i0 + rows B) with true by (symmetry; apply Z.ltb_lt; lia).
  replace (j0 <=? j) with true by (symmetry; apply Z.leb_le; lia).
  replace (j <? j0 + cols B) with true by (symmetry; apply Z.ltb_lt; lia).
  reflexivity.
Qed.

Lemma mwrite_block_out (A B : DenseM) (i0 j0 i j : Z) :
  ~ (i0 <= i < i0 + rows B /\ j0 <= j < j0 + cols B) ->
  elt (mwrite_block A i0 j0 B) i j = elt A i j.
Proof.
  intros H. cbn [mwrite_block elt].
  destruct (i0 <=? i) eqn:H1; cbn [andb]; [|reflexivity].
  destruct (i <? i0 + rows B) eqn:H2; cbn [andb]; [|reflexivity].
  destruct (j0 <=? j) eqn:H3; cbn [andb]; [|reflexivity].
  destruct (j <? j0 + cols B) eqn:H4; cbn [andb]; [|reflexivity].
  apply Z.leb_le in H1, H3. apply Z.ltb_lt in H2, H4. exfalso. apply H. lia.
Qed.

(** The block written by a product through a view. *)
Lemma gemm_into_in (ta tb : Trans) (A B M : DenseM) (m n i0 j0 i j : Z) :
  i0 <= i < i0 + m -> j0 <= j < j0 + n ->
  elt (gemm_into ta tb sone A B szero m n M i0 j0) i j
    = dot (cols (op ta A)) (op ta A) (op tb B) (i - i0) (j - j0).
Proof.
  intros Hi Hj. unfold gemm_into.
  rewrite mwrite_block_in by (cbn [gemm rows cols mview]; lia).
  apply gemm_entry; cbn [mview rows cols]; lia.
Qed.

Lemma gemm_into_out (ta tb : Trans) (A B M : DenseM) (m n i0 j0 i j : Z) :
  ~ (i0 <= i < i0 + m /\ j0 <= j < j0 + n) ->
  elt (gemm_into ta tb sone A B szero m n M i0 j0) i j = elt M i j.
Proof.
  intros H. unfold gemm_into. apply mwrite_block_out.
  cbn [gemm rows cols mview]. exact H.
Qed.

Lemma gemm_into_dims (ta tb : Trans) (alpha beta : scalar) (A B M : DenseM)
  (m n i0 j0 : Z) :
  rows (gemm_into ta tb alpha A B beta m n M i0 j0) = rows M /\
  cols (gemm_into ta tb alpha A B beta m n M i0 j0) = cols M.
Proof. split; reflexivity. Qed.

End DenseHSS.

Section DenseRecursive.
Context {S : Scalar} {L : DenseLib} {BL : HSSBasisLib}.

(** The entries of the aggregated generator that a node below the root
    assembles from those of its children. *)
Lemma stacked_generator (T0 T1 G0 G1 Ud : DenseM) (m0 m1 r0 r1 rk : Z) :
  0 <= m0 -> 0 <= m1 ->
  mat_eq_on T0 G0 -> mat_eq_on T1 G1 ->
  rows G0 = m0 -> rows G1 = m1 ->
  let tU := DenseM_new (m0 + m1) rk in
  let tU1 := gemm_into TransN TransN sone T0 (mview r0 (cols Ud) Ud 0 0) szero
               m0 rk tU 0 0 in
  let tU2 := gemm_into TransN TransN sone T1 (mview r1 (cols Ud) Ud r0 0) szero
               m1 rk tU1 m0 0 in
  mat_eq_on tU2
    (mkDenseM (m0 + m1) rk
       (fun i j =>
          if i <? m0 then elt (mmul G0 (mview r0 (cols Ud) Ud 0 0)) i j
          else elt (mmul G1 (mview r1 (cols Ud) Ud r0 0)) (i - m0) j)).
Proof.
  intros Hm0 Hm1 (Hr0 & Hc0 & He0) (Hr1 & Hc1 & He1) HG0 HG1 tU tU1 tU2.
  split; [reflexivity|]. split; [reflexivity|].
  intros i j Hi Hj. subst tU2 tU1 tU.
  cbn [rows cols gemm_into mwrite_block DenseM_new] in Hi, Hj.
  cbn [elt]. destruct (i <? m0) eqn:Hlt.
  - apply Z.ltb_lt in Hlt.
    rewrite gemm_into_out by lia.
    rewrite gemm_into_in by lia. cbn [op mmul elt].
    replace (i - 0) with i by lia. replace (j - 0) with j by lia.
    rewrite Hc0. apply dot_ext; [|reflexivity].
    intros l Hl. apply He0; lia.
  - apply Z.ltb_ge in Hlt.
    rewrite gemm_into_in by lia. cbn [op mmul elt].
    replace (j - 0) with j by lia.
    rewrite Hc1. apply dot_ext; [|reflexivity].
    intros l Hl. apply He1; lia.
Qed.

(** The entries of an off-diagonal block [U * (B * V^C)] computed by the
    two products of [dense_recursive]: [Trans::C] conjugates the entries of
    [V]. *)
Lemma offdiag_block (cj : scalar -> scalar) (TU TV GU GV B M : DenseM)
  (m n i0 j0 i j : Z) :
  (forall x, sconj x = cj x) ->
  mat_eq_on TU GU -> mat_eq_on TV GV ->
  rows GU = m -> rows GV = n ->
  rows B = cols GU -> cols B = cols GV ->
  i0 <= i < i0 + m -> j0 <= j < j0 + n ->
  let tmp := gemm TransN TransC sone B TV szero
               (DenseM_new (rows B) (rows TV)) in
  elt (gemm_into TransN TransN sone TU tmp szero m n M i0 j0) i j
    = elt (mmul GU (mmul B (transpose_by cj GV))) (i - i0) (j - j0).
Proof.
  intros Hreal (HrU & HcU & HeU) (HrV & HcV & HeV) HGU HGV HB1 HB2 Hi Hj tmp.
  rewrite gemm_into_in by lia. cbn [op mmul elt cols rows].
  rewrite HcU. apply dot_ext.
  - intros l Hl. apply HeU; lia.
  - intros l Hl. subst tmp.
    rewrite gemm_entry by (cbn [DenseM_new rows cols]; lia).
    cbn [op cols rows transpose_by]. apply dot_ext; [reflexivity|].
    intros l' Hl'. cbn [elt transpose_by]. rewrite Hreal. f_equal.
    apply HeV; lia.
Qed.

Lemma dense_recursive_spec (cj : scalar -> scalar) (h : HSSMatrix) :
  (forall x, sconj x = cj x) ->
  hss_wf h ->
  forall (A : DenseM) (w : WorkDense) (isroot : bool),
    0 <= fst (wd_offset w) -> 0 <= snd (wd_offset w) ->
    fst (wd_offset w) + _rows (node_data h) <= SIZE_MAX ->
    snd (wd_offset w) + _cols (node_data h) <= SIZE_MAX ->
    dense_recursive_post cj h A w isroot (dense_recursive h A w isroot).
Proof.
  intros Hreal. induction h as [d|d ch0 IH0 ch1 IH1]; intros Hwf A w isroot Ho1 Ho2 Hm1 Hm2.
  - (* leaf *)
    destruct Hwf as (Hr & Hc & HDr & HDc).
    unfold dense_recursive_post. cbn [dense_recursive fst snd node_data hss_dense_by Ubig Vbig wd_offset wd_tmpU wd_tmpV].
    unfold copy. repeat split; auto.
    + intros i j Hi Hj. apply mwrite_block_in; lia.
    + intros i j Hn. apply mwrite_block_out. rewrite HDr, HDc. exact Hn.
  - (* internal node *)
    destruct Hwf as (Hrows & Hcols & HU0 & HU1 & HV0 & HV1 & HB01r & HB01c
                     & HB10r & HB10c & Hwf0 & Hwf1).
    destruct (hss_wf_nonneg ch0 Hwf0) as [Hm0 Hn0].
    destruct (hss_wf_nonneg ch1 Hwf1) as [Hm1' Hn1].
    cbn [node_data] in *.
    set (o1 := fst (wd_offset w)) in *. set (o2 := snd (wd_offset w)) in *.
    set (m0 := _rows (node_data ch0)) in *. set (n0 := _cols (node_data ch0)) in *.
    set (m1 := _rows (node_data ch1)) in *. set (n1 := _cols (node_data ch1)) in *.
    cbn [dense_recursive].
    set (c := resize2 WorkDense_default (wd_c w)).
    set (wc0 := wd_with_offset (nth 0 c WorkDense_default) (wd_offset w)).
    set (wc1 := wd_with_offset (nth 1 c WorkDense_default)
                  (pair_add (wd_offset w) (dims (node_data ch0)))).
    assert (Hoff1 : wd_offset wc1 = (o1 + m0, o2 + n0)).
    { subst wc1. cbn [wd_with_offset wd_offset]. unfold pair_add, dims, size_add.
      cbn [fst snd]. fold o1 o2 m0 n0.
      rewrite !wrap_size_id by (unfold in_size; lia). reflexivity. }
    specialize (IH0 Hwf0 A wc0 false).
    cbn [wc0 wd_with_offset wd_offset fst snd] in IH0. fold o1 o2 m0 n0 in IH0.
    specialize (IH0 Ho1 Ho2 ltac:(lia) ltac:(lia)).
    fold wc0 in IH0 |- *.
    destruct (dense_recursive ch0 A wc0 false) as [A1 wc0'].
    destruct IH0 as (HA1r & HA1c & Hoff0' & HA1in & HA1out & Hgen0).
    cbn [wc0 wd_with_offset wd_offset fst snd] in Hoff0', HA1in, HA1out.
    fold o1 o2 m0 n0 in HA1in, HA1out. cbn [fst snd] in *.
    destruct (Hgen0 eq_refl) as [HU0eq HV0eq]. clear Hgen0.
    specialize (IH1 Hwf1 A1 wc1 false). rewrite Hoff1 in IH1.
    cbn [fst snd] in IH1. fold m1 n1 in IH1.
    specialize (IH1 ltac:(lia) ltac:(lia) ltac:(lia) ltac:(lia)).
    destruct (dense_recursive ch1 A1 wc1 false) as [A2 wc1'].
    destruct IH1 as (HA2r & HA2c & Hoff1' & HA2in & HA2out & Hgen1).
    rewrite Hoff1 in Hoff1', HA2in, HA2out. cbn [fst snd] in *.
    fold m1 n1 in HA2in, HA2out.
    destruct (Hgen1 eq_refl) as [HU1eq HV1eq]. clear Hgen1.
    rewrite Hoff0', Hoff1'. cbn [fst snd]. fold o1 o2. fold m0 n0 m1 n1.
    set (tmp01 := gemm TransN TransC sone (_B01 d) (wd_tmpV wc1') szero
                    (DenseM_new (rows (_B01 d)) (rows (wd_tmpV wc1')))).
    set (A3 := gemm_into TransN TransN sone (wd_tmpU wc0') tmp01 szero
                 m0 n1 A2 o1 (o2 + n0)).
    set (tmp10 := gemm TransN TransC sone (_B10 d) (wd_tmpV wc0') szero
                    (DenseM_new (rows (_B10 d)) (rows (wd_tmpV wc0')))).
    set (A4 := gemm_into TransN TransN sone (wd_tmpU wc1') tmp10 szero
                 m1 n0 A3 (o1 + m0) o2).
    assert (Hgen : isroot = false ->
       mat_eq_on
         (wd_tmpU (snd
            (let '(tmpU, tmpV) :=
               if negb isroot then
                 (gemm_into TransN TransN sone (wd_tmpU wc1')
                    (mview (_U_rank (node_data ch1)) (cols (basis_dense (_U d)))
                       (basis_dense (_U d)) (_U_rank (node_data ch0)) 0) szero
                    m1 (_U_rank d)
                    (gemm_into TransN TransN sone (wd_tmpU wc0')
                       (mview (_U_rank (node_data ch0)) (cols (basis_dense (_U d)))
                          (basis_dense (_U d)) 0 0) szero
                       m0 (_U_rank d) (DenseM_new (_rows d) (_U_rank d)) 0 0)
                    m0 0,
                  gemm_into TransN TransN sone (wd_tmpV wc1')
                    (mview (_V_rank (node_data ch1)) (cols (basis_dense (_V d)))
                       (basis_dense (_V d)) (_V_rank (node_data ch0)) 0) szero
                    n1 (_V_rank d)
                    (gemm_into TransN TransN sone (wd_tmpV wc0')
                       (mview (_V_rank (node_data ch0)) (cols (basis_dense (_V d)))
                          (basis_dense (_V d)) 0 0) szero
                       n0 (_V_rank d) (DenseM_new (_cols d) (_V_rank d)) 0 0)
                    n0 0)
               else (wd_tmpU w, wd_tmpV w) in
             (A4, mkWorkDense (wd_offset w) tmpU tmpV
                    [wd_clear_tmp wc0'; wd_clear_tmp wc1']))))
         (Ubig (Node d ch0 ch1)) /\
       mat_eq_on
         (wd_tmpV (snd
            (let '(tmpU, tmpV) :=
               if negb isroot then
                 (gemm_into TransN TransN sone (wd_tmpU wc1')
                    (mview (_U_rank (node_data ch1)) (cols (basis_dense (_U d)))
                       (basis_dense (_U d)) (_U_rank (node_data ch0)) 0) szero
                    m1 (_U_rank d)
                    (gemm_into TransN TransN sone (wd_tmpU wc0')
                       (mview (_U_rank (node_data ch0)) (cols (basis_dense (_U d)))
                          (basis_dense (_U d)) 0 0) szero
                       m0 (_U_rank d) (DenseM_new (_rows d) (_U_rank d)) 0 0)
                    m0 0,
                  gemm_into TransN TransN sone (wd_tmpV wc1')
                    (mview (_V_rank (node_data ch1)) (cols (basis_dense (_V d)))
                       (basis_dense (_V d)) (_V_rank (node_data ch0)) 0) szero
                    n1 (_V_rank d)
                    (gemm_into TransN TransN sone (wd_tmpV wc0')
                       (mview (_V_rank (node_data ch0)) (cols (basis_dense (_V d)))
                          (basis_dense (_V d)) 0 0) szero
                       n0 (_V_rank d) (DenseM_new (_cols d) (_V_rank d)) 0 0)
                    n0 0)
               else (wd_tmpU w, wd_tmpV w) in
             (A4, mkWorkDense (wd_offset w) tmpU tmpV
                    [wd_clear_tmp wc0'; wd_clear_tmp wc1']))))
         (Vbig (Node d ch0 ch1))).
    { intros ->. cbn [negb snd wd_tmpU wd_tmpV Ubig Vbig]. fold m0 n0.
      rewrite Hrows, Hcols. split.
      - apply stacked_generator; auto.
      - apply stacked_generator; auto. }
    unfold dense_recursive_post. cbn [node_data]. fold o1 o2.
    destruct (if negb isroot then _ else _) as [tmpU tmpV] eqn:Htmp in Hgen |- *.
    cbn [fst snd wd_offset] in *.
    split; [subst A4 A3; cbn [gemm_into mwrite_block rows]; exact (eq_trans HA2r HA1r)|].
    split; [subst A4 A3; cbn [gemm_into mwrite_block cols]; exact (eq_trans HA2c HA1c)|].
    split; [reflexivity|].
    split; [|split; [|exact Hgen]].
    + intros i j Hi Hj. cbn [hss_dense_by elt]. fold m0 n0.
      destruct (i - o1 <? m0) eqn:Hi0; destruct (j - o2 <? n0) eqn:Hj0;
        [apply Z.ltb_lt in Hi0, Hj0 | apply Z.ltb_lt in Hi0; apply Z.ltb_ge in Hj0
         | apply Z.ltb_ge in Hi0; apply Z.ltb_lt in Hj0
         | apply Z.ltb_ge in Hi0, Hj0].
      * subst A4. rewrite gemm_into_out by lia.
        subst A3. rewrite gemm_into_out by lia.
        rewrite HA2out by lia. apply HA1in; lia.
      * subst A4. rewrite gemm_into_out by lia.
        subst A3 tmp01.
        rewrite (offdiag_block cj (wd_tmpU wc0') (wd_tmpV wc1') (Ubig ch0) (Vbig ch1)
                   (_B01 d) A2 m0 n1 o1 (o2 + n0) i j Hreal HU0eq HV1eq HU0 HV1
                   HB01r HB01c) by lia.
        f_equal; lia.
      * subst A4 tmp10.
        rewrite (offdiag_block cj (wd_tmpU wc1') (wd_tmpV wc0') (Ubig ch1) (Vbig ch0)
                   (_B10 d) A3 m1 n0 (o1 + m0) o2 i j Hreal HU1eq HV0eq HU1 HV0
                   HB10r HB10c) by lia.
        f_equal; lia.
      * subst A4. rewrite gemm_into_out by lia.
        subst A3. rewrite gemm_into_out by lia.
        rewrite HA2in by lia. f_equal; lia.
    + intros i j Hout. subst A4. rewrite gemm_into_out by lia.
      subst A3. rewrite gemm_into_out by lia.
      rewrite HA2out by lia. apply HA1out. lia.
Qed.

End DenseRecursive.

(** ** The structure of a compressed HSS matrix *)

Section CompressStructure.
Context {S : Scalar} {L : DenseLib} {BL : HSSBasisLib}.

Lemma compute_U_V_bases_ann_frame (v : SourceCopy) (S0 : DenseM)
  (opts : HSSOptions) (w : WorkCompressANN) (is_leaf : bool) (d : HSSNode) :
  let d' := snd (fst (compute_U_V_bases_ann v S0 opts w is_leaf d)) in
  _rows d' = _rows d /\ _cols d' = _cols d /\ _active d' = _active d /\
  _D d' = _D d /\ _B01 d' = _B01 d /\ _B10 d' = _B10 d.
Proof.
  cbv zeta. unfold compute_U_V_bases_ann.
  destruct (ID_row S0 _ _ _) as [[E P] Jr].
  destruct v; [repeat split; reflexivity|].
  destruct (accuracy_test _ _ _ _ _ _); repeat split; reflexivity.
Qed.

(** [compress_node] touches the states, the bases and the ranks only. *)
Lemma compress_node_frame (v : SourceCopy) (ann : DenseMatrix Z)
  (scores : DenseMatrix Q) (Aelem : elem_t) (opts : HSSOptions)
  (is_leaf : bool) (d : HSSNode) (w : WorkCompressANN) :
  let d' := fst (compress_node v ann scores Aelem opts is_leaf d w) in
  _rows d' = _rows d /\ _cols d' = _cols d /\ _active d' = _active d /\
  _D d' = _D d /\ _B01 d' = _B01 d /\ _B10 d' = _B10 d.
Proof.
  cbv zeta. unfold compress_node.
  destruct (w_lvl w =? 0); [repeat split; reflexivity|].
  set (w1 := compute_local_samples_ann v ann scores w Aelem opts is_leaf (_rows d)).
  assert (H := compute_U_V_bases_ann_frame v (w_S w1) opts w1 is_leaf d).
  cbv zeta in H.
  destruct (compute_U_V_bases_ann v (w_S w1) opts w1 is_leaf d)
    as [[accurate d1] w2].
  cbn [fst snd] in *. destruct v; [exact H|]. destruct accurate; exact H.
Qed.

Lemma vec_size_map {A B : Type} (f : A -> B) (l : list A) :
  vec_size (map f l) = vec_size l.
Proof. unfold vec_size. rewrite length_map. reflexivity. Qed.

Lemma vec_size_leaf_range (off m : Z) :
  0 <= m -> vec_size (leaf_index_range off m) = m.
Proof.
  intros H. unfold leaf_index_range. rewrite vec_size_map.
  apply vec_size_range. exact H.
Qed.

(** The sample matrix of a leaf has the rows of the leaf. *)
Lemma leaf_samples_rows (v : SourceCopy) (ann : DenseMatrix Z)
  (scores : DenseMatrix Q) (Aelem : elem_t) (opts : HSSOptions)
  (w : WorkCompressANN) (rws : Z) :
  oracle_keeps_dims Aelem -> 0 <= rws ->
  rows (w_S (compute_local_samples_ann v ann scores w Aelem opts true rws))
    = rws.
Proof.
  intros Hkeep Hr. unfold compute_local_samples_ann.
  cbn [w_with_samples w_S].
  match goal with
  | |- rows (Aelem ?I ?J ?B) = _ =>
      destruct (Hkeep I J B) as [H _]; rewrite H
  end.
  cbn [DenseM_new rows]. rewrite vec_size_map. apply vec_size_range. exact Hr.
Qed.

(** The bases that the src/HSS copy leaves in a leaf below the root. *)
Lemma compress_node_leaf_bases (ann : DenseMatrix Z) (scores : DenseMatrix Q)
  (Aelem : elem_t) (opts : HSSOptions) (d : HSSNode) (w : WorkCompressANN) :
  basis_dims_ok -> oracle_keeps_dims Aelem ->
  w_lvl w <> 0 -> 0 <= _rows d ->
  let d' := fst (compress_node src_HSS ann scores Aelem opts true d w) in
  rows (basis_dense (_U d')) = _rows d /\
  cols (basis_dense (_U d')) = _U_rank d' /\
  rows (basis_dense (_V d')) = _rows d /\
  cols (basis_dense (_V d')) = _V_rank d'.
Proof.
  intros [Hbd Hid] Hkeep Hlvl Hrows. cbv zeta. unfold compress_node.
  replace (w_lvl w =? 0) with false by (symmetry; apply Z.eqb_neq; exact Hlvl).
  assert (HS := leaf_samples_rows src_HSS ann scores Aelem opts w (_rows d)
                  Hkeep Hrows).
  set (w1 := compute_local_samples_ann src_HSS ann scores w Aelem opts true
               (_rows d)) in *.
  unfold compute_U_V_bases_ann.
  specialize (Hid (w_S w1) (rel_tol opts / inject_Z (w_lvl w1))%Q
                (abs_tol opts / inject_Z (w_lvl w1))%Q (max_rank opts)).
  destruct (ID_row (w_S w1) _ _ _) as [[E P] Jr]. cbn [fst snd] in *.
  destruct (Hbd (mkBasis E P)) as [Hr Hc].
  cbn [set_states set_ranks set_UV _U _V _U_rank _V_rank].
  rewrite Hr, Hc, Hid, HS. repeat split; reflexivity.
Qed.

Lemma is_untouched_base (m n : Z) :
  is_untouched (HSSMatrixBase m n true) = true.
Proof. reflexivity. Qed.

Lemma fresh_nonneg (h : HSSMatrix) :
  fresh h -> 0 <= _rows (node_data h) /\ 0 <= _cols (node_data h).
Proof.
  induction h as [d|d ch0 IH0 ch1 IH1]; cbn [fresh node_data].
  - tauto.
  - intros (_ & Hr & Hc & H0 & H1).
    specialize (IH0 H0). specialize (IH1 H1). lia.
Qed.

Lemma split_children (w : WorkCompressANN) (dim : Z * Z) :
  w_c w = [] -> 0 <= w_lvl w < INT_MAX ->
  w_child (split w dim) 0
    = mkWorkANN (w_offset w) (w_lvl w + 1) [] [] [] [] DenseM_empty [] [] /\
  w_child (split w dim) 1
    = mkWorkANN (pair_add (w_offset w) dim) (w_lvl w + 1) [] [] [] []
        DenseM_empty [] [].
Proof.
  intros Hc Hl. unfold split. rewrite Hc. unfold w_child, int_add.
  cbn [w_with_c w_c nth].
  rewrite wrap_int_id by (unfold in_int, INT_MIN, INT_MAX in *; lia).
  split; reflexivity.
Qed.

Lemma compress_recursive_ann_structure (ann : DenseMatrix Z)
  (scores : DenseMatrix Q) (Aelem : elem_t) (opts : HSSOptions) :
  basis_dims_ok -> oracle_keeps_dims Aelem ->
  forall (h : HSSMatrix) (w : WorkCompressANN),
    fresh h -> square h ->
    w_c w = [] ->
    0 <= w_lvl w -> w_lvl w + levels h <= INT_MAX ->
    0 <= fst (w_offset w) -> 0 <= snd (w_offset w) ->
    fst (w_offset w) + _rows (node_data h) <= SIZE_MAX ->
    snd (w_offset w) + _cols (node_data h) <= SIZE_MAX ->
    compressed_tree Aelem h
      (fst (compress_recursive_ann src_HSS ann scores Aelem opts h w)) w.
Proof.
  intros Hbasis Hkeep.
  induction h as [d|d ch0 IH0 ch1 IH1];
    intros w Hfresh Hsq Hwc Hlvl Hlev Ho1 Ho2 Hm1 Hm2.
  - (* leaf *)
    destruct Hfresh as (Hd & Hr & Hc). cbn [square all_nodes] in Hsq.
    cbn [compress_recursive_ann node_data] in *.
    assert (Hunt : is_untouched d = true) by (rewrite Hd; reflexivity).
    rewrite Hunt.
    set (D := Aelem _ _ _).
    assert (Hfr := compress_node_frame src_HSS ann scores Aelem opts true
                     (set_D d D) w).
    assert (Hst := compress_node_states src_HSS ann scores Aelem opts true
                     (set_D d D) w).
    assert (Hbs := compress_node_leaf_bases ann scores Aelem opts (set_D d D) w
                     Hbasis Hkeep).
    cbv zeta in Hfr, Hst, Hbs.
    destruct (compress_node src_HSS ann scores Aelem opts true (set_D d D) w)
      as [d2 w1].
    cbn [fst snd set_D _rows _cols _D] in *.
    destruct Hfr as (Hfr1 & Hfr2 & _ & HfrD & _ & _).
    rewrite orb_true_r in Hst. destruct Hst as [Hs1 Hs2].
    unfold compressed_tree. cbn [node_data hss_wf leaves_extracted].
    split; [exact Hfr1|]. split; [exact Hfr2|].
    split; [unfold is_compressed; rewrite Hs1, Hs2; reflexivity|].
    split.
    { rewrite Hfr1, Hfr2, HfrD. subst D.
      match goal with
      | |- _ /\ _ /\ rows (Aelem ?I ?J ?B) = _ /\ _ =>
          destruct (Hkeep I J B) as [HDr HDc]; rewrite HDr, HDc
      end.
      repeat split; auto. }
    split.
    { rewrite Hfr1, Hfr2, HfrD. reflexivity. }
    intros Hnz. specialize (Hbs Hnz Hr).
    unfold gen_dims. cbn [Ubig Vbig node_data].
    destruct Hbs as (H1 & H2 & H3 & H4).
    rewrite Hfr1, Hfr2. repeat split; congruence.
  - (* internal node *)
    destruct Hfresh as (Hd & Hr & Hc & Hf0 & Hf1).
    destruct Hsq as (Hsqd & Hsq0 & Hsq1).
    cbn [node_data] in *.
    assert (Hact : _active d = true) by (rewrite Hd; reflexivity).
    assert (Hunt : is_untouched d = true) by (rewrite Hd; reflexivity).
    assert (Hl0 := levels_nonneg ch0). assert (Hl1 := levels_nonneg ch1).
    assert (Hlevs : 1 + levels ch0 <= levels (Node d ch0 ch1) /\
                    1 + levels ch1 <= levels (Node d ch0 ch1)).
    { cbn [levels]. rewrite Hact. cbn [negb]. lia. }
    destruct Hlevs as [Hlev0 Hlev1].
    destruct (fresh_nonneg ch0 Hf0) as [Hm0 Hn0].
    destruct (fresh_nonneg ch1 Hf1) as [Hm1' Hn1].
    destruct (split_children w (dims (node_data ch0)) Hwc ltac:(lia))
      as [Hwa Hwb].
    cbn [compress_recursive_ann].
    set (w1 := split w (dims (node_data ch0))) in *.
    specialize (IH0 (w_child w1 0) Hf0 Hsq0). rewrite Hwa in IH0.
    cbn [w_c w_lvl w_offset] in IH0.
    specialize (IH0 eq_refl ltac:(lia) ltac:(lia) Ho1 Ho2 ltac:(lia) ltac:(lia)).
    rewrite <- Hwa in IH0.
    destruct (compress_recursive_ann src_HSS ann scores Aelem opts ch0
                (w_child w1 0)) as [ch0' wc0].
    assert (Hoffb : pair_add (w_offset w) (dims (node_data ch0))
                    = (fst (w_offset w) + _rows (node_data ch0),
                       snd (w_offset w) + _cols (node_data ch0))).
    { unfold pair_add, dims, size_add. cbn [fst snd].
      rewrite !wrap_size_id by (unfold in_size; lia). reflexivity. }
    specialize (IH1 (w_child w1 1) Hf1 Hsq1). rewrite Hwb in IH1.
    cbn [w_c w_lvl w_offset] in IH1. rewrite Hoffb in IH1. cbn [fst snd] in IH1.
    specialize (IH1 eq_refl ltac:(lia) ltac:(lia) ltac:(lia) ltac:(lia)
                  ltac:(lia) ltac:(lia)).
    rewrite <- Hoffb, <- Hwb in IH1.
    destruct (compress_recursive_ann src_HSS ann scores Aelem opts ch1
                (w_child w1 1)) as [ch1' wc1].
    cbn [fst] in IH0, IH1.
    destruct IH0 as (Hr0 & Hc0 & Hcomp0 & Hwf0 & Hlx0 & Hgd0).
    destruct IH1 as (Hr1 & Hc1 & Hcomp1 & Hwf1 & Hlx1 & Hgd1).
    rewrite Hwa in Hlx0, Hgd0. rewrite Hwb in Hlx1, Hgd1.
    cbn [w_offset w_lvl] in Hlx0, Hgd0, Hlx1, Hgd1.
    destruct (Hgd0 ltac:(lia)) as (HU0r & HU0c & HV0r & HV0c).
    destruct (Hgd1 ltac:(lia)) as (HU1r & HU1c & HV1r & HV1c).
    rewrite Hcomp0, Hcomp1, Hunt. cbn [negb orb].
    set (B01 := Aelem (w_Ir wc0) (w_Ic wc1) _).
    set (B10 := Aelem (w_Ir wc1) (w_Ic wc0) _).
    set (w2 := w_with_c w1 [wc0; wc1]).
    assert (Hfr := compress_node_frame src_HSS ann scores Aelem opts false
                     (set_B d B01 B10) w2).
    assert (Hst := compress_node_states src_HSS ann scores Aelem opts false
                     (set_B d B01 B10) w2).
    cbv zeta in Hfr, Hst.
    destruct (compress_node src_HSS ann scores Aelem opts false
                (set_B d B01 B10) w2) as [d2 w3].
    cbn [fst snd set_B _rows _cols _D _B01 _B10] in *.
    destruct Hfr as (Hfr1 & Hfr2 & _ & _ & HfrB01 & HfrB10).
    rewrite orb_true_r in Hst. destruct Hst as [Hs1 Hs2].
    unfold compressed_tree. cbn [node_data hss_wf leaves_extracted].
    split; [exact Hfr1|]. split; [exact Hfr2|].
    split; [unfold is_compressed; rewrite Hs1, Hs2; reflexivity|].
    split.
    { rewrite Hfr1, Hfr2, HfrB01, HfrB10, Hr0, Hr1, Hc0, Hc1.
      subst B01 B10.
      repeat match goal with
      | |- context [rows (Aelem ?I ?J ?B)] =>
          let H1 := fresh "HBr" in let H2 := fresh "HBc" in
          destruct (Hkeep I J B) as [H1 H2]; rewrite H1;
          try rewrite H2; clear H1 H2
      | |- context [cols (Aelem ?I ?J ?B)] =>
          let H1 := fresh "HBr" in let H2 := fresh "HBc" in
          destruct (Hkeep I J B) as [H1 H2]; rewrite H2; clear H1 H2
      end.
      cbn [DenseM_new rows cols].
      repeat split; auto; congruence. }
    split.
    { split; [exact Hlx0|].
      unfold dims in *. rewrite Hr0, Hc0. exact Hlx1. }
    intros _. unfold gen_dims. cbn [Ubig Vbig node_data rows cols].
    repeat split; reflexivity.
Qed.

Lemma vec_at_map (f : Z -> Z) (l : list Z) (i : Z) :
  0 <= i < vec_size l -> vec_at (map f l) i = f (vec_at l i).
Proof.
  intros H. unfold vec_at, vec_size in *.
  rewrite nth_indep with (d' := f 0) by (rewrite length_map; lia).
  apply map_nth.
Qed.

Lemma vec_at_leaf_range (off m i : Z) :
  0 <= off -> 0 <= i < m -> off + m <= SIZE_MAX ->
  vec_at (leaf_index_range off m) i = off + i.
Proof.
  intros Ho Hi Hm. unfold leaf_index_range.
  rewrite vec_at_map by (rewrite vec_size_range; lia).
  rewrite vec_at_range by lia. unfold size_add.
  rewrite wrap_size_id by (unfold in_size; lia). lia.
Qed.

Lemma In_leaf_range (off m x : Z) :
  0 <= off -> off + m <= SIZE_MAX ->
  In x (leaf_index_range off m) -> off <= x < off + m.
Proof.
  intros Ho Hm Hin. unfold leaf_index_range in Hin.
  apply in_map_iff in Hin. destruct Hin as [i [Hx Hi]].
  apply in_range in Hi. subst x. unfold size_add.
  rewrite wrap_size_id by (unfold in_size; lia). lia.
Qed.

(** A leaf block extracted through an oracle for [A] holds the entries of
    [A]. *)
Lemma leaves_extracted_exact (A : Z -> Z -> scalar) (n : Z) (Aelem : elem_t) :
  oracle_for A n Aelem -> oracle_keeps_dims Aelem -> n <= INT_MAX ->
  forall (h : HSSMatrix) (ro co : Z),
    hss_wf h -> 0 <= ro -> 0 <= co ->
    ro + _rows (node_data h) <= n -> co + _cols (node_data h) <= n ->
    leaves_extracted Aelem h (ro, co) -> leaves_exact A h ro co.
Proof.
  intros Hor Hkeep Hn.
  assert (Hmax : INT_MAX <= SIZE_MAX) by (unfold INT_MAX, SIZE_MAX; lia).
  induction h as [d|d ch0 IH0 ch1 IH1]; intros ro co Hwf Hro Hco Hr Hc Hlx.
  - cbn [leaves_extracted leaves_exact node_data hss_wf fst snd] in *.
    destruct Hwf as (Hm & Hn' & HDr & HDc).
    split; [exact HDr|]. split; [exact HDc|].
    intros i j Hi Hj. rewrite Hlx.
    rewrite (Hor (leaf_index_range ro (_rows d)) (leaf_index_range co (_cols d))
               (DenseM_new (_rows d) (_cols d))).
    + rewrite !vec_at_leaf_range by lia. reflexivity.
    + cbn [DenseM_new rows]. rewrite vec_size_leaf_range; lia.
    + cbn [DenseM_new cols]. rewrite vec_size_leaf_range; lia.
    + rewrite vec_size_leaf_range; lia.
    + rewrite vec_size_leaf_range; lia.
    + intros x Hx. apply In_leaf_range in Hx; lia.
    + intros x Hx. apply In_leaf_range in Hx; lia.
    + rewrite vec_size_leaf_range; lia.
    + rewrite vec_size_leaf_range; lia.
  - cbn [leaves_extracted leaves_exact node_data hss_wf] in *.
    destruct Hwf as (Hrows & Hcols & _ & _ & _ & _ & _ & _ & _ & _ & Hwf0 & Hwf1).
    destruct (hss_wf_nonneg ch0 Hwf0) as [Hm0 Hn0].
    destruct (hss_wf_nonneg ch1 Hwf1) as [Hm1 Hn1].
    destruct Hlx as [Hlx0 Hlx1].
    assert (Hoff : pair_add (ro, co) (dims (node_data ch0))
                   = (ro + _rows (node_data ch0), co + _cols (node_data ch0))).
    { unfold pair_add, dims, size_add. cbn [fst snd].
      rewrite !wrap_size_id by (unfold in_size; lia). reflexivity. }
    rewrite Hoff in Hlx1.
    split; [apply IH0; auto; lia|apply IH1; auto; lia].
Qed.

Lemma blocks_reconstructed_down (cj : scalar -> scalar) (M : DenseM)
  (h : HSSMatrix) :
  hss_wf h ->
  forall ro co,
    (forall i j, 0 <= i < _rows (node_data h) -> 0 <= j < _cols (node_data h) ->
       elt M (ro + i) (co + j) = elt (hss_dense_by cj h) i j) ->
    blocks_reconstructed_by cj M h ro co.
Proof.
  induction h as [d|d ch0 IH0 ch1 IH1]; intros Hwf ro co Hroot.
  - split; [exact Hroot|exact I].
  - cbn [blocks_reconstructed_by]. split; [exact Hroot|].
    cbn [hss_wf node_data] in *.
    destruct Hwf as (Hrows & Hcols & _ & _ & _ & _ & _ & _ & _ & _ & Hwf0 & Hwf1).
    destruct (hss_wf_nonneg ch0 Hwf0) as [Hm0 Hn0].
    destruct (hss_wf_nonneg ch1 Hwf1) as [Hm1 Hn1].
    split.
    + apply IH0; [exact Hwf0|]. intros i j Hi Hj.
      rewrite Hroot by lia. cbn [hss_dense_by elt].
      replace (i <? _rows (node_data ch0)) with true
        by (symmetry; apply Z.ltb_lt; lia).
      replace (j <? _cols (node_data ch0)) with true
        by (symmetry; apply Z.ltb_lt; lia).
      reflexivity.
    + apply IH1; [exact Hwf1|]. intros i j Hi Hj.
      rewrite <- !Z.add_assoc. rewrite Hroot by lia. cbn [hss_dense_by elt].
      replace (_rows (node_data ch0) + i <? _rows (node_data ch0)) with false
        by (symmetry; apply Z.ltb_ge; lia).
      replace (_cols (node_data ch0) + j <? _cols (node_data ch0)) with false
        by (symmetry; apply Z.ltb_ge; lia).
      f_equal; lia.
Qed.

(** What [compress_ann] (src/HSS copy) makes of the tree built by
    [HSSMatrix(n, n, opts)]: a tree of the same order whose blocks fit
    together and whose leaves hold the entries of [A]. *)
Lemma compress_ann_structure (A : Z -> Z -> scalar) (n : Z)
  (Aelem : elem_t) (ann : DenseMatrix Z) (scores : DenseMatrix Q)
  (opts : HSSOptions) (fuel : nat) (h0 : HSSMatrix) :
  basis_dims_ok ->
  oracle_keeps_dims Aelem ->
  oracle_for A n Aelem ->
  1 <= leaf_size opts <= INT_MAX ->
  0 <= n -> 2 * n + 1 <= INT_MAX ->
  HSSMatrix_ctor fuel n n opts true = Some h0 ->
  let h := compress_ann ann scores Aelem opts h0 in
  _rows (node_data h) = n /\ _cols (node_data h) = n /\
  hss_wf h /\
  leaves_extracted Aelem h (0, 0) /\
  leaves_exact A h 0 0.
Proof.
  intros Hbasis Hkeep Hor HL Hn0 Hn Hctor h.
  assert (Hmax : INT_MAX <= SIZE_MAX) by (unfold INT_MAX, SIZE_MAX; lia).
  destruct (HSSMatrix_ctor_shape opts HL fuel n n h0 ltac:(lia) ltac:(lia) Hctor)
    as (Hfresh & Hr0 & Hc0 & Hsq & Hlev).
  assert (Hstruct := compress_recursive_ann_structure ann scores Aelem opts
                       Hbasis Hkeep h0 WorkANN_default Hfresh (Hsq eq_refl)).
  cbn [WorkANN_default w_c w_lvl w_offset fst snd] in Hstruct.
  specialize (Hstruct eq_refl ltac:(lia) ltac:(lia) ltac:(lia) ltac:(lia)
                ltac:(lia) ltac:(lia)).
  fold (compress_ann ann scores Aelem opts h0) in Hstruct. fold h in Hstruct.
  destruct Hstruct as (Hr & Hc & _ & Hwf & Hlx & _).
  rewrite Hr0 in Hr. rewrite Hc0 in Hc.
  split; [exact Hr|]. split; [exact Hc|]. split; [exact Hwf|].
  split; [exact Hlx|].
  apply (leaves_extracted_exact A n Aelem Hor Hkeep ltac:(lia) h 0 0 Hwf);
    try lia. exact Hlx.
Qed.

(** [dense()] on a tree whose blocks fit together, for the transposition
    with [cj] on the entries, when [Trans::C] acts as [cj]. *)
Lemma dense_blocks (cj : scalar -> scalar) (h : HSSMatrix) :
  (forall x, sconj x = cj x) ->
  hss_wf h ->
  _rows (node_data h) <= SIZE_MAX -> _cols (node_data h) <= SIZE_MAX ->
  rows (dense h) = _rows (node_data h) /\
  cols (dense h) = _cols (node_data h) /\
  forall i j, 0 <= i < _rows (node_data h) -> 0 <= j < _cols (node_data h) ->
    elt (dense h) i j = elt (hss_dense_by cj h) i j.
Proof.
  intros Hcj Hwf Hr Hc.
  assert (Hd := dense_recursive_spec cj h Hcj Hwf
                  (DenseM_new (_rows (node_data h)) (_cols (node_data h)))
                  WorkDense_default true).
  cbn [WorkDense_default wd_offset fst snd] in Hd.
  specialize (Hd ltac:(lia) ltac:(lia) ltac:(lia) ltac:(lia)).
  unfold dense_recursive_post in Hd.
  cbn [WorkDense_default wd_offset fst snd] in Hd.
  destruct Hd as (Hdr & Hdc & _ & Hin & _ & _).
  fold (dense h) in Hdr, Hdc, Hin.
  cbn [DenseM_new rows cols] in Hdr, Hdc.
  split; [exact Hdr|]. split; [exact Hdc|].
  intros i j Hi Hj. rewrite Hin by lia. f_equal; lia.
Qed.



End CompressStructure.

(** ** More on the [HSSMatrix(m, n, opts)] constructor *)

Section CtorProofs.
Context {S : Scalar} {L : DenseLib} {BL : HSSBasisLib}.

Lemma total_app (f : HSSNode -> Z) (l1 l2 : list HSSNode) :
  total f (l1 ++ l2) = total f l1 + total f l2.
Proof.
  unfold total. induction l1 as [|d l1 IH]; cbn [app fold_right]; lia.
Qed.

Lemma fresh_leaves_total (h : HSSMatrix) :
  fresh h ->
  total _rows (leaf_nodes h) = _rows (node_data h) /\
  total _cols (leaf_nodes h) = _cols (node_data h).
Proof.
  induction h as [d|d ch0 IH0 ch1 IH1]; cbn [fresh leaf_nodes node_data].
  - intros _. unfold total. cbn [fold_right]. lia.
  - intros (_ & Hr & Hc & H0 & H1).
    destruct (IH0 H0) as [Hr0 Hc0]. destruct (IH1 H1) as [Hr1 Hc1].
    rewrite !total_app. lia.
Qed.

(** The unfolding of the constructor on an active node. *)
Lemma HSSMatrix_ctor_step (opts : HSSOptions) (fuel : nat) (m n : Z)
  (h : HSSMatrix) :
  1 <= leaf_size opts <= INT_MAX ->
  0 <= m <= SIZE_MAX -> 0 <= n <= SIZE_MAX ->
  HSSMatrix_ctor (Datatypes.S fuel) m n opts true = Some h ->
  (m <= leaf_size opts /\ n <= leaf_size opts /\
   h = Leaf (HSSMatrixBase m n true)) \/
  ((leaf_size opts < m \/ leaf_size opts < n) /\
   exists c0 c1,
     HSSMatrix_ctor fuel (m / 2) (n / 2) opts true = Some c0 /\
     HSSMatrix_ctor fuel (m - m / 2) (n - n / 2) opts true = Some c1 /\
     h = Node (HSSMatrixBase m n true) c0 c1).
Proof.
  intros HL Hm Hn Hctor.
  assert (HwL : wrap_size (leaf_size opts) = leaf_size opts).
  { apply wrap_size_id. unfold in_size, SIZE_MAX, INT_MAX in *. lia. }
  cbn [HSSMatrix_ctor negb] in Hctor. rewrite HwL in Hctor.
  assert (Hm2 : 0 <= m / 2 <= m) by (split; [apply Z.div_pos; lia|apply Z.div_le_upper_bound; lia]).
  assert (Hn2 : 0 <= n / 2 <= n) by (split; [apply Z.div_pos; lia|apply Z.div_le_upper_bound; lia]).
  unfold size_sub in Hctor.
  rewrite (wrap_size_id (m - m / 2)) in Hctor by (unfold in_size; lia).
  rewrite (wrap_size_id (n - n / 2)) in Hctor by (unfold in_size; lia).
  destruct ((m >? leaf_size opts) || (n >? leaf_size opts)) eqn:Hsplit.
  - right. apply orb_true_iff in Hsplit. rewrite !Z.gtb_ltb, !Z.ltb_lt in Hsplit.
    split; [exact Hsplit|].
    destruct (HSSMatrix_ctor fuel (m / 2) (n / 2) opts true) as [c0|]; [|discriminate].
    destruct (HSSMatrix_ctor fuel (m - m / 2) (n - n / 2) opts true) as [c1|];
      [|discriminate].
    exists c0, c1. inversion Hctor. auto.
  - left. apply orb_false_iff in Hsplit. rewrite !Z.gtb_ltb, !Z.ltb_ge in Hsplit.
    inversion Hctor. repeat split; lia.
Qed.

Lemma half_bounds (x y : Z) :
  0 <= x -> x <= 2 * y -> x / 2 <= y /\ x - x / 2 <= y.
Proof.
  intros Hx Hy.
  assert (H := Z.div_mod x 2 ltac:(lia)).
  assert (H2 := Z.mod_pos_bound x 2 ltac:(lia)). lia.
Qed.

(** X2.  The depth of the tree built by [HSSMatrix(m, n, opts)] is
    logarithmic in the size: with leaf size [L >= 1], if [m] and [n] are at
    most [L * 2^j] the tree has at most [j + 1] levels, and a tree of
    [levels] levels holds sizes of at most [L * 2^(levels - 1)]; so a
    matrix of order [L * 2^k] gets exactly [k + 1] levels. *)
Theorem HSSMatrix_ctor_levels (opts : HSSOptions) (fuel : nat) (m n : Z)
  (j : nat) (h : HSSMatrix) :
  1 <= leaf_size opts <= INT_MAX ->
  0 <= m <= SIZE_MAX -> 0 <= n <= SIZE_MAX ->
  HSSMatrix_ctor fuel m n opts true = Some h ->
  (m <= leaf_size opts * 2 ^ Z.of_nat j ->
   n <= leaf_size opts * 2 ^ Z.of_nat j -> levels h <= Z.of_nat j + 1) /\
  1 <= levels h /\
  m <= leaf_size opts * 2 ^ (levels h - 1) /\
  n <= leaf_size opts * 2 ^ (levels h - 1).
Proof.
  intros HL. revert m n j h.
  induction fuel as [|fuel IH]; intros m n j h Hm Hn Hctor; [discriminate|].
  destruct (HSSMatrix_ctor_step opts fuel m n h HL Hm Hn Hctor)
    as [(Hml & Hnl & ->)|(Hbig & c0 & c1 & H0 & H1 & ->)].
  - cbn [levels HSSMatrixBase _active negb]. change (2 ^ (1 + 0 - 1)) with 1.
    repeat split; lia.
  - assert (Hm2 : 0 <= m / 2 <= m) by (split; [apply Z.div_pos; lia|apply Z.div_le_upper_bound; lia]).
    assert (Hn2 : 0 <= n / 2 <= n) by (split; [apply Z.div_pos; lia|apply Z.div_le_upper_bound; lia]).
    cbn [levels HSSMatrixBase _active negb].
    split; [|].
    + intros Hmj Hnj. destruct j as [|j].
      { change (2 ^ Z.of_nat 0) with 1 in *. lia. }
      rewrite Nat2Z.inj_succ, Z.pow_succ_r in Hmj, Hnj by lia.
      destruct (half_bounds m (leaf_size opts * 2 ^ Z.of_nat j)) as [Ha Hb]; [lia|lia|].
      destruct (half_bounds n (leaf_size opts * 2 ^ Z.of_nat j)) as [Hc Hd]; [lia|lia|].
      destruct (IH (m / 2) (n / 2) j c0 ltac:(lia) ltac:(lia) H0) as (Hl0 & _).
      destruct (IH (m - m / 2) (n - n / 2) j c1 ltac:(lia) ltac:(lia) H1) as (Hl1 & _).
      specialize (Hl0 Ha Hc). specialize (Hl1 Hb Hd). lia.
    + destruct (IH (m / 2) (n / 2) j c0 ltac:(lia) ltac:(lia) H0)
        as (_ & Hp0 & Hm0 & Hn0).
      destruct (IH (m - m / 2) (n - n / 2) j c1 ltac:(lia) ltac:(lia) H1)
        as (_ & Hp1 & Hm1 & Hn1).
      set (l0 := levels c0) in *. set (l1 := levels c1) in *.
      set (lm := Z.max (Z.max 0 l0) l1).
      assert (Hlm : 1 <= lm) by (unfold lm; lia).
      replace (1 + lm - 1) with (Z.succ (lm - 1)) by lia.
      rewrite Z.pow_succ_r by lia.
      assert (Hmono0 : 2 ^ (l0 - 1) <= 2 ^ (lm - 1))
        by (apply Z.pow_le_mono_r; unfold lm; lia).
      assert (Hmono1 : 2 ^ (l1 - 1) <= 2 ^ (lm - 1))
        by (apply Z.pow_le_mono_r; unfold lm; lia).
      split; [lia|]. split; nia.
Qed.

(** X1.  The leaves of the tree built by [HSSMatrix(m, n, opts)] split the
    rows and the columns: their row counts add up to [m], their column
    counts to [n], none exceeds the leaf size; and for a square matrix of
    order at least 1 every leaf is square and not empty. *)
Theorem HSSMatrix_ctor_leaves (opts : HSSOptions) (fuel : nat) (m n : Z)
  (h : HSSMatrix) :
  1 <= leaf_size opts <= INT_MAX ->
  0 <= m <= SIZE_MAX -> 0 <= n <= SIZE_MAX ->
  HSSMatrix_ctor fuel m n opts true = Some h ->
  total _rows (leaf_nodes h) = m /\
  total _cols (leaf_nodes h) = n /\
  Forall (fun d => 0 <= _rows d <= leaf_size opts /\
                   0 <= _cols d <= leaf_size opts) (leaf_nodes h) /\
  (m = n -> 1 <= n ->
   Forall (fun d => 1 <= _rows d /\ _rows d = _cols d) (leaf_nodes h)).
Proof.
  intros HL. revert m n h.
  induction fuel as [|fuel IH]; intros m n h Hm Hn Hctor; [discriminate|].
  destruct (HSSMatrix_ctor_step opts fuel m n h HL Hm Hn Hctor)
    as [(Hml & Hnl & ->)|(Hbig & c0 & c1 & H0 & H1 & ->)].
  - cbn [leaf_nodes]. unfold total. cbn [fold_right HSSMatrixBase _rows _cols].
    split; [lia|]. split; [lia|]. split.
    + constructor; [cbn [HSSMatrixBase _rows _cols]; lia|constructor].
    + intros Heq Hn1. constructor; [cbn [HSSMatrixBase _rows _cols]; lia|constructor].
  - assert (Hm2 : 0 <= m / 2 <= m) by (split; [apply Z.div_pos; lia|apply Z.div_le_upper_bound; lia]).
    assert (Hn2 : 0 <= n / 2 <= n) by (split; [apply Z.div_pos; lia|apply Z.div_le_upper_bound; lia]).
    destruct (IH (m / 2) (n / 2) c0 ltac:(lia) ltac:(lia) H0)
      as (Hr0 & Hc0 & Hb0 & Hs0).
    destruct (IH (m - m / 2) (n - n / 2) c1 ltac:(lia) ltac:(lia) H1)
      as (Hr1 & Hc1 & Hb1 & Hs1).
    cbn [leaf_nodes]. rewrite !total_app.
    split; [lia|]. split; [lia|]. split.
    + apply Forall_app. split; assumption.
    + intros Heq Hn1. subst m.
      assert (H2 : 2 <= n) by lia.
      assert (Hd := Z.div_mod n 2 ltac:(lia)).
      assert (Hmod := Z.mod_pos_bound n 2 ltac:(lia)).
      apply Forall_app. split; [apply Hs0|apply Hs1]; lia.
Qed.

End CtorProofs.

(** ** More on the compression passes *)

Section PassProofs.
Context {S : Scalar} {L : DenseLib} {BL : HSSBasisLib}.

Lemma states_advance_root (h h' : HSSMatrix) :
  states_advance h h' -> node_advances (node_data h) (node_data h').
Proof.
  destruct h as [d|d a b], h' as [d'|d' a' b']; cbn [states_advance node_data];
    try tauto.
Qed.

Lemma state_le_from_COMPRESSED (s : State) :
  state_le COMPRESSED s -> s = COMPRESSED.
Proof. unfold state_le. destruct s; cbn [state_rank]; intros H; [lia|lia|reflexivity]. Qed.

Lemma is_compressed_iff (d : HSSNode) :
  is_compressed d = true <-> _U_state d = COMPRESSED /\ _V_state d = COMPRESSED.
Proof.
  unfold is_compressed. rewrite andb_true_iff.
  destruct (_U_state d), (_V_state d); cbn [State_eqb]; split;
    intros [H1 H2]; split; congruence.
Qed.

Lemma is_compressed_advances (d d' : HSSNode) :
  node_advances d d' -> is_compressed d = true -> is_compressed d' = true.
Proof.
  intros [HU HV] Hc. apply is_compressed_iff in Hc. destruct Hc as [H1 H2].
  rewrite H1 in HU. rewrite H2 in HV.
  apply is_compressed_iff. split; apply state_le_from_COMPRESSED; assumption.
Qed.

Lemma closed_root_all (h : HSSMatrix) :
  compressed_closed h -> is_compressed (node_data h) = true ->
  all_nodes (fun d => is_compressed d = true) h.
Proof.
  induction h as [d|d ch0 IH0 ch1 IH1]; cbn [compressed_closed all_nodes node_data].
  - intros _ H. exact H.
  - intros (Hd & H0 & H1) Hc. destruct (Hd Hc) as [Hc0 Hc1]. auto.
Qed.

Lemma fresh_closed (h : HSSMatrix) : fresh h -> compressed_closed h.
Proof.
  induction h as [d|d ch0 IH0 ch1 IH1]; cbn [fresh compressed_closed]; [auto|].
  intros (Hd & _ & _ & H0 & H1). split; [|auto].
  intros Hc. rewrite Hd in Hc. discriminate.
Qed.

Lemma compress_recursive_ann_closed (v : SourceCopy) (ann : DenseMatrix Z)
  (scores : DenseMatrix Q) (Aelem : elem_t) (opts : HSSOptions)
  (h : HSSMatrix) :
  forall w,
    compressed_closed h ->
    compressed_closed (fst (compress_recursive_ann v ann scores Aelem opts h w)).
Proof.
  induction h as [d|d ch0 IH0 ch1 IH1]; intros w Hcl.
  - cbn [compress_recursive_ann].
    destruct (compress_node v ann scores Aelem opts true _ w) as [d2 w1].
    exact I.
  - cbn [compressed_closed] in Hcl. destruct Hcl as (Hd & Hcl0 & Hcl1).
    cbn [compress_recursive_ann].
    assert (Ha0 := compress_recursive_ann_advances v ann scores Aelem opts ch0
                     (w_child (split w (dims (node_data ch0))) 0)).
    specialize (IH0 (w_child (split w (dims (node_data ch0))) 0) Hcl0).
    destruct (compress_recursive_ann v ann scores Aelem opts ch0 _) as [ch0' wc0].
    assert (Ha1 := compress_recursive_ann_advances v ann scores Aelem opts ch1
                     (w_child (split w (dims (node_data ch0))) 1)).
    specialize (IH1 (w_child (split w (dims (node_data ch0))) 1) Hcl1).
    destruct (compress_recursive_ann v ann scores Aelem opts ch1 _) as [ch1' wc1].
    cbn [fst] in *.
    apply states_advance_root in Ha0, Ha1.
    destruct (negb (is_compressed (node_data ch0'))
              || negb (is_compressed (node_data ch1'))) eqn:Hearly.
    + cbn [fst compressed_closed]. split; [|auto].
      intros Hc. destruct (Hd Hc) as [Hc0 Hc1].
      split; eapply is_compressed_advances; eassumption.
    + apply orb_false_iff in Hearly. rewrite !negb_false_iff in Hearly.
      destruct (compress_node v ann scores Aelem opts false _ _) as [d2 w3].
      cbn [fst compressed_closed]. split; [|auto]. intros _. exact Hearly.
Qed.

Lemma compress_adaptive_closed (fuel : nat)
  (find_approximate_neighbors : Z -> nat -> DenseMatrix Z * DenseMatrix Q)
  (Aelem : elem_t) (opts : HSSOptions) (n : Z) :
  forall (ann_number : Z) (pass : nat) (h : HSSMatrix),
    compressed_closed h ->
    compressed_closed
      (compress_adaptive fuel find_approximate_neighbors Aelem opts n
         ann_number pass h).
Proof.
  induction fuel as [|fuel IH]; intros ann_number pass h Hcl;
    cbn [compress_adaptive]; [exact Hcl|].
  destruct (is_compressed (node_data h)); [exact Hcl|].
  destruct (find_approximate_neighbors ann_number pass) as [ann scores].
  apply IH. apply compress_recursive_ann_closed. exact Hcl.
Qed.

(** X3.  Compressed-ness is closed downwards, and a pass keeps it so: if
    in a tree every compressed node has compressed children (a fresh tree
    is one), the same holds after [compress_recursive_ann] in either copy
    and after the adaptive loop of [compress].  So the test of the root
    alone, [is_compressed()], which ends the adaptive loop, certifies
    that every node of the tree is compressed. *)
Theorem compressed_root_certifies (v : SourceCopy) (ann : DenseMatrix Z)
  (scores : DenseMatrix Q) (Aelem : elem_t) (opts : HSSOptions)
  (h : HSSMatrix) (w : WorkCompressANN) (fuel : nat)
  (find_approximate_neighbors : Z -> nat -> DenseMatrix Z * DenseMatrix Q)
  (n ann_number : Z) (pass : nat) :
  compressed_closed h ->
  let h1 := fst (compress_recursive_ann v ann scores Aelem opts h w) in
  let h2 := compress_adaptive fuel find_approximate_neighbors Aelem opts n
              ann_number pass h in
  compressed_closed h1 /\
  (is_compressed (node_data h1) = true ->
   all_nodes (fun d => is_compressed d = true) h1) /\
  compressed_closed h2 /\
  (is_compressed (node_data h2) = true ->
   all_nodes (fun d => is_compressed d = true) h2).
Proof.
  intros Hcl h1 h2.
  assert (H1 : compressed_closed h1)
    by (apply compress_recursive_ann_closed; exact Hcl).
  assert (H2 : compressed_closed h2)
    by (apply compress_adaptive_closed; exact Hcl).
  split; [exact H1|]. split; [apply closed_root_all; exact H1|].
  split; [exact H2|apply closed_root_all; exact H2].
Qed.

(** In the src/HSS copy every node is COMPRESSED after a pass. *)
Lemma src_HSS_pass_compresses (ann : DenseMatrix Z) (scores : DenseMatrix Q)
  (Aelem : elem_t) (opts : HSSOptions) (h : HSSMatrix) :
  forall w,
    all_nodes (fun d => is_compressed d = true)
      (fst (compress_recursive_ann src_HSS ann scores Aelem opts h w)).
Proof.
  assert (Hnode : forall is_leaf d w,
            is_compressed (fst (compress_node src_HSS ann scores Aelem opts
                                  is_leaf d w)) = true).
  { intros is_leaf d w.
    assert (H := compress_node_states src_HSS ann scores Aelem opts is_leaf d w).
    cbv zeta in H. rewrite orb_true_r in H. apply is_compressed_iff. exact H. }
  assert (Hroot : forall h', all_nodes (fun d => is_compressed d = true) h' ->
                             is_compressed (node_data h') = true).
  { intros [d|d a b]; cbn [all_nodes node_data]; tauto. }
  induction h as [d|d ch0 IH0 ch1 IH1]; intros w; cbn [compress_recursive_ann].
  - match goal with
    | |- context [compress_node src_HSS ann scores Aelem opts true ?d1 w] =>
        assert (Hc := Hnode true d1 w);
        destruct (compress_node src_HSS ann scores Aelem opts true d1 w) as [d2 w1]
    end.
    exact Hc.
  - specialize (IH0 (w_child (split w (dims (node_data ch0))) 0)).
    destruct (compress_recursive_ann src_HSS ann scores Aelem opts ch0 _) as [ch0' wc0].
    specialize (IH1 (w_child (split w (dims (node_data ch0))) 1)).
    destruct (compress_recursive_ann src_HSS ann scores Aelem opts ch1 _) as [ch1' wc1].
    cbn [fst] in *.
    rewrite (Hroot ch0' IH0), (Hroot ch1' IH1). cbn [negb orb].
    match goal with
    | |- context [compress_node src_HSS ann scores Aelem opts false ?d1 ?w2] =>
        assert (Hc := Hnode false d1 w2);
        destruct (compress_node src_HSS ann scores Aelem opts false d1 w2) as [d2 w3]
    end.
    cbn [fst all_nodes] in *. auto.
Qed.

Lemma compressed_not_untouched (d : HSSNode) :
  is_compressed d = true -> is_untouched d = false.
Proof.
  intros H. apply is_compressed_iff in H. destruct H as [H1 H2].
  unfold is_untouched. rewrite H1. reflexivity.
Qed.

Lemma src_HSS_pass_keeps_blocks (ann : DenseMatrix Z) (scores : DenseMatrix Q)
  (Aelem : elem_t) (opts : HSSOptions) (h : HSSMatrix) :
  forall w,
    all_nodes (fun d => is_untouched d = false) h ->
    same_blocks h (fst (compress_recursive_ann src_HSS ann scores Aelem opts h w)).
Proof.
  induction h as [d|d ch0 IH0 ch1 IH1]; intros w Hall;
    cbn [all_nodes] in Hall; cbn [compress_recursive_ann].
  - rewrite Hall.
    assert (Hf := compress_node_frame src_HSS ann scores Aelem opts true d w).
    cbv zeta in Hf.
    destruct (compress_node src_HSS ann scores Aelem opts true d w) as [d2 w1].
    cbn [fst same_blocks] in *. tauto.
  - destruct Hall as (Hd & H0 & H1).
    specialize (IH0 (w_child (split w (dims (node_data ch0))) 0) H0).
    destruct (compress_recursive_ann src_HSS ann scores Aelem opts ch0 _) as [ch0' wc0].
    specialize (IH1 (w_child (split w (dims (node_data ch0))) 1) H1).
    destruct (compress_recursive_ann src_HSS ann scores Aelem opts ch1 _) as [ch1' wc1].
    cbn [fst] in *.
    destruct (negb (is_compressed (node_data ch0'))
              || negb (is_compressed (node_data ch1'))).
    + cbn [fst same_blocks]. auto.
    + rewrite Hd.
      match goal with
      | |- context [compress_node src_HSS ann scores Aelem opts false d ?w2] =>
          assert (Hf := compress_node_frame src_HSS ann scores Aelem opts false d w2);
          cbv zeta in Hf;
          destruct (compress_node src_HSS ann scores Aelem opts false d w2) as [d2 w3]
      end.
      cbn [fst same_blocks] in *. tauto.
Qed.

(** X4.  In the src/HSS copy the blocks are extracted once: a pass marks
    every node COMPRESSED, whatever the tree and the inputs, and a second
    pass, with any neighbours, scores, oracle and options, leaves the [D]
    of every leaf and the [B01] and [B10] of every internal node as the
    first pass set them (the [is_untouched()] guards). *)
Theorem src_HSS_blocks_extracted_once (ann ann' : DenseMatrix Z)
  (scores scores' : DenseMatrix Q) (Aelem Aelem' : elem_t)
  (opts opts' : HSSOptions) (h : HSSMatrix) (w w' : WorkCompressANN) :
  let h1 := fst (compress_recursive_ann src_HSS ann scores Aelem opts h w) in
  let h2 := fst (compress_recursive_ann src_HSS ann' scores' Aelem' opts' h1 w') in
  all_nodes (fun d => is_compressed d = true) h1 /\
  same_blocks h1 h2.
Proof.
  intros h1 h2.
  assert (Hc : all_nodes (fun d => is_compressed d = true) h1)
    by apply src_HSS_pass_compresses.
  split; [exact Hc|].
  apply src_HSS_pass_keeps_blocks.
  clear h2. revert Hc. generalize h1. clear.
  intros t. induction t as [d|d a IHa b IHb]; cbn [all_nodes].
  - apply compressed_not_untouched.
  - intros (Hd & Ha & Hb). auto using compressed_not_untouched.
Qed.

(** X5.  The copy in [runYang_Formula.sh] never extracts [B10] from the
    oracle: after a pass over any tree, with any oracle, the [B10] of
    every internal node whose children are compressed is the transpose of
    its [B01]. *)
Theorem runYang_B10_is_transpose (ann : DenseMatrix Z) (scores : DenseMatrix Q)
  (Aelem : elem_t) (opts : HSSOptions) (h : HSSMatrix) :
  forall w,
    transposed_generators
      (fst (compress_recursive_ann runYang ann scores Aelem opts h w)).
Proof.
  induction h as [d|d ch0 IH0 ch1 IH1]; intros w; cbn [compress_recursive_ann].
  - destruct (compress_node runYang ann scores Aelem opts true _ w) as [d2 w1].
    exact I.
  - specialize (IH0 (w_child (split w (dims (node_data ch0))) 0)).
    destruct (compress_recursive_ann runYang ann scores Aelem opts ch0 _)
      as [ch0' wc0].
    specialize (IH1 (w_child (split w (dims (node_data ch0))) 1)).
    destruct (compress_recursive_ann runYang ann scores Aelem opts ch1 _)
      as [ch1' wc1].
    cbn [fst] in *.
    destruct (negb (is_compressed (node_data ch0'))
              || negb (is_compressed (node_data ch1'))) eqn:Hearly.
    + cbn [fst transposed_generators]. split; [|auto].
      intros H0 H1. rewrite H0, H1 in Hearly. discriminate.
    + match goal with
      | |- context [compress_node runYang ann scores Aelem opts false ?d1 ?w2] =>
          assert (Hf := compress_node_frame runYang ann scores Aelem opts
                          false d1 w2);
          cbv zeta in Hf;
          destruct (compress_node runYang ann scores Aelem opts false d1 w2)
            as [d2 w3]
      end.
      cbn [fst transposed_generators] in *. split; [|auto].
      intros _ _. destruct Hf as (_ & _ & _ & _ & HB01 & HB10).
      rewrite HB01, HB10. reflexivity.
Qed.

End PassProofs.

(** ** Kernel types *)

Lemma string_compare_zero (a b : String.string) :
  string_compare a b = 0 <-> a = b.
Proof.
  unfold string_compare. split.
  - intros H. apply String.compare_eq_iff.
    destruct (String.compare a b); [reflexivity|discriminate H|discriminate H].
  - intros H. subst b. assert (Ha := String.compare_antisym a a).
    destruct (String.compare a a); [reflexivity|discriminate Ha|discriminate Ha].
Qed.

(** X6.  [kernel_type] does not invert [get_name]: it returns LAPLACE
    exactly for the strings other than "Gauss" and "Laplace", and for
    "Laplace" itself it writes the error message and returns GAUSS.  So
    the name of either kernel type is read back as GAUSS. *)
Theorem kernel_type_of_name (k : String.string) :
  (fst (kernel_type k) = LAPLACE <->
   k <> "Gauss"%string /\ k <> "Laplace"%string) /\
  (snd (kernel_type k) = true <-> k = "Laplace"%string) /\
  (forall t : KernelType, fst (kernel_type (get_name t)) = GAUSS).
Proof.
  assert (HG := string_compare_zero k "Gauss"%string).
  assert (HL := string_compare_zero k "Laplace"%string).
  unfold kernel_type.
  destruct (string_compare k "Gauss"%string =? 0) eqn:EG;
    [apply Z.eqb_eq in EG|apply Z.eqb_neq in EG];
    (destruct (string_compare k "Laplace"%string =? 0) eqn:EL;
     [apply Z.eqb_eq in EL|apply Z.eqb_neq in EL]);
    cbn [negb fst snd].
  - apply HG in EG. apply HL in EL. subst k. discriminate.
  - apply HG in EG. split; [|split].
    + split; [discriminate|]. intros [H _]. contradiction.
    + split; [discriminate|]. intros H. subst k. discriminate.
    + intros []; reflexivity.
  - apply HL in EL. split; [|split].
    + split; [discriminate|]. intros [_ H]. contradiction.
    + split; auto.
    + intros []; reflexivity.
  - split; [|split].
    + split; [|reflexivity]. intros _. split; intros H; [apply EG|apply EL];
        [apply HG|apply HL]; exact H.
    + split; [discriminate|]. intros H. exfalso. apply EL, HL. exact H.
    + intros []; reflexivity.
Qed.

(** ** Distance matrices *)

(** Case analysis on every integer comparison of the goal, each case
    closed by linear arithmetic or by reflexivity. *)
Ltac zbool_hyps :=
  repeat match goal with
         | H : (_ =? _) = true |- _ => apply Z.eqb_eq in H
         | H : (_ =? _) = false |- _ => apply Z.eqb_neq in H
         | H : (_ <? _) = true |- _ => apply Z.ltb_lt in H
         | H : (_ <? _) = false |- _ => apply Z.ltb_ge in H
         | H : (_ <=? _) = true |- _ => apply Z.leb_le in H
         | H : (_ <=? _) = false |- _ => apply Z.leb_gt in H
         end.

Ltac zbool_cases :=
  repeat match goal with
         | |- context [?a =? ?b] => destruct (a =? b) eqn:?
         | |- context [?a <? ?b] => destruct (a <? b) eqn:?
         | |- context [?a <=? ?b] => destruct (a <=? b) eqn:?
         end;
  cbn [andb orb negb]; zbool_hyps;
  try reflexivity; try (exfalso; lia); subst.

Section DistanceProofs.
Context {S : Scalar}.
Variable metric : Z -> list scalar -> list scalar -> Q.
Variable init : Z -> Z -> Q.

Lemma for_range_snoc {St : Type} (lo hi : Z) (body : Z -> St -> St) (st : St) :
  lo <= hi ->
  for_range lo (hi + 1) body st = body hi (for_range lo hi body st).
Proof.
  intros H. unfold for_range. rewrite range_snoc by exact H.
  rewrite fold_left_app. reflexivity.
Qed.

Lemma for_range_empty {St : Type} (lo hi : Z) (body : Z -> St -> St) (st : St) :
  hi <= lo -> for_range lo hi body st = st.
Proof. intros H. unfold for_range. rewrite range_nil by exact H. reflexivity. Qed.

Lemma distance_inner (data : DenseM) (index_subset : list Z) (i : Z)
  (D : DenseMatrix Q) :
  0 <= i ->
  forall (k : nat),
    let D' :=
      for_range (i + 1) (i + 1 + Z.of_nat k)
        (fun j distances2 =>
           let distances3 :=
             dset distances2 j i
               (metric (rows data) (column_ptr data (vec_at index_subset i))
                  (column_ptr data (vec_at index_subset j))) in
           dset distances3 i j (elt distances3 j i)) D in
    rows D' = rows D /\ cols D' = cols D /\
    forall a b,
      elt D' a b =
        if (b =? i) && (i <? a) && (a <? i + 1 + Z.of_nat k)
        then pair_distance metric data index_subset i a
        else if (a =? i) && (i <? b) && (b <? i + 1 + Z.of_nat k)
        then pair_distance metric data index_subset i b
        else elt D a b.
Proof.
  intros Hi. induction k as [|k IH]; cbv zeta.
  - rewrite for_range_empty by lia. repeat split.
    intros a b. zbool_cases.
  - cbv zeta in IH. destruct IH as (Hr & Hc & He).
    replace (i + 1 + Z.of_nat (Datatypes.S k)) with (i + 1 + Z.of_nat k + 1) by lia.
    rewrite for_range_snoc by lia.
    set (D1 := for_range (i + 1) (i + 1 + Z.of_nat k) _ D) in *.
    cbn [dset rows cols elt]. split; [exact Hr|]. split; [exact Hc|].
    intros a b. rewrite !Z.eqb_refl. cbn [andb]. rewrite He.
    unfold pair_distance. zbool_cases; try reflexivity; try lia.
Qed.

Lemma distance_outer (data : DenseM) (index_subset : list Z) :
  let n := vec_size index_subset in
  n <= SIZE_MAX ->
  forall (m : nat),
    Z.of_nat m <= n ->
    let D' :=
      for_range 0 (Z.of_nat m)
        (fun i distances =>
           let distances1 := dset distances i i 0%Q in
           for_range (size_add i 1) n
             (fun j distances2 =>
                let distances3 :=
                  dset distances2 j i
                    (metric (rows data)
                       (column_ptr data (vec_at index_subset i))
                       (column_ptr data (vec_at index_subset j))) in
                dset distances3 i j (elt distances3 j i))
             distances1)
        (mkDenseMatrix n n init) in
    rows D' = n /\ cols D' = n /\
    forall a b,
      elt D' a b =
        if (0 <=? a) && (a <? n) && (0 <=? b) && (b <? n)
           && (Z.min a b <? Z.of_nat m)
        then if a =? b then 0%Q
             else pair_distance metric data index_subset (Z.min a b) (Z.max a b)
        else init a b.
Proof.
  intros n Hn. induction m as [|m IH]; intros Hm; cbv zeta.
  - rewrite for_range_empty by lia. cbn [rows cols elt]. repeat split.
    intros a b.
    destruct (Z.le_gt_cases a b);
      [rewrite Z.min_l by lia|rewrite Z.min_r by lia]; zbool_cases.
  - cbv zeta in IH. destruct (IH ltac:(lia)) as (Hr & Hc & He). clear IH.
    replace (Z.of_nat (Datatypes.S m)) with (Z.of_nat m + 1) by lia.
    rewrite for_range_snoc by lia.
    set (D1 := for_range 0 (Z.of_nat m) _ _) in *.
    unfold size_add. rewrite wrap_size_id by (unfold in_size; lia).
    assert (Hin := distance_inner data index_subset (Z.of_nat m)
                     (dset D1 (Z.of_nat m) (Z.of_nat m) 0%Q) ltac:(lia)
                     (Z.to_nat (n - (Z.of_nat m + 1)))).
    cbv zeta in Hin.
    replace (Z.of_nat m + 1 + Z.of_nat (Z.to_nat (n - (Z.of_nat m + 1))))
      with n in Hin by lia.
    destruct Hin as (Hr' & Hc' & He').
    split; [rewrite Hr'; exact Hr|]. split; [rewrite Hc'; exact Hc|].
    intros a b. rewrite He'. cbn [dset elt]. rewrite He.
    destruct (Z.le_gt_cases a b);
      [rewrite Z.min_l, Z.max_r by lia|rewrite Z.min_r, Z.max_l by lia];
      zbool_cases; try reflexivity; try lia.
Qed.

(** X7.  [find_distance_matrix_MPI] returns a square matrix of the size
    of the subset, with a zero diagonal, symmetric, whose entry [(a, b)],
    [a < b], is the metric applied to the points at positions [a] and [b]
    of the subset, in this order: every entry is written, so nothing of
    the uninitialised storage is left, and the matrix is symmetric even
    if the metric is not. *)
Theorem find_distance_matrix_MPI_symmetric (data : DenseM)
  (index_subset : list Z) :
  vec_size index_subset <= SIZE_MAX ->
  let n := vec_size index_subset in
  let D := find_distance_matrix_MPI metric init data index_subset in
  rows D = n /\ cols D = n /\
  forall a b, 0 <= a < n -> 0 <= b < n ->
    elt D a a = 0%Q /\
    elt D a b = elt D b a /\
    (a < b -> elt D a b = pair_distance metric data index_subset a b).
Proof.
  intros Hn n D.
  destruct (distance_outer data index_subset Hn (length index_subset)
              ltac:(unfold vec_size; lia)) as (Hr & Hc & He).
  fold (vec_size index_subset) in Hr, Hc, He. fold n in Hr, Hc, He.
  change (for_range 0 n _ _) with D in Hr, Hc, He.
  split; [exact Hr|]. split; [exact Hc|].
  intros a b Ha Hb. rewrite !He.
  rewrite (Z.min_comm b a), (Z.max_comm b a), (Z.eqb_sym b a).
  split; [|split].
  - rewrite Z.min_id. zbool_cases.
  - destruct (Z.le_gt_cases a b);
      [rewrite Z.min_l by lia|rewrite Z.min_r by lia]; zbool_cases.
  - intros Hab. rewrite Z.min_l, Z.max_r by lia. zbool_cases.
Qed.

End DistanceProofs.

(** ** Merging two neighbour lists *)

Lemma mat_get_in {T : Type} (A : DenseMatrix T) (i j : Z) :
  0 <= i < rows A -> 0 <= j < cols A -> mat_get A i j = Some (elt A i j).
Proof.
  intros Hi Hj. unfold mat_get.
  replace (0 <=? i) with true by (symmetry; apply Z.leb_le; lia).
  replace (i <? rows A) with true by (symmetry; apply Z.ltb_lt; lia).
  replace (0 <=? j) with true by (symmetry; apply Z.leb_le; lia).
  replace (j <? cols A) with true by (symmetry; apply Z.ltb_lt; lia).
  reflexivity.
Qed.

Lemma mat_set_in {T : Type} (A : DenseMatrix T) (i j : Z) (x : T) :
  0 <= i < rows A -> 0 <= j < cols A -> mat_set A i j x = Some (dset A i j x).
Proof.
  intros Hi Hj. unfold mat_set.
  replace (0 <=? i) with true by (symmetry; apply Z.leb_le; lia).
  replace (i <? rows A) with true by (symmetry; apply Z.ltb_lt; lia).
  replace (0 <=? j) with true by (symmetry; apply Z.leb_le; lia).
  replace (j <? cols A) with true by (symmetry; apply Z.ltb_lt; lia).
  reflexivity.
Qed.

Lemma vec_store_in {T : Type} (v : list T) (i : Z) (x : T) :
  0 <= i < vec_size v ->
  exists v',
    vec_store v i x = Some v' /\ vec_size v' = vec_size v /\
    forall k d, 0 <= k ->
      nth (Z.to_nat k) v' d = if k =? i then x else nth (Z.to_nat k) v d.
Proof.
  intros Hi. unfold vec_store.
  replace (0 <=? i) with true by (symmetry; apply Z.leb_le; lia).
  replace (i <? vec_size v) with true by (symmetry; apply Z.ltb_lt; lia).
  cbn [andb]. eexists. split; [reflexivity|].
  unfold vec_size in *.
  assert (Hlen : length (firstn (Z.to_nat i) v) = Z.to_nat i)
    by (rewrite length_firstn; lia).
  split.
  - rewrite length_app. cbn [length]. rewrite Hlen, length_skipn. lia.
  - intros k d Hk. destruct (k =? i) eqn:E.
    + apply Z.eqb_eq in E. subst k.
      rewrite app_nth2 by lia. rewrite Hlen, Nat.sub_diag. reflexivity.
    + apply Z.eqb_neq in E.
      destruct (Z_lt_le_dec k i) as [Hlt|Hge].
      * rewrite app_nth1 by lia.
        rewrite <- (firstn_skipn (Z.to_nat i) v) at 2.
        rewrite app_nth1 by lia. reflexivity.
      * rewrite app_nth2 by lia. rewrite Hlen.
        replace (Z.to_nat k - Z.to_nat i)%nat
          with (Datatypes.S (Z.to_nat k - Datatypes.S (Z.to_nat i))) by lia.
        cbn [nth].
        rewrite <- (firstn_skipn (Datatypes.S (Z.to_nat i)) v) at 2.
        rewrite app_nth2 by (rewrite length_firstn; lia).
        rewrite length_firstn. f_equal. lia.
Qed.

Lemma vec_get_in {T : Type} (v : list T) (i : Z) (d : T) :
  0 <= i < vec_size v -> vec_get v i = Some (nth (Z.to_nat i) v d).
Proof.
  intros Hi. unfold vec_get.
  replace (0 <=? i) with true by (symmetry; apply Z.leb_le; lia).
  replace (i <? vec_size v) with true by (symmetry; apply Z.ltb_lt; lia).
  cbn [andb]. apply nth_error_nth'. unfold vec_size in Hi. lia.
Qed.

Section MergeProofs.
Variable neighbors : DenseMatrix Z.
Variable scores : DenseMatrix Q.
Variable new_neighbors : DenseMatrix Z.
Variable new_scores : DenseMatrix Q.
Variable c : Z.
Hypothesis Hshape : same_shape neighbors scores new_neighbors new_scores.
Hypothesis Hc : 0 <= c < cols neighbors.
Hypothesis Hmax : rows neighbors <= SIZE_MAX.

Lemma size_add_1 (k : Z) : 0 <= k < rows neighbors -> size_add k 1 = k + 1.
Proof.
  intros Hk. unfold size_add. apply wrap_size_id. unfold in_size. lia.
Qed.

Lemma merge_both_inv (st : MergeState) :
  merge_inv neighbors scores new_neighbors new_scores c (rows neighbors) st ->
  m_cur st < rows neighbors ->
  exists st',
    merge_both neighbors scores new_neighbors new_scores c st = Some st' /\
    merge_inv neighbors scores new_neighbors new_scores c (rows neighbors) st' /\
    m_cur st' = m_cur st + 1.
Proof.
  destruct Hshape as (Hrs & Hcs & Hrn & Hcn & Hrs2 & Hcs2).
  destruct st as [r1 r2 cur cn cs]. unfold merge_inv. cbn [m_r1 m_r2 m_cur
    cur_neighbors cur_scores].
  intros (Hr1 & Hr2 & Hcur & Hlcn & Hlcs & Hfrom & Hsorted) Hlt.
  unfold merge_both. cbn [m_r1 m_r2 m_cur cur_neighbors cur_scores].
  rewrite (mat_get_in scores r1 c) by lia.
  rewrite (mat_get_in new_scores r2 c) by lia.
  cbn [obind].
  rewrite !size_add_1 by lia.
  destruct (Qlt_bool (elt new_scores r2 c) (elt scores r1 c)) eqn:Hcmp.
  - (* the new neighbour is closer *)
    apply Qlt_bool_iff in Hcmp.
    rewrite (mat_get_in new_neighbors r2 c) by lia. cbn [obind].
    destruct (vec_store_in cn cur (elt new_neighbors r2 c) ltac:(lia))
      as (cn' & Hcn' & Hlcn' & Hnth).
    destruct (vec_store_in cs cur (elt new_scores r2 c) ltac:(lia))
      as (cs' & Hcs' & Hlcs' & Hqnth).
    rewrite Hcn'. cbn [obind]. rewrite Hcs'. cbn [obind].
    eexists. split; [reflexivity|].
    cbn [m_r1 m_r2 m_cur cur_neighbors cur_scores]. split; [|reflexivity].
    assert (Hq : forall k, 0 <= k ->
              qvec_at cs' k = if k =? cur then elt new_scores r2 c
                              else qvec_at cs k)
      by (intros k Hk; apply Hqnth; exact Hk).
    assert (Hn : forall k, 0 <= k ->
              vec_at cn' k = if k =? cur then elt new_neighbors r2 c
                             else vec_at cn k)
      by (intros k Hk; apply Hnth; exact Hk).
    split; [lia|]. split; [lia|]. split; [lia|]. split; [lia|].
    split; [lia|]. split.
    + intros k Hk. rewrite Hq, Hn by lia.
      destruct (k =? cur) eqn:E.
      * exists r2. split; [apply Z.eqb_eq in E; lia|]. right. reflexivity.
      * apply Z.eqb_neq in E. apply Hfrom. lia.
    + intros Hso1 Hso2. destruct (Hsorted Hso1 Hso2) as [Hs1 Hs2].
      assert (Hhead : forall k, 0 <= k < cur + 1 ->
                (qvec_at cs' k <= elt new_scores r2 c)%Q).
      { intros k Hk. rewrite Hq by lia. destruct (k =? cur) eqn:E.
        - apply Qle_refl.
        - apply Z.eqb_neq in E. apply Hs1; lia. }
      split.
      * intros k Hk. split; [|split; [|split]].
        -- intros _. eapply Qle_trans; [apply Hhead; lia|].
           apply Qlt_le_weak. exact Hcmp.
        -- intros Hr2a. eapply Qle_trans; [apply Hhead; lia|].
           apply Hso2; lia.
        -- rewrite Hq by lia. destruct (k =? cur) eqn:E.
           ++ apply Z.eqb_eq in E. subst k.
              eapply Qle_trans; [apply Qlt_le_weak; exact Hcmp|].
              apply Hso1; lia.
           ++ apply Z.eqb_neq in E. apply Hs1; lia.
        -- rewrite Hq by lia. destruct (k =? cur) eqn:E.
           ++ apply Z.eqb_eq in E. subst k. apply Hso2; lia.
           ++ apply Z.eqb_neq in E. apply Hs1; lia.
      * intros k k' Hk Hk'.
        destruct (Z.eq_dec k' cur) as [E'|E'].
        -- subst k'. rewrite (Hq cur) by lia. rewrite Z.eqb_refl.
           apply Hhead. lia.
        -- rewrite !Hq by lia.
           replace (k =? cur) with false by (symmetry; apply Z.eqb_neq; lia).
           replace (k' =? cur) with false by (symmetry; apply Z.eqb_neq; lia).
           apply Hs2; lia.
  - (* the old neighbour is at least as close *)
    apply Qlt_bool_false_iff in Hcmp.
    rewrite (mat_get_in neighbors r1 c) by lia. cbn [obind].
    destruct (vec_store_in cn cur (elt neighbors r1 c) ltac:(lia))
      as (cn' & Hcn' & Hlcn' & Hnth).
    destruct (vec_store_in cs cur (elt scores r1 c) ltac:(lia))
      as (cs' & Hcs' & Hlcs' & Hqnth).
    rewrite Hcn'. cbn [obind]. rewrite Hcs'. cbn [obind].
    rewrite (mat_get_in new_neighbors r2 c) by lia. cbn [obind].
    eexists. split; [reflexivity|].
    cbn [m_r1 m_r2 m_cur cur_neighbors cur_scores]. split; [|reflexivity].
    assert (Hq : forall k, 0 <= k ->
              qvec_at cs' k = if k =? cur then elt scores r1 c
                              else qvec_at cs k)
      by (intros k Hk; apply Hqnth; exact Hk).
    assert (Hn : forall k, 0 <= k ->
              vec_at cn' k = if k =? cur then elt neighbors r1 c
                             else vec_at cn k)
      by (intros k Hk; apply Hnth; exact Hk).
    set (r2' := if elt neighbors r1 c =? elt new_neighbors r2 c
                then r2 + 1 else r2).
    assert (Hr2' : r2 <= r2' <= r2 + 1)
      by (subst r2'; destruct (_ =? _); lia).
    split; [lia|]. split; [lia|]. split; [lia|]. split; [lia|].
    split; [lia|]. split.
    + intros k Hk. rewrite Hq, Hn by lia.
      destruct (k =? cur) eqn:E.
      * exists r1. split; [apply Z.eqb_eq in E; lia|]. left. reflexivity.
      * apply Z.eqb_neq in E. apply Hfrom. lia.
    + intros Hso1 Hso2. destruct (Hsorted Hso1 Hso2) as [Hs1 Hs2].
      assert (Hhead : forall k, 0 <= k < cur + 1 ->
                (qvec_at cs' k <= elt scores r1 c)%Q).
      { intros k Hk. rewrite Hq by lia. destruct (k =? cur) eqn:E.
        - apply Qle_refl.
        - apply Z.eqb_neq in E. apply Hs1; lia. }
      split.
      * intros k Hk. split; [|split; [|split]].
        -- intros Hr1a. eapply Qle_trans; [apply Hhead; lia|].
           apply Hso1; lia.
        -- intros Hr2a. eapply Qle_trans; [apply Hhead; lia|].
           eapply Qle_trans; [exact Hcmp|]. apply Hso2; lia.
        -- rewrite Hq by lia. destruct (k =? cur) eqn:E.
           ++ apply Z.eqb_eq in E. subst k. apply Hso1; lia.
           ++ apply Z.eqb_neq in E. apply Hs1; lia.
        -- rewrite Hq by lia. destruct (k =? cur) eqn:E.
           ++ apply Z.eqb_eq in E. subst k.
              eapply Qle_trans; [exact Hcmp|]. apply Hso2; lia.
           ++ apply Z.eqb_neq in E. apply Hs1; lia.
      * intros k k' Hk Hk'.
        destruct (Z.eq_dec k' cur) as [E'|E'].
        -- subst k'. rewrite (Hq cur) by lia. rewrite Z.eqb_refl.
           apply Hhead. lia.
        -- rewrite !Hq by lia.
           replace (k =? cur) with false by (symmetry; apply Z.eqb_neq; lia).
           replace (k' =? cur) with false by (symmetry; apply Z.eqb_neq; lia).
           apply Hs2; lia.
Qed.

Lemma while_both_inv (rounds : nat) :
  forall st,
    merge_inv neighbors scores new_neighbors new_scores c (rows neighbors) st ->
    rows neighbors - m_cur st <= Z.of_nat rounds ->
    exists st',
      while_both neighbors scores new_neighbors new_scores c rounds
        (rows neighbors) st = Some st' /\
      merge_inv neighbors scores new_neighbors new_scores c (rows neighbors) st' /\
      m_cur st' = rows neighbors.
Proof.
  induction rounds as [|rounds IH]; intros st Hinv Hfuel.
  - assert (Hcur : m_cur st = rows neighbors)
      by (unfold merge_inv in Hinv; lia).
    exists st. split; [|split; assumption].
    cbn [while_both]. rewrite Hcur, Z.ltb_irrefl, andb_false_r. reflexivity.
  - cbn [while_both].
    destruct ((m_r1 st <? rows neighbors) && (m_r2 st <? rows neighbors)
              && (m_cur st <? rows neighbors)) eqn:Hcond.
    + apply andb_true_iff in Hcond. destruct Hcond as [_ Hlt].
      apply Z.ltb_lt in Hlt.
      destruct (merge_both_inv st Hinv Hlt) as (st1 & Hstep & Hinv1 & Hcur1).
      rewrite Hstep. cbn [obind]. apply IH; [exact Hinv1|lia].
    + exists st. split; [reflexivity|]. split; [exact Hinv|].
      unfold merge_inv in Hinv.
      destruct (m_r1 st <? rows neighbors) eqn:E1;
        destruct (m_r2 st <? rows neighbors) eqn:E2;
        destruct (m_cur st <? rows neighbors) eqn:E3;
        try discriminate Hcond; zbool_hyps; lia.
Qed.

(** The second loop finds [cur = ann_number] and makes no round. *)
Lemma while_rest_done (rounds : nat) (st : MergeState) :
  m_cur st = rows neighbors ->
  while_rest neighbors scores new_neighbors new_scores c rounds
    (rows neighbors) st = Some st.
Proof.
  intros Hcur. destruct rounds; cbn [while_rest];
    rewrite Hcur, Z.ltb_irrefl; reflexivity.
Qed.

Lemma write_back_spec (cn : list Z) (cs : list Q) :
  vec_size cn = rows neighbors -> vec_size cs = rows neighbors ->
  forall (k : nat),
    Z.of_nat k <= rows neighbors ->
    exists N' S',
      write_back neighbors scores c (Z.of_nat k) cn cs = Some (N', S') /\
      rows N' = rows neighbors /\ cols N' = cols neighbors /\
      rows S' = rows scores /\ cols S' = cols scores /\
      forall i j,
        elt N' i j = (if (j =? c) && (0 <=? i) && (i <? Z.of_nat k)
                      then vec_at cn i else elt neighbors i j) /\
        elt S' i j = (if (j =? c) && (0 <=? i) && (i <? Z.of_nat k)
                      then qvec_at cs i else elt scores i j).
Proof.
  destruct Hshape as (Hrs & Hcs & _).
  intros Hlcn Hlcs. unfold write_back, for_range_opt.
  induction k as [|k IH]; intros Hk.
  - exists neighbors, scores. cbn. repeat split; zbool_cases.
  - destruct (IH ltac:(lia)) as (N1 & S1 & Hf & HrN & HcN & HrS & HcS & He).
    replace (Z.of_nat (Datatypes.S k)) with (Z.of_nat k + 1) by lia.
    rewrite range_snoc by lia. rewrite fold_left_app, Hf.
    cbn [fold_left obind fst snd].
    rewrite (vec_get_in cn (Z.of_nat k) 0) by lia. cbn [obind].
    rewrite (mat_set_in N1) by lia. cbn [obind].
    rewrite (vec_get_in cs (Z.of_nat k) 0%Q) by lia. cbn [obind].
    rewrite (mat_set_in S1) by lia. cbn [obind].
    eexists _, _. split; [reflexivity|]. cbn [dset rows cols elt].
    split; [exact HrN|]. split; [exact HcN|].
    split; [exact HrS|]. split; [exact HcS|].
    intros i j. destruct (He i j) as [He1 He2]. rewrite He1, He2.
    unfold vec_at, qvec_at.
    split; zbool_cases; try reflexivity; try lia.
Qed.

Lemma merge_column_spec (cn : list Z) (cs : list Q) :
  0 <= rows neighbors ->
  vec_size cn = rows neighbors -> vec_size cs = rows neighbors ->
  exists N' S' cn' cs',
    merge_column neighbors scores new_neighbors new_scores c (rows neighbors)
      cn cs = Some (N', S', cn', cs') /\
    (rows N' = rows neighbors /\ cols N' = cols neighbors /\
     rows S' = rows scores /\ cols S' = cols scores /\
     vec_size cn' = rows neighbors /\ vec_size cs' = rows neighbors) /\
    (forall i j, j <> c ->
       elt N' i j = elt neighbors i j /\ elt S' i j = elt scores i j) /\
    (forall i, 0 <= i < rows neighbors ->
       from_inputs neighbors scores new_neighbors new_scores c i
         (elt N' i c, elt S' i c)) /\
    (column_sorted scores c -> column_sorted new_scores c ->
     column_sorted S' c /\
     forall i, 0 <= i < rows neighbors ->
       (elt S' i c <= elt scores i c)%Q /\
       (elt S' i c <= elt new_scores i c)%Q).
Proof.
  intros Ha Hlcn Hlcs. unfold merge_column.
  assert (Hinv0 : merge_inv neighbors scores new_neighbors new_scores c
                    (rows neighbors) (mkMerge 0 0 0 cn cs)).
  { unfold merge_inv. cbn [m_r1 m_r2 m_cur cur_neighbors cur_scores].
    split; [lia|]. split; [lia|]. split; [lia|]. split; [exact Hlcn|].
    split; [exact Hlcs|]. split; [intros k Hk; lia|].
    intros _ _. split; [intros k Hk; lia|intros k k' Hk Hk'; lia]. }
  destruct (while_both_inv (Z.to_nat (rows neighbors)) _ Hinv0
              ltac:(cbn [m_cur]; lia)) as (st1 & Hw1 & Hinv1 & Hcur1).
  rewrite Hw1. cbn [obind].
  rewrite (while_rest_done _ st1 Hcur1). cbn [obind].
  unfold merge_inv in Hinv1.
  destruct Hinv1 as (_ & _ & _ & Hl1 & Hl2 & Hfrom & Hsorted).
  destruct (write_back_spec (cur_neighbors st1) (cur_scores st1) Hl1 Hl2
              (Z.to_nat (rows neighbors)) ltac:(lia))
    as (N' & S' & Hwb & HrN & HcN & HrS & HcS & He).
  rewrite Z2Nat.id in Hwb, He by lia.
  rewrite Hwb. cbn [obind fst snd].
  exists N', S', (cur_neighbors st1), (cur_scores st1).
  split; [reflexivity|]. split; [tauto|].
  assert (Hin : forall i, 0 <= i < rows neighbors ->
            elt N' i c = vec_at (cur_neighbors st1) i /\
            elt S' i c = qvec_at (cur_scores st1) i).
  { intros i Hi. destruct (He i c) as [H1 H2]. rewrite H1, H2.
    rewrite Z.eqb_refl.
    replace (0 <=? i) with true by (symmetry; apply Z.leb_le; lia).
    replace (i <? rows neighbors) with true by (symmetry; apply Z.ltb_lt; lia).
    split; reflexivity. }
  split; [|split].
  - intros i j Hj. destruct (He i j) as [H1 H2]. rewrite H1, H2.
    replace (j =? c) with false by (symmetry; apply Z.eqb_neq; exact Hj).
    split; reflexivity.
  - intros i Hi. destruct (Hin i Hi) as [H1 H2]. rewrite H1, H2.
    apply Hfrom. lia.
  - intros Hso1 Hso2. destruct (Hsorted Hso1 Hso2) as [Hs1 Hs2]. split.
    + intros i j Hij Hj.
      assert (HrS' : rows S' = rows neighbors)
        by (destruct Hshape as (Hrs & _); lia).
      destruct (Hin i ltac:(lia)) as [_ H1].
      destruct (Hin j ltac:(lia)) as [_ H2]. rewrite H1, H2.
      apply Hs2; lia.
    + intros i Hi. destruct (Hin i Hi) as [_ H1]. rewrite H1.
      destruct (Hs1 i ltac:(lia)) as (_ & _ & H3 & H4). split; assumption.
Qed.

End MergeProofs.

(** What [choose_best_neighbors_MPI] has done to the columns below [m]. *)
Lemma choose_best_columns (neighbors : DenseMatrix Z) (scores : DenseMatrix Q)
  (new_neighbors : DenseMatrix Z) (new_scores : DenseMatrix Q) :
  same_shape neighbors scores new_neighbors new_scores ->
  0 <= rows neighbors <= SIZE_MAX ->
  forall (m : nat),
    Z.of_nat m <= cols neighbors ->
    exists N' S' cn cs,
      for_range_opt 0 (Z.of_nat m)
        (fun c st =>
           let '(N, Sc, cn, cs) := st in
           merge_column N Sc new_neighbors new_scores c (rows neighbors) cn cs)
        (neighbors, scores,
         repeat 0 (Z.to_nat (rows neighbors)),
         repeat 0%Q (Z.to_nat (rows neighbors)))
      = Some (N', S', cn, cs) /\
      (rows N' = rows neighbors /\ cols N' = cols neighbors /\
       rows S' = rows scores /\ cols S' = cols scores /\
       vec_size cn = rows neighbors /\ vec_size cs = rows neighbors) /\
      (forall i j, Z.of_nat m <= j ->
         elt N' i j = elt neighbors i j /\ elt S' i j = elt scores i j) /\
      (forall c, 0 <= c < Z.of_nat m ->
         (forall i, 0 <= i < rows neighbors ->
            from_inputs neighbors scores new_neighbors new_scores c i
              (elt N' i c, elt S' i c)) /\
         (column_sorted scores c -> column_sorted new_scores c ->
          column_sorted S' c /\
          forall i, 0 <= i < rows neighbors ->
            (elt S' i c <= elt scores i c)%Q /\
            (elt S' i c <= elt new_scores i c)%Q)).
Proof.
  intros Hshape Ha. unfold for_range_opt.
  induction m as [|m IH]; intros Hm.
  - exists neighbors, scores, (repeat 0 (Z.to_nat (rows neighbors))),
      (repeat 0%Q (Z.to_nat (rows neighbors))).
    split; [reflexivity|]. unfold vec_size. rewrite !repeat_length.
    split; [repeat split; lia|]. split; [intros; split; reflexivity|].
    intros c Hc. lia.
  - destruct (IH ltac:(lia))
      as (N1 & S1 & cn1 & cs1 & Hf & Hdims & Hrest & Hdone).
    clear IH.
    destruct Hdims as (HrN & HcN & HrS & HcS & Hlcn & Hlcs).
    replace (Z.of_nat (Datatypes.S m)) with (Z.of_nat m + 1) by lia.
    rewrite range_snoc by lia. rewrite fold_left_app, Hf.
    cbn [fold_left obind].
    assert (Hshape1 : same_shape N1 S1 new_neighbors new_scores).
    { unfold same_shape in *. lia. }
    destruct (merge_column_spec N1 S1 new_neighbors new_scores (Z.of_nat m)
                Hshape1 ltac:(lia) ltac:(lia) cn1 cs1 ltac:(lia)
                ltac:(lia) ltac:(lia))
      as (N2 & S2 & cn2 & cs2 & Hmc & Hdims2 & Hother & Hfrom & Hsort).
    rewrite HrN in Hmc. rewrite Hmc.
    exists N2, S2, cn2, cs2. split; [reflexivity|].
    split; [lia|]. split.
    + intros i j Hj. destruct (Hother i j ltac:(lia)) as [H1 H2].
      destruct (Hrest i j ltac:(lia)) as [H3 H4]. split; congruence.
    + intros c Hc. destruct (Z.eq_dec c (Z.of_nat m)) as [E|E].
      * subst c. split.
        -- intros i Hi. destruct (Hfrom i ltac:(lia)) as (r & Hr & Hp).
           exists r. split; [exact Hr|].
           destruct (Hrest r (Z.of_nat m) ltac:(lia)) as [H3 H4].
           rewrite <- H3, <- H4. exact Hp.
        -- intros Hso1 Hso2.
           assert (Hso1' : column_sorted S1 (Z.of_nat m)).
           { intros i j Hij Hj.
             destruct (Hrest i (Z.of_nat m) ltac:(lia)) as [_ H3].
             destruct (Hrest j (Z.of_nat m) ltac:(lia)) as [_ H4].
             rewrite H3, H4. apply Hso1; lia. }
           destruct (Hsort Hso1' Hso2) as [Hs Hle]. split; [exact Hs|].
           intros i Hi. destruct (Hle i ltac:(lia)) as [H1 H2].
           destruct (Hrest i (Z.of_nat m) ltac:(lia)) as [_ H3].
           rewrite <- H3. split; assumption.
      * destruct (Hdone c ltac:(lia)) as [Hfr Hso].
        assert (Heq : forall i, elt N2 i c = elt N1 i c /\ elt S2 i c = elt S1 i c)
          by (intros i; apply Hother; exact E).
        split.
        -- intros i Hi. destruct (Heq i) as [H1 H2]. rewrite H1, H2.
           apply Hfr. exact Hi.
        -- intros Hso1 Hso2. destruct (Hso Hso1 Hso2) as [Hs Hle]. split.
           ++ intros i j Hij Hj. destruct (Heq i) as [_ H1].
              destruct (Heq j) as [_ H2]. rewrite H1, H2. apply Hs; lia.
           ++ intros i Hi. destruct (Heq i) as [_ H1]. rewrite H1.
              apply Hle. exact Hi.
Qed.


(** X8.  On four matrices of the same dimensions
    [choose_best_neighbors_MPI] reads and writes inside the matrices and
    its two vectors only, and returns matrices of the same dimensions in
    which every pair of a neighbour and its score, at row [i] of column
    [c], is a pair of column [c] of the old or of the new matrices, from a
    row not below [i].  The first [while] loop always ends with
    [cur = ann_number], so the second [while] loop never makes a round. *)
Theorem choose_best_neighbors_MPI_in_bounds (neighbors : DenseMatrix Z)
  (scores : DenseMatrix Q) (new_neighbors : DenseMatrix Z)
  (new_scores : DenseMatrix Q) :
  same_shape neighbors scores new_neighbors new_scores ->
  0 <= rows neighbors <= SIZE_MAX ->
  0 <= cols neighbors ->
  (exists N' S',
     choose_best_neighbors_MPI neighbors scores new_neighbors new_scores
       = Some (N', S') /\
     rows N' = rows neighbors /\ cols N' = cols neighbors /\
     rows S' = rows scores /\ cols S' = cols scores /\
     forall c i, 0 <= c < cols neighbors -> 0 <= i < rows neighbors ->
       from_inputs neighbors scores new_neighbors new_scores c i
         (elt N' i c, elt S' i c)) /\
  (forall c cn cs, 0 <= c < cols neighbors ->
     vec_size cn = rows neighbors -> vec_size cs = rows neighbors ->
     exists st,
       while_both neighbors scores new_neighbors new_scores c
         (Z.to_nat (rows neighbors)) (rows neighbors) (mkMerge 0 0 0 cn cs)
         = Some st /\
       m_cur st = rows neighbors /\
       forall rounds,
         while_rest neighbors scores new_neighbors new_scores c rounds
           (rows neighbors) st = Some st).
Proof.
  intros Hshape Ha Hn. split.
  - destruct (choose_best_columns neighbors scores new_neighbors new_scores
                Hshape Ha (Z.to_nat (cols neighbors)) ltac:(lia))
      as (N' & S' & cn & cs & Hf & Hdims & _ & Hdone).
    rewrite Z2Nat.id in Hf, Hdone by lia.
    exists N', S'. unfold choose_best_neighbors_MPI. rewrite Hf.
    cbn [obind fst snd]. split; [reflexivity|].
    split; [tauto|]. split; [tauto|]. split; [tauto|]. split; [tauto|].
    intros c i Hc Hi. destruct (Hdone c Hc) as [Hfrom _]. apply Hfrom. exact Hi.
  - intros c cn cs Hc Hlcn Hlcs.
    assert (Hinv0 : merge_inv neighbors scores new_neighbors new_scores c
                      (rows neighbors) (mkMerge 0 0 0 cn cs)).
    { unfold merge_inv. cbn [m_r1 m_r2 m_cur cur_neighbors cur_scores].
      split; [lia|]. split; [lia|]. split; [lia|]. split; [exact Hlcn|].
      split; [exact Hlcs|]. split; [intros k Hk; lia|].
      intros _ _. split; [intros k Hk; lia|intros k k' Hk Hk'; lia]. }
    destruct (while_both_inv neighbors scores new_neighbors new_scores c
                Hshape Hc ltac:(lia) (Z.to_nat (rows neighbors)) _ Hinv0
                ltac:(cbn [m_cur]; lia)) as (st1 & Hw1 & _ & Hcur1).
    exists st1. split; [exact Hw1|]. split; [exact Hcur1|].
    intros rounds. apply while_rest_done. exact Hcur1.
Qed.

(** X9.  If the scores do not decrease down any column of the old and of
    the new matrices, [choose_best_neighbors_MPI] returns scores that do
    not decrease down any column either, and every returned score is at
    most the old and at most the new score at the same place: merging
    never makes a neighbour list worse. *)
Theorem choose_best_neighbors_MPI_sorted (neighbors : DenseMatrix Z)
  (scores : DenseMatrix Q) (new_neighbors : DenseMatrix Z)
  (new_scores : DenseMatrix Q) :
  same_shape neighbors scores new_neighbors new_scores ->
  0 <= rows neighbors <= SIZE_MAX ->
  0 <= cols neighbors ->
  (forall c, 0 <= c < cols neighbors ->
     column_sorted scores c /\ column_sorted new_scores c) ->
  exists N' S',
    choose_best_neighbors_MPI neighbors scores new_neighbors new_scores
      = Some (N', S') /\
    forall c, 0 <= c < cols neighbors ->
      column_sorted S' c /\
      forall i, 0 <= i < rows neighbors ->
        (elt S' i c <= elt scores i c)%Q /\
        (elt S' i c <= elt new_scores i c)%Q.
Proof.
  intros Hshape Ha Hn Hsorted.
  destruct (choose_best_columns neighbors scores new_neighbors new_scores
              Hshape Ha (Z.to_nat (cols neighbors)) ltac:(lia))
    as (N' & S' & cn & cs & Hf & _ & _ & Hdone).
  rewrite Z2Nat.id in Hf, Hdone by lia.
  exists N', S'. unfold choose_best_neighbors_MPI. rewrite Hf.
  cbn [obind fst snd]. split; [reflexivity|].
  intros c Hc. destruct (Hdone c Hc) as [_ Hso].
  destruct (Hsorted c Hc) as [Hso1 Hso2]. exact (Hso Hso1 Hso2).
Qed.

(** ** Random projection trees *)

Lemma for_range_opt_snoc {St : Type} (lo hi : Z) (body : Z -> St -> option St)
  (st : St) :
  lo <= hi ->
  for_range_opt lo (hi + 1) body st
  = obind (for_range_opt lo hi body st) (body hi).
Proof.
  intros H. unfold for_range_opt. rewrite range_snoc by exact H.
  rewrite fold_left_app. reflexivity.
Qed.

Lemma for_range_opt_empty {St : Type} (lo hi : Z)
  (body : Z -> St -> option St) (st : St) :
  hi <= lo -> for_range_opt lo hi body st = Some st.
Proof.
  intros H. unfold for_range_opt. rewrite range_nil by exact H. reflexivity.
Qed.

Lemma nth_mid {T : Type} (pre mid post : list T) (i : Z) (d : T) :
  0 <= i < vec_size mid ->
  nth (Z.to_nat (vec_size pre + i)) (pre ++ mid ++ post) d
  = nth (Z.to_nat i) mid d.
Proof.
  unfold vec_size. intros Hi.
  rewrite app_nth2 by lia. rewrite app_nth1 by lia. f_equal. lia.
Qed.

Lemma vec_size_app {T : Type} (a b : list T) :
  vec_size (a ++ b) = vec_size a + vec_size b.
Proof. unfold vec_size. rewrite length_app. lia. Qed.

Lemma firstn_snoc_nth {T : Type} (l : list T) (k : nat) (d : T) :
  (k < length l)%nat -> firstn (Datatypes.S k) l = firstn k l ++ [nth k l d].
Proof.
  revert k. induction l as [|x l IH]; intros k Hk; cbn [length] in Hk; [lia|].
  destruct k as [|k]; [reflexivity|].
  cbn [firstn nth app]. f_equal. apply IH. lia.
Qed.

Lemma map_nth_range {T : Type} (l : list T) (d : T) :
  map (fun k => nth (Z.to_nat k) l d) (range 0 (vec_size l)) = l.
Proof.
  unfold range, vec_size. rewrite Z.sub_0_r, Nat2Z.id, map_map.
  apply nth_ext with (d := d) (d' := d).
  - rewrite length_map, length_seq. reflexivity.
  - intros n Hn. rewrite length_map, length_seq in Hn.
    rewrite (nth_indep _ d (nth (Z.to_nat (0 + Z.of_nat 0)) l d))
      by (rewrite length_map, length_seq; exact Hn).
    rewrite (map_nth (fun x => nth (Z.to_nat (0 + Z.of_nat x)) l d)).
    rewrite seq_nth by exact Hn. f_equal. lia.
Qed.

Section ProjectionProofs.
Context {S : Scalar}.
Variable Generator : Type.
Variable median_order : Generator -> DenseM -> list Z -> list Z * Generator.

Lemma push_leaves_spec (pre mid post lv : list Z) :
  vec_size (pre ++ mid ++ post) <= SIZE_MAX ->
  push_leaves (pre ++ mid ++ post) (vec_size pre) (vec_size mid) lv
  = Some (lv ++ mid).
Proof.
  intros Hmax. unfold push_leaves.
  assert (H : forall k : nat, (k <= length mid)%nat ->
            for_range_opt 0 (Z.of_nat k)
              (fun i lv1 =>
                 obind (vec_get (pre ++ mid ++ post) (size_add (vec_size pre) i))
                   (fun x => Some (lv1 ++ [x]))) lv
            = Some (lv ++ firstn k mid)).
  { induction k as [|k IH]; intros Hk.
    - rewrite for_range_opt_empty by lia. cbn [firstn]. rewrite app_nil_r.
      reflexivity.
    - replace (Z.of_nat (Datatypes.S k)) with (Z.of_nat k + 1) by lia.
      rewrite for_range_opt_snoc by lia. rewrite IH by lia. cbn [obind].
      rewrite !vec_size_app in Hmax. unfold vec_size in Hmax.
      unfold size_add. rewrite wrap_size_id
        by (unfold in_size, vec_size; lia).
      rewrite (vec_get_in _ _ 0)
        by (rewrite !vec_size_app; unfold vec_size; lia).
      cbn [obind]. rewrite nth_mid by (unfold vec_size; lia).
      rewrite Nat2Z.id, (firstn_snoc_nth mid k 0) by lia.
      rewrite app_assoc. reflexivity. }
  change (vec_size mid) with (Z.of_nat (length mid)).
  rewrite H by lia. rewrite firstn_all. reflexivity.
Qed.

Lemma gather_sorted_spec (pre mid post idx : list Z) :
  vec_size (pre ++ mid ++ post) <= SIZE_MAX ->
  vec_size idx = vec_size mid ->
  Forall (fun k => 0 <= k < vec_size mid) idx ->
  gather_sorted (pre ++ mid ++ post) idx (vec_size pre) (vec_size mid)
  = Some (map (fun k => nth (Z.to_nat k) mid 0) idx).
Proof.
  intros Hmax Hlen Hidx. unfold gather_sorted.
  assert (H : forall k : nat, (k <= length mid)%nat ->
            exists sorted,
              for_range_opt 0 (Z.of_nat k)
                (fun i sorted =>
                   obind (vec_get idx i)
                     (fun k0 =>
                        obind (vec_get (pre ++ mid ++ post)
                                 (size_add (vec_size pre) (wrap_size k0)))
                          (fun x => vec_store sorted i x)))
                (repeat 0 (Z.to_nat (vec_size mid)))
              = Some sorted /\
              vec_size sorted = vec_size mid /\
              forall i, 0 <= i < Z.of_nat k ->
                nth (Z.to_nat i) sorted 0
                = nth (Z.to_nat (nth (Z.to_nat i) idx 0)) mid 0).
  { induction k as [|k IH]; intros Hk.
    - rewrite for_range_opt_empty by lia. eexists. split; [reflexivity|].
      split; [unfold vec_size; rewrite repeat_length; lia|]. intros i Hi. lia.
    - destruct (IH ltac:(lia)) as (sorted & Hf & Hl & Hn).
      replace (Z.of_nat (Datatypes.S k)) with (Z.of_nat k + 1) by lia.
      rewrite for_range_opt_snoc by lia. rewrite Hf. cbn [obind].
      rewrite (vec_get_in idx _ 0) by (unfold vec_size in *; lia).
      cbn [obind].
      assert (Hk0 : 0 <= nth (Z.to_nat (Z.of_nat k)) idx 0 < vec_size mid).
      { rewrite Forall_forall in Hidx. apply Hidx, nth_In.
        unfold vec_size in Hlen. lia. }
      rewrite !vec_size_app in Hmax.
      assert (Hp : 0 <= vec_size pre) by (unfold vec_size; lia).
      assert (Hq : 0 <= vec_size post) by (unfold vec_size; lia).
      rewrite wrap_size_id by (unfold in_size; lia).
      unfold size_add. rewrite wrap_size_id by (unfold in_size; lia).
      rewrite (vec_get_in _ _ 0) by (rewrite !vec_size_app; lia).
      cbn [obind]. rewrite nth_mid by lia.
      destruct (vec_store_in sorted (Z.of_nat k)
                  (nth (Z.to_nat (nth (Z.to_nat (Z.of_nat k)) idx 0)) mid 0)
                  ltac:(unfold vec_size in *; lia))
        as (sorted' & Hst & Hl' & Hn').
      exists sorted'. split; [exact Hst|]. split; [lia|].
      intros i Hi. rewrite Hn' by lia.
      destruct (i =? Z.of_nat k) eqn:E.
      + apply Z.eqb_eq in E. subst i. reflexivity.
      + apply Z.eqb_neq in E. apply Hn. lia. }
  destruct (H (length mid) ltac:(lia)) as (sorted & Hf & Hl & Hn).
  fold (vec_size mid) in Hf, Hn. rewrite Hf. f_equal.
  apply nth_ext with (d := 0) (d' := 0).
  - rewrite length_map. unfold vec_size in *. lia.
  - intros n Hn'. rewrite <- (Nat2Z.id n) at 1.
    rewrite Hn by (unfold vec_size in *; lia). rewrite Nat2Z.id.
    rewrite (nth_indep (map (fun k => nth (Z.to_nat k) mid 0) idx) 0
               (nth (Z.to_nat 0) mid 0))
      by (rewrite length_map; unfold vec_size in *; lia).
    rewrite (map_nth (fun k => nth (Z.to_nat k) mid 0)). reflexivity.
Qed.

Lemma scatter_sorted_spec (pre mid post sorted : list Z) :
  vec_size (pre ++ mid ++ post) <= SIZE_MAX ->
  vec_size sorted = vec_size mid ->
  scatter_sorted (pre ++ mid ++ post) sorted (vec_size pre) (vec_size mid)
  = Some (pre ++ sorted ++ post).
Proof.
  intros Hmax Hlen. unfold scatter_sorted.
  rewrite !vec_size_app in Hmax.
  assert (Hp : 0 <= vec_size pre) by (unfold vec_size; lia).
  assert (Hm : 0 <= vec_size mid) by (unfold vec_size; lia).
  assert (Hq : 0 <= vec_size post) by (unfold vec_size; lia).
  unfold size_add. rewrite wrap_size_id by (unfold in_size; lia).
  assert (H : forall k : nat, (k <= length mid)%nat ->
            exists cur1,
              for_range_opt (vec_size pre) (vec_size pre + Z.of_nat k)
                (fun i cur1 =>
                   obind (vec_get sorted (size_sub i (vec_size pre)))
                     (fun x => vec_store cur1 i x))
                (pre ++ mid ++ post)
              = Some cur1 /\
              vec_size cur1 = vec_size (pre ++ mid ++ post) /\
              forall i, 0 <= i ->
                nth (Z.to_nat i) cur1 0
                = if (vec_size pre <=? i) && (i <? vec_size pre + Z.of_nat k)
                  then nth (Z.to_nat (i - vec_size pre)) sorted 0
                  else nth (Z.to_nat i) (pre ++ mid ++ post) 0).
  { induction k as [|k IH]; intros Hk.
    - rewrite for_range_opt_empty by lia. eexists. split; [reflexivity|].
      split; [reflexivity|]. intros i Hi. zbool_cases.
    - destruct (IH ltac:(lia)) as (cur1 & Hf & Hl & Hn).
      replace (vec_size pre + Z.of_nat (Datatypes.S k))
        with (vec_size pre + Z.of_nat k + 1) by lia.
      rewrite for_range_opt_snoc by lia. rewrite Hf. cbn [obind].
      unfold size_sub.
      rewrite wrap_size_id by (unfold in_size, vec_size in *; lia).
      rewrite (vec_get_in sorted _ 0) by (unfold vec_size in *; lia).
      cbn [obind].
      destruct (vec_store_in cur1 (vec_size pre + Z.of_nat k)
                  (nth (Z.to_nat (vec_size pre + Z.of_nat k - vec_size pre))
                     sorted 0)
                  ltac:(rewrite Hl, !vec_size_app; unfold vec_size in *; lia))
        as (cur2 & Hst & Hl' & Hn').
      exists cur2. split; [exact Hst|]. split; [lia|].
      intros i Hi. rewrite Hn' by lia. rewrite Hn by lia.
      zbool_cases; try reflexivity; try lia. }
  destruct (H (length mid) ltac:(lia)) as (cur1 & Hf & Hl & Hn).
  fold (vec_size mid) in Hf, Hn. rewrite Hf. f_equal.
  apply nth_ext with (d := 0) (d' := 0).
  - rewrite !vec_size_app in Hl. unfold vec_size in *.
    rewrite !length_app. lia.
  - intros n Hn'. rewrite <- (Nat2Z.id n) at 1. rewrite Hn by lia.
    rewrite Nat2Z.id. unfold vec_size in *.
    destruct (Nat.lt_ge_cases n (length pre)) as [H1|H1].
    + replace (Z.of_nat (length pre) <=? Z.of_nat n) with false
        by (symmetry; apply Z.leb_gt; lia).
      cbn [andb]. rewrite !app_nth1 by lia. reflexivity.
    + replace (Z.of_nat (length pre) <=? Z.of_nat n) with true
        by (symmetry; apply Z.leb_le; lia).
      cbn [andb]. rewrite !(app_nth2 pre) by lia.
      destruct (Nat.lt_ge_cases n (length pre + length mid)) as [H2|H2].
      * replace (Z.of_nat n <? Z.of_nat (length pre) + Z.of_nat (length mid))
          with true by (symmetry; apply Z.ltb_lt; lia).
        rewrite app_nth1 by lia. f_equal. lia.
      * replace (Z.of_nat n <? Z.of_nat (length pre) + Z.of_nat (length mid))
          with false by (symmetry; apply Z.ltb_ge; lia).
        rewrite !app_nth2 by lia. f_equal. lia.
Qed.

Lemma cumulative_app (prev : Z) (a b : list Z) :
  cumulative prev (a ++ b) = cumulative prev a ++ cumulative (prev + Zsum a) b.
Proof.
  revert prev. induction a as [|x a IH]; intros prev; cbn [app cumulative Zsum fold_right].
  - rewrite Z.add_0_r. reflexivity.
  - rewrite IH. fold (Zsum a). rewrite Z.add_assoc. reflexivity.
Qed.

Lemma last_cumulative (ls : list Z) (prev : Z) (sizes : list Z) :
  sizes <> [] ->
  last (ls ++ cumulative prev sizes) 0 = prev + Zsum sizes.
Proof.
  intros Hne. revert ls prev.
  induction sizes as [|x sizes IH]; intros ls prev; [contradiction|].
  destruct sizes as [|y sizes].
  - cbn [cumulative Zsum fold_right]. rewrite last_last. lia.
  - assert (Hne' : y :: sizes <> []) by discriminate.
    change (cumulative prev (x :: y :: sizes))
      with ((prev + x) :: cumulative (prev + x) (y :: sizes)).
    replace (ls ++ (prev + x) :: cumulative (prev + x) (y :: sizes))
      with ((ls ++ [prev + x]) ++ cumulative (prev + x) (y :: sizes))
      by (rewrite <- app_assoc; reflexivity).
    rewrite (IH Hne'). cbn [Zsum fold_right]. lia.
Qed.

Lemma node_indices (pre mid post : list Z) :
  vec_size (pre ++ mid ++ post) <= SIZE_MAX ->
  map (fun i => vec_at (pre ++ mid ++ post) (size_add (vec_size pre) i))
    (range 0 (vec_size mid)) = mid.
Proof.
  intros Hmax.
  transitivity (map (fun k => nth (Z.to_nat k) mid 0) (range 0 (vec_size mid)));
    [|apply map_nth_range].
  apply map_ext_in. intros i Hi. apply in_range in Hi.
  rewrite !vec_size_app in Hmax.
  assert (Hp : 0 <= vec_size pre) by (unfold vec_size; lia).
  assert (Hq : 0 <= vec_size post) by (unfold vec_size; lia).
  unfold size_add. rewrite wrap_size_id by (unfold in_size; lia).
  unfold vec_at. apply nth_mid. lia.
Qed.


Lemma construct_projection_tree_MPI_leaf (depth : nat) (data : DenseM)
  (min_leaf_size start cur_node_size : Z) (t : ProjectionTree Generator) :
  cur_node_size < min_leaf_size ->
  construct_projection_tree_MPI median_order (Datatypes.S depth)
    data min_leaf_size start cur_node_size t
  = match leaf_sizes t with
    | [] => Undefined
    | _ :: _ =>
        Outcome_bind
          (of_option
             (push_leaves (cur_indices t) start cur_node_size
                (leaves t)))
          (fun leaves1 =>
             Returned
               (mkProjectionTree (cur_indices t) leaves1
                  (leaf_sizes t
                   ++ [size_add cur_node_size
                         (last (leaf_sizes t) 0)])
                  (generator t)))
    end.
Proof.
  intros H. cbn [construct_projection_tree_MPI].
  replace (cur_node_size <? min_leaf_size) with true
    by (symmetry; apply Z.ltb_lt; exact H).
  reflexivity.
Qed.

(** X11.  With [min_leaf_size] 0 or 1 the recursion of
    [construct_projection_tree_MPI] does not end on a node that is not a
    leaf: a node of size 1 is split into an empty first child and a second
    child of size 1 again, and with [min_leaf_size = 0] no node is a leaf.
    [find_ann_candidates_MPI] passes [6 * ann_number], which is 0 when
    [neighbors] has no rows. *)
Theorem construct_projection_tree_MPI_small_leaf_size (data : DenseM)
  (min_leaf_size : Z) :
  0 <= min_leaf_size <= 1 ->
  (forall g node,
     Permutation (fst (median_order g data node)) (range 0 (vec_size node))) ->
  forall (depth : nat) (pre mid post lv ls : list Z) (g : Generator),
    min_leaf_size <= vec_size mid ->
    vec_size (pre ++ mid ++ post) <= SIZE_MAX ->
    vec_size mid <= INT_MAX ->
    ls <> [] ->
    construct_projection_tree_MPI median_order depth data
      min_leaf_size (vec_size pre) (vec_size mid)
      (mkProjectionTree (pre ++ mid ++ post) lv ls g)
    = Unfinished.
Proof.
  intros Hmin Hperm.
  induction depth as [|depth IH];
    intros pre mid post lv ls g Hnode Hmax Hint Hls; [reflexivity|].
  cbn [construct_projection_tree_MPI cur_indices leaves leaf_sizes generator].
  assert (Hm0 : 0 <= vec_size mid) by (unfold vec_size; lia).
  replace (vec_size mid <? min_leaf_size) with false
    by (symmetry; apply Z.ltb_ge; exact Hnode).
  rewrite node_indices by exact Hmax.
  specialize (Hperm g mid).
  destruct (median_order g data mid) as [idx g1]. cbn [fst] in Hperm.
  assert (Hidx_len : vec_size idx = vec_size mid).
  { unfold vec_size at 1. rewrite (Permutation_length Hperm).
    rewrite range_length. lia. }
  assert (Hidx : Forall (fun k => 0 <= k < vec_size mid) idx).
  { apply (Permutation_Forall (Permutation_sym Hperm)).
    apply Forall_forall. intros k Hk. apply in_range in Hk. exact Hk. }
  rewrite gather_sorted_spec by assumption.
  cbn [of_option Outcome_bind].
  set (sorted := map (fun k => nth (Z.to_nat k) mid 0) idx).
  assert (Hsorted_len : vec_size sorted = vec_size mid).
  { subst sorted. rewrite vec_size_map. exact Hidx_len. }
  rewrite scatter_sorted_spec by assumption.
  cbn [of_option Outcome_bind].
  assert (Hhalf : int_div (wrap_int (vec_size mid)) 2 = vec_size mid / 2).
  { unfold int_div.
    rewrite (wrap_int_id (vec_size mid))
      by (unfold in_int, INT_MIN, INT_MAX in *; lia).
    rewrite Z.quot_div_nonneg by lia.
    apply wrap_int_id. unfold in_int, INT_MIN, INT_MAX in *.
    assert (0 <= vec_size mid / 2 <= vec_size mid)
      by (split; [apply Z.div_pos; lia|apply Z.div_le_upper_bound; lia]).
    lia. }
  rewrite Hhalf.
  set (half := vec_size mid / 2) in *.
  assert (Hh : 0 <= half <= vec_size mid /\ 2 * half <= vec_size mid
               /\ vec_size mid <= 2 * half + 1).
  { subst half. assert (H2 := Z.div_mod (vec_size mid) 2 ltac:(lia)).
    assert (H3 := Z.mod_pos_bound (vec_size mid) 2 ltac:(lia)). lia. }
  assert (HSM : vec_size mid <= SIZE_MAX)
    by (unfold INT_MAX, SIZE_MAX in *; lia).
  rewrite (wrap_size_id half) by (unfold in_size; lia).
  set (s1 := firstn (Z.to_nat half) sorted).
  set (s2 := skipn (Z.to_nat half) sorted).
  assert (Hs12 : sorted = s1 ++ s2)
    by (subst s1 s2; symmetry; apply firstn_skipn).
  assert (Hl1 : vec_size s1 = half).
  { subst s1. unfold vec_size in *. rewrite length_firstn. lia. }
  assert (Hl2 : vec_size s2 = vec_size mid - half).
  { subst s2. unfold vec_size in *. rewrite length_skipn. lia. }
  rewrite Hs12, <- !app_assoc.
  replace half with (vec_size s1) by exact Hl1.
  rewrite !vec_size_app in Hmax.
  assert (Hp : 0 <= vec_size pre) by (unfold vec_size; lia).
  assert (Hq : 0 <= vec_size post) by (unfold vec_size; lia).
  destruct (Z_le_gt_dec min_leaf_size half) as [Hbig|Hsmall].
  - (* the first child is a node of the same kind *)
    rewrite (IH pre s1 (s2 ++ post) lv ls g1); try assumption; try lia.
    + reflexivity.
    + rewrite !vec_size_app. lia.
  - (* the first child is an empty leaf, the second child is the node *)
    assert (Hs1 : s1 = []).
    { destruct s1; [reflexivity|]. unfold vec_size in Hl1.
      cbn [length] in Hl1. lia. }
    rewrite Hs1 in *. cbn [app] in *.
    destruct depth as [|depth']; [reflexivity|].
    rewrite construct_projection_tree_MPI_leaf
      by (change (vec_size (@nil Z)) with 0; lia).
    cbn [cur_indices leaves leaf_sizes generator].
    destruct ls as [|l0 ls0]; [contradiction|].
    assert (Hpush := push_leaves_spec pre [] (s2 ++ post) lv).
    cbn [app] in Hpush. rewrite Hpush by (rewrite !vec_size_app; lia).
    cbn [of_option Outcome_bind].
    replace (size_add (vec_size pre) (vec_size (@nil Z))) with (vec_size pre)
      by (change (vec_size (@nil Z)) with 0; unfold size_add;
          rewrite wrap_size_id by (unfold in_size; lia); lia).
    replace (size_sub (vec_size mid) (vec_size (@nil Z))) with (vec_size s2)
      by (change (vec_size (@nil Z)) with 0; unfold size_sub;
          rewrite wrap_size_id by (unfold in_size; lia); lia).
    apply IH; try lia.
    + rewrite !vec_size_app. lia.
    + destruct (l0 :: ls0); discriminate.
Qed.

End ProjectionProofs.

(** ** Solving with a factored front *)

Section SolveProofs.
Context {L : @DenseLib Q_scalar} {VL : @VectorLib Q_scalar}.

Local Open Scope Q_scope.

(** [(L * U) * x = L * (U * x)], row [a], with [L * U] known entry by
    entry. *)
Lemma lu_apply (F A : DenseMatrix Q) (n : Z) (perm : Z -> Z) (x : Z -> Q)
  (a : Z) :
  (0 <= a < n)%Z ->
  (forall j, (0 <= j < n)%Z ->
     @dot Q_scalar n (unit_lower F) (upper F) a j == elt A (perm a) j) ->
  Qsigma (fun l => elt A (perm a) l * x l) (range 0 n)
  == Qsigma (fun k => elt (@unit_lower Q_scalar F) a k
                      * Qsigma (fun l => elt (@upper Q_scalar F) k l * x l)
                          (range 0 n)) (range 0 n).
Proof.
  intros Ha HLU.
  transitivity
    (Qsigma (fun l => Qsigma (fun k => elt (@unit_lower Q_scalar F) a k
                                       * (elt (@upper Q_scalar F) k l * x l))
                        (range 0 n)) (range 0 n)).
  { apply Qsigma_ext. intros l Hl. apply in_range in Hl.
    transitivity
      (Qsigma (fun k => elt (@unit_lower Q_scalar F) a k
                        * elt (@upper Q_scalar F) k l) (range 0 n) * x l).
    - apply Qmult_comp; [|reflexivity].
      rewrite <- dot_Qsigma. symmetry. apply HLU. exact Hl.
    - rewrite <- Qsigma_scale_r. apply Qsigma_ext. intros k _. ring. }
  transitivity
    (Qsigma (fun k => Qsigma (fun l => elt (@unit_lower Q_scalar F) a k
                                       * (elt (@upper Q_scalar F) k l * x l))
                        (range 0 n)) (range 0 n)).
  { apply (Qsigma_swap
             (fun l k => elt (@unit_lower Q_scalar F) a k
                         * (elt (@upper Q_scalar F) k l * x l))). }
  apply Qsigma_ext. intros k _.
  apply (Qsigma_scale_l (elt (@unit_lower Q_scalar F) a k)
           (fun l => elt (@upper Q_scalar F) k l * x l)).
Qed.

(** If [L * U] is the row-interchanged [A], [L * y] the row-interchanged
    [b] and [A * x = b], then [U * x = y]. *)
Lemma lu_elimination (F A : DenseMatrix Q) (n : Z) (perm : Z -> Z)
  (b x y : Z -> Q) :
  (forall i, (0 <= i < n)%Z -> (0 <= perm i < n)%Z) ->
  (forall i j, (0 <= i < n)%Z -> (0 <= j < n)%Z ->
     @dot Q_scalar n (unit_lower F) (upper F) i j == elt A (perm i) j) ->
  (forall i, (0 <= i < n)%Z ->
     Qsigma (fun l => elt (@unit_lower Q_scalar F) i l * y l) (range 0 n)
     == b (perm i)) ->
  (forall i, (0 <= i < n)%Z ->
     Qsigma (fun l => elt A i l * x l) (range 0 n) == b i) ->
  forall k, (0 <= k < n)%Z ->
    Qsigma (fun l => elt (@upper Q_scalar F) k l * x l) (range 0 n) == y k.
Proof.
  intros Hperm HLU HLy HAx.
  apply (unit_lower_cancel F n
           (fun k => Qsigma (fun l => elt (@upper Q_scalar F) k l * x l)
                       (range 0 n)) y).
  intros a Ha. rewrite (HLy a Ha), <- (HAx (perm a) (Hperm a Ha)).
  symmetry. apply lu_apply; [exact Ha|]. intros j Hj. apply HLU; assumption.
Qed.

Lemma Qsigma_sub (f g : Z -> Q) (ls : list Z) :
  Qsigma (fun l => f l - g l) ls == Qsigma f ls - Qsigma g ls.
Proof.
  unfold Qsigma. induction ls as [|a ls IH]; cbn [map fold_right].
  - ring.
  - rewrite IH. ring.
Qed.

(** [(Z * U) * x = Z * (U * x)], row [i], with [Z * U] known entry by
    entry. *)
Lemma upper_right_apply (F C Zm : DenseMatrix Q) (n i : Z) (x y : Z -> Q) :
  (forall l, (0 <= l < n)%Z ->
     @dot Q_scalar n Zm (upper F) i l == elt C i l) ->
  (forall k, (0 <= k < n)%Z ->
     Qsigma (fun l => elt (@upper Q_scalar F) k l * x l) (range 0 n) == y k) ->
  Qsigma (fun l => elt C i l * x l) (range 0 n)
  == Qsigma (fun k => elt Zm i k * y k) (range 0 n).
Proof.
  intros HZU HUx.
  transitivity
    (Qsigma (fun l => Qsigma (fun k => elt Zm i k
                                       * (elt (@upper Q_scalar F) k l * x l))
                        (range 0 n)) (range 0 n)).
  { apply Qsigma_ext. intros l Hl. apply in_range in Hl.
    transitivity
      (Qsigma (fun k => elt Zm i k * elt (@upper Q_scalar F) k l) (range 0 n)
       * x l).
    - apply Qmult_comp; [|reflexivity].
      rewrite <- dot_Qsigma. symmetry. apply HZU. exact Hl.
    - rewrite <- Qsigma_scale_r. apply Qsigma_ext. intros k _. ring. }
  transitivity
    (Qsigma (fun k => Qsigma (fun l => elt Zm i k
                                       * (elt (@upper Q_scalar F) k l * x l))
                        (range 0 n)) (range 0 n)).
  { apply (Qsigma_swap
             (fun l k => elt Zm i k * (elt (@upper Q_scalar F) k l * x l))). }
  apply Qsigma_ext. intros k Hk. apply in_range in Hk.
  transitivity
    (elt Zm i k
     * Qsigma (fun l => elt (@upper Q_scalar F) k l * x l) (range 0 n)).
  - apply (Qsigma_scale_l (elt Zm i k)
             (fun l => elt (@upper Q_scalar F) k l * x l)).
  - apply Qmult_comp; [reflexivity|]. apply HUx. exact Hk.
Qed.

(** An entry of [C := -1 * A * B + 1 * C], over the rationals. *)
Lemma gemm_update_entry (A B C : DenseMatrix Q) (i j : Z) :
  (0 <= i < rows C)%Z -> (0 <= j < cols C)%Z ->
  elt (@gemm Q_scalar TransN TransN (sopp sone) A B sone C) i j
  == elt C i j - @dot Q_scalar (cols A) A B i j.
Proof.
  intros Hi Hj. cbn [gemm elt op rows cols].
  change (@scalar Q_scalar) with Q.
  replace (0 <=? i)%Z with true by (symmetry; apply Z.leb_le; lia).
  replace (i <? rows C)%Z with true by (symmetry; apply Z.ltb_lt; lia).
  replace (0 <=? j)%Z with true by (symmetry; apply Z.leb_le; lia).
  replace (j <? cols C)%Z with true by (symmetry; apply Z.ltb_lt; lia).
  cbn [andb sis_zero sone sopp smul sadd Q_scalar Qeq_bool].
  change (Qeq_bool 1 0) with false. cbv iota. ring.
Qed.

(** Phase 2 of the factorization leaves the index ranges of the front as
    they are. *)
Lemma factor_phase2_frame (A_size : Z) (replace_tiny_pivots : bool)
  (this : FrontalMatrixDense) :
  let this' := fst (factor_phase2 A_size replace_tiny_pivots this) in
  sep_begin_ this' = sep_begin_ this /\
  dim_sep this' = dim_sep this /\ dim_upd this' = dim_upd this.
Proof.
  unfold factor_phase2, dim_sep, dim_upd.
  destruct (negb (sep_end_ this - sep_begin_ this =? 0)%Z);
    [|cbn; repeat split; reflexivity].
  destruct (negb (vec_size (upd_ this) =? 0)%Z); cbn; repeat split; reflexivity.
Qed.

Lemma fwd_solve_phase2_run (f : FrontalMatrixDense) (b bupd : DenseMatrix Q) :
  dim_sep f <> 0%Z -> dim_upd f <> 0%Z ->
  let bloc := @mview Q_scalar (dim_sep f) (cols b) b (sep_begin_ f) 0 in
  let bloc1 := laswp (piv f) true bloc in
  let bloc2 :=
    if (cols b =? 1)%Z then trsv UpLoL TransN DiagU (F11_ f) bloc1
    else trsm SideL UpLoL TransN DiagU sone (F11_ f) bloc1 in
  fwd_solve_phase2 f b bupd
  = (mwrite_block b (sep_begin_ f) 0 bloc2,
     @gemm Q_scalar TransN TransN (sopp sone) (F21_ f) bloc2 sone bupd).
Proof.
  intros Hs Hu. cbv zeta. unfold fwd_solve_phase2.
  replace (dim_sep f =? 0)%Z with false by (symmetry; apply Z.eqb_neq; exact Hs).
  replace (dim_upd f =? 0)%Z with false by (symmetry; apply Z.eqb_neq; exact Hu).
  cbn [negb]. change (@scalar Q_scalar) with Q.
  destruct (cols b =? 1)%Z; reflexivity.
Qed.

Lemma bwd_solve_phase1_run (f : FrontalMatrixDense) (y yupd : DenseMatrix Q) :
  dim_sep f <> 0%Z -> dim_upd f <> 0%Z ->
  let yloc := @mview Q_scalar (dim_sep f) (cols y) y (sep_begin_ f) 0 in
  let yloc1 :=
    @gemm Q_scalar TransN TransN (sopp sone) (F12_ f) yupd sone yloc in
  let yloc2 :=
    if (cols y =? 1)%Z then trsv UpLoU TransN DiagN (F11_ f) yloc1
    else trsm SideL UpLoU TransN DiagN sone (F11_ f) yloc1 in
  bwd_solve_phase1 f y yupd = mwrite_block y (sep_begin_ f) 0 yloc2.
Proof.
  intros Hs Hu. cbv zeta. unfold bwd_solve_phase1.
  replace (dim_sep f =? 0)%Z with false by (symmetry; apply Z.eqb_neq; exact Hs).
  replace (dim_upd f =? 0)%Z with false by (symmetry; apply Z.eqb_neq; exact Hu).
  cbn [negb]. change (@scalar Q_scalar) with Q.
  destruct (cols y =? 1)%Z; reflexivity.
Qed.



End SolveProofs.

(** ** The sample columns of a node *)

Section SortProofs.
Context {A : Type}.
Variable ltb : A -> A -> bool.

Lemma insert_sorted_perm (x : A) (l : list A) :
  Permutation (insert_sorted ltb x l) (x :: l).
Proof.
  induction l as [|y l IH]; cbn [insert_sorted]; [apply Permutation_refl|].
  destruct (ltb x y); [apply Permutation_refl|].
  eapply Permutation_trans; [apply perm_skip; exact IH|apply perm_swap].
Qed.

Lemma sort_perm (l : list A) : Permutation (sort ltb l) l.
Proof.
  unfold sort. induction l as [|x l IH]; cbn [fold_right]; [constructor|].
  eapply Permutation_trans; [apply insert_sorted_perm|].
  apply perm_skip. exact IH.
Qed.

End SortProofs.

Lemma pair_ltb_fst (a b : Z * Q) :
  (pair_ltb a b = true -> fst a <= fst b) /\
  (pair_ltb a b = false -> fst b <= fst a).
Proof.
  unfold pair_ltb. split; intros H.
  - destruct (fst a <? fst b) eqn:E1; [apply Z.ltb_lt in E1; lia|].
    destruct (fst b <? fst a) eqn:E2; [discriminate H|].
    apply Z.ltb_ge in E1, E2. lia.
  - destruct (fst a <? fst b) eqn:E1; [discriminate H|].
    apply Z.ltb_ge in E1. exact E1.
Qed.

Lemma insert_sorted_by_id (x : Z * Q) (l : list (Z * Q)) :
  StronglySorted (fun a b => fst a <= fst b) l ->
  StronglySorted (fun a b => fst a <= fst b) (insert_sorted pair_ltb x l).
Proof.
  induction l as [|y l IH]; intros Hs; cbn [insert_sorted].
  - constructor; constructor.
  - inversion Hs as [|? ? Hs' Hall]; subst.
    destruct (pair_ltb x y) eqn:E.
    + apply pair_ltb_fst in E. constructor; [exact Hs|].
      constructor; [exact E|].
      eapply Forall_impl; [|exact Hall]. cbv beta. intros a Ha. lia.
    + apply pair_ltb_fst in E. constructor; [apply IH; exact Hs'|].
      apply (Permutation_Forall (Permutation_sym (insert_sorted_perm _ x l))).
      constructor; assumption.
Qed.

Lemma sort_by_id (l : list (Z * Q)) :
  StronglySorted (fun a b => fst a <= fst b) (sort pair_ltb l).
Proof.
  unfold sort. induction l as [|x l IH]; cbn [fold_right]; [constructor|].
  apply insert_sorted_by_id. exact IH.
Qed.

Lemma unique_ids_head (y : Z * Q) (l : list (Z * Q)) :
  exists r, unique_ids (y :: l) = y :: r.
Proof.
  cbn [unique_ids]. destruct l as [|z l]; [eexists; reflexivity|].
  destruct (fst y =? fst z); eexists; reflexivity.
Qed.

Lemma unique_ids_incl (l : list (Z * Q)) : incl (unique_ids l) l.
Proof.
  induction l as [|x l IH]; [intros a Ha; exact Ha|].
  destruct l as [|y l]; [intros a Ha; exact Ha|].
  change (unique_ids (x :: y :: l))
    with (if fst x =? fst y then x :: tl (unique_ids (y :: l))
          else x :: unique_ids (y :: l)).
  destruct (unique_ids_head y l) as (r & Hr). rewrite Hr in *.
  destruct (fst x =? fst y); cbn [tl]; intros a [Ha|Ha].
  - left. exact Ha.
  - right. apply IH. right. exact Ha.
  - left. exact Ha.
  - right. apply IH. exact Ha.
Qed.

Lemma unique_ids_strict (l : list (Z * Q)) :
  StronglySorted (fun a b => fst a <= fst b) l ->
  StronglySorted (fun a b => fst a < fst b) (unique_ids l).
Proof.
  induction l as [|x l IH]; intros Hs; [constructor|].
  inversion Hs as [|? ? Hs' Hall]; subst.
  destruct l as [|y l]; [constructor; constructor|].
  change (unique_ids (x :: y :: l))
    with (if fst x =? fst y then x :: tl (unique_ids (y :: l))
          else x :: unique_ids (y :: l)).
  specialize (IH Hs').
  assert (Hincl := unique_ids_incl (y :: l)).
  destruct (unique_ids_head y l) as (r & Hr). rewrite Hr in *.
  inversion IH as [|? ? IHr Hyr]; subst.
  destruct (fst x =? fst y) eqn:E; cbn [tl].
  - apply Z.eqb_eq in E. constructor; [exact IHr|].
    eapply Forall_impl; [|exact Hyr]. cbv beta. intros a Ha. lia.
  - apply Z.eqb_neq in E. constructor; [exact IH|].
    inversion Hall as [|? ? Hxy Hxl]; subst.
    constructor; [lia|].
    eapply Forall_impl; [|exact Hyr]. cbv beta. intros a Ha. lia.
Qed.

Lemma strict_NoDup (l : list (Z * Q)) :
  StronglySorted (fun a b => fst a < fst b) l -> NoDup (map fst l).
Proof.
  induction l as [|x l IH]; intros Hs; cbn [map]; [constructor|].
  inversion Hs as [|? ? Hs' Hall]; subst. constructor; [|apply IH; exact Hs'].
  intros Hin. apply in_map_iff in Hin. destruct Hin as (a & Ha & Hin).
  rewrite Forall_forall in Hall. specialize (Hall a Hin). lia.
Qed.

Lemma sorted_NoDup_strict (l : list (Z * Q)) :
  StronglySorted (fun a b => fst a <= fst b) l -> NoDup (map fst l) ->
  StronglySorted (fun a b => fst a < fst b) l.
Proof.
  induction l as [|x l IH]; intros Hs Hnd; [constructor|].
  inversion Hs as [|? ? Hs' Hall]; subst. cbn [map] in Hnd.
  inversion Hnd as [|? ? Hnotin Hnd']; subst.
  constructor; [apply IH; assumption|].
  rewrite Forall_forall in *. intros a Ha. specialize (Hall a Ha).
  assert (fst a <> fst x).
  { intros E. apply Hnotin. rewrite <- E. apply in_map. exact Ha. }
  lia.
Qed.

Lemma strict_ids_increasing (l : list (Z * Q)) :
  StronglySorted (fun a b => fst a < fst b) l -> ids_increasing l.
Proof.
  unfold ids_increasing, ids_at, vec_size.
  induction l as [|x l IH]; intros Hs z Hz; cbn [length] in Hz; [lia|].
  inversion Hs as [|? ? Hs' Hall]; subst.
  destruct (Z.eq_dec z 1) as [E|E].
  - subst z. change (Z.to_nat (1 - 1)) with 0%nat.
    change (Z.to_nat 1) with 1%nat. cbn [nth].
    destruct l as [|y l]; [cbn [length] in Hz; lia|]. cbn [nth].
    inversion Hall; subst. assumption.
  - replace (Z.to_nat (z - 1)) with (Datatypes.S (Z.to_nat (z - 1 - 1))) by lia.
    replace (Z.to_nat z) with (Datatypes.S (Z.to_nat (z - 1))) by lia.
    cbn [nth]. apply IH; [exact Hs'|lia].
Qed.

Lemma firstn_NoDup {T : Type} (n : nat) (l : list T) :
  NoDup l -> NoDup (firstn n l).
Proof.
  intros H. rewrite <- (firstn_skipn n l) in H.
  apply NoDup_app_remove_r in H. exact H.
Qed.

Lemma firstn_incl {T : Type} (n : nat) (l : list T) : incl (firstn n l) l.
Proof.
  intros a Ha. rewrite <- (firstn_skipn n l). apply in_or_app. left. exact Ha.
Qed.

Section SampleColumns.
Context {S : Scalar} {L : DenseLib} {BL : HSSBasisLib}.

Lemma leaf_ids_scores_outside (ann : DenseMatrix Z) (scores : DenseMatrix Q)
  (off rws : Z) :
  Forall (outside_node off rws) (leaf_ids_scores ann scores off rws).
Proof.
  apply Forall_forall. intros e He. unfold leaf_ids_scores in He.
  apply in_flat_map in He. destruct He as (i & _ & He).
  apply in_flat_map in He. destruct He as (j & _ & He).
  destruct ((elt ann j i <? off) || (elt ann j i >=? size_add off rws)) eqn:E;
    [|contradiction].
  destruct He as [He|[]]. subst e. unfold outside_node. cbn [fst].
  apply orb_true_iff in E. destruct E as [E|E].
  - left. apply Z.ltb_lt. exact E.
  - right. apply Z.geb_le in E. lia.
Qed.

Lemma outside_ids_scores_outside (off rws : Z) (ids : list (Z * Q)) :
  Forall (outside_node off rws) (outside_ids_scores off rws ids).
Proof.
  apply Forall_forall. intros e He. unfold outside_ids_scores in He.
  apply filter_In in He. destruct He as [_ E]. unfold outside_node.
  apply orb_true_iff in E. destruct E as [E|E].
  - left. apply Z.ltb_lt. exact E.
  - right. apply Z.geb_le in E. lia.
Qed.

(** X17.  The sample columns that [compute_local_samples_ann] selects, in
    either copy and for any input: the ids in [w.ids_scores] grow strictly,
    so the test behind the message "column indices are not sorted!" fails
    at every position and no id occurs twice; every entry was in
    [w.ids_scores] on entry or has an id outside the node's own index
    range; and in the src/HSS copy there are at most [d_max] of them. *)
Theorem compute_local_samples_ann_columns (v : SourceCopy)
  (ann : DenseMatrix Z) (scores : DenseMatrix Q) (w : WorkCompressANN)
  (Aelem : elem_t) (opts : HSSOptions) (is_leaf : bool) (rws : Z) :
  let off := fst (w_offset w) in
  let w' :=
    compute_local_samples_ann v ann scores w Aelem opts is_leaf rws in
  let d_max :=
    if is_leaf
    then size_add (vec_size (range 0 rws)) (wrap_size (opts_dd opts))
    else size_add (size_add (vec_size (w_Ir (w_child w 0)))
                     (vec_size (w_Ir (w_child w 1))))
           (wrap_size (opts_dd opts)) in
  ids_increasing (w_ids_scores w') /\
  NoDup (map fst (w_ids_scores w')) /\
  Forall (fun e => In e (w_ids_scores w) \/ outside_node off rws e)
    (w_ids_scores w') /\
  (v = src_HSS -> vec_size (w_ids_scores w') <= d_max).
Proof.
  intros off w' d_max. subst w'. unfold compute_local_samples_ann.
  cbv zeta. cbn [w_with_samples w_ids_scores]. fold off.
  set (gathered :=
         w_ids_scores w ++
         (if is_leaf then leaf_ids_scores ann scores off rws
          else outside_ids_scores off rws (w_ids_scores (w_child w 0))
               ++ outside_ids_scores off rws (w_ids_scores (w_child w 1)))).
  set (uniq := unique_ids (sort pair_ltb gathered)).
  set (d_max' :=
         if is_leaf
         then size_add
                (vec_size
                   (if is_leaf
                    then map (fun i => size_add i off) (range 0 rws)
                    else w_Ir (w_child w 0) ++ w_Ir (w_child w 1)))
                (wrap_size (opts_dd opts))
         else size_add (size_add (vec_size (w_Ir (w_child w 0)))
                          (vec_size (w_Ir (w_child w 1))))
                (wrap_size (opts_dd opts))).
  assert (Hdmax : d_max' = d_max).
  { subst d_max' d_max. destruct is_leaf; [|reflexivity].
    unfold vec_size. rewrite length_map. reflexivity. }
  set (kept :=
         match v with
         | src_HSS =>
             if Z.min (vec_size uniq) d_max' <? vec_size uniq
             then nth_element_resize (Z.min (vec_size uniq) d_max') uniq
             else uniq
         | runYang => uniq
         end).
  assert (Hgathered : Forall (fun e => In e (w_ids_scores w)
                                       \/ outside_node off rws e) gathered).
  { subst gathered. apply Forall_app. split.
    - apply Forall_forall. intros e He. left. exact He.
    - eapply Forall_impl; [intros e He; right; exact He|].
      destruct is_leaf.
      + apply leaf_ids_scores_outside.
      + apply Forall_app. split; apply outside_ids_scores_outside. }
  assert (Huniq_strict : StronglySorted (fun a b => fst a < fst b) uniq)
    by (subst uniq; apply unique_ids_strict, sort_by_id).
  assert (Huniq_incl : incl uniq gathered).
  { subst uniq. intros e He. apply unique_ids_incl in He.
    apply (Permutation_in e (sort_perm pair_ltb gathered)). exact He. }
  assert (Hresize : forall d,
            NoDup (map fst (nth_element_resize d uniq)) /\
            incl (nth_element_resize d uniq) uniq).
  { intros d. unfold nth_element_resize. split.
    - rewrite <- firstn_map. apply firstn_NoDup.
      apply (Permutation_NoDup
               (Permutation_sym
                  (Permutation_map fst
                     (sort_perm (fun a b => Qlt_bool (snd a) (snd b)) uniq)))).
      apply strict_NoDup. exact Huniq_strict.
    - intros e He. apply firstn_incl in He.
      apply (Permutation_in e
               (sort_perm (fun a b => Qlt_bool (snd a) (snd b)) uniq)).
      exact He. }
  assert (Hkept : NoDup (map fst kept) /\ incl kept uniq).
  { subst kept. destruct v.
    - destruct (Z.min (vec_size uniq) d_max' <? vec_size uniq).
      + apply Hresize.
      + split; [apply strict_NoDup; exact Huniq_strict|apply incl_refl].
    - split; [apply strict_NoDup; exact Huniq_strict|apply incl_refl]. }
  destruct Hkept as [Hnd Hincl].
  assert (Hperm := sort_perm pair_ltb kept).
  assert (Hnd' : NoDup (map fst (sort pair_ltb kept))).
  { apply (Permutation_NoDup
             (Permutation_sym (Permutation_map fst Hperm))). exact Hnd. }
  split; [|split; [|split]].
  - apply strict_ids_increasing, sorted_NoDup_strict;
      [apply sort_by_id|exact Hnd'].
  - exact Hnd'.
  - apply Forall_forall. intros e He.
    apply (Permutation_in e Hperm) in He.
    apply Hincl, Huniq_incl in He.
    rewrite Forall_forall in Hgathered. apply Hgathered. exact He.
  - intros Hv. subst v. rewrite <- Hdmax.
    unfold vec_size at 1. rewrite (Permutation_length Hperm).
    subst kept. cbv iota.
    assert (H0 : 0 <= d_max').
    { subst d_max'. destruct is_leaf; unfold size_add, wrap_size;
        apply Z.mod_pos_bound; lia. }
    destruct (Z.min (vec_size uniq) d_max' <? vec_size uniq) eqn:E.
    + apply Z.ltb_lt in E. unfold nth_element_resize.
      rewrite length_firstn.
      rewrite (Permutation_length
                 (sort_perm (fun a b => Qlt_bool (snd a) (snd b)) uniq)).
      unfold vec_size in *. lia.
    + apply Z.ltb_ge in E. unfold vec_size in *. lia.
Qed.

End SampleColumns.

(** ** The asserts of the kernel oracle *)

Lemma opt_fold_fails {St : Type} (body : Z -> St -> option St) (l : list Z)
  (k : Z) :
  In k l -> (forall st, body k st = None) ->
  forall acc, fold_left (opt_step body) l acc = None.
Proof.
  intros Hin Hfail. induction l as [|a l IH]; intros acc; [contradiction|].
  cbn [fold_left]. destruct Hin as [E|Hin].
  - subst a. destruct acc as [st|]; cbn [opt_step].
    + rewrite Hfail. apply opt_fold_none.
    + apply opt_fold_none.
  - apply IH. exact Hin.
Qed.

Lemma opt_fold_id {St : Type} (body : Z -> St -> option St) (l : list Z) :
  (forall k st, In k l -> body k st = Some st) ->
  forall st, fold_left (opt_step body) l (Some st) = Some st.
Proof.
  induction l as [|a l IH]; intros H st; [reflexivity|].
  cbn [fold_left opt_step]. rewrite H by (left; reflexivity).
  apply IH. intros k st' Hk. apply H. right. exact Hk.
Qed.

Lemma forallb_false_witness {T : Type} (f : T -> bool) (l : list T) :
  forallb f l = false -> exists x, In x l /\ f x = false.
Proof.
  induction l as [|a l IH]; cbn [forallb]; [discriminate|].
  intros H. apply andb_false_iff in H. destruct H as [H|H].
  - exists a. split; [left; reflexivity|exact H].
  - destruct (IH H) as (x & Hx & Hf). exists x. split; [right; exact Hx|exact Hf].
Qed.

Lemma In_vec_at (v : list Z) (x : Z) :
  In x v -> exists i, 0 <= i < vec_size v /\ vec_at v i = x.
Proof.
  intros H. apply (In_nth v x 0) in H. destruct H as (n & Hn & Hx).
  exists (Z.of_nat n). unfold vec_size, vec_at. rewrite Nat2Z.id.
  split; [lia|exact Hx].
Qed.

Section KernelAsserts.
Context {S : Scalar}.

(** X18.  The asserts of [Kernel::operator()], for index lists of at most
    [INT_MAX] entries: one of them fails exactly when [B] is not
    [I.size() x J.size()], or [I] and [J] are both non-empty and an index
    of [I] or of [J] is not below [n()].  An index out of range goes
    unnoticed when the other list is empty. *)
Theorem operator_call_asserts (K : Kernel) (I J : list Z) (B : DenseM) :
  vec_size I <= INT_MAX -> vec_size J <= INT_MAX ->
  (operator_call K I J B = None <->
   rows B <> vec_size I \/ cols B <> vec_size J \/
   (I <> [] /\ J <> [] /\
    exists x, (In x I \/ In x J) /\ kernel_n K <= x)).
Proof.
  intros HmI HmJ.
  assert (HI0 : 0 <= vec_size I) by (unfold vec_size; lia).
  assert (HJ0 : 0 <= vec_size J) by (unfold vec_size; lia).
  unfold operator_call.
  destruct (rows B =? vec_size I) eqn:Er;
    [apply Z.eqb_eq in Er|apply Z.eqb_neq in Er; cbn [andb];
                          split; [intros _; left; exact Er|reflexivity]].
  destruct (cols B =? vec_size J) eqn:Ec;
    [apply Z.eqb_eq in Ec|apply Z.eqb_neq in Ec; cbn [andb];
                          split; [intros _; right; left; exact Ec|reflexivity]].
  cbn [andb]. rewrite int_for_range by lia.
  set (inner := fun j B1 =>
         int_for (vec_size I)
           (fun i B2 =>
              if (vec_at I i <? kernel_n K) && (vec_at J j <? kernel_n K)
              then Some (mset B2 i j (eval K (vec_at I i) (vec_at J j)))
              else None) B1).
  split.
  - (* an assert has failed: an index is out of range *)
    intros Hnone. right. right.
    destruct I as [|i0 I']; [exfalso|].
    { rewrite (opt_fold_id inner) in Hnone; [discriminate Hnone|].
      intros k st _. reflexivity. }
    destruct J as [|j0 J']; [discriminate Hnone|].
    split; [discriminate|]. split; [discriminate|].
    destruct (forallb (fun x => x <? kernel_n K) ((i0 :: I') ++ (j0 :: J')))
      eqn:Hall.
    + exfalso. rewrite forallb_forall in Hall.
      destruct (operator_call_fills K (i0 :: I') (j0 :: J') B Er Ec HmI HmJ)
        as (B' & Hcall & _).
      * intros x Hx. apply Z.ltb_lt, Hall, in_or_app. left. exact Hx.
      * intros x Hx. apply Z.ltb_lt, Hall, in_or_app. right. exact Hx.
      * unfold operator_call in Hcall. rewrite Er, Ec, !Z.eqb_refl in Hcall.
        cbn [andb] in Hcall. rewrite int_for_range in Hcall by lia.
        fold inner in Hcall. rewrite Hcall in Hnone. discriminate Hnone.
    + apply forallb_false_witness in Hall. destruct Hall as (x & Hx & Hf).
      apply Z.ltb_ge in Hf. exists x. split; [|exact Hf].
      apply in_app_or in Hx. exact Hx.
  - (* an index is out of range: an assert fails *)
    intros [H|[H|(HIne & HJne & x & Hx & Hn)]]; [contradiction|contradiction|].
    assert (HIpos : 0 < vec_size I)
      by (destruct I; [contradiction|unfold vec_size; cbn [length]; lia]).
    assert (HJpos : 0 < vec_size J)
      by (destruct J; [contradiction|unfold vec_size; cbn [length]; lia]).
    destruct Hx as [Hx|Hx].
    + (* a row index: the assert fails in the first column *)
      destruct (In_vec_at I x Hx) as (i & Hi & Hxi).
      apply (opt_fold_fails inner (range 0 (vec_size J)) 0).
      * apply in_range. lia.
      * intros st. unfold inner. rewrite int_for_range by lia.
        apply (opt_fold_fails _ (range 0 (vec_size I)) i).
        -- apply in_range. exact Hi.
        -- intros st'. rewrite Hxi.
           replace (x <? kernel_n K) with false
             by (symmetry; apply Z.ltb_ge; exact Hn).
           reflexivity.
    + (* a column index: the assert fails at the first row of that column *)
      destruct (In_vec_at J x Hx) as (j & Hj & Hxj).
      apply (opt_fold_fails inner (range 0 (vec_size J)) j).
      * apply in_range. exact Hj.
      * intros st. unfold inner. rewrite int_for_range by lia.
        apply (opt_fold_fails _ (range 0 (vec_size I)) 0).
        -- apply in_range. lia.
        -- intros st'. rewrite Hxj.
           replace (x <? kernel_n K) with false
             by (symmetry; apply Z.ltb_ge; exact Hn).
           rewrite andb_false_r. reflexivity.
Qed.

End KernelAsserts.

(** ** Rows of a HODLR matrix *)

Lemma HODLR_permutation_loop (perm_ : list Z) (rows_ : Z) :
  0 <= rows_ <= SIZE_MAX ->
  vec_size perm_ = rows_ ->
  Forall (fun p => 0 <= p < rows_) perm_ ->
  NoDup perm_ ->
  forall (k : nat),
    Z.of_nat k <= rows_ ->
    exists iperm,
      for_range_opt 0 (Z.of_nat k)
        (fun i iperm =>
           obind (vec_get perm_ i)
             (fun p => vec_store iperm (wrap_size p) i))
        (repeat 0 (Z.to_nat rows_)) = Some iperm /\
      vec_size iperm = rows_ /\
      forall i, 0 <= i < Z.of_nat k -> vec_at iperm (vec_at perm_ i) = i.
Proof.
  intros Hrows Hlen Hrange Hnd.
  assert (Hat : forall i, 0 <= i < rows_ -> 0 <= vec_at perm_ i < rows_).
  { intros i Hi. rewrite Forall_forall in Hrange. apply Hrange.
    apply vec_at_In. lia. }
  induction k as [|k IH]; intros Hk.
  - rewrite for_range_opt_empty by lia. eexists. split; [reflexivity|].
    split; [unfold vec_size; rewrite repeat_length; lia|]. intros i Hi. lia.
  - destruct (IH ltac:(lia)) as (ip & Hf & Hl & Hinv).
    replace (Z.of_nat (Datatypes.S k)) with (Z.of_nat k + 1) by lia.
    rewrite for_range_opt_snoc by lia. rewrite Hf. cbn [obind].
    rewrite (vec_get_in perm_ (Z.of_nat k) 0) by lia. cbn [obind].
    fold (vec_at perm_ (Z.of_nat k)).
    assert (Hpk := Hat (Z.of_nat k) ltac:(lia)).
    rewrite wrap_size_id by (unfold in_size; lia).
    destruct (vec_store_in ip (vec_at perm_ (Z.of_nat k)) (Z.of_nat k)
                ltac:(lia)) as (ip' & Hst & Hl' & Hn).
    exists ip'. split; [exact Hst|]. split; [lia|].
    intros i Hi. unfold vec_at at 1. rewrite Hn by (apply Hat; lia).
    destruct (vec_at perm_ i =? vec_at perm_ (Z.of_nat k)) eqn:E.
    + apply Z.eqb_eq in E. unfold vec_at in E.
      apply (proj1 (NoDup_nth perm_ 0) Hnd) in E;
        unfold vec_size in *; lia.
    + apply Z.eqb_neq in E. apply Hinv.
      destruct (Z.eq_dec i (Z.of_nat k)) as [Ei|Ei]; [subst i; contradiction|].
      lia.
Qed.

(** X19.  If the Fortran code returns on rank 0 a permutation of
    [1, ..., rows_], with [rows_] an [int], the constructors of
    [HODLRMatrix] leave in [perm_] a permutation of [0, ..., rows_ - 1]
    and in [iperm_] its inverse: [iperm_[perm_[i]] = i] and
    [perm_[iperm_[i]] = i] for every row [i]; no entry is written outside
    [iperm_]. *)
Theorem HODLR_permutation_inverse (rows_ : Z) (perm_root : list Z) :
  0 <= rows_ <= INT_MAX ->
  Permutation perm_root (range 1 (rows_ + 1)) ->
  exists perm_ iperm_,
    HODLR_permutation rows_ perm_root = Some (perm_, iperm_) /\
    Permutation perm_ (range 0 rows_) /\
    vec_size iperm_ = rows_ /\
    forall i, 0 <= i < rows_ ->
      vec_at iperm_ (vec_at perm_ i) = i /\
      vec_at perm_ (vec_at iperm_ i) = i.
Proof.
  intros Hrows Hperm. unfold HODLR_permutation.
  set (perm_ := map (fun i => int_sub i 1) perm_root).
  assert (Hmax : INT_MAX <= SIZE_MAX) by (unfold INT_MAX, SIZE_MAX; lia).
  assert (Hshift : Permutation perm_ (range 0 rows_)).
  { subst perm_.
    apply Permutation_trans
      with (map (fun i => int_sub i 1) (range 1 (rows_ + 1)));
      [apply Permutation_map; exact Hperm|].
    replace (map (fun i => int_sub i 1) (range 1 (rows_ + 1)))
      with (range 0 rows_); [apply Permutation_refl|].
    unfold range. rewrite map_map.
    replace (Z.to_nat (rows_ + 1 - 1)) with (Z.to_nat (rows_ - 0)) by lia.
    apply map_ext_in. intros n Hn. apply in_seq in Hn.
    unfold int_sub. rewrite wrap_int_id; [lia|].
    unfold in_int, INT_MIN, INT_MAX in *. lia. }
  assert (Hlen : vec_size perm_ = rows_).
  { unfold vec_size. rewrite (Permutation_length Hshift), range_length. lia. }
  assert (Hrange : Forall (fun p => 0 <= p < rows_) perm_).
  { apply (Permutation_Forall (Permutation_sym Hshift)).
    apply Forall_forall. intros p Hp. apply in_range in Hp. exact Hp. }
  assert (Hnd : NoDup perm_).
  { apply (Permutation_NoDup (Permutation_sym Hshift)). apply range_NoDup. }
  destruct (HODLR_permutation_loop perm_ rows_ ltac:(lia) Hlen Hrange Hnd
              (Z.to_nat rows_) ltac:(lia)) as (ip & Hf & Hl & Hinv).
  rewrite Z2Nat.id in Hf, Hinv by lia.
  rewrite Hf. cbn [obind]. exists perm_, ip. split; [reflexivity|].
  split; [exact Hshift|]. split; [exact Hl|].
  intros i Hi. split; [apply Hinv; exact Hi|].
  assert (Hin : In i perm_).
  { apply (Permutation_in i (Permutation_sym Hshift)). apply in_range. lia. }
  destruct (In_vec_at perm_ i Hin) as (a & Ha & Hai).
  rewrite <- Hai at 1. rewrite Hinv by lia. exact Hai.
Qed.

Lemma Zsum_firstn_bounds (l : list Z) (k : nat) :
  Forall (fun s => 0 <= s) l ->
  0 <= Zsum (firstn k l) <= Zsum l.
Proof.
  unfold Zsum. intros H. revert k. induction H as [|x l Hx Hl IH]; intros k.
  - rewrite firstn_nil. cbn. lia.
  - destruct k as [|k]; cbn [firstn fold_right].
    + specialize (IH 0%nat). cbn [firstn fold_right] in IH. lia.
    + specialize (IH k). lia.
Qed.

Lemma Zsum_firstn_succ (l : list Z) (k : nat) :
  (k < length l)%nat ->
  Zsum (firstn (Datatypes.S k) l) = Zsum (firstn k l) + nth k l 0.
Proof.
  unfold Zsum. revert k.
  induction l as [|x l IH]; intros k Hk; cbn [length] in Hk; [lia|].
  destruct k as [|k].
  - cbn. lia.
  - change (firstn (Datatypes.S (Datatypes.S k)) (x :: l))
      with (x :: firstn (Datatypes.S k) l).
    change (firstn (Datatypes.S k) (x :: l)) with (x :: firstn k l).
    cbn [fold_right nth]. rewrite IH by lia. lia.
Qed.

Lemma nth_cumulative (l : list Z) (prev : Z) (i : nat) :
  (i <= length l)%nat ->
  nth i (prev :: cumulative prev l) 0 = prev + Zsum (firstn i l).
Proof.
  unfold Zsum. revert prev i.
  induction l as [|x l IH]; intros prev i Hi; cbn [length] in Hi.
  - destruct i; [|lia]. cbn. lia.
  - destruct i as [|i]; [cbn; lia|].
    cbn [cumulative].
    change (nth (Datatypes.S i) (prev :: ?t) 0) with (nth i t 0).
    rewrite IH by lia. cbn [firstn fold_right]. lia.
Qed.

Lemma cumulative_length (l : list Z) (prev : Z) :
  length (cumulative prev l) = length l.
Proof.
  revert prev. induction l as [|x l IH]; intros prev; cbn [cumulative length];
    [reflexivity|]. rewrite IH. reflexivity.
Qed.

Lemma upper_bound_cumulative (l : list Z) :
  Forall (fun s => 0 <= s) l ->
  forall prev gr,
    prev <= gr < prev + Zsum l ->
    let d := prev :: cumulative prev l in
    let u := upper_bound d gr in
    1 <= u <= vec_size l /\
    vec_at d (u - 1) <= gr < vec_at d u.
Proof.
  intros H. induction H as [|s l Hs Hl IH]; intros prev gr Hgr; cbv zeta.
  - cbn [Zsum fold_right] in Hgr. lia.
  - cbn [Zsum fold_right] in Hgr. fold (Zsum l) in Hgr.
    cbn [cumulative]. cbn [upper_bound].
    replace (prev <=? gr) with true by (symmetry; apply Z.leb_le; lia).
    destruct (prev + s <=? gr) eqn:E.
    + apply Z.leb_le in E.
      specialize (IH (prev + s) gr ltac:(lia)). cbv zeta in IH.
      cbn [upper_bound] in IH.
      replace (prev + s <=? gr) with true in IH
        by (symmetry; apply Z.leb_le; lia).
      set (u' := upper_bound (cumulative (prev + s) l) gr) in *.
      destruct IH as [Hu [Hlo Hhi]].
      unfold vec_size in *. cbn [length]. split; [lia|].
      unfold vec_at in *.
      replace (Z.to_nat (1 + (1 + u') - 1))
        with (Datatypes.S (Z.to_nat (1 + u' - 1))) by lia.
      replace (Z.to_nat (1 + (1 + u')))
        with (Datatypes.S (Z.to_nat (1 + u'))) by lia.
      cbn [nth]. split; assumption.
    + apply Z.leb_gt in E. unfold vec_size, vec_at. cbn [length].
      split; [lia|]. change (Z.to_nat (1 + 0 - 1)) with 0%nat.
      change (Z.to_nat (1 + 0)) with 1%nat. cbn [nth]. lia.
Qed.

Lemma HODLR_distribution_loop (P : Z) (all_lrows : list Z) :
  vec_size all_lrows = P ->
  Forall (fun s => 0 <= s) all_lrows ->
  Zsum all_lrows <= INT_MAX ->
  forall (k : nat),
    Z.of_nat k <= P ->
    exists dist,
      for_range_opt 0 (Z.of_nat k)
        (fun p dist =>
           obind (vec_get dist (p + 1))
             (fun a =>
                obind (vec_get dist p)
                  (fun b => vec_store dist (p + 1) (int_add a b))))
        (0 :: all_lrows) = Some dist /\
      vec_size dist = P + 1 /\
      forall i, 0 <= i <= P ->
        vec_at dist i
        = if i <=? Z.of_nat k then Zsum (firstn (Z.to_nat i) all_lrows)
          else vec_at all_lrows (i - 1).
Proof.
  intros Hlen Hpos Hsum.
  induction k as [|k IH]; intros Hk.
  - rewrite for_range_opt_empty by lia. eexists. split; [reflexivity|].
    split; [unfold vec_size in *; cbn [length]; lia|].
    intros i Hi. destruct (i <=? Z.of_nat 0) eqn:E.
    + apply Z.leb_le in E. replace i with 0 by lia. reflexivity.
    + apply Z.leb_gt in E. unfold vec_at.
      replace (Z.to_nat i) with (Datatypes.S (Z.to_nat (i - 1))) by lia.
      reflexivity.
  - destruct (IH ltac:(lia)) as (dist & Hf & Hl & Hinv).
    replace (Z.of_nat (Datatypes.S k)) with (Z.of_nat k + 1) by lia.
    rewrite for_range_opt_snoc by lia. rewrite Hf. cbn [obind].
    rewrite (vec_get_in dist (Z.of_nat k + 1) 0) by lia. cbn [obind].
    rewrite (vec_get_in dist (Z.of_nat k) 0) by lia. cbn [obind].
    fold (vec_at dist (Z.of_nat k + 1)) (vec_at dist (Z.of_nat k)).
    rewrite (Hinv (Z.of_nat k + 1)) by lia.
    rewrite (Hinv (Z.of_nat k)) by lia.
    replace (Z.of_nat k + 1 <=? Z.of_nat k) with false
      by (symmetry; apply Z.leb_gt; lia).
    rewrite Z.leb_refl.
    replace (Z.of_nat k + 1 - 1) with (Z.of_nat k) by lia.
    rewrite Nat2Z.id.
    assert (Hstep := Zsum_firstn_succ all_lrows k
                       ltac:(unfold vec_size in *; lia)).
    assert (Hb := Zsum_firstn_bounds all_lrows (Datatypes.S k) Hpos).
    unfold int_add. unfold vec_at at 1. rewrite Nat2Z.id.
    rewrite wrap_int_id
      by (unfold in_int, INT_MIN, INT_MAX in *; lia).
    destruct (vec_store_in dist (Z.of_nat k + 1)
                (nth k all_lrows 0 + Zsum (firstn k all_lrows)) ltac:(lia))
      as (dist' & Hst & Hl' & Hn).
    exists dist'. split; [exact Hst|]. split; [lia|].
    intros i Hi. unfold vec_at at 1. rewrite Hn by lia.
    destruct (i =? Z.of_nat k + 1) eqn:E.
    + apply Z.eqb_eq in E. subst i. rewrite Z.leb_refl.
      replace (Z.to_nat (Z.of_nat k + 1)) with (Datatypes.S k) by lia. lia.
    + apply Z.eqb_neq in E. fold (vec_at dist i). rewrite (Hinv i Hi).
      destruct (i <=? Z.of_nat k) eqn:E1;
        destruct (i <=? Z.of_nat k + 1) eqn:E2; try reflexivity;
        zbool_hyps; lia.
Qed.

(** X20.  If the ranks hold non-negative numbers of rows whose sum is an
    [int], the constructors of [HODLRMatrix] leave in [dist_] the running
    totals: [begin_row()] of a rank is the number of rows of the ranks
    before it, [end_row() - begin_row()] is its [lrows()], the last
    [end_row()] is the total, and the owner that the redistribution
    computes for a row [gr] below the total is the one rank [p] with
    [begin_row(p) <= gr < end_row(p)], ranks without rows being skipped. *)
Theorem HODLR_distribution_owner (P : Z) (all_lrows : list Z) :
  vec_size all_lrows = P ->
  Forall (fun s => 0 <= s) all_lrows ->
  Zsum all_lrows <= INT_MAX ->
  exists dist_,
    HODLR_distribution P all_lrows = Some dist_ /\
    vec_size dist_ = P + 1 /\
    (forall rank, 0 <= rank < P ->
       begin_row dist_ rank = Zsum (firstn (Z.to_nat rank) all_lrows) /\
       end_row dist_ rank = begin_row dist_ rank + vec_at all_lrows rank) /\
    end_row dist_ (P - 1) = Zsum all_lrows /\
    forall gr, 0 <= gr < Zsum all_lrows ->
      let p := row_owner dist_ gr in
      0 <= p < P /\ begin_row dist_ p <= gr < end_row dist_ p.
Proof.
  intros Hlen Hpos Hsum.
  assert (HP : 0 <= P) by (unfold vec_size in Hlen; lia).
  destruct (HODLR_distribution_loop P all_lrows Hlen Hpos Hsum (Z.to_nat P)
              ltac:(lia)) as (dist & Hf & Hl & Hinv).
  rewrite Z2Nat.id in Hf, Hinv by lia.
  assert (Hat : forall i, 0 <= i <= P ->
            vec_at dist i = Zsum (firstn (Z.to_nat i) all_lrows)).
  { intros i Hi. rewrite (Hinv i Hi).
    replace (i <=? P) with true by (symmetry; apply Z.leb_le; lia).
    reflexivity. }
  assert (Hlist : dist = 0 :: cumulative 0 all_lrows).
  { apply nth_ext with (d := 0) (d' := 0).
    - cbn [length]. rewrite cumulative_length. unfold vec_size in *. lia.
    - intros n Hn. rewrite nth_cumulative by (unfold vec_size in *; lia).
      assert (H := Hat (Z.of_nat n) ltac:(unfold vec_size in *; lia)).
      unfold vec_at in H. rewrite Nat2Z.id in H. rewrite H. lia. }
  exists dist. unfold HODLR_distribution. split; [exact Hf|].
  split; [exact Hl|]. unfold begin_row, end_row.
  split; [|split].
  - intros rank Hr. rewrite !Hat by lia. split; [reflexivity|].
    replace (Z.to_nat (rank + 1)) with (Datatypes.S (Z.to_nat rank)) by lia.
    rewrite Zsum_firstn_succ by (unfold vec_size in *; lia). reflexivity.
  - destruct (Z.eq_dec P 0) as [E|E].
    + destruct all_lrows;
        [|exfalso; unfold vec_size in Hlen; cbn [length] in Hlen; lia].
      rewrite Hlist, E. reflexivity.
    + rewrite Hat by lia. replace (P - 1 + 1) with P by lia.
      rewrite <- Hlen. unfold vec_size. rewrite Nat2Z.id, firstn_all.
      reflexivity.
  - intros gr Hgr. cbv zeta. unfold row_owner. rewrite Hlist.
    destruct (upper_bound_cumulative all_lrows Hpos 0 gr ltac:(lia))
      as [Hu Hin].
    set (u := upper_bound (0 :: cumulative 0 all_lrows) gr) in *.
    replace (-1 + u + 1) with u by lia.
    replace (-1 + u) with (u - 1) by lia.
    split; [lia|exact Hin].
Qed.

(** ** The quality of the approximate neighbours *)

Lemma obind_fold_none {St : Type} (body : Z -> St -> option St) (l : list Z) :
  fold_left (fun acc k => obind acc (body k)) l None = None.
Proof. induction l as [|a l IH]; cbn [fold_left obind]; auto. Qed.

Lemma for_range_opt_fails {St : Type} (lo hi k : Z)
  (body : Z -> St -> option St) (st : St) :
  lo <= k < hi -> (forall st', body k st' = None) ->
  for_range_opt lo hi body st = None.
Proof.
  intros Hk Hfail. unfold for_range_opt.
  assert (Hin : In k (range lo hi)) by (apply in_range; exact Hk).
  generalize (Some st). induction (range lo hi) as [|a l IH]; intros acc;
    [contradiction|].
  cbn [fold_left]. destruct Hin as [E|Hin].
  - subst a. destruct acc as [s|]; cbn [obind].
    + rewrite Hfail. apply obind_fold_none.
    + apply obind_fold_none.
  - apply IH. exact Hin.
Qed.

Lemma match_neighbors_returns (neighbors n_neighbors : DenseMatrix Z)
  (i j : Z) :
  0 <= i < cols neighbors -> 0 <= j < cols n_neighbors ->
  rows n_neighbors = rows neighbors ->
  rows neighbors <= INT_MAX ->
  forall (rounds : nat) (r1 r2 num : Z),
    0 <= r1 <= r2 -> r2 <= rows neighbors -> 0 <= num <= r1 ->
    rows neighbors - r2 <= Z.of_nat rounds ->
    exists num',
      match_neighbors rounds neighbors n_neighbors (rows neighbors) i j
        r1 r2 num = Some num' /\
      num <= num' <= num + (rows neighbors - r2).
Proof.
  intros Hi Hj Hrows Hmax.
  assert (HSM : INT_MAX <= SIZE_MAX) by (unfold INT_MAX, SIZE_MAX; lia).
  induction rounds as [|rounds IH]; intros r1 r2 num Hr Hr2 Hnum Hfuel.
  - cbn [match_neighbors].
    replace (r2 <? rows neighbors) with false
      by (symmetry; apply Z.ltb_ge; lia).
    exists num. split; [reflexivity|lia].
  - cbn [match_neighbors].
    destruct (r2 <? rows neighbors) eqn:E;
      [apply Z.ltb_lt in E|exists num; split; [reflexivity|lia]].
    rewrite (mat_get_in neighbors r1 i) by lia.
    rewrite (mat_get_in n_neighbors r2 j) by lia.
    cbn [obind].
    unfold size_add, int_add.
    rewrite !wrap_size_id by (unfold in_size; lia).
    rewrite wrap_int_id by (unfold in_int, INT_MIN, INT_MAX in *; lia).
    destruct (elt neighbors r1 i =? elt n_neighbors r2 j).
    + destruct (IH (r1 + 1) (r2 + 1) (num + 1)) as (num' & Hrun & Hb);
        try lia.
      exists num'. split; [exact Hrun|lia].
    + destruct (IH r1 (r2 + 1) num) as (num' & Hrun & Hb); try lia.
      exists num'. split; [exact Hrun|lia].
Qed.

Lemma check_quality_MPI_counts_loop (neighbors : DenseMatrix Z)
  (samples : list Z) (n_neighbors : DenseMatrix Z) :
  rows n_neighbors = rows neighbors -> cols n_neighbors = 100 ->
  0 <= rows neighbors <= INT_MAX ->
  vec_size samples = 100 ->
  Forall (fun s => 0 <= s < cols neighbors) samples ->
  forall (k : nat),
    Z.of_nat k <= 100 ->
    exists counts,
      for_range_opt 0 (Z.of_nat k)
        (fun j counts =>
           obind (vec_get samples j)
             (fun i =>
                obind (match_neighbors (Z.to_nat (rows neighbors)) neighbors
                         n_neighbors (rows neighbors) i j 0 0 0)
                  (fun num => Some (counts ++ [num]))))
        [] = Some counts /\
      vec_size counts = Z.of_nat k /\
      Forall (fun c => 0 <= c <= rows neighbors) counts.
Proof.
  intros Hrows Hcols Ha Hlen Hall.
  induction k as [|k IH]; intros Hk.
  - rewrite for_range_opt_empty by lia. exists []. repeat split. constructor.
  - destruct (IH ltac:(lia)) as (counts & Hf & Hl & Hc).
    replace (Z.of_nat (Datatypes.S k)) with (Z.of_nat k + 1) by lia.
    rewrite for_range_opt_snoc by lia. rewrite Hf. cbn [obind].
    rewrite (vec_get_in samples (Z.of_nat k) 0) by lia. cbn [obind].
    assert (Hs : 0 <= nth (Z.to_nat (Z.of_nat k)) samples 0 < cols neighbors).
    { rewrite Forall_forall in Hall. apply Hall, nth_In.
      unfold vec_size in Hlen. lia. }
    destruct (match_neighbors_returns neighbors n_neighbors
                (nth (Z.to_nat (Z.of_nat k)) samples 0) (Z.of_nat k)
                Hs ltac:(lia) Hrows ltac:(lia)
                (Z.to_nat (rows neighbors)) 0 0 0)
      as (num & Hrun & Hb); try lia.
    rewrite Hrun. cbn [obind]. exists (counts ++ [num]).
    split; [reflexivity|]. split.
    + rewrite vec_size_app. unfold vec_size at 2. cbn [length]. lia.
    + apply Forall_app. split; [exact Hc|]. constructor; [lia|constructor].
Qed.

(** X21.  [check_quality_MPI] draws its samples from
    [std::uniform_int_distribution<std::size_t>(0, n)], whose values go up
    to [n] included.  If every sample is below [n], each matching loop
    stays inside the matrices and finds between 0 and [ann_number]
    neighbours; if a sample is [n], the function reads [neighbors]
    outside its columns. *)
Theorem check_quality_MPI_sample_range (neighbors : DenseMatrix Z)
  (samples : list Z) (n_neighbors : DenseMatrix Z) :
  rows n_neighbors = rows neighbors -> cols n_neighbors = 100 ->
  1 <= rows neighbors <= INT_MAX ->
  vec_size samples = 100 ->
  Forall (fun s => 0 <= s <= cols neighbors) samples ->
  (Forall (fun s => s < cols neighbors) samples ->
   exists counts,
     check_quality_MPI_counts neighbors samples n_neighbors = Some counts /\
     vec_size counts = 100 /\
     Forall (fun c => 0 <= c <= rows neighbors) counts) /\
  (~ Forall (fun s => s < cols neighbors) samples ->
   check_quality_MPI_counts neighbors samples n_neighbors = None).
Proof.
  intros Hrows Hcols Ha Hlen Hdist. split.
  - intros Hall.
    destruct (check_quality_MPI_counts_loop neighbors samples n_neighbors
                Hrows Hcols ltac:(lia) Hlen) with (k := 100%nat)
      as (counts & Hf & Hl & Hc).
    + rewrite Forall_forall in *. intros s Hs.
      specialize (Hdist s Hs). specialize (Hall s Hs). lia.
    + lia.
    + exists counts. unfold check_quality_MPI_counts.
      split; [exact Hf|]. split; [exact Hl|exact Hc].
  - intros Hnot.
    destruct (forallb (fun s => s <? cols neighbors) samples) eqn:Hall.
    + exfalso. apply Hnot. rewrite forallb_forall in Hall.
      apply Forall_forall. intros s Hs. apply Z.ltb_lt, Hall. exact Hs.
    + apply forallb_false_witness in Hall. destruct Hall as (s & Hs & Hf).
      apply Z.ltb_ge in Hf.
      destruct (In_vec_at samples s Hs) as (j & Hj & Hsj).
      unfold check_quality_MPI_counts.
      apply (for_range_opt_fails 0 100 j); [lia|].
      intros st. rewrite (vec_get_in samples j 0) by lia. cbn [obind].
      fold (vec_at samples j). rewrite Hsj.
      destruct (Z.to_nat (rows neighbors)) as [|rounds] eqn:Er; [lia|].
      cbn [match_neighbors].
      replace (0 <? rows neighbors) with true
        by (symmetry; apply Z.ltb_lt; lia).
      unfold mat_get at 1.
      replace (s <? cols neighbors) with false
        by (symmetry; apply Z.ltb_ge; exact Hf).
      rewrite andb_false_r. reflexivity.
Qed.

(** ** Prediction with a kernel *)

Section PredictProofs.
Context {S : Scalar}.

(** The terms that [predict] adds up for the test point [c]. *)
Lemma predict_inner (K : Kernel) (test weights : DenseM) (c : Z)
  (prediction : list scalar) :
  0 <= c < vec_size prediction -> 0 < cols weights ->
  forall (k : nat), Z.of_nat k <= rows weights ->
    exists prediction',
      for_range_opt 0 (Z.of_nat k)
        (fun r prediction1 =>
           obind (vec_get prediction1 c)
             (fun p =>
                obind (mat_get weights r 0)
                  (fun w =>
                     vec_store prediction1 c
                       (sadd p
                          (smul w
                             (eval_kernel_function K (data_ptr K r)
                                (test_ptr K test c)))))))
        prediction = Some prediction' /\
      vec_size prediction' = vec_size prediction /\
      forall i, 0 <= i ->
        nth (Z.to_nat i) prediction' szero
        = if i =? c
          then sum_from (nth (Z.to_nat c) prediction szero)
                 (map (fun r => smul (elt weights r 0)
                                  (eval_kernel_function K (data_ptr K r)
                                     (test_ptr K test c)))
                    (range 0 (Z.of_nat k)))
          else nth (Z.to_nat i) prediction szero.
Proof.
  intros Hc Hw. induction k as [|k IH]; intros Hk.
  - rewrite for_range_opt_empty by lia. exists prediction.
    split; [reflexivity|]. split; [reflexivity|].
    intros i Hi. destruct (i =? c) eqn:E; [|reflexivity].
    apply Z.eqb_eq in E. subst i. reflexivity.
  - destruct (IH ltac:(lia)) as (p1 & Hf & Hl & Hn).
    replace (Z.of_nat (Datatypes.S k)) with (Z.of_nat k + 1) by lia.
    rewrite for_range_opt_snoc by lia. rewrite Hf. cbn [obind].
    rewrite (vec_get_in p1 c szero) by lia. cbn [obind].
    rewrite mat_get_in by lia. cbn [obind].
    destruct (vec_store_in p1 c
                (sadd (nth (Z.to_nat c) p1 szero)
                   (smul (elt weights (Z.of_nat k) 0)
                      (eval_kernel_function K (data_ptr K (Z.of_nat k))
                         (test_ptr K test c)))) ltac:(lia))
      as (p2 & Hst & Hl' & Hn').
    exists p2. split; [exact Hst|]. split; [lia|].
    intros i Hi. rewrite Hn' by lia.
    destruct (i =? c) eqn:E; [|rewrite Hn by lia; rewrite E; reflexivity].
    rewrite (Hn c) by lia. rewrite Z.eqb_refl.
    rewrite range_snoc by lia. rewrite map_app, sum_from_app. reflexivity.
Qed.

Lemma predict_sums (K : Kernel) (test weights : DenseM) :
  rows test = kernel_d K -> 0 <= cols test ->
  0 <= kernel_n K <= rows weights -> 0 < cols weights ->
  exists prediction,
    predict K test weights = Some prediction /\
    vec_size prediction = cols test /\
    forall c, 0 <= c < cols test ->
      nth (Z.to_nat c) prediction szero
      = sum_from szero
          (map (fun r => smul (elt weights r 0)
                           (eval_kernel_function K (data_ptr K r)
                              (test_ptr K test c)))
             (range 0 (kernel_n K))).
Proof.
  intros Hrows Hcols Hn Hw. unfold predict. rewrite Hrows, Z.eqb_refl.
  assert (H : forall m : nat, Z.of_nat m <= cols test ->
            exists prediction,
              for_range_opt 0 (Z.of_nat m)
                (fun c prediction =>
                   for_range_opt 0 (kernel_n K)
                     (fun r prediction1 =>
                        obind (vec_get prediction1 c)
                          (fun p =>
                             obind (mat_get weights r 0)
                               (fun w =>
                                  vec_store prediction1 c
                                    (sadd p
                                       (smul w
                                          (eval_kernel_function K
                                             (data_ptr K r)
                                             (test_ptr K test c)))))))
                     prediction)
                (repeat szero (Z.to_nat (cols test))) = Some prediction /\
              vec_size prediction = cols test /\
              forall c, 0 <= c ->
                nth (Z.to_nat c) prediction szero
                = if c <? Z.of_nat m
                  then sum_from szero
                         (map (fun r => smul (elt weights r 0)
                                          (eval_kernel_function K
                                             (data_ptr K r)
                                             (test_ptr K test c)))
                            (range 0 (kernel_n K)))
                  else nth (Z.to_nat c)
                         (repeat szero (Z.to_nat (cols test))) szero).
  { induction m as [|m IH]; intros Hm.
    - rewrite for_range_opt_empty by lia. eexists. split; [reflexivity|].
      split; [unfold vec_size; rewrite repeat_length; lia|].
      intros c Hc.
      replace (c <? Z.of_nat 0) with false by (symmetry; apply Z.ltb_ge; lia).
      reflexivity.
    - destruct (IH ltac:(lia)) as (p1 & Hf & Hl & Hp).
      replace (Z.of_nat (Datatypes.S m)) with (Z.of_nat m + 1) by lia.
      rewrite for_range_opt_snoc by lia. rewrite Hf. cbn [obind].
      destruct (predict_inner K test weights (Z.of_nat m) p1 ltac:(lia) Hw
                  (Z.to_nat (kernel_n K)) ltac:(lia)) as (p2 & Hin & Hl2 & Hn2).
      rewrite Z2Nat.id in Hin, Hn2 by lia.
      exists p2. split; [exact Hin|]. split; [lia|].
      intros c Hc. rewrite Hn2 by lia.
      destruct (c =? Z.of_nat m) eqn:E.
      + apply Z.eqb_eq in E. subst c.
        replace (Z.of_nat m <? Z.of_nat m + 1) with true
          by (symmetry; apply Z.ltb_lt; lia).
        rewrite (Hp (Z.of_nat m)) by lia. rewrite Z.ltb_irrefl.
        rewrite nth_repeat. reflexivity.
      + apply Z.eqb_neq in E. rewrite (Hp c Hc).
        destruct (c <? Z.of_nat m) eqn:E1;
          destruct (c <? Z.of_nat m + 1) eqn:E2; try reflexivity;
          zbool_hyps; lia. }
  destruct (H (Z.to_nat (cols test)) ltac:(lia)) as (p & Hf & Hl & Hp).
  rewrite Z2Nat.id in Hf, Hp by lia.
  exists p. split; [exact Hf|]. split; [exact Hl|].
  intros c Hc. rewrite (Hp c) by lia.
  replace (c <? cols test) with true by (symmetry; apply Z.ltb_lt; lia).
  reflexivity.
Qed.

End PredictProofs.

Section PredictTraining.

Local Open Scope Q_scope.

Lemma Qsigma_indicator (a : Q) (f : Z -> Q) (n c : Z) :
  (0 <= c < n)%Z ->
  Qsigma (fun r => (if (c =? r)%Z then a else 0) * f r) (range 0 n)
  == a * f c.
Proof.
  intros Hc.
  rewrite (range_app 0 c n) by lia.
  rewrite (range_cons c n) by lia.
  rewrite Qsigma_app.
  change (Qsigma ?g (c :: ?t)) with (g c + Qsigma g t).
  cbv beta. rewrite Z.eqb_refl.
  rewrite (Qsigma_zero _ (range 0 c)).
  2:{ intros l Hl. apply in_range in Hl.
      replace (c =? l)%Z with false by (symmetry; apply Z.eqb_neq; lia).
      ring. }
  rewrite (Qsigma_zero _ (range (c + 1) n)).
  2:{ intros l Hl. apply in_range in Hl.
      replace (c =? l)%Z with false by (symmetry; apply Z.eqb_neq; lia).
      ring. }
  ring.
Qed.

(** X22.  Prediction on the training points, over the rationals: if the
    kernel function is symmetric on the data and the [n() x 1] (or wider)
    weights solve the
    regularized system [(K + lambda * I) * weights = labels], where [K +
    lambda * I] is what [eval] returns, then [predict(data, weights)]
    returns, for every training point [c], [labels(c) - lambda *
    weights(c)]: [predict] uses the kernel function without the
    regularization that [eval] adds on the diagonal. *)
Theorem predict_training_points (K : @Kernel Q_scalar)
  (weights : DenseMatrix Q) (labels : Z -> Q) :
  let n := @kernel_n Q_scalar K in
  (0 <= n)%Z -> rows weights = n -> (0 < cols weights)%Z ->
  (forall r c, (0 <= r < n)%Z -> (0 <= c < n)%Z ->
     eval_kernel_function K (data_ptr K r) (data_ptr K c)
     == eval_kernel_function K (data_ptr K c) (data_ptr K r)) ->
  (forall c, (0 <= c < n)%Z ->
     Qsigma (fun r => @eval Q_scalar K c r * elt weights r 0) (range 0 n)
     == labels c) ->
  exists prediction,
    @predict Q_scalar K (data_ K) weights = Some prediction /\
    vec_size prediction = n /\
    forall c, (0 <= c < n)%Z ->
      nth (Z.to_nat c) prediction 0
      == labels c - lambda_ K * elt weights c 0.
Proof.
  intros n Hn Hrw Hcw Hsym Hsys.
  assert (Hnw : (0 <= @kernel_n Q_scalar K
                 <= @rows (@scalar Q_scalar) weights)%Z).
  { change (@scalar Q_scalar) with Q. rewrite Hrw. subst n. lia. }
  destruct (@predict_sums Q_scalar K (data_ K) weights eq_refl Hn Hnw Hcw)
    as (p & Hrun & Hl & Hp).
  exists p. split; [exact Hrun|]. split; [exact Hl|].
  intros c Hc. specialize (Hp c Hc). cbn [szero Q_scalar] in Hp.
  rewrite Hp, sum_from_Qsum.
  change (fold_right Qplus 0 (map ?f (range 0 (kernel_n K))))
    with (Qsigma f (range 0 n)).
  rewrite <- (Hsys c Hc).
  transitivity
    (Qsigma (fun r => eval_kernel_function K (data_ptr K c) (data_ptr K r)
                      * elt weights r 0) (range 0 n)).
  { rewrite Qplus_0_l. apply Qsigma_ext. intros r Hr. apply in_range in Hr.
    cbn [smul Q_scalar]. rewrite Qmult_comm.
    apply Qmult_comp; [|reflexivity].
    apply (Hsym r c Hr Hc). }
  transitivity
    (Qsigma (fun r => eval_kernel_function K (data_ptr K c) (data_ptr K r)
                      * elt weights r 0
                      + (if (c =? r)%Z then lambda_ K else 0)
                        * elt weights r 0) (range 0 n)
     - lambda_ K * elt weights c 0).
  { rewrite (Qsigma_plus
               (fun r => eval_kernel_function K (data_ptr K c) (data_ptr K r)
                         * elt weights r 0)
               (fun r => (if (c =? r)%Z then lambda_ K else 0)
                         * elt weights r 0)).
    rewrite (Qsigma_indicator (lambda_ K) (fun r => elt weights r 0) n c Hc).
    ring. }
  apply Qplus_comp; [|reflexivity].
  apply Qsigma_ext. intros r _. unfold eval. cbn [sadd szero Q_scalar].
  change (@scalar Q_scalar) with Q. destruct (c =? r)%Z; ring.
Qed.

End PredictTraining.

(* ===================================================================== *)
(** * Part 5: worked examples                                            *)
(* ===================================================================== *)

(** ** The reference instances meet what the theorems assume *)

Lemma Q_real_scalars : @real_scalars Q_scalar.
Proof. intros x. reflexivity. Qed.

Lemma Q_basis_dims_ok : @basis_dims_ok Q_scalar Q_DenseLib Q_BasisLib.
Proof.
  split.
  - intros B. cbn [basis_dense basis_rows basis_cols Q_BasisLib rows cols].
    split; [lia|reflexivity].
  - intros S0 rtol atol mr.
    unfold ID_row, Q_DenseLib, ID_row_ref. cbn [fst snd].
    unfold basis_rows, Q_BasisLib. cbn [E_ rows cols].
    cbv [scalar Q_scalar]. lia.
Qed.

Lemma int_for_from_preserves {St : Type} (P : St -> Prop) (bound : Z)
  (body : Z -> St -> option St) :
  (forall k s s', P s -> body k s = Some s' -> P s') ->
  forall (fuel : nat) (j : Z) (st st' : St),
    P st -> int_for_from fuel j bound body st = Some st' -> P st'.
Proof.
  intros Hbody. induction fuel as [|fuel IH]; intros j st st' HP Hrun.
  - inversion Hrun; subst. exact HP.
  - cbn [int_for_from] in Hrun. destruct (wrap_size j <? bound).
    + destruct (body j st) as [s1|] eqn:Hb; [|discriminate].
      apply (IH _ _ _ (Hbody _ _ _ HP Hb) Hrun).
    + inversion Hrun; subst. exact HP.
Qed.

Lemma kernel_elem_keeps_dims {S : Scalar} (K : Kernel) :
  oracle_keeps_dims (kernel_elem K).
Proof.
  intros I J B. unfold kernel_elem.
  destruct (operator_call K I J B) as [B'|] eqn:Hcall; [|split; reflexivity].
  unfold operator_call in Hcall.
  destruct ((rows B =? vec_size I) && (cols B =? vec_size J)); [|discriminate].
  unfold int_for in Hcall.
  apply (int_for_from_preserves
           (fun M : DenseM => rows M = rows B /\ cols M = cols B))
    in Hcall; [exact Hcall| |split; reflexivity].
  intros j s s' Hs Hin. unfold int_for in Hin.
  apply (int_for_from_preserves
           (fun M : DenseM => rows M = rows B /\ cols M = cols B))
    in Hin; [exact Hin| |exact Hs].
  intros i t t' Ht Hset.
  destruct ((vec_at I i <? kernel_n K) && (vec_at J j <? kernel_n K));
    [|discriminate].
  inversion Hset; subst. exact Ht.
Qed.

Lemma kernel_elem_oracle {S : Scalar} (K : Kernel) :
  oracle_for (eval K) (kernel_n K) (kernel_elem K).
Proof.
  intros I J B Hr Hc HmI HmJ HI HJ i j Hi Hj. unfold kernel_elem.
  destruct (operator_call_fills K I J B Hr Hc HmI HmJ) as (B' & Hcall & _ & _ & He).
  - intros x Hx. apply HI in Hx. lia.
  - intros x Hx. apply HJ in Hx. lia.
  - rewrite Hcall. apply He; assumption.
Qed.

(** ** Worked examples *)

(** *** Extend-add of a child into its parent.

    The parent eliminates the indices 4 and 5 and has the update indices 7
    and 9; the child has the update indices 4, 5 and 9, which map to
    [I = [0; 1; 3]] with [upd2sep = 2]. *)

Example upd_to_parent_example :
  upd_to_parent example_child example_parent = ([0; 1; 3], 2).
Proof. reflexivity. Qed.

Example extend_add_example :
  let pa := fst (extend_add_to_dense example_child example_parent_blocks
                   example_parent) in
  to_rows (paF11 pa) = [[1; 2]; [4; 5]]%Q /\
  to_rows (paF12 pa) = [[0; 3]; [0; 6]]%Q /\
  to_rows (paF21 pa) = [[0; 0]; [7; 8]]%Q /\
  to_rows (paF22 pa) = [[0; 0]; [0; 9]]%Q.
Proof. vm_compute. repeat split; reflexivity. Qed.

(** The second child maps to [I = [1; 2]] with [upd2sep = 1]; after both
    children every block of the parent holds the sum of what the two
    children sent to it. *)
Example extend_add_children_example :
  let res := extend_add_children example_parent (Some example_child)
               (Some example_child2) example_parent_blocks in
  let pa := fst (fst res) in
  upd_to_parent example_child2 example_parent = ([1; 2], 1) /\
  to_rows (paF11 pa) = [[1; 2]; [4; 15]]%Q /\
  to_rows (paF12 pa) = [[0; 3]; [20; 6]]%Q /\
  to_rows (paF21 pa) = [[0; 30]; [7; 8]]%Q /\
  to_rows (paF22 pa) = [[40; 0]; [0; 9]]%Q.
Proof. vm_compute. repeat split; reflexivity. Qed.

Lemma example_child_front : child_front_of example_child example_parent.
Proof.
  unfold child_front_of. cbn [upd_ sep_begin_ sep_end_ example_child example_parent].
  split; [repeat constructor; lia|].
  split.
  - intros up [H|[H|[H|[]]]]; subst up; split; try lia; intros _; simpl; auto.
  - unfold dim_sep, vec_size, SIZE_MAX. simpl. lia.
Qed.

Lemma extend_add_to_dense_quadrants_witness :
  rows (paF11 example_parent_blocks) = dim_sep example_parent /\
  splits_at_separator (fst (upd_to_parent example_child example_parent))
    (snd (upd_to_parent example_child example_parent))
    (dim_sep example_parent) (dim_upd example_child) /\
  F22_ (snd (extend_add_to_dense example_child example_parent_blocks
               example_parent))
    = mclear (F22_ example_child).
Proof.
  assert (H1 : rows (paF11 example_parent_blocks) = dim_sep example_parent)
    by reflexivity.
  assert (H2 : splits_at_separator
                 (fst (upd_to_parent example_child example_parent))
                 (snd (upd_to_parent example_child example_parent))
                 (dim_sep example_parent) (dim_upd example_child))
    by exact (upd_to_parent_spec_splits example_child example_parent
                example_child_front).
  split; [exact H1|]. split; [exact H2|].
  exact (proj2 (proj2 (proj2 (proj2 (proj2
           (extend_add_to_dense_quadrants example_child example_parent
              example_parent_blocks H1 H2)))))).
Defined.

(** *** Phase 2 on a front with a 2 x 2 separator and one update index.

    [F11 = [[2, 1], [4, 3]]], [F12 = [[1], [2]]], [F21 = [[1, 1]]],
    [F22 = [[5]]]; the Schur complement [F22 - F21 * F11^-1 * F12] is
    [9/2]. *)

Example factor_phase2_example :
  let f := fst (factor_phase2 3 true example_front) in
  piv f = [2; 2] /\
  to_rows (F11_ f) = [[4; 3]; [1 # 2; - (1 # 2)]]%Q /\
  to_rows (force (F22_ f)) = [[9 # 2]]%Q.
Proof. vm_compute. repeat split; reflexivity. Qed.


Example tiny_pivot_example :
  to_rows (fst (LU (F11_ singular_front))) = [[2; 4]; [1 # 2; 0]]%Q /\
  to_rows (F11_ (fst (factor_phase2 3 true singular_front)))
    = [[2; 4]; [1 # 2; 3 # (2 ^ 53)]]%Q.
Proof. vm_compute. split; reflexivity. Qed.

Lemma factor_phase2_tiny_pivots_witness :
  0 <= 3 /\ dim_sep singular_front <> 0 /\
  0 <= rows (fst (LU (F11_ singular_front))) /\
  rows (F11_ (fst (factor_phase2 3 true singular_front)))
    = rows (fst (LU (F11_ singular_front))).
Proof.
  assert (H1 : 0 <= 3) by lia.
  assert (H2 : dim_sep singular_front <> 0) by (vm_compute; discriminate).
  assert (H3 : 0 <= rows (fst (LU (F11_ singular_front))))
    by (vm_compute; discriminate).
  split; [exact H1|]. split; [exact H2|]. split; [exact H3|].
  exact (proj1 (proj2 (proj2
           (factor_phase2_tiny_pivots 3 singular_front H1 H2 H3)))).
Defined.

(** The reference kernels meet the contracts of
    [factor_phase2_schur_complement] on [example_front], and the entry
    [9/2] of the new F22 is [5 - F21 * X]. *)
Ltac small_index :=
  repeat match goal with
  | H : 0 <= ?i < ?b |- _ =>
      is_var i;
      let v := eval vm_compute in b in
      change b with v in H;
      first [ assert (i = 0) by lia; subst i
            | let Hc := fresh in
              assert (Hc : i = 0 \/ i = 1) by lia; clear H;
              destruct Hc; subst i ]
  end.


(** *** Complex scalars.

    Conjugation is not the identity there, and the product that
    [dense_recursive] forms with [Trans::C] is the one with the conjugate
    transpose, not the one with the transpose. *)

Example complex_scalars_not_real : ~ @real_scalars C_scalar.
Proof.
  intros H. specialize (H Ci).
  apply (f_equal (fun z : Cplx => Qnum (this (snd z)))) in H.
  vm_compute in H. discriminate.
Qed.

Example complex_product_conjugates :
  let B := const_matrix (@sone C_scalar) in
  let V := const_matrix Ci in
  let P := @gemm C_scalar TransN TransC sone B V szero
             (const_matrix (@szero C_scalar)) in
  elt P 0 0 = @sconj C_scalar Ci /\
  elt P 0 0 <> elt (@mmul C_scalar B (@mtranspose C_scalar V)) 0 0.
Proof.
  cbv zeta. split.
  - unfold Ci. cbn. unfold Cmul, Cconj. cbn [fst snd]. f_equal; ring.
  - intros H.
    apply (f_equal (fun z : Cplx => Qnum (this (snd z)))) in H.
    vm_compute in H. discriminate.
Qed.

(** *** A kernel matrix on four points.

    The points 0, 1, 2, 3 on a line, the kernel [1 / (1 + (x - y)^2)] and
    [lambda = 1/2]; leaves of size 2; every point has the three other
    points as neighbours, scored by squared distance. *)

Example tree4_constructed : HSSMatrix_ctor 3 4 4 opts4 true = Some tree4.
Proof. reflexivity. Qed.

Example kernel4_entries :
  to_rows (force (mkDenseMatrix 4 4 (eval K4))) =
    [[3 # 2; 1 # 2; 1 # 5; 1 # 10];
     [1 # 2; 3 # 2; 1 # 2; 1 # 5];
     [1 # 5; 1 # 2; 3 # 2; 1 # 2];
     [1 # 10; 1 # 5; 1 # 2; 3 # 2]]%Q.
Proof. vm_compute. reflexivity. Qed.

(** With the reference decomposition, which keeps both rows of each leaf,
    the compressed matrix is exact: [dense()] gives back the kernel matrix
    with [lambda] on the diagonal, in both copies of the code. *)
Example dense_of_compressed_kernel4 :
  to_rows (force (dense (compress_ann ann4 scores4 (kernel_elem K4) opts4 tree4)))
    = to_rows (force (mkDenseMatrix 4 4 (eval K4))) /\
  to_rows (force (dense (fst (compress_recursive_ann runYang ann4 scores4
                                (kernel_elem K4) opts4 tree4 WorkANN_default))))
    = to_rows (force (mkDenseMatrix 4 4 (eval K4))).
Proof. vm_compute. split; reflexivity. Qed.

Lemma HSSMatrix_ctor_terminates_witness :
  0 <= 4 <= SIZE_MAX /\ 1 <= leaf_size opts4 <= INT_MAX /\
  exists (h : HSSMatrix) (fuel : nat),
    (forall fuel', (fuel <= fuel')%nat ->
       HSSMatrix_ctor fuel' 4 4 opts4 true = Some h) /\
    leaves_bounded (leaf_size opts4) h.
Proof.
  assert (H1 : 0 <= 4 <= SIZE_MAX) by (unfold SIZE_MAX; lia).
  assert (H2 : 1 <= leaf_size opts4 <= INT_MAX)
    by (unfold INT_MAX; cbn [leaf_size opts4]; lia).
  split; [exact H1|]. split; [exact H2|].
  exact (HSSMatrix_ctor_terminates 4 4 opts4 H1 H1 H2).
Defined.

Lemma kernel_oracle_regularized_witness :
  0 <= kernel_n K4 <= INT_MAX /\
  exists B',
    operator_call K4 (range 0 (kernel_n K4)) (range 0 (kernel_n K4))
      (DenseM_new 4 4) = Some B' /\
    forall i j, 0 <= i < kernel_n K4 -> 0 <= j < kernel_n K4 ->
      elt B' i j =
        sadd (elt (kernel_matrix K4) i j)
             (elt (scaled_identity (kernel_n K4) (lambda_ K4)) i j).
Proof.
  assert (H1 : 0 <= kernel_n K4 <= INT_MAX)
    by (unfold INT_MAX; cbn [kernel_n K4 data4 data_ cols]; lia).
  split; [exact H1|].
  exact (proj2 (proj2 (kernel_oracle_regularized K4)) (DenseM_new 4 4) H1
           eq_refl eq_refl).
Defined.


(** *** The accuracy check on the first leaf.

    In the copy of [runYang_Formula.sh], the first leaf (2 x 2, one level
    below the root) gets a sample matrix of [d = 2] columns, the ids 2 and
    3, and the rank [r = 2]; with the oversampling [p = 10],
    [r + p < d] fails, and the leaf is marked COMPRESSED all the same,
    because [d >= cols]. *)

Lemma compression_acceptance_counterexample :
  let leaf_before := node_data (first_child tree4) in
  let leaf_after := node_data (first_child (fst run4)) in
  let r := _U_rank leaf_after in
  let d := cols (w_S (w_child (snd run4) 0)) in
  _U_state leaf_before = UNTOUCHED /\
  _U_state leaf_after = COMPRESSED /\ _V_state leaf_after = COMPRESSED /\
  ~ (r + opts_p opts4 < d /\ r <= max_rank opts4).
Proof.
  cbv zeta.
  assert (Hr : _U_rank (node_data (first_child (fst run4))) = 2)
    by (vm_compute; reflexivity).
  assert (Hd : cols (w_S (w_child (snd run4) 0)) = 2)
    by (vm_compute; reflexivity).
  split; [reflexivity|].
  split; [vm_compute; reflexivity|].
  split; [vm_compute; reflexivity|].
  rewrite Hr, Hd. cbn [opts_p opts4]. lia.
Qed.

Lemma compression_acceptance_witness :
  w_lvl work4 <> 0 /\
  _U_state (fst (compress_node runYang ann4 scores4 (kernel_elem K4) opts4
                   true leaf4 work4)) = COMPRESSED.
Proof.
  assert (H1 : w_lvl work4 <> 0) by (cbn [w_lvl work4]; lia).
  split; [exact H1|].
  refine (proj1 (proj1 (proj1 (compression_acceptance ann4 scores4
                  (kernel_elem K4) opts4 true leaf4 work4 H1) _ _ _) _)).
  - vm_compute. split; discriminate.
  - vm_compute. split; discriminate.
  - vm_compute. split; discriminate.
  - left. vm_compute. discriminate.
Defined.

(** *** The tree of a 4 x 4 matrix with leaves of size 2. *)

Lemma HSSMatrix_ctor_levels_witness :
  levels tree4 <= 2 /\ 4 <= leaf_size opts4 * 2 ^ (levels tree4 - 1).
Proof.
  assert (H := HSSMatrix_ctor_levels opts4 3 4 4 1 tree4).
  assert (HL : 1 <= leaf_size opts4 <= INT_MAX) by (vm_compute; split; discriminate).
  assert (H4 : 0 <= 4 <= SIZE_MAX) by (vm_compute; split; discriminate).
  specialize (H HL H4 H4 eq_refl).
  split; [apply (proj1 H); vm_compute; discriminate|exact (proj1 (proj2 (proj2 H)))].
Defined.

Lemma HSSMatrix_ctor_leaves_witness :
  total _rows (leaf_nodes tree4) = 4 /\ total _cols (leaf_nodes tree4) = 4.
Proof.
  assert (H := HSSMatrix_ctor_leaves opts4 3 4 4 tree4).
  assert (HL : 1 <= leaf_size opts4 <= INT_MAX) by (vm_compute; split; discriminate).
  assert (H4 : 0 <= 4 <= SIZE_MAX) by (vm_compute; split; discriminate).
  specialize (H HL H4 H4 eq_refl).
  split; [exact (proj1 H)|exact (proj1 (proj2 H))].
Defined.

(** The tree of [run4] starts fresh; its root is compressed after the
    pass, and so is every node. *)
Lemma compressed_root_certifies_witness :
  all_nodes (fun d => is_compressed d = true) (fst run4).
Proof.
  refine (proj1 (proj2 (compressed_root_certifies runYang ann4 scores4
                          (kernel_elem K4) opts4 tree4 WorkANN_default 0
                          (fun _ _ => (ann4, scores4)) 4 3 0 _)) _).
  - cbn. repeat split; discriminate.
  - vm_compute. reflexivity.
Defined.

(** The distances between the points 0, 2 and 3 of [data4]. *)
Lemma find_distance_matrix_MPI_symmetric_witness :
  let D := @find_distance_matrix_MPI Q_scalar squared_distance
             (fun _ _ => (-99) # 1)
             data4 [0; 2; 3] in
  elt D 1 1 = 0%Q /\ elt D 1 2 = elt D 2 1 /\
  (1 < 2 -> elt D 1 2
            = @pair_distance Q_scalar squared_distance data4 [0; 2; 3] 1 2).
Proof.
  apply (@find_distance_matrix_MPI_symmetric Q_scalar squared_distance
           (fun _ _ => (-99) # 1) data4 [0; 2; 3]);
    vm_compute; intuition discriminate.
Defined.

(** Merging the lists of two trees: point 0 keeps neighbour 1 and takes
    neighbour 2 from the new tree; point 1 keeps both. *)
Lemma choose_best_neighbors_MPI_in_bounds_witness :
  exists N' S',
    choose_best_neighbors_MPI old_nb old_sc new_nb new_sc = Some (N', S') /\
    (elt N' 0 0, elt N' 1 0, elt N' 0 1, elt N' 1 1) = (1, 2, 0, 2) /\
    from_inputs old_nb old_sc new_nb new_sc 0 1 (elt N' 1 0, elt S' 1 0).
Proof.
  destruct (choose_best_neighbors_MPI_in_bounds old_nb old_sc new_nb new_sc)
    as [(N' & S' & Hrun & _ & _ & _ & _ & Hfrom) _].
  - repeat split; reflexivity.
  - vm_compute. split; discriminate.
  - vm_compute. discriminate.
  - exists N', S'. split; [exact Hrun|]. split.
    + vm_compute in Hrun. injection Hrun as HN HS. subst N'. reflexivity.
    + apply Hfrom; vm_compute; split; discriminate || reflexivity.
Defined.

Lemma choose_best_neighbors_MPI_sorted_witness :
  exists N' S',
    choose_best_neighbors_MPI old_nb old_sc new_nb new_sc = Some (N', S') /\
    column_sorted S' 0 /\ (elt S' 1 0 <= elt old_sc 1 0)%Q.
Proof.
  destruct (choose_best_neighbors_MPI_sorted old_nb old_sc new_nb new_sc)
    as (N' & S' & Hrun & Hso).
  - repeat split; reflexivity.
  - vm_compute. split; discriminate.
  - vm_compute. discriminate.
  - intros c Hc. split; intros i j Hij Hj;
      change (rows old_sc) with 2 in Hj; change (rows new_sc) with 2 in Hj;
      change (cols old_nb) with 2 in Hc;
      assert (Hcc : c = 0 \/ c = 1) by lia;
      assert (Hii : i = 0 \/ i = 1) by lia;
      assert (Hjj : j = 0 \/ j = 1) by lia;
      destruct Hcc, Hii, Hjj; subst; try lia; vm_compute; discriminate.
  - exists N', S'. split; [exact Hrun|].
    destruct (Hso 0 ltac:(vm_compute; split; discriminate || reflexivity))
      as [Hs Hle].
    split; [exact Hs|]. apply Hle. vm_compute. split; discriminate || reflexivity.
Defined.


(** A node of one point with [min_leaf_size = 1]: still running after
    seven nested calls. *)
Lemma construct_projection_tree_MPI_small_leaf_size_witness :
  @construct_projection_tree_MPI Q_scalar unit reverse_order 7 data4 1
    (vec_size (@nil Z)) (vec_size [2])
    (mkProjectionTree ([] ++ [2] ++ []) [] [0] tt)
  = Unfinished.
Proof.
  apply (@construct_projection_tree_MPI_small_leaf_size Q_scalar unit
           reverse_order data4 1).
  - lia.
  - intros g node. apply Permutation_sym, Permutation_rev.
  - vm_compute. discriminate.
  - vm_compute. discriminate.
  - vm_compute. discriminate.
  - discriminate.
Defined.



Lemma example_child2_front : child_front_of example_child2 example_parent.
Proof.
  unfold child_front_of.
  cbn [upd_ sep_begin_ sep_end_ example_child2 example_parent].
  split; [repeat constructor; lia|].
  split.
  - intros up [H|[H|[]]]; subst up; split; try lia; intros _; simpl; auto.
  - unfold dim_sep, vec_size, SIZE_MAX. simpl. lia.
Qed.

(** Entry (0, 0) of the parent's F22 after both children: nothing from the
    first child, 40 from the second one. *)
Lemma extend_add_children_sum_witness :
  let res := extend_add_children example_parent (Some example_child)
               (Some example_child2) example_parent_blocks in
  elt (block Q22 (fst (fst res))) 0 0
  = sum_from (elt (block Q22 example_parent_blocks) 0 0)
      (contributions (F22_ example_child)
         (fst (upd_to_parent example_child example_parent))
         (dim_sep example_parent) (dim_upd example_child) Q22 0 0
       ++ contributions (F22_ example_child2)
            (fst (upd_to_parent example_child2 example_parent))
            (dim_sep example_parent) (dim_upd example_child2) Q22 0 0).
Proof.
  exact (extend_add_children_sum example_parent example_child example_child2
           example_parent_blocks eq_refl
           (upd_to_parent_spec_splits example_child example_parent
              example_child_front)
           (upd_to_parent_spec_splits example_child2 example_parent
              example_child2_front)
           Q22 0 0).
Defined.


(** Asking [K4] for the entry (0, 4) of a kernel matrix on four points
    fails. *)
Lemma operator_call_asserts_witness :
  operator_call K4 [0] [4] (@DenseM_new Q_scalar Q_DenseLib 1 1) = None.
Proof.
  apply (operator_call_asserts K4 [0] [4] (@DenseM_new Q_scalar Q_DenseLib 1 1)).
  - vm_compute. discriminate.
  - vm_compute. discriminate.
  - right. right. split; [discriminate|]. split; [discriminate|].
    exists 4. split; [right; left; reflexivity|vm_compute; discriminate].
Defined.

(** Three rows, sent by the Fortran code to the positions 2, 3 and 1. *)
Lemma HODLR_permutation_inverse_witness :
  exists perm_ iperm_,
    HODLR_permutation 3 [2; 3; 1] = Some (perm_, iperm_) /\
    Permutation perm_ (range 0 3) /\
    vec_size iperm_ = 3 /\
    forall i, 0 <= i < 3 ->
      vec_at iperm_ (vec_at perm_ i) = i /\
      vec_at perm_ (vec_at iperm_ i) = i.
Proof.
  apply (HODLR_permutation_inverse 3 [2; 3; 1]).
  - vm_compute. split; discriminate.
  - change (range 1 (3 + 1)) with [1; 2; 3].
    apply Permutation_sym, (Permutation_cons_app [2; 3] [] 1).
    apply Permutation_refl.
Defined.

(** Three ranks with 2, 0 and 3 rows: row 2 belongs to the last rank. *)
Lemma HODLR_distribution_owner_witness :
  exists dist_,
    HODLR_distribution 3 [2; 0; 3] = Some dist_ /\
    row_owner dist_ 2 = 2 /\
    begin_row dist_ (row_owner dist_ 2) <= 2 < end_row dist_ (row_owner dist_ 2).
Proof.
  destruct (HODLR_distribution_owner 3 [2; 0; 3])
    as (dist_ & Hrun & _ & _ & _ & Howner).
  - reflexivity.
  - repeat constructor; lia.
  - vm_compute. discriminate.
  - exists dist_. split; [exact Hrun|]. split.
    + vm_compute in Hrun. injection Hrun as Hd. subst dist_. reflexivity.
    + apply (Howner 2). vm_compute. split; discriminate || reflexivity.
Defined.

(** [old_nb] holds the neighbours of two points; when the sample 2 is
    drawn, the quality check reads outside it. *)
Lemma check_quality_MPI_sample_range_witness :
  check_quality_MPI_counts old_nb (repeat 2 100) example_true_nb = None.
Proof.
  apply (check_quality_MPI_sample_range old_nb (repeat 2 100) example_true_nb).
  - reflexivity.
  - reflexivity.
  - vm_compute. split; discriminate.
  - reflexivity.
  - apply Forall_forall. intros s Hs. apply repeat_spec in Hs. subst s.
    vm_compute. split; discriminate.
  - intros H. apply Forall_inv in H. vm_compute in H. discriminate H.
Defined.

Lemma predict_training_points_witness :
  exists prediction,
    @predict Q_scalar K4 (data_ K4) weights4 = Some prediction /\
    vec_size prediction = 4 /\
    forall c, 0 <= c < 4 ->
      (nth (Z.to_nat c) prediction 0
       == labels4 c - lambda_ K4 * elt weights4 c 0)%Q.
Proof.
  apply (predict_training_points K4 weights4 labels4).
  - vm_compute. discriminate.
  - reflexivity.
  - reflexivity.
  - intros r c Hr Hc. change (kernel_n K4) with 4 in Hr, Hc.
    assert (Er : r = 0 \/ r = 1 \/ r = 2 \/ r = 3) by lia.
    assert (Ec : c = 0 \/ c = 1 \/ c = 2 \/ c = 3) by lia.
    destruct Er as [?|[?|[?|?]]], Ec as [?|[?|[?|?]]]; subst;
      vm_compute; reflexivity.
  - intros c Hc. change (kernel_n K4) with 4 in *.
    unfold labels4. rewrite Qred_correct. reflexivity.
Defined.
